(** * Tine: the YIN pitch detector, its ring buffer and its Android controller

    A shallow embedding of
    - [src/native/cpp/YinPitchDetector.cpp]      (module [Cpp]),
    - [src/src/native/dsp/YinPitchDetector.cpp]  (module [Dsp]),
    - [src/native/cpp/FloatRingBuffer.hpp]       (module [FloatRingBuffer]),
    - [src/android/app/src/main/cpp/PitchDetector.cpp] (module [PitchDetector]),
    and the properties the specification states about them.

    Conventions.
    - A C++ [double] is a value of the carrier [dbl] of the class [Double];
      the class lists exactly the operations the sources apply to doubles.
      [Binary64.binary64] instantiates it with Rocq's primitive IEEE 754
      binary64 floats, [Exact.exact] with the rationals extended by +oo.
    - [std::log2] is libm's and not part of the repository: it is a field
      of the class, and both instances take it as an argument.
    - A [std::vector] is a list; [v[i]] is the partial lookup [v !! i], so a
      function that indexes returns an [option] and [None] stands for an
      access outside the vector.
    - A null pointer is [None], a valid pointer is [Some] of the array it
      points to. *)

From Stdlib Require Import ZArith QArith Qround Qabs Lia Lqa.
From Stdlib Require Floats.
From stdpp Require Import base list option strings pretty.

Local Open Scope Z_scope.
Local Open Scope nat_scope.

(** ** The arithmetic of [double] *)

Declare Scope double_scope.
Delimit Scope double_scope with D.

Class Double := {
  (** [float], the type of one audio sample *)
  sample : Type;
  (** [double] *)
  dbl : Type;
  (** [static_cast<double>(float)] *)
  to_double : sample → dbl;
  (** [0.0f] *)
  fzero : sample;
  (** [static_cast<double>] of an integer ([std::size_t], [int32_t]) *)
  of_int : Z → dbl;
  (** the double a decimal literal of the source denotes *)
  dconst : Q → dbl;
  (** [std::numeric_limits<double>::infinity()] *)
  infinity : dbl;
  dadd : dbl → dbl → dbl;
  dsub : dbl → dbl → dbl;
  dmul : dbl → dbl → dbl;
  ddiv : dbl → dbl → dbl;
  (** [<], [<=] and [==] on doubles *)
  dltb : dbl → dbl → bool;
  dleb : dbl → dbl → bool;
  deqb : dbl → dbl → bool;
  (** [std::isfinite], [std::fabs], [std::round], [std::lround], [std::log2] *)
  isfinite : dbl → bool;
  fabs : dbl → dbl;
  round : dbl → dbl;
  lround : dbl → Z;
  log2 : dbl → dbl;
}.

Definition of_size {D : Double} (n : nat) : dbl := of_int (Z.of_nat n).

Infix "+" := dadd : double_scope.
Infix "-" := dsub : double_scope.
Infix "*" := dmul : double_scope.
Infix "/" := ddiv : double_scope.
Infix "<?" := dltb : double_scope.
Infix "<=?" := dleb : double_scope.
Infix "=?" := deqb : double_scope.

(** The laws of the comparisons that the proofs about the lag search use.
    They hold of IEEE 754 doubles (NaN compares false with everything) and
    of the exact instance. *)
Class DoubleOrder (D : Double) : Prop := {
  dltb_irrefl : ∀ x : dbl, (x <? x)%D = false;
  dltb_trans : ∀ x y z : dbl, (x <? y)%D = true → (y <? z)%D = true → (x <? z)%D = true;
  dleb_dltb_trans : ∀ x y z : dbl, (x <=? y)%D = true → (y <? z)%D = true → (x <? z)%D = true;
  dltb_dleb_trans : ∀ x y z : dbl, (x <? y)%D = true → (y <=? z)%D = true → (x <? z)%D = true;
  isfinite_infinity : isfinite infinity = false;
}.

(** *** IEEE 754 binary64 *)

Module Binary64.
Import SpecFloat.
Abbreviation float := PrimFloat.float.

(** An integer as the nearest double ([of_uint63] rounds to nearest even). *)
Definition of_Z (z : Z) : float :=
  match z with
  | Z0 => PrimFloat.zero
  | Zpos _ => PrimFloat.of_uint63 (Uint63.of_Z z)
  | Zneg p => PrimFloat.opp (PrimFloat.of_uint63 (Uint63.of_Z (Zpos p)))
  end.

(** A decimal literal [n/d]: the quotient of two integers that are doubles
    themselves (below 2^53, as those of every literal in the sources are) is
    rounded once, to the double nearest to [n/d]. *)
Definition of_Q (q : Q) : float :=
  PrimFloat.div (of_Z (Qnum q)) (of_Z (Zpos (Qden q))).

(** The integer nearest to a finite double, halfway cases away from zero. *)
Definition SF_nearest (f : spec_float) : option Z :=
  match f with
  | S754_zero _ => Some 0%Z
  | S754_finite s m e =>
      let mag :=
        match e with
        | Zneg k => Z.shiftr (Zpos m + Z.pow 2 (Zpos k - 1)) (Zpos k)
        | _ => Z.shiftl (Zpos m) e
        end in
      Some (if s then Z.opp mag else mag)
  | _ => None
  end.

(** [std::lround] into a 64-bit [long]. The C standard leaves the result
    unspecified when the argument is NaN, infinite or out of range; the
    model returns [LONG_MIN] there, as x86-64 and AArch64 Linux do. *)
Definition LONG_MIN : Z := (- 2 ^ 63)%Z.

Definition lround64 (x : float) : Z :=
  match SF_nearest (FloatOps.Prim2SF x) with
  | Some z => if decide (LONG_MIN ≤ z < 2 ^ 63)%Z then z else LONG_MIN
  | None => LONG_MIN
  end.

(** [std::round]: a double of magnitude at least 2^52 is an integer already;
    below, the nearest integer is a double again and keeps the sign. *)
Definition round64 (x : float) : float :=
  if PrimFloat.ltb (PrimFloat.abs x) (of_Z (2 ^ 52)) then
    match SF_nearest (FloatOps.Prim2SF x) with
    | Some z =>
        let r := of_Z (Z.abs z) in
        if PrimFloat.get_sign x then PrimFloat.opp r else r
    | None => x
    end
  else x.

#[export] Instance binary64 (libm_log2 : float → float) : Double := {|
  sample := float;
  dbl := float;
  to_double := id;
  fzero := PrimFloat.zero;
  of_int := of_Z;
  dconst := of_Q;
  infinity := PrimFloat.infinity;
  dadd := PrimFloat.add;
  dsub := PrimFloat.sub;
  dmul := PrimFloat.mul;
  ddiv := PrimFloat.div;
  dltb := PrimFloat.ltb;
  dleb := PrimFloat.leb;
  deqb := PrimFloat.eqb;
  isfinite := PrimFloat.is_finite;
  fabs := PrimFloat.abs;
  round := round64;
  lround := lround64;
  log2 := libm_log2;
|}.

End Binary64.

(** *** Exact arithmetic: the rationals and +oo *)

Module Exact.

Inductive ext : Type :=
  | Fin (q : Q)
  | PInf.

Definition lift2 (f : Q → Q → Q) (x y : ext) : ext :=
  match x, y with
  | Fin a, Fin b => Fin (f a b)
  | _, _ => PInf
  end.

Definition Qltb (a b : Q) : bool := negb (Qle_bool b a).

Definition ltb (x y : ext) : bool :=
  match x, y with
  | Fin a, Fin b => Qltb a b
  | Fin _, PInf => true
  | PInf, _ => false
  end.

Definition leb (x y : ext) : bool :=
  match x, y with
  | Fin a, Fin b => Qle_bool a b
  | _, PInf => true
  | PInf, Fin _ => false
  end.

Definition eqb (x y : ext) : bool :=
  match x, y with
  | Fin a, Fin b => Qeq_bool a b
  | PInf, PInf => true
  | _, _ => false
  end.

(** The nearest integer, halfway cases away from zero. *)
Definition Qnearest (q : Q) : Z :=
  if Qle_bool 0 q then Qfloor (q + (1 # 2)) else Z.opp (Qfloor (Qopp q + (1 # 2))).

#[export] Instance exact (real_log2 : ext → ext) : Double := {|
  sample := Q;
  dbl := ext;
  to_double := Fin;
  fzero := 0%Q;
  of_int := λ z, Fin (inject_Z z);
  dconst := Fin;
  infinity := PInf;
  dadd := lift2 Qplus;
  dsub := lift2 Qminus;
  dmul := lift2 Qmult;
  ddiv := lift2 Qdiv;
  dltb := ltb;
  dleb := leb;
  deqb := eqb;
  isfinite := λ x, if x is Fin _ then true else false;
  fabs := λ x, if x is Fin q then Fin (Qabs q) else PInf;
  round := λ x, if x is Fin q then Fin (inject_Z (Qnearest q)) else PInf;
  lround := λ x, if x is Fin q then Qnearest q else 0%Z;
  log2 := real_log2;
|}.

End Exact.

(** ** Vectors

    [v[i] = x] on a vector: outside the vector the access is an error. *)
Definition store {A : Type} (v : list A) (i : nat) (x : A) : option (list A) :=
  if decide (i < length v) then Some (<[i := x]> v) else None.

(** The same with an index that is an integer of the source ([int],
    or a [std::size_t] kept as its value in [Z]). *)
Definition lookupZ {A : Type} (v : list A) (i : Z) : option A :=
  if decide (0 ≤ i)%Z then v !! Z.to_nat i else None.

Definition storeZ {A : Type} (v : list A) (i : Z) (x : A) : option (list A) :=
  if decide (0 ≤ i)%Z then store v (Z.to_nat i) x else None.

(** ** The detector: what the two copies share

    [computeDifference], [computeCumulativeMeanNormalized] and
    [absoluteThreshold] read the same, statement for statement, in
    [src/native/cpp/YinPitchDetector.cpp] and in
    [src/src/native/dsp/YinPitchDetector.cpp]; so does the body of
    [processBuffer], up to the helpers it calls. The helpers in which the
    copies differ are the variables of the section [Skeleton].

    A [std::size_t] is a [nat]: every index and count the detector computes
    is bounded by the length of one of its vectors, so none wraps. *)

Module Yin.
Section Detector.
Context {D : Double}.

(** [struct PitchResult], with its default member initializers. *)
Record PitchResult : Type := mkResult {
  isValid : bool;
  frequency : dbl;
  midi : dbl;
  cents : dbl;
  noteName : string;
  probability : dbl;
}.

Definition empty_result : PitchResult :=
  {| isValid := false; frequency := dconst 0; midi := dconst 0;
     cents := dconst 0; noteName := ""; probability := dconst 0 |}.

(** The fields of [class YinPitchDetector]. *)
Record YinPitchDetector : Type := mkDetector {
  m_sampleRate : dbl;
  m_bufferSize : nat;
  m_maxLag : nat;
  m_threshold : dbl;
  m_difference : list dbl;
  m_cumulative : list dbl;
  m_lastResult : PitchResult;
}.

Definition set_threshold (det : YinPitchDetector) (t : dbl) : YinPitchDetector :=
  mkDetector (m_sampleRate det) (m_bufferSize det) (m_maxLag det) t
    (m_difference det) (m_cumulative det) (m_lastResult det).

Definition set_difference (det : YinPitchDetector) (d : list dbl) : YinPitchDetector :=
  mkDetector (m_sampleRate det) (m_bufferSize det) (m_maxLag det) (m_threshold det)
    d (m_cumulative det) (m_lastResult det).

Definition set_cumulative (det : YinPitchDetector) (c : list dbl) : YinPitchDetector :=
  mkDetector (m_sampleRate det) (m_bufferSize det) (m_maxLag det) (m_threshold det)
    (m_difference det) c (m_lastResult det).

Definition set_lastResult (det : YinPitchDetector) (r : PitchResult) : YinPitchDetector :=
  mkDetector (m_sampleRate det) (m_bufferSize det) (m_maxLag det) (m_threshold det)
    (m_difference det) (m_cumulative det) r.

(** [computeDifference], inner loop
    [for (i = 0; i < m_bufferSize - tau; ++i)]: [n] iterations are left. *)
Fixpoint difference_inner (samples : list sample) (tau n i : nat) (sum : dbl)
    : option dbl :=
  match n with
  | 0 => Some sum
  | S n' =>
      a ← samples !! i;
      b ← samples !! (i + tau);
      let delta := (to_double a - to_double b)%D in
      difference_inner samples tau n' (S i) (sum + delta * delta)%D
  end.

(** [computeDifference], outer loop
    [for (tau = 1; tau <= m_maxLag; ++tau)]: [n] iterations are left. *)
Fixpoint difference_outer (samples : list sample) (bufferSize n tau : nat)
    (difference : list dbl) : option (list dbl) :=
  match n with
  | 0 => Some difference
  | S n' =>
      sum ← difference_inner samples tau (bufferSize - tau) 0 (dconst 0);
      difference' ← store difference tau sum;
      difference_outer samples bufferSize n' (S tau) difference'
  end.

Definition computeDifference (det : YinPitchDetector) (samples : list sample)
    : option YinPitchDetector :=
  let filled := replicate (length (m_difference det)) (dconst 0) in
  d ← difference_outer samples (m_bufferSize det) (m_maxLag det) 1 filled;
  d' ← store d 0 (dconst 0);
  Some (set_difference det d').

(** [computeCumulativeMeanNormalized], the loop
    [for (tau = 1; tau <= m_maxLag; ++tau)]. *)
Fixpoint cumulative_loop (difference : list dbl) (n tau : nat) (runningSum : dbl)
    (cumulative : list dbl) : option (list dbl) :=
  match n with
  | 0 => Some cumulative
  | S n' =>
      d ← difference !! tau;
      let runningSum' := (runningSum + d)%D in
      cumulative' ←
        (if (runningSum' =? dconst 0)%D
         then store cumulative tau (dconst 1)
         else store cumulative tau (d * of_size tau / runningSum')%D);
      cumulative_loop difference n' (S tau) runningSum' cumulative'
  end.

Definition computeCumulativeMeanNormalized (det : YinPitchDetector)
    : option YinPitchDetector :=
  c0 ← store (m_cumulative det) 0 (dconst 1);
  c ← cumulative_loop (m_difference det) (m_maxLag det) 1 (dconst 0) c0;
  Some (set_cumulative det c).

(** [absoluteThreshold], the inner
    [while (tau + 1 < size && m_cumulative[tau + 1] < m_cumulative[tau]) ++tau].
    Each round moves [tau] one closer to the end of the vector, so
    [length cumulative] rounds of fuel are never used up. *)
Fixpoint descend (cumulative : list dbl) (fuel tau : nat) : option nat :=
  match fuel with
  | 0 => Some tau
  | S fuel' =>
      if decide (tau + 1 < length cumulative) then
        next ← cumulative !! (tau + 1);
        cur ← cumulative !! tau;
        if (next <? cur)%D then descend cumulative fuel' (S tau) else Some tau
      else Some tau
  end.

(** [absoluteThreshold], first loop [for (tau = 2; tau < size; ++tau)]:
    [Some (tau, probability)] is its [return], [None] its running to the end. *)
Fixpoint threshold_scan (cumulative : list dbl) (threshold : dbl) (n tau : nat)
    : option (option (nat * dbl)) :=
  match n with
  | 0 => Some None
  | S n' =>
      c ← cumulative !! tau;
      if (c <? threshold)%D then
        tau' ← descend cumulative (length cumulative) tau;
        c' ← cumulative !! tau';
        Some (Some (tau', (dconst 1 - c')%D))
      else threshold_scan cumulative threshold n' (S tau)
  end.

(** [absoluteThreshold], second loop: the running minimum and its lag. *)
Fixpoint minimum_scan (cumulative : list dbl) (n tau : nat) (minValue : dbl)
    (candidate : nat) : option (dbl * nat) :=
  match n with
  | 0 => Some (minValue, candidate)
  | S n' =>
      c ← cumulative !! tau;
      if (c <? minValue)%D
      then minimum_scan cumulative n' (S tau) c tau
      else minimum_scan cumulative n' (S tau) minValue candidate
  end.

(** [absoluteThreshold]: the lag it returns and the [probability] it stores
    through its reference parameter. *)
Definition absoluteThreshold (det : YinPitchDetector) : option (nat * dbl) :=
  let cumulative := m_cumulative det in
  found ← threshold_scan cumulative (m_threshold det) (length cumulative - 2) 2;
  match found with
  | Some r => Some r
  | None =>
      '(minValue, candidate) ← minimum_scan cumulative (length cumulative - 2) 2 infinity 0;
      if isfinite minValue
      then Some (candidate, (dconst 1 - minValue)%D)
      else Some (0, dconst 0)
  end.

Section Skeleton.
(** The helpers of [processBuffer] that differ between the copies. *)
Variable clamp : dbl → dbl → dbl → dbl.
Variable parabolicInterpolation : nat → list dbl → option dbl.
Variable midiFromFrequency : dbl → dbl.
Variable noteNameFromMidi : dbl → option string.

Definition MIN_THRESHOLD : dbl := dconst 0.001.
Definition MAX_THRESHOLD : dbl := dconst 0.999.

(** The constructor; [cumulative0] is the value [m_cumulative] is filled with. *)
Definition construct (cumulative0 : dbl) (sampleRate : dbl) (bufferSize : nat)
    (threshold : dbl) : YinPitchDetector :=
  let maxLag := bufferSize / 2 in
  {| m_sampleRate := sampleRate;
     m_bufferSize := bufferSize;
     m_maxLag := maxLag;
     m_threshold := clamp threshold MIN_THRESHOLD MAX_THRESHOLD;
     m_difference := replicate (maxLag + 1) (dconst 0);
     m_cumulative := replicate (maxLag + 1) cumulative0;
     m_lastResult := empty_result |}.

Definition setThreshold (det : YinPitchDetector) (threshold : dbl) : YinPitchDetector :=
  set_threshold det (clamp threshold MIN_THRESHOLD MAX_THRESHOLD).

(** [m_lastResult = r; return m_lastResult;] *)
Definition finish (det : YinPitchDetector) (r : PitchResult)
    : option (YinPitchDetector * PitchResult) :=
  Some (set_lastResult det r, r).

(** The refined lag of [processBuffer]. *)
Definition refine (det : YinPitchDetector) (tau : nat) : option dbl :=
  if decide (1 < tau ∧ tau < m_maxLag det)
  then parabolicInterpolation tau (m_cumulative det)
  else Some (of_size tau).

Definition processBuffer (det : YinPitchDetector) (samples : option (list sample))
    (numSamples : nat) : option (YinPitchDetector * PitchResult) :=
  match samples with
  | None => finish det empty_result
  | Some arr =>
      if bool_decide (numSamples < m_bufferSize det)
         || bool_decide (m_maxLag det < 2)
         || (m_sampleRate det <=? dconst 0)%D
      then finish det empty_result
      else
        det ← computeDifference det arr;
        det ← computeCumulativeMeanNormalized det;
        '(tau, probability) ← absoluteThreshold det;
        if decide (tau = 0) then finish det empty_result else
        refinedTau ← refine det tau;
        if (refinedTau <=? dconst 0)%D then finish det empty_result else
        let frequency := (m_sampleRate det / refinedTau)%D in
        if negb (isfinite frequency) || (frequency <=? dconst 0)%D
        then finish det empty_result
        else
          let midi := midiFromFrequency frequency in
          let nearestMidi := round midi in
          let cents := ((midi - nearestMidi) * dconst 100)%D in
          name ← noteNameFromMidi nearestMidi;
          finish det
            {| isValid := (dconst 0 <? probability)%D;
               frequency := frequency;
               midi := midi;
               cents := cents;
               noteName := name;
               probability := clamp probability (dconst 0) (dconst 1) |}
  end.

(** The stages of [processBuffer] before the result is packaged, for the
    statements about it: the detector once both buffers are computed, the
    lag and the probability of the search, and the refined lag. *)
Definition analysis (det : YinPitchDetector) (arr : list sample)
    : option (YinPitchDetector * nat * dbl * dbl) :=
  det ← computeDifference det arr;
  det ← computeCumulativeMeanNormalized det;
  '(tau, probability) ← absoluteThreshold det;
  refinedTau ← refine det tau;
  Some (det, tau, probability, refinedTau).

End Skeleton.
End Detector.
End Yin.

(** The twelve chromatic names ([NOTE_NAMES] in the one copy, [kNoteNames]
    in the other). *)
Definition NOTE_NAMES : list string :=
  ["C"; "C#"; "D"; "D#"; "E"; "F"; "F#"; "G"; "G#"; "A"; "A#"; "B"].

(** [static_cast<int>(long)]: the value modulo 2^32, in the range of [int]. *)
Definition int_of_long (z : Z) : Z := ((z + 2 ^ 31) mod 2 ^ 32 - 2 ^ 31)%Z.

(** ** [src/native/cpp/YinPitchDetector.cpp] *)

Module Cpp.
Section Cpp.
Context {D : Double}.

(** [clamp]: [std::min(std::max(value, min), max)], where
    [std::max(a, b)] is [(a < b) ? b : a] and [std::min(a, b)] is
    [(b < a) ? b : a]. *)
Definition std_max (a b : dbl) : dbl := if (a <? b)%D then b else a.
Definition std_min (a b : dbl) : dbl := if (b <? a)%D then b else a.
Definition clamp (value min max : dbl) : dbl := std_min (std_max value min) max.

Definition parabolicInterpolation (tau : nat) (values : list dbl) : option dbl :=
  if decide (tau = 0 ∨ length values ≤ tau + 1) then Some (of_size tau) else
  let x1 := of_size tau in
  y0 ← values !! (tau - 1);
  y1 ← values !! tau;
  y2 ← values !! (tau + 1);
  let denominator := (y0 - dconst 2 * y1 + y2)%D in
  if (fabs denominator <? dconst 1e-12)%D then Some x1 else
  let offset := ((y0 - y2) / (dconst 2 * denominator))%D in
  Some (x1 + offset)%D.

Definition midiFromFrequency (frequency : dbl) : dbl :=
  (dconst 69 + dconst 12 * log2 (frequency / dconst 440))%D.

Definition noteNameFromMidi (midi : dbl) : option string :=
  let midiInt := int_of_long (lround midi) in
  let noteIndex := Z.rem (Z.rem midiInt 12 + 12) 12 in
  lookupZ NOTE_NAMES (Z.rem noteIndex 12).

(** [m_cumulative(m_maxLag + 1, 0.0)] *)
Definition new : dbl → nat → dbl → Yin.YinPitchDetector :=
  Yin.construct clamp (dconst 0).

Definition setThreshold : Yin.YinPitchDetector → dbl → Yin.YinPitchDetector :=
  Yin.setThreshold clamp.

Definition processBuffer
    : Yin.YinPitchDetector → option (list sample) → nat →
      option (Yin.YinPitchDetector * Yin.PitchResult) :=
  Yin.processBuffer clamp parabolicInterpolation midiFromFrequency noteNameFromMidi.

End Cpp.
End Cpp.

(** ** [src/src/native/dsp/YinPitchDetector.cpp] *)

Module Dsp.
Section Dsp.
Context {D : Double}.

(** [std::clamp(v, lo, hi)]: [(v < lo) ? lo : (hi < v) ? hi : v]. *)
Definition clamp (v lo hi : dbl) : dbl :=
  if (v <? lo)%D then lo else if (hi <? v)%D then hi else v.

(** [values.size() - 1] is computed in [std::size_t]: on an empty vector it
    is [SIZE_MAX], which no [tau] reaches. *)
Definition parabolicInterpolation (tau : nat) (values : list dbl) : option dbl :=
  if decide (tau = 0 ∨ (values ≠ [] ∧ length values - 1 ≤ tau))
  then Some (of_size tau) else
  s0 ← values !! (tau - 1);
  s1 ← values !! tau;
  s2 ← values !! (tau + 1);
  let denominator := (s0 + s2 - dconst 2 * s1)%D in
  if (denominator =? dconst 0)%D then Some (of_size tau) else
  let adjustment := (dconst 0.5 * (s0 - s2) / denominator)%D in
  Some (of_size tau + adjustment)%D.

Definition midiFromFrequency (frequency : dbl) : dbl :=
  if (frequency <=? dconst 0)%D then dconst 0
  else (dconst 69 + dconst 12 * log2 (frequency / dconst 440))%D.

(** [oss << kNoteNames[noteIndex] << octave] *)
Definition noteNameFromMidi (midi : dbl) : option string :=
  if negb (isfinite midi) then Some "" else
  let roundedMidi := int_of_long (lround midi) in
  let noteIndex := Z.rem (Z.rem roundedMidi 12 + 12) 12 in
  let octave := (Z.quot roundedMidi 12 - 1)%Z in
  name ← lookupZ NOTE_NAMES noteIndex;
  Some (name +:+ pretty octave).

(** [m_cumulative(m_maxLag + 1, 1.0)] *)
Definition new : dbl → nat → dbl → Yin.YinPitchDetector :=
  Yin.construct clamp (dconst 1).

Definition setThreshold : Yin.YinPitchDetector → dbl → Yin.YinPitchDetector :=
  Yin.setThreshold clamp.

Definition processBuffer
    : Yin.YinPitchDetector → option (list sample) → nat →
      option (Yin.YinPitchDetector * Yin.PitchResult) :=
  Yin.processBuffer clamp parabolicInterpolation midiFromFrequency noteNameFromMidi.

End Dsp.
End Dsp.

(** ** [src/native/cpp/FloatRingBuffer.hpp]

    The cursors are [std::size_t] counters that only grow: they are kept as
    their values in [Z], and every operation on them is reduced modulo 2^64
    ([wrap]). The atomics are read and written in program order: the model is
    the sequential behaviour of the class. *)

Module FloatRingBuffer.
Section Ring.
(** [float], and [0.0f] *)
Context {T : Type} (zero : T).

Definition wrap (z : Z) : Z := (z mod 2 ^ 64)%Z.

Record FloatRingBuffer : Type := mkRing {
  m_capacity : Z;
  m_mask : Z;
  m_buffer : list T;
  m_writeIndex : Z;
  m_readIndex : Z;
}.

(** [nextPowerOfTwo], the loop [while (v < value) v <<= 1]. For a [value]
    above 2^63 the shift reaches 0 and the loop of the source never ends:
    that is the [None] of the 65th round. *)
Fixpoint nextPowerOfTwo_loop (fuel : nat) (value v : Z) : option Z :=
  match fuel with
  | 0 => None
  | S fuel' =>
      if decide (v < value)%Z
      then nextPowerOfTwo_loop fuel' value (wrap (Z.shiftl v 1))
      else Some v
  end.

Definition nextPowerOfTwo (value : Z) : option Z :=
  let value := if decide (value = 0)%Z then 1%Z else value in
  let v := 1%Z in
  if decide (value ≤ v)%Z then Some v else nextPowerOfTwo_loop 65 value v.

(** The constructor. The vector [m_buffer(m_capacity, 0.0f)] is taken as
    made: [None] is the answer when [nextPowerOfTwo] does not return, and a
    request the allocator refuses is not told apart. *)
Definition new (capacityFrames : Z) : option FloatRingBuffer :=
  capacity ← nextPowerOfTwo capacityFrames;
  Some {| m_capacity := capacity;
          m_mask := wrap (capacity - 1);
          m_buffer := replicate (Z.to_nat capacity) zero;
          m_writeIndex := 0;
          m_readIndex := 0 |}.

(** [write], the loop [while (written < toWrite)]: [n] rounds are left. *)
Fixpoint write_loop (buffer : list T) (mask localWrite : Z) (data : list T)
    (n : nat) (written : Z) : option (list T * Z) :=
  match n with
  | 0 => Some (buffer, written)
  | S n' =>
      let index := Z.land (wrap (localWrite + written)) mask in
      x ← lookupZ data written;
      buffer' ← storeZ buffer index x;
      write_loop buffer' mask localWrite data n' (wrap (written + 1))
  end.

(** [write(data, frames)]: the ring afterwards and the count returned. *)
Definition write (r : FloatRingBuffer) (data : option (list T)) (frames : Z)
    : option (FloatRingBuffer * Z) :=
  match data with
  | None => Some (r, 0%Z)
  | Some arr =>
      if decide (frames = 0)%Z then Some (r, 0%Z) else
      let localWrite := m_writeIndex r in
      let localRead := m_readIndex r in
      let available := wrap (m_capacity r - wrap (localWrite - localRead)) in
      let toWrite := if decide (available < frames)%Z then available else frames in
      if decide (toWrite = 0)%Z then Some (r, 0%Z) else
      '(buffer, written) ←
        write_loop (m_buffer r) (m_mask r) localWrite arr (Z.to_nat toWrite) 0;
      Some ({| m_capacity := m_capacity r;
               m_mask := m_mask r;
               m_buffer := buffer;
               m_writeIndex := wrap (localWrite + written);
               m_readIndex := m_readIndex r |}, written)
  end.

(** [read], the loop [while (read < toRead)]. *)
Fixpoint read_loop (buffer : list T) (mask localRead : Z) (dst : list T)
    (n : nat) (read : Z) : option (list T * Z) :=
  match n with
  | 0 => Some (dst, read)
  | S n' =>
      let index := Z.land (wrap (localRead + read)) mask in
      x ← lookupZ buffer index;
      dst' ← storeZ dst read x;
      read_loop buffer mask localRead dst' n' (wrap (read + 1))
  end.

(** [read(dst, frames)]: the ring and the destination array afterwards, and
    the count returned. *)
Definition read (r : FloatRingBuffer) (dst : option (list T)) (frames : Z)
    : option (FloatRingBuffer * option (list T) * Z) :=
  match dst with
  | None => Some (r, None, 0%Z)
  | Some out =>
      if decide (frames = 0)%Z then Some (r, Some out, 0%Z) else
      let localRead := m_readIndex r in
      let localWrite := m_writeIndex r in
      let available := wrap (localWrite - localRead) in
      let toRead := if decide (available < frames)%Z then available else frames in
      if decide (toRead = 0)%Z then Some (r, Some out, 0%Z) else
      '(out', read) ←
        read_loop (m_buffer r) (m_mask r) localRead out (Z.to_nat toRead) 0;
      Some ({| m_capacity := m_capacity r;
               m_mask := m_mask r;
               m_buffer := m_buffer r;
               m_writeIndex := m_writeIndex r;
               m_readIndex := wrap (localRead + read) |}, Some out', read)
  end.

Definition reset (r : FloatRingBuffer) : FloatRingBuffer :=
  {| m_capacity := m_capacity r;
     m_mask := m_mask r;
     m_buffer := m_buffer r;
     m_writeIndex := m_writeIndex r;
     m_readIndex := m_writeIndex r |}.

Definition available (r : FloatRingBuffer) : Z :=
  wrap (m_writeIndex r - m_readIndex r).

Definition freeSpace (r : FloatRingBuffer) : Z :=
  wrap (m_capacity r - wrap (m_writeIndex r - m_readIndex r)).

End Ring.
Arguments FloatRingBuffer : clear implicits.
End FloatRingBuffer.

(** ** [src/android/app/src/main/cpp/PitchDetector.cpp]

    The controller uses the detector of [src/src/native/dsp]. Its [int32_t]
    fields are kept in [Z]; none of the operations below leaves the range of
    [int32_t] once [start] has clamped the frame count. Oboe and JNI are
    outside the repository: what [openStream] and [requestStart] answer is
    an argument of [start], and what is handed to [emitPitchResult] is
    collected in a list. *)

Module PitchDetector.
Section Android.
Context {D : Double}.

(** The stream [openStream] hands back; [getSampleRate()] is all that is
    asked of it. *)
Record AudioStream : Type := mkStream { getSampleRate : Z }.

Record PitchDetector : Type := mkController {
  m_stream : option AudioStream;
  m_detector : option Yin.YinPitchDetector;
  m_accumulator : list sample;
  m_accumulatorSize : Z;
  m_analysisFrameCount : Z;
  m_hopFrameCount : Z;
  m_sampleRate : dbl;
  m_threshold : dbl;
  m_running : bool;
}.

(** The member initializers and [m_accumulator.resize(m_analysisFrameCount)]. *)
Definition new : PitchDetector :=
  {| m_stream := None;
     m_detector := None;
     m_accumulator := replicate 2048 fzero;
     m_accumulatorSize := 0;
     m_analysisFrameCount := 2048;
     m_hopFrameCount := 1024;
     m_sampleRate := dconst 48000;
     m_threshold := dconst 0.15;
     m_running := false |}.

(** [start]. [opened] is the stream [builder.openStream] delivers ([None]
    when the result is not [OK] or the stream is null), [started] tells
    whether [requestStart] answers [OK]. *)
Definition start (p : PitchDetector) (bufferSize : Z) (threshold : dbl)
    (opened : option AudioStream) (started : bool) : PitchDetector * bool :=
  if m_running p then (p, true) else
  let analysisFrameCount := Z.max 256 bufferSize in
  let hopFrameCount := Z.max (Z.quot analysisFrameCount 2) 1 in
  let threshold := Dsp.clamp threshold (dconst 0.001) (dconst 0.999) in
  match opened with
  | None =>
      ({| m_stream := None;
          m_detector := m_detector p;
          m_accumulator := m_accumulator p;
          m_accumulatorSize := m_accumulatorSize p;
          m_analysisFrameCount := analysisFrameCount;
          m_hopFrameCount := hopFrameCount;
          m_sampleRate := m_sampleRate p;
          m_threshold := threshold;
          m_running := false |}, false)
  | Some stream =>
      let sampleRate := of_int (getSampleRate stream) in
      let detector := Dsp.new sampleRate (Z.to_nat analysisFrameCount) threshold in
      let accumulator := replicate (Z.to_nat analysisFrameCount) fzero in
      if started then
        ({| m_stream := Some stream;
            m_detector := Some detector;
            m_accumulator := accumulator;
            m_accumulatorSize := 0;
            m_analysisFrameCount := analysisFrameCount;
            m_hopFrameCount := hopFrameCount;
            m_sampleRate := sampleRate;
            m_threshold := threshold;
            m_running := true |}, true)
      else
        ({| m_stream := None;
            m_detector := Some detector;
            m_accumulator := accumulator;
            m_accumulatorSize := 0;
            m_analysisFrameCount := analysisFrameCount;
            m_hopFrameCount := hopFrameCount;
            m_sampleRate := sampleRate;
            m_threshold := threshold;
            m_running := false |}, false)
  end.

Definition stop (p : PitchDetector) : PitchDetector * bool :=
  if negb (m_running p) then (p, false) else
  ({| m_stream := None;
      m_detector := None;
      m_accumulator := m_accumulator p;
      m_accumulatorSize := 0;
      m_analysisFrameCount := m_analysisFrameCount p;
      m_hopFrameCount := m_hopFrameCount p;
      m_sampleRate := m_sampleRate p;
      m_threshold := m_threshold p;
      m_running := false |}, true).

Definition setThreshold (p : PitchDetector) (threshold : dbl) : PitchDetector :=
  let clamped := Dsp.clamp threshold (dconst 0.001) (dconst 0.999) in
  {| m_stream := m_stream p;
     m_detector := (λ det, Dsp.setThreshold det clamped) <$> m_detector p;
     m_accumulator := m_accumulator p;
     m_accumulatorSize := m_accumulatorSize p;
     m_analysisFrameCount := m_analysisFrameCount p;
     m_hopFrameCount := m_hopFrameCount p;
     m_sampleRate := m_sampleRate p;
     m_threshold := clamped;
     m_running := m_running p |}.

Definition sampleRate (p : PitchDetector) : dbl := m_sampleRate p.
Definition bufferSize (p : PitchDetector) : Z := m_analysisFrameCount p.
Definition threshold (p : PitchDetector) : dbl := m_threshold p.

(** [std::memcpy(v.data() + at, src, n * sizeof(float))] with [n] the length
    of [src]; [std::memmove] with a source inside [v] reads it first. *)
Definition memcpy (v : list sample) (at_ : nat) (src : list sample)
    : option (list sample) :=
  if decide (at_ + length src ≤ length v)
  then Some (take at_ v ++ src ++ drop (at_ + length src) v)
  else None.

Definition memmove (v : list sample) (from n : nat) : option (list sample) :=
  if decide (from + n ≤ length v)
  then memcpy v 0 (take n (drop from v))
  else None.

Definition with_accumulator (p : PitchDetector) (acc : list sample) (size : Z)
    : PitchDetector :=
  {| m_stream := m_stream p;
     m_detector := m_detector p;
     m_accumulator := acc;
     m_accumulatorSize := size;
     m_analysisFrameCount := m_analysisFrameCount p;
     m_hopFrameCount := m_hopFrameCount p;
     m_sampleRate := m_sampleRate p;
     m_threshold := m_threshold p;
     m_running := m_running p |}.

Definition with_detector (p : PitchDetector) (det : Yin.YinPitchDetector)
    : PitchDetector :=
  {| m_stream := m_stream p;
     m_detector := Some det;
     m_accumulator := m_accumulator p;
     m_accumulatorSize := m_accumulatorSize p;
     m_analysisFrameCount := m_analysisFrameCount p;
     m_hopFrameCount := m_hopFrameCount p;
     m_sampleRate := m_sampleRate p;
     m_threshold := m_threshold p;
     m_running := m_running p |}.

(** One call of the estimator as the controller makes it: the frame handed
    to [processBuffer] and the result handed to [emitPitchResult]. *)
Record Dispatch : Type := mkDispatch {
  frame : list sample;
  result : Yin.PitchResult;
}.

(** [onAudioReady], first half of the loop body: fill the accumulator from
    the input. Returns the controller and the input that is left. *)
Definition fill (p : PitchDetector) (input : list sample)
    : option (PitchDetector * list sample) :=
  let space := (m_analysisFrameCount p - m_accumulatorSize p)%Z in
  let framesToCopy := Z.min space (Z.of_nat (length input)) in
  if decide (0 < framesToCopy)%Z then
    acc ← memcpy (m_accumulator p) (Z.to_nat (m_accumulatorSize p))
                 (take (Z.to_nat framesToCopy) input);
    Some (with_accumulator p acc (m_accumulatorSize p + framesToCopy)%Z,
          drop (Z.to_nat framesToCopy) input)
  else Some (p, input).

(** Second half, taken when the accumulator is full and a detector is
    there: run the estimator on the frame, emit, and keep the overlap. *)
Definition dispatch (p : PitchDetector) (det : Yin.YinPitchDetector)
    : option (PitchDetector * Dispatch) :=
  '(det', r) ← Dsp.processBuffer det (Some (m_accumulator p))
                  (Z.to_nat (m_analysisFrameCount p));
  let emitted := mkDispatch (take (Z.to_nat (m_analysisFrameCount p)) (m_accumulator p)) r in
  let p := with_detector p det' in
  if decide (m_hopFrameCount p < m_analysisFrameCount p)%Z then
    let remaining := (m_analysisFrameCount p - m_hopFrameCount p)%Z in
    acc ← (if decide (0 < remaining)%Z
           then memmove (m_accumulator p) (Z.to_nat (m_hopFrameCount p))
                        (Z.to_nat remaining)
           else Some (m_accumulator p));
    Some (with_accumulator p acc remaining, emitted)
  else Some (with_accumulator p (m_accumulator p) 0, emitted).

(** How one round of the loop [while (framesRemaining > 0)] ends: at its
    [break], or ready for the next round after a dispatch. *)
Inductive Round : Type :=
  | Break (p : PitchDetector)
  | Again (p : PitchDetector) (input : list sample) (d : Dispatch).

(** The body of the loop. *)
Definition loop_body (p : PitchDetector) (input : list sample) : option Round :=
  '(p, input) ← fill p input;
  match m_detector p with
  | Some det =>
      if decide (m_analysisFrameCount p ≤ m_accumulatorSize p)%Z then
        '(p, d) ← dispatch p det;
        Some (Again p input d)
      else Some (Break p)
  | None => Some (Break p)
  end.

(** The loop [while (framesRemaining > 0)]; [framesRemaining] is the length
    of [input]. A round either ends the loop or, once the accumulator is
    not full at its start, takes input: [fuel] bounds the rounds, and [None]
    is also the answer for a loop that would not end. *)
Fixpoint accumulate (fuel : nat) (p : PitchDetector) (input : list sample)
    (emitted : list Dispatch) : option (PitchDetector * list Dispatch) :=
  match fuel with
  | 0 => None
  | S fuel' =>
      if decide (input = []) then Some (p, emitted) else
      r ← loop_body p input;
      match r with
      | Break p => Some (p, emitted)
      | Again p input d => accumulate fuel' p input (emitted ++ [d])
      end
  end.

Inductive DataCallbackResult : Type := Continue | Stop.

(** [onAudioReady(stream, audioData, numFrames)]: [audioData] holds the
    [numFrames] frames of the callback. *)
Definition onAudioReady (p : PitchDetector) (audioData : list sample)
    : option (PitchDetector * list Dispatch * DataCallbackResult) :=
  if negb (m_running p) then Some (p, [], Stop) else
  '(p, emitted) ← accumulate (length audioData + 2) p audioData [];
  Some (p, emitted, Continue).

(** Feeding the callbacks of a stream one after the other. *)
Fixpoint feed (p : PitchDetector) (chunks : list (list sample))
    : option (PitchDetector * list Dispatch) :=
  match chunks with
  | [] => Some (p, [])
  | chunk :: rest =>
      '(p, emitted, _) ← onAudioReady p chunk;
      '(p, emitted') ← feed p rest;
      Some (p, emitted ++ emitted')
  end.

(** [onErrorAfterClose]: [m_running.store(false)]. *)
Definition onErrorAfterClose (p : PitchDetector) : PitchDetector :=
  {| m_stream := m_stream p;
     m_detector := m_detector p;
     m_accumulator := m_accumulator p;
     m_accumulatorSize := m_accumulatorSize p;
     m_analysisFrameCount := m_analysisFrameCount p;
     m_hopFrameCount := m_hopFrameCount p;
     m_sampleRate := m_sampleRate p;
     m_threshold := m_threshold p;
     m_running := false |}.

End Android.
End PitchDetector.

(** ** What the specification says the buffers hold

    [d], [S] and [d'] of section 4.3 of the specification, written from its
    words. A sum is taken in the order of its index, starting from 0.0;
    [x] is the frame, read as doubles. *)

Module Spec.
Section Spec.
Context {D : Double}.
Variable frame : list sample.
(** [N], the analysis frame count *)
Variable N : nat.

Definition x (i : nat) : dbl := to_double (nth i frame fzero).

(** the sum of [f lo], ..., [f (lo + n - 1)] *)
Definition sum_from (lo n : nat) (f : nat → dbl) : dbl :=
  foldl (λ acc i, acc + f i)%D (dconst 0) (seq lo n).

(** d(0) = 0, and d(tau) is the sum over i from 0 to N - tau - 1 of
    (x[i] - x[i + tau])^2 *)
Definition d (tau : nat) : dbl :=
  if decide (tau = 0) then dconst 0
  else sum_from 0 (N - tau) (λ i, let delta := (x i - x (i + tau))%D in delta * delta)%D.

(** S(tau), the sum of d(1), ..., d(tau) *)
Definition S (tau : nat) : dbl := sum_from 1 tau d.

(** d'(0) = 1, and d'(tau) is 1 when S(tau) = 0 and d(tau) * tau / S(tau)
    otherwise *)
Definition d' (tau : nat) : dbl :=
  if decide (tau = 0) then dconst 1
  else if (S tau =? dconst 0)%D then dconst 1
  else (d tau * of_size tau / S tau)%D.

End Spec.
End Spec.

(** ** Invariants *)

(** What the constructor of the detector establishes and every method
    keeps: [m_maxLag] is half of [m_bufferSize], and both scratch vectors
    have [m_maxLag + 1] entries. *)
Definition detector_wf {D : Double} (det : Yin.YinPitchDetector) : Prop :=
  Yin.m_maxLag det = Yin.m_bufferSize det / 2 ∧
  length (Yin.m_difference det) = Yin.m_maxLag det + 1 ∧
  length (Yin.m_cumulative det) = Yin.m_maxLag det + 1.

(** ** Predicates of the statements *)

Section Predicates.
Context {D : Double}.
Implicit Types (cum : list dbl) (det : Yin.YinPitchDetector).

(** The summand of the inner loop of [computeDifference]. *)
Definition term (samples : list sample) (tau i : nat) : dbl :=
  let delta := (Spec.x samples i - Spec.x samples (i + tau))%D in (delta * delta)%D.

(** The running sum of [computeCumulativeMeanNormalized] after lag [k],
    when it was [rs] before lag [tau]. *)
Definition running (dk : nat → dbl) (rs : dbl) (tau k : nat) : dbl :=
  foldl (λ acc j, acc + dk j)%D rs (seq tau (S k - tau)).

Definition normalized (dk : nat → dbl) (s : dbl) (k : nat) : dbl :=
  if (s =? dconst 0)%D then dconst 1 else (dk k * of_size k / s)%D.

(** [cum[k] < bound] holds / does not hold (an index outside the vector
    satisfies neither). *)
Definition below cum (bound : dbl) (k : nat) : Prop :=
  ∃ v, cum !! k = Some v ∧ (v <? bound)%D = true.
Definition not_below cum (bound : dbl) (k : nat) : Prop :=
  ∃ v, cum !! k = Some v ∧ (v <? bound)%D = false.

(** [cum[k + 1] < cum[k]] *)
Definition steps_down cum (k : nat) : Prop :=
  ∃ a b, cum !! k = Some a ∧ cum !! (k + 1) = Some b ∧ (b <? a)%D = true.

(** [tau'] is where the descent from [tau] ends: every step on the way goes
    strictly down, and the next one does not (or there is none). *)
Definition descent_end cum (tau tau' : nat) : Prop :=
  tau ≤ tau' < length cum ∧
  (∀ k, tau ≤ k < tau' → steps_down cum k) ∧
  (tau' + 1 = length cum ∨ (tau' + 1 < length cum ∧ ¬ steps_down cum tau')).

(** The outcome of the first loop of [absoluteThreshold]: [first] is the
    first lag from [lo] on whose value is below the threshold, [tau'] the
    end of the descent from it, and [p] is 1 - cum[tau']. *)
Definition crossing cum (threshold : dbl) (lo first tau' : nat) (p : dbl) : Prop :=
  (∀ k, lo ≤ k < first → not_below cum threshold k) ∧
  below cum threshold first ∧
  descent_end cum first tau' ∧
  ∃ c', cum !! tau' = Some c' ∧ p = (dconst 1 - c')%D.

(** [c] is the first lag of [lo .. hi - 1] that holds the least value [m]:
    nothing in the range is below [m], and nothing before [c] is even
    equal to it. *)
Definition first_minimum cum (lo hi c : nat) (m : dbl) : Prop :=
  lo ≤ c < hi ∧ cum !! c = Some m ∧
  (∀ k, lo ≤ k < hi → not_below cum m k) ∧
  (∀ k v, lo ≤ k < c → cum !! k = Some v → (v <=? m)%D = false).

(** What [absoluteThreshold] returns, case by case: the end of the descent
    from the first crossing; or, when nothing is below the threshold, the
    first global minimum if that is finite, and the lag 0 if there is no
    finite minimum (as when the range of lags is empty). *)
Definition search_outcome det (tau : nat) (p : dbl) : Prop :=
  let cum := Yin.m_cumulative det in
  let threshold := Yin.m_threshold det in
  (∃ first, 2 ≤ first ∧ crossing cum threshold 2 first tau p)
  ∨ ((∀ k, 2 ≤ k < length cum → not_below cum threshold k) ∧
     ((∃ m, first_minimum cum 2 (length cum) tau m
            ∧ isfinite m = true ∧ p = (dconst 1 - m)%D)
      ∨ (tau = 0 ∧ p = dconst 0 ∧
         ((∀ k, 2 ≤ k < length cum → not_below cum infinity k)
          ∨ ∃ c m, first_minimum cum 2 (length cum) c m ∧ isfinite m = false)))).

(** The guard at the head of [processBuffer], the null pointer apart. *)
Definition rejects_input det (numSamples : nat) : bool :=
  bool_decide (numSamples < Yin.m_bufferSize det)
  || bool_decide (Yin.m_maxLag det < 2)
  || (Yin.m_sampleRate det <=? dconst 0)%D.

(** The checks on the lag and on the frequency after the search. *)
Definition rejects_estimate det (tau : nat) (refinedTau : dbl) : bool :=
  bool_decide (tau = 0)
  || (refinedTau <=? dconst 0)%D
  || negb (isfinite (Yin.m_sampleRate det / refinedTau)%D)
  || (Yin.m_sampleRate det / refinedTau <=? dconst 0)%D.

(** The second half of [absoluteThreshold], taken when the first loop
    returns nothing: it does not look at the threshold. *)
Definition fallback cum : option (nat * dbl) :=
  '(minValue, candidate) ← Yin.minimum_scan cum (length cum - 2) 2 infinity 0;
  if isfinite minValue
  then Some (candidate, (dconst 1 - minValue)%D)
  else Some (0, dconst 0).

(** [isValid] of the result, from the outcome of the analysis. *)
Definition valid_estimate det (tau : nat) (p refinedTau : dbl) : bool :=
  negb (rejects_estimate det tau refinedTau) && (dconst 0 <? p)%D.

(** What C1 says of one copy's [processBuffer] (given as [pb]): the call
    returns, and afterwards the difference buffer holds d and the cumulative
    buffer holds d' at every lag up to maxLag = bufferSize / 2. *)
Definition buffers_as_specified
    (pb : Yin.YinPitchDetector → option (list sample) → nat →
          option (Yin.YinPitchDetector * Yin.PitchResult))
    det (arr : list sample) (numSamples : nat) : Prop :=
  ∃ det' r, pb det (Some arr) numSamples = Some (det', r)
    ∧ Yin.m_maxLag det' = Yin.m_bufferSize det / 2
    ∧ ∀ tau, tau ≤ Yin.m_bufferSize det / 2 →
        Yin.m_difference det' !! tau = Some (Spec.d arr (Yin.m_bufferSize det) tau)
        ∧ Yin.m_cumulative det' !! tau = Some (Spec.d' arr (Yin.m_bufferSize det) tau).

(** What C5 says of one copy's [processBuffer] ([pb], with the stages [an]
    of its analysis): the call returns a result, which is also the last
    result kept; the result is the empty one, with [isValid = false], for a
    null pointer, for an input the guard rejects and for an estimate the
    later checks reject; and otherwise [isValid] is [probability > 0.0]. *)
Definition validity_as_specified
    (pb : Yin.YinPitchDetector → option (list sample) → nat →
          option (Yin.YinPitchDetector * Yin.PitchResult))
    (an : Yin.YinPitchDetector → list sample →
          option (Yin.YinPitchDetector * nat * dbl * dbl))
    det (samples : option (list sample)) (numSamples : nat) : Prop :=
  ∃ det' r, pb det samples numSamples = Some (det', r)
    ∧ Yin.m_lastResult det' = r
    ∧ detector_wf det'
    ∧ (samples = None → Yin.isValid r = false ∧ r = Yin.empty_result)
    ∧ ∀ arr, samples = Some arr →
        (rejects_input det numSamples = true →
           Yin.isValid r = false ∧ r = Yin.empty_result)
        ∧ (rejects_input det numSamples = false →
             ∃ det2 tau p refinedTau,
               an det arr = Some (det2, tau, p, refinedTau)
               ∧ (rejects_estimate det tau refinedTau = true →
                    Yin.isValid r = false ∧ r = Yin.empty_result)
               ∧ (rejects_estimate det tau refinedTau = false →
                    Yin.isValid r = (dconst 0 <? p)%D)).

End Predicates.

(** ** The ring buffer: invariant, reachable states, slots *)

Section RingPredicates.
Context {T : Type} (zero : T).
Implicit Types (r : FloatRingBuffer.FloatRingBuffer T).

(** The capacity is a power of two that fits [std::size_t], the mask is
    the capacity less one, the vector has [capacity] entries, both cursors
    are values of [std::size_t], and the write cursor is at most
    [capacity] ahead of the read cursor. *)
Definition ring_wf r : Prop :=
  (∃ k, 0 ≤ k ≤ 63 ∧ FloatRingBuffer.m_capacity r = 2 ^ k)%Z
  ∧ FloatRingBuffer.m_mask r = (FloatRingBuffer.m_capacity r - 1)%Z
  ∧ Z.of_nat (length (FloatRingBuffer.m_buffer r)) = FloatRingBuffer.m_capacity r
  ∧ (0 ≤ FloatRingBuffer.m_writeIndex r < 2 ^ 64)%Z
  ∧ (0 ≤ FloatRingBuffer.m_readIndex r < 2 ^ 64)%Z
  ∧ (FloatRingBuffer.available r ≤ FloatRingBuffer.m_capacity r)%Z.

(** The states a ring goes through: made by the constructor, then written
    to, read from and reset, with arrays that hold the counts passed. *)
Inductive reachable : FloatRingBuffer.FloatRingBuffer T → Prop :=
  | reach_new capacityFrames r :
      (0 ≤ capacityFrames < 2 ^ 64)%Z →
      FloatRingBuffer.new zero capacityFrames = Some r →
      reachable r
  | reach_write r data frames r' n :
      reachable r →
      (0 ≤ frames < 2 ^ 64)%Z → (frames ≤ Z.of_nat (length data))%Z →
      FloatRingBuffer.write r (Some data) frames = Some (r', n) →
      reachable r'
  | reach_read r dst frames r' out n :
      reachable r →
      (0 ≤ frames < 2 ^ 64)%Z → (frames ≤ Z.of_nat (length dst))%Z →
      FloatRingBuffer.read r (Some dst) frames = Some (r', out, n) →
      reachable r'
  | reach_reset r :
      reachable r → reachable (FloatRingBuffer.reset r).

(** The entry of the vector that the cursor value [c] designates. *)
Definition slot r (c : Z) : nat :=
  Z.to_nat (Z.land (FloatRingBuffer.wrap c) (FloatRingBuffer.m_mask r)).

(** The unread samples, oldest first. *)
Definition unread r : list (option T) :=
  (λ j : nat, FloatRingBuffer.m_buffer r
                !! slot r (FloatRingBuffer.m_readIndex r + Z.of_nat j))
    <$> seq 0 (Z.to_nat (FloatRingBuffer.available r)).

End RingPredicates.

(** ** The controller: what [start] establishes *)

Section ControllerPredicates.
Context {D : Double}.
Implicit Types (p : PitchDetector.PitchDetector).

(** A running controller as [start] leaves it and [onAudioReady] keeps it:
    a detector is there, made for the analysis frame count; the hop is
    positive and at most the frame count; the accumulator has the frame
    count as its length. *)
Definition controller_ok p : Prop :=
  PitchDetector.m_running p = true
  ∧ (∃ det, PitchDetector.m_detector p = Some det ∧ detector_wf det
       ∧ Yin.m_bufferSize det = Z.to_nat (PitchDetector.m_analysisFrameCount p))
  ∧ (0 < PitchDetector.m_hopFrameCount p ≤ PitchDetector.m_analysisFrameCount p)%Z
  ∧ length (PitchDetector.m_accumulator p)
    = Z.to_nat (PitchDetector.m_analysisFrameCount p).

(** Between two rounds of the loop the accumulator is not full. *)
Definition controller_wf p : Prop :=
  controller_ok p
  ∧ (0 ≤ PitchDetector.m_accumulatorSize p < PitchDetector.m_analysisFrameCount p)%Z.

(** The accumulator is full: the state in which a frame is dispatched. *)
Definition controller_full p : Prop :=
  controller_ok p
  ∧ PitchDetector.m_accumulatorSize p = PitchDetector.m_analysisFrameCount p.

(** The loop of [onAudioReady] with one more round of fuel than there are
    samples: what a callback does to a running controller. *)
Definition run p (input : list sample)
    : option (PitchDetector.PitchDetector * list PitchDetector.Dispatch) :=
  PitchDetector.accumulate (S (length input)) p input [].

End ControllerPredicates.

(** ** The doubles of the detector, as numbers *)

(** [FLT_MAX] of <cfloat>, the largest finite [float], and [DBL_MIN], the
    least positive normal [double]. *)
Module Binary64Limits.
Import PrimFloat.
Definition FLT_MAX : float := 0x1.fffffep127%float.
Definition DBL_MIN : float := 0x1p-1022%float.
End Binary64Limits.

(** The value of a finite double is kept as an integer, its multiple of
    2^-1074 (every finite double is one); the statements about binary64 are
    arithmetic on these integers. *)
Module Binary64Values.
Import SpecFloat FloatOps Binary64 Binary64Limits.
Local Open Scope Z_scope.

(** The exponent the format gives a number of [e] digits. *)
Definition fexp64 (e : Z) : Z := Z.max (e - 53) (-1074).

(** Bits were lost in a shift to the right. *)
Definition inexact (mrs : shr_record) : bool := shr_r mrs || shr_s mrs.

(** A mantissa [m] at the exponent [E] as the format writes a double:
    fewer than 54 digits, and 53 of them unless [E] is the least exponent. *)
Definition normal_at (m E : Z) : Prop :=
  0 ≤ m < 2 ^ 53 ∧ -1074 ≤ E ∧ (E = -1074 ∨ 2 ^ 52 ≤ m).

(** What [binary_round_aux] does with the rounded mantissa: it writes the
    double, renormalizing a mantissa that the rounding carried to 2^53. *)
Definition encode (sx : bool) (M E : Z) : spec_float :=
  let '(mrs, e) := shr_fexp prec emax M E loc_Exact in
  match shr_m mrs with
  | Z0 => S754_zero sx
  | Zpos m => if e <=? emax - prec then S754_finite sx m e else S754_infinity sx
  | Zneg _ => S754_nan
  end.

(** The value of a finite double, as a multiple of 2^-1074. *)
Definition SV (x : spec_float) : Z :=
  match x with
  | S754_finite s m e => cond_Zopp s (Zpos m * 2 ^ (e + 1074))
  | _ => 0
  end.

Definition sfinite (x : spec_float) : bool :=
  match x with
  | S754_zero _ | S754_finite _ _ _ => true
  | _ => false
  end.

(** [N], a multiple of 2^-1074, is the value of a finite double. *)
Definition repr (N : Z) : Prop :=
  ∃ j s, N = j * 2 ^ s ∧ Z.abs j < 2 ^ 53 ∧ 0 ≤ s ∧ Z.abs N < 2 ^ 2098.

Definition V (x : float) : Z := SV (Prim2SF x).
Definition fin (x : float) : Prop := sfinite (Prim2SF x) = true.

(** The value of [1.0]. *)
Definition ONE : Z := 2 ^ 1074.

(** A sample as a [float] holds it when it is a number: a finite double of
    magnitude at most [FLT_MAX]. *)
Definition float_sample (x : float) : bool :=
  PrimFloat.leb (PrimFloat.abs x) FLT_MAX.

Definition samples_ok (frame : list float) : Prop :=
  Forall (λ x, float_sample x = true) frame.

(** A finite double between 0 and [bound]. *)
Definition upto (bound : Z) (x : float) : Prop := fin x ∧ 0 ≤ V x ≤ bound.

(** The bound on the entries of the cumulative buffer: 2^32. *)
Definition CMAX : Z := 2 ^ 32 * ONE.

(** Every entry of the cumulative buffer is a finite double in [0, 2^32]. *)
Definition entries_ok (cum : list float) : Prop :=
  ∀ k v, cum !! k = Some v → upto CMAX v.

End Binary64Values.

(** * Worked configurations

    The concrete detectors, frames, rings and controllers on which the
    properties below are evaluated. *)

Module Fixture.

(** [std::log2] for the evaluations in binary64: the exponent of a power of
    two, which is what libm returns there (in particular [log2 1 = 0]);
    between two powers of two, the exponent of the lower one. *)
Definition log2_exponent (x : Binary64.float) : Binary64.float :=
  let '(_, e) := PrimFloat.frshiftexp x in
  Binary64.of_Z (Uint63.to_Z e - FloatOps.shift - 1).

#[local] Instance ieee : Double := Binary64.binary64 log2_exponent.

(** Two periods of a cosine of four samples: at 1760 samples per second,
    440 Hz. *)
Definition cosine : list Z := [1; 0; -1; 0; 1; 0; -1; 0]%Z.

Definition frame : list Binary64.float := Binary64.of_Z <$> cosine.
Definition cpp_detector : Yin.YinPitchDetector :=
  Cpp.new (Binary64.of_Z 1760) 8 (Binary64.of_Q 0.1).
Definition dsp_detector : Yin.YinPitchDetector :=
  Dsp.new (Binary64.of_Z 1760) 8 (Binary64.of_Q 0.1).

(** The detector after it has analysed [frame]. *)
Definition analysed_detector : Yin.YinPitchDetector :=
  match Cpp.processBuffer cpp_detector (Some frame) 8 with
  | Some (det, _) => det
  | None => cpp_detector
  end.

(** A ring asked for 5 frames (it gets 8). *)
Definition ring : FloatRingBuffer.FloatRingBuffer Z :=
  default (FloatRingBuffer.mkRing 0 0 [] 0 0) (FloatRingBuffer.new 0%Z 5).

(** The controller before [start], and after a [start] that succeeds. *)
Definition stopped : PitchDetector.PitchDetector := PitchDetector.new.
Definition started : PitchDetector.PitchDetector :=
  fst (PitchDetector.start stopped 256 (Binary64.of_Q 0.15)
         (Some (PitchDetector.mkStream 48000)) true).

End Fixture.

(** ** The ring buffer as its user sees it: a bounded queue

    A sequence of calls on a ring, and the same sequence on a queue of at
    most [capacity] samples. *)

Section RingOps.
Context {T : Type} (zero : T).

Inductive RingOp : Type :=
  (** [write(data, n)] with [n] the length of [data] *)
  | Write (data : list T)
  (** [read(dst, frames)] with [dst] an array of [frames] entries *)
  | Read (frames : nat)
  (** [reset()] *)
  | Reset.

(** What a call hands back: the count [write] returns, the samples [read]
    has copied (as many as the count it returns), nothing for [reset]. *)
Inductive RingAnswer : Type :=
  | Wrote (n : Z)
  | Got (out : list T)
  | Done.

Definition ring_op (r : FloatRingBuffer.FloatRingBuffer T) (op : RingOp)
    : option (FloatRingBuffer.FloatRingBuffer T * RingAnswer) :=
  match op with
  | Write data =>
      '(r', n) ← FloatRingBuffer.write r (Some data) (Z.of_nat (length data));
      Some (r', Wrote n)
  | Read frames =>
      '(r', dst, n) ← FloatRingBuffer.read r (Some (replicate frames zero))
                        (Z.of_nat frames);
      out ← dst;
      Some (r', Got (take (Z.to_nat n) out))
  | Reset => Some (FloatRingBuffer.reset r, Done)
  end.

Fixpoint ring_ops (r : FloatRingBuffer.FloatRingBuffer T) (ops : list RingOp)
    : option (FloatRingBuffer.FloatRingBuffer T * list RingAnswer) :=
  match ops with
  | [] => Some (r, [])
  | op :: ops =>
      '(r, a) ← ring_op r op;
      '(r, answers) ← ring_ops r ops;
      Some (r, a :: answers)
  end.

(** The queue: a write appends what fits, a read takes from the front. *)
Definition queue_op (capacity : nat) (q : list T) (op : RingOp) : list T * RingAnswer :=
  match op with
  | Write data =>
      let n := length data `min` (capacity - length q) in
      (q ++ take n data, Wrote (Z.of_nat n))
  | Read frames => (drop frames q, Got (take frames q))
  | Reset => ([], Done)
  end.

Fixpoint queue_ops (capacity : nat) (q : list T) (ops : list RingOp)
    : list T * list RingAnswer :=
  match ops with
  | [] => (q, [])
  | op :: ops =>
      let '(q, a) := queue_op capacity q op in
      let '(q, answers) := queue_ops capacity q ops in
      (q, a :: answers)
  end.

(** A count that fits [std::size_t]. *)
Definition op_fits (op : RingOp) : Prop :=
  match op with
  | Write data => (Z.of_nat (length data) < 2 ^ 64)%Z
  | Read frames => (Z.of_nat frames < 2 ^ 64)%Z
  | Reset => True
  end.

End RingOps.

(** ** The controller: the samples it holds, its windows, its states *)

Section ControllerMore.
Context {D : Double}.

(** The samples the accumulator holds: its first [m_accumulatorSize]
    entries. *)
Definition held (p : PitchDetector.PitchDetector) : list sample :=
  take (Z.to_nat (PitchDetector.m_accumulatorSize p)) (PitchDetector.m_accumulator p).

(** The [k]-th window of [N] samples on a stream, windows being [H] samples
    apart, and the number of whole windows on a stream of [len] samples. *)
Definition window (N H : nat) (stream : list sample) (k : nat) : list sample :=
  take N (drop (k * H) stream).

Definition window_count (N H len : nat) : nat :=
  if decide (len < N) then 0 else (len - N) / H + 1.

(** The states of a controller: as constructed, and after any call of
    [start] (whatever the stream answers), [stop], [setThreshold],
    [onAudioReady] and [onErrorAfterClose]. The calls follow each other:
    the model is sequential. *)
Inductive controller_reachable : PitchDetector.PitchDetector → Prop :=
  | reach_constructed : controller_reachable PitchDetector.new
  | reach_start p bufferSize threshold opened started :
      controller_reachable p →
      controller_reachable (PitchDetector.start p bufferSize threshold opened started).1
  | reach_stop p :
      controller_reachable p → controller_reachable (PitchDetector.stop p).1
  | reach_setThreshold p threshold :
      controller_reachable p →
      controller_reachable (PitchDetector.setThreshold p threshold)
  | reach_onAudioReady p audioData p' emitted answer :
      controller_reachable p →
      PitchDetector.onAudioReady p audioData = Some (p', emitted, answer) →
      controller_reachable p'
  | reach_onErrorAfterClose p :
      controller_reachable p →
      controller_reachable (PitchDetector.onErrorAfterClose p).

End ControllerMore.

(** ** More worked configurations *)

Module Worked.

(** A ring of 8 whose write cursor has passed 2^64 and stands at 1, while
    the read cursor stands at 2^64 - 2: three samples are unread, in the
    entries 6, 7 and 0. *)
Definition wrapped_ring : FloatRingBuffer.FloatRingBuffer Z :=
  FloatRingBuffer.mkRing 8 7 [10; 11; 12; 13; 14; 15; 16; 17]%Z 1 (2 ^ 64 - 2).

Definition calls : list (RingOp (T:=Z)) :=
  [Write [1; 2; 3; 4; 5; 6]%Z; Read 4; Reset; Read 1].

End Worked.

(** * Properties *)

(** ** The comparisons of the two instances *)

Module Binary64Order.
Import SpecFloat FloatOps FloatAxioms Binary64.

Ltac sf_cases :=
  repeat match goal with
  | b : bool |- _ => destruct b
  | |- context [Z.compare ?a ?b] => destruct (Z.compare_spec a b)
  | |- context [Pos.compare_cont Eq ?a ?b] =>
      change (Pos.compare_cont Eq a b) with (Pos.compare a b);
      destruct (Pos.compare_spec a b)
  end; simpl; subst; try congruence; try lia.

Lemma SFltb_irrefl x : SFltb x x = false.
Proof.
  unfold SFltb; destruct x as [s|s| |s m e]; simpl; [by destruct s..|done|].
  rewrite Z.compare_refl.
  change (Pos.compare_cont Eq m m) with (Pos.compare m m).
  rewrite Pos.compare_refl. by destruct s.
Qed.

Lemma SFltb_trans x y z : SFltb x y = true → SFltb y z = true → SFltb x z = true.
Proof.
  unfold SFltb.
  destruct x as [sx|sx| |sx mx ex], y as [sy|sy| |sy my ey], z as [sz|sz| |sz mz ez];
    simpl; try congruence; sf_cases.
Qed.

Lemma SFleb_ltb_trans x y z : SFleb x y = true → SFltb y z = true → SFltb x z = true.
Proof.
  unfold SFltb, SFleb.
  destruct x as [sx|sx| |sx mx ex], y as [sy|sy| |sy my ey], z as [sz|sz| |sz mz ez];
    simpl; try congruence; sf_cases.
Qed.

Lemma SFltb_leb_trans x y z : SFltb x y = true → SFleb y z = true → SFltb x z = true.
Proof.
  unfold SFltb, SFleb.
  destruct x as [sx|sx| |sx mx ex], y as [sy|sy| |sy my ey], z as [sz|sz| |sz mz ez];
    simpl; try congruence; sf_cases.
Qed.

#[export] Instance binary64_order lg : DoubleOrder (binary64 lg).
Proof.
  split; simpl; intros *; rewrite ?ltb_spec, ?leb_spec.
  - apply SFltb_irrefl.
  - apply SFltb_trans.
  - apply SFleb_ltb_trans.
  - apply SFltb_leb_trans.
  - reflexivity.
Qed.

End Binary64Order.

Module ExactOrder.
Import Exact.

Lemma Qltb_lt a b : Qltb a b = true ↔ (a < b)%Q.
Proof.
  unfold Qltb. rewrite negb_true_iff. split.
  - intros H. apply Qnot_le_lt. intros Hle. apply Qle_bool_iff in Hle. congruence.
  - intros H. destruct (Qle_bool b a) eqn:E; [|done].
    apply Qle_bool_iff in E. lra.
Qed.

#[export] Instance exact_order lg : DoubleOrder (exact lg).
Proof.
  split; simpl.
  - intros [a|]; simpl; [|done]. destruct (Qltb a a) eqn:E; [|done]. apply Qltb_lt in E. lra.
  - intros [a|] [b|] [c|]; simpl; try done. rewrite !Qltb_lt. lra.
  - intros [a|] [b|] [c|]; simpl; try done. rewrite !Qltb_lt, Qle_bool_iff. lra.
  - intros [a|] [b|] [c|]; simpl; try done. rewrite !Qltb_lt, Qle_bool_iff. lra.
  - reflexivity.
Qed.

End ExactOrder.

(** ** Vectors *)

Lemma store_Some {A : Type} (v : list A) (i : nat) (x : A) :
  i < length v → store v i x = Some (<[i := x]> v).
Proof. intros Hi. unfold store. by rewrite decide_True. Qed.

Lemma store_inv {A : Type} (v v' : list A) (i : nat) (x : A) :
  store v i x = Some v' → i < length v ∧ v' = <[i := x]> v.
Proof. unfold store. case_decide; naive_solver. Qed.

Lemma lookup_nth_default {A : Type} (l : list A) (i : nat) (d : A) :
  i < length l → l !! i = Some (nth i l d).
Proof.
  intros Hi. destruct (lookup_lt_is_Some_2 l i Hi) as [y Hy].
  rewrite Hy. f_equal. symmetry. by apply nth_lookup_Some.
Qed.

(** ** The difference function and its normalization (C1) *)

Section DifferenceProofs.
Context {D : Double}.
Implicit Types (samples : list sample) (det : Yin.YinPitchDetector).

Lemma difference_inner_spec samples tau n i sum :
  i + n + tau ≤ length samples ∨ n = 0 →
  Yin.difference_inner samples tau n i sum
  = Some (foldl (λ acc j, acc + term samples tau j)%D sum (seq i n)).
Proof.
  revert i sum. induction n as [|n IH]; intros i sum Hlen; [done|].
  destruct Hlen as [Hlen|]; [|done]. simpl.
  rewrite (lookup_nth_default samples i fzero) by lia.
  rewrite (lookup_nth_default samples (i + tau) fzero) by lia.
  simpl. rewrite IH by lia. done.
Qed.

Lemma difference_inner_sum samples bufferSize tau :
  bufferSize ≤ length samples →
  Yin.difference_inner samples tau (bufferSize - tau) 0 (dconst 0)
  = Some (Spec.sum_from 0 (bufferSize - tau) (term samples tau)).
Proof. intros Hs. apply difference_inner_spec. lia. Qed.

Lemma difference_outer_spec samples bufferSize n tau diff :
  bufferSize ≤ length samples →
  tau + n ≤ length diff →
  ∃ diff', Yin.difference_outer samples bufferSize n tau diff = Some diff'
    ∧ length diff' = length diff
    ∧ (∀ k, tau ≤ k < tau + n →
         diff' !! k = Some (Spec.sum_from 0 (bufferSize - k) (term samples k)))
    ∧ (∀ k, k < tau ∨ tau + n ≤ k → diff' !! k = diff !! k).
Proof.
  intros Hs. revert tau diff. induction n as [|n IH]; intros tau diff Hlen.
  { exists diff. split_and!; [done|done|intros; lia|done]. }
  simpl. rewrite difference_inner_sum by lia. simpl.
  rewrite store_Some by lia. simpl.
  destruct (IH (S tau) (<[tau := Spec.sum_from 0 (bufferSize - tau) (term samples tau)]> diff))
    as (diff' & -> & Hl & Hin & Hout).
  { rewrite length_insert. lia. }
  exists diff'. rewrite length_insert in Hl. split_and!; [done|done|..].
  - intros k Hk. destruct (decide (k = tau)) as [->|].
    + rewrite Hout by lia. by rewrite list_lookup_insert_eq by lia.
    + apply Hin. lia.
  - intros k Hk. rewrite Hout by lia. apply list_lookup_insert_ne. lia.
Qed.

Lemma computeDifference_spec det samples :
  Yin.m_bufferSize det ≤ length samples →
  length (Yin.m_difference det) = Yin.m_maxLag det + 1 →
  ∃ diff, Yin.computeDifference det samples = Some (Yin.set_difference det diff)
    ∧ length diff = Yin.m_maxLag det + 1
    ∧ ∀ tau, tau ≤ Yin.m_maxLag det →
        diff !! tau = Some (Spec.d samples (Yin.m_bufferSize det) tau).
Proof.
  intros Hs Hl. unfold Yin.computeDifference.
  destruct (difference_outer_spec samples (Yin.m_bufferSize det) (Yin.m_maxLag det) 1
              (replicate (length (Yin.m_difference det)) (dconst 0)) Hs)
    as (diff & -> & Hlen & Hin & Hout).
  { rewrite length_replicate. lia. }
  rewrite length_replicate in Hlen. simpl.
  rewrite store_Some by lia. simpl.
  eexists; split; [done|]. split; [rewrite length_insert; lia|].
  intros tau Htau. unfold Spec.d. case_decide as H0.
  - subst. by rewrite list_lookup_insert_eq by lia.
  - rewrite list_lookup_insert_ne by lia. rewrite Hin by lia. done.
Qed.

Lemma running_step dk rs tau k :
  tau ≤ k → running dk rs tau (S k) = (running dk rs tau k + dk (S k))%D.
Proof.
  intros Hk. unfold running.
  replace (S (S k) - tau) with (S (S k - tau)) by lia.
  rewrite seq_S, foldl_app. simpl. do 2 f_equal. lia.
Qed.

Lemma cumulative_loop_spec (difference : list dbl) dk n tau rs cum :
  (∀ k, tau ≤ k < tau + n → difference !! k = Some (dk k)) →
  tau + n ≤ length cum →
  ∃ cum', Yin.cumulative_loop difference n tau rs cum = Some cum'
    ∧ length cum' = length cum
    ∧ (∀ k, tau ≤ k < tau + n →
         cum' !! k = Some (normalized dk (running dk rs tau k) k))
    ∧ (∀ k, k < tau ∨ tau + n ≤ k → cum' !! k = cum !! k).
Proof.
  revert tau rs cum. induction n as [|n IH]; intros tau rs cum Hd Hlen.
  { exists cum. split_and!; [done|done|intros; lia|done]. }
  simpl. rewrite Hd by lia. simpl.
  set (rs' := (rs + dk tau)%D).
  assert (Hstore : (if (rs' =? dconst 0)%D then store cum tau (dconst 1)
                    else store cum tau (dk tau * of_size tau / rs')%D)
                   = Some (<[tau := normalized dk rs' tau]> cum)).
  { unfold normalized. destruct (rs' =? dconst 0)%D; by rewrite store_Some by lia. }
  rewrite Hstore. simpl.
  destruct (IH (S tau) rs' (<[tau := normalized dk rs' tau]> cum))
    as (cum' & -> & Hl & Hin & Hout).
  { intros k Hk. apply Hd. lia. }
  { rewrite length_insert. lia. }
  rewrite length_insert in Hl.
  assert (Hrun : ∀ k, tau < k → running dk rs' (S tau) k = running dk rs tau k).
  { intros k Hk. unfold running.
    replace (S k - tau) with (S (S k - S tau)) by lia. done. }
  exists cum'. split_and!; [done|done|..].
  - intros k Hk. destruct (decide (k = tau)) as [->|].
    + rewrite Hout by lia. rewrite list_lookup_insert_eq by lia.
      unfold running. replace (S tau - tau) with 1 by lia. done.
    + rewrite Hin by lia. rewrite Hrun by lia. done.
  - intros k Hk. rewrite Hout by lia. apply list_lookup_insert_ne. lia.
Qed.

Lemma computeCumulativeMeanNormalized_spec det samples N :
  length (Yin.m_cumulative det) = Yin.m_maxLag det + 1 →
  (∀ tau, tau ≤ Yin.m_maxLag det → Yin.m_difference det !! tau = Some (Spec.d samples N tau)) →
  ∃ cum, Yin.computeCumulativeMeanNormalized det = Some (Yin.set_cumulative det cum)
    ∧ length cum = Yin.m_maxLag det + 1
    ∧ ∀ tau, tau ≤ Yin.m_maxLag det → cum !! tau = Some (Spec.d' samples N tau).
Proof.
  intros Hl Hd. unfold Yin.computeCumulativeMeanNormalized.
  rewrite store_Some by lia. simpl.
  destruct (cumulative_loop_spec (Yin.m_difference det) (Spec.d samples N)
              (Yin.m_maxLag det) 1 (dconst 0) (<[0 := dconst 1]> (Yin.m_cumulative det)))
    as (cum & -> & Hlen & Hin & Hout).
  { intros k Hk. apply Hd. lia. }
  { rewrite length_insert. lia. }
  rewrite length_insert in Hlen. simpl.
  exists cum. split_and!; [done|lia|].
  intros tau Htau. unfold Spec.d'. case_decide as H0.
  - subst. rewrite Hout by lia. by rewrite list_lookup_insert_eq by lia.
  - rewrite Hin by lia. unfold normalized, Spec.S, Spec.sum_from, running.
    replace (S tau - 1) with tau by lia. done.
Qed.

End DifferenceProofs.

(** ** The lag search (C2) *)

Section SearchProofs.
Context {D : Double}.
Implicit Types (cum : list dbl) (det : Yin.YinPitchDetector).

Lemma descend_spec cum fuel tau :
  tau < length cum → length cum - tau ≤ fuel →
  ∃ tau', Yin.descend cum fuel tau = Some tau' ∧ descent_end cum tau tau'.
Proof.
  revert tau. induction fuel as [|fuel IH]; intros tau Hlt Hfuel; [lia|].
  simpl. case_decide as Hnext.
  - destruct (lookup_lt_is_Some_2 cum (tau + 1) Hnext) as [b Hb].
    destruct (lookup_lt_is_Some_2 cum tau Hlt) as [a Ha].
    rewrite Hb, Ha. simpl. destruct (b <? a)%D eqn:Hba.
    + destruct (IH (S tau)) as (tau' & -> & Hr & Hdown & Hstop); [lia..|].
      exists tau'. split; [done|]. split_and!; [lia|lia| |done].
      intros k Hk. destruct (decide (k = tau)) as [->|]; [|apply Hdown; lia].
      exists a, b. done.
    + exists tau. split; [done|]. split_and!; [lia|lia|intros; lia|].
      right. split; [done|]. intros (a' & b' & Ha' & Hb' & Hlt'). congruence.
  - exists tau. split; [done|]. split_and!; [lia|lia|intros; lia|]. left. lia.
Qed.

Lemma threshold_scan_spec cum threshold n tau :
  tau + n = length cum →
  (Yin.threshold_scan cum threshold n tau = Some None
     ∧ ∀ k, tau ≤ k < length cum → not_below cum threshold k)
  ∨ (∃ first tau' p, Yin.threshold_scan cum threshold n tau = Some (Some (tau', p))
       ∧ tau ≤ first ∧ crossing cum threshold tau first tau' p).
Proof.
  revert tau. induction n as [|n IH]; intros tau Hlen.
  { left. split; [done|]. intros; lia. }
  simpl. destruct (lookup_lt_is_Some_2 cum tau) as [c Hc]; [lia|].
  rewrite Hc. simpl. destruct (c <? threshold)%D eqn:Hct.
  - right. destruct (descend_spec cum (length cum) tau) as (tau' & -> & Hend); [lia..|].
    simpl. destruct (lookup_lt_is_Some_2 cum tau') as [c' Hc']; [apply Hend|].
    rewrite Hc'. simpl. exists tau, tau', (dconst 1 - c')%D.
    split_and!; [done|done|..]. split_and!; [intros; lia|by exists c|done|by exists c'].
  - destruct (IH (S tau)) as [[-> Hnone]|(first & tau' & p & -> & Hge & Hall & Hrest)]; [lia|..].
    + left. split; [done|]. intros k Hk.
      destruct (decide (k = tau)) as [->|]; [by exists c|apply Hnone; lia].
    + right. exists first, tau', p. split_and!; [done|lia|]. split; [|done].
      intros k Hk. destruct (decide (k = tau)) as [->|]; [by exists c|apply Hall; lia].
Qed.

Lemma minimum_scan_total cum n tau minValue candidate :
  tau + n ≤ length cum →
  ∃ m c, Yin.minimum_scan cum n tau minValue candidate = Some (m, c)
    ∧ ((m = minValue ∧ c = candidate) ∨ (tau ≤ c < tau + n ∧ cum !! c = Some m)).
Proof.
  revert tau minValue candidate. induction n as [|n IH]; intros tau m0 c0 Hlen.
  { exists m0, c0. split; [done|]. by left. }
  simpl. destruct (lookup_lt_is_Some_2 cum tau) as [v Hv]; [lia|].
  rewrite Hv. simpl. destruct (v <? m0)%D.
  - destruct (IH (S tau) v tau) as (m & c & -> & [[-> ->]|[Hc Hm]]); [lia|..];
      eexists _, _; (split; [done|]); right; [split; [lia|done]|split; [lia|done]].
  - destruct (IH (S tau) m0 c0) as (m & c & -> & [[-> ->]|[Hc Hm]]); [lia|..];
      eexists _, _; (split; [done|]); [by left|right; split; [lia|done]].
Qed.

Lemma minimum_scan_spec `{!DoubleOrder D} cum n tau minValue candidate :
  tau + n ≤ length cum →
  ∃ m c, Yin.minimum_scan cum n tau minValue candidate = Some (m, c)
    ∧ ((m = minValue ∧ c = candidate
         ∧ ∀ k, tau ≤ k < tau + n → not_below cum minValue k)
       ∨ ((m <? minValue)%D = true ∧ first_minimum cum tau (tau + n) c m)).
Proof.
  revert tau minValue candidate. induction n as [|n IH]; intros tau m0 c0 Hlen.
  { exists m0, c0. split; [done|]. left. split_and!; [done|done|intros; lia]. }
  simpl. destruct (lookup_lt_is_Some_2 cum tau) as [v Hv]; [lia|].
  rewrite Hv. simpl. destruct (v <? m0)%D eqn:Hvm.
  - destruct (IH (S tau) v tau) as (m & c & -> & [(-> & -> & Hnb)|(Hlt & Hc & Hm & Hmin & Hfirst)]);
      [lia|..]; eexists _, _; (split; [done|]); right.
    + split; [done|]. split_and!; [lia|lia|done| |intros; lia].
      intros k Hk. destruct (decide (k = tau)) as [->|]; [|apply Hnb; lia].
      exists v. split; [done|apply dltb_irrefl].
    + split; [by eapply dltb_trans|]. split_and!; [lia|lia|done|..].
      * intros k Hk. destruct (decide (k = tau)) as [->|]; [|apply Hmin; lia].
        exists v. split; [done|]. destruct (v <? m)%D eqn:E; [|done].
        pose proof (dltb_trans _ _ _ Hlt E) as Hmm. by rewrite dltb_irrefl in Hmm.
      * intros k w Hk Hw. destruct (decide (k = tau)) as [->|]; [|apply (Hfirst k w); [lia|done]].
        assert (w = v) as -> by congruence.
        destruct (v <=? m)%D eqn:E; [|done].
        pose proof (dleb_dltb_trans _ _ _ E Hlt) as Hvv. by rewrite dltb_irrefl in Hvv.
  - destruct (IH (S tau) m0 c0) as (m & c & -> & [(-> & -> & Hnb)|(Hlt & Hc & Hm & Hmin & Hfirst)]);
      [lia|..]; eexists _, _; (split; [done|]).
    + left. split_and!; [done|done|]. intros k Hk.
      destruct (decide (k = tau)) as [->|]; [by exists v|apply Hnb; lia].
    + right. split; [done|]. split_and!; [lia|lia|done|..].
      * intros k Hk. destruct (decide (k = tau)) as [->|]; [|apply Hmin; lia].
        exists v. split; [done|]. destruct (v <? m)%D eqn:E; [|done].
        pose proof (dltb_trans _ _ _ E Hlt). congruence.
      * intros k w Hk Hw. destruct (decide (k = tau)) as [->|]; [|apply (Hfirst k w); [lia|done]].
        assert (w = v) as -> by congruence.
        destruct (v <=? m)%D eqn:E; [|done].
        pose proof (dleb_dltb_trans _ _ _ E Hlt). congruence.
Qed.

End SearchProofs.

Section SearchTheorems.
Context {D : Double}.
Implicit Types (cum : list dbl) (det : Yin.YinPitchDetector).

Lemma absoluteThreshold_total det :
  ∃ tau p, Yin.absoluteThreshold det = Some (tau, p)
    ∧ (tau = 0 ∨ 2 ≤ tau < length (Yin.m_cumulative det)).
Proof.
  unfold Yin.absoluteThreshold.
  destruct (decide (2 ≤ length (Yin.m_cumulative det))) as [Hlen|Hlen].
  - destruct (threshold_scan_spec (Yin.m_cumulative det) (Yin.m_threshold det)
                (length (Yin.m_cumulative det) - 2) 2)
      as [[-> _]|(first & tau & p & -> & Hge & _ & _ & Hend & _)]; [lia|..]; simpl.
    + destruct (minimum_scan_total (Yin.m_cumulative det)
                  (length (Yin.m_cumulative det) - 2) 2 infinity 0)
        as (m & c & -> & Hc); [lia|]. simpl.
      destruct (isfinite m); eexists _, _; (split; [done|]); [|by left].
      destruct Hc as [[_ ->]|[Hc _]]; [by left|right; lia].
    + eexists _, _. split; [done|]. right. destruct Hend as [Hend _]. lia.
  - replace (length (Yin.m_cumulative det) - 2) with 0 by lia. simpl.
    destruct (isfinite infinity); eexists _, _; (split; [done|]); by left.
Qed.

Lemma absoluteThreshold_outcome `{!DoubleOrder D} det :
  ∃ tau p, Yin.absoluteThreshold det = Some (tau, p) ∧ search_outcome det tau p.
Proof.
  unfold Yin.absoluteThreshold, search_outcome.
  set (cum := Yin.m_cumulative det). set (thr := Yin.m_threshold det).
  destruct (decide (2 ≤ length cum)) as [Hlen|Hlen].
  - destruct (threshold_scan_spec cum thr (length cum - 2) 2)
      as [[-> Hnone]|(first & tau & p & -> & Hge & Hcross)]; [lia|..]; simpl.
    + destruct (minimum_scan_spec cum (length cum - 2) 2 infinity 0)
        as (m & c & -> & Hc); [lia|]. simpl.
      replace (2 + (length cum - 2)) with (length cum) in Hc by lia.
      destruct Hc as [(-> & -> & Hnb)|(Hlt & Hmin)].
      * rewrite isfinite_infinity. eexists _, _. split; [done|]. right.
        split; [done|]. right. split_and!; [done|done|]. by left.
      * destruct (isfinite m) eqn:Hfin; eexists _, _; (split; [done|]); right;
          (split; [done|]).
        -- left. by exists m.
        -- right. split_and!; [done|done|]. right. by exists c, m.
    + eexists _, _. split; [done|]. left. by exists first.
  - replace (length cum - 2) with 0 by lia. simpl.
    rewrite isfinite_infinity. eexists _, _. split; [done|]. right.
    split; [intros; lia|]. right. split_and!; [done|done|]. left. intros; lia.
Qed.

End SearchTheorems.

(** ** [processBuffer]: it always returns, and what it returns (C1, C5) *)

Section ProcessBufferProofs.
Context {D : Double}.
Variable clamp : dbl → dbl → dbl → dbl.
Variable parabolicInterpolation : nat → list dbl → option dbl.
Variable midiFromFrequency : dbl → dbl.
Variable noteNameFromMidi : dbl → option string.
(** Both copies' helpers stay inside their arrays. *)
Hypothesis interpolation_total : ∀ tau values,
  0 < tau → tau + 1 < length values → is_Some (parabolicInterpolation tau values).
Hypothesis noteName_total : ∀ m, is_Some (noteNameFromMidi m).
Implicit Types (det : Yin.YinPitchDetector) (arr : list sample).

Local Abbreviation processBuffer :=
  (Yin.processBuffer clamp parabolicInterpolation midiFromFrequency noteNameFromMidi).
Local Abbreviation analysis := (Yin.analysis parabolicInterpolation).
Local Abbreviation refine := (Yin.refine parabolicInterpolation).

Lemma refine_total det tau :
  length (Yin.m_cumulative det) = Yin.m_maxLag det + 1 →
  is_Some (refine det tau).
Proof.
  intros Hl. unfold Yin.refine. case_decide as H; [|done].
  apply interpolation_total; lia.
Qed.

Lemma analysis_total det arr :
  detector_wf det → Yin.m_bufferSize det ≤ length arr →
  ∃ det2 tau p refinedTau,
    analysis det arr = Some (det2, tau, p, refinedTau)
    ∧ detector_wf det2
    ∧ Yin.m_sampleRate det2 = Yin.m_sampleRate det
    ∧ Yin.m_bufferSize det2 = Yin.m_bufferSize det
    ∧ Yin.m_threshold det2 = Yin.m_threshold det
    ∧ (∀ k, k ≤ Yin.m_maxLag det →
         Yin.m_difference det2 !! k = Some (Spec.d arr (Yin.m_bufferSize det) k)
         ∧ Yin.m_cumulative det2 !! k = Some (Spec.d' arr (Yin.m_bufferSize det) k))
    ∧ Yin.absoluteThreshold det2 = Some (tau, p)
    ∧ refine det2 tau = Some refinedTau.
Proof.
  intros (Hlag & Hld & Hlc) Hs. unfold Yin.analysis.
  destruct (computeDifference_spec det arr Hs Hld) as (diff & -> & Hdl & Hd).
  simpl.
  destruct (computeCumulativeMeanNormalized_spec (Yin.set_difference det diff) arr
              (Yin.m_bufferSize det)) as (cum & -> & Hcl & Hc); [done|done|].
  simpl. set (det2 := Yin.set_cumulative (Yin.set_difference det diff) cum).
  destruct (absoluteThreshold_total det2) as (tau & p & Hsearch & Htau).
  rewrite Hsearch. simpl.
  destruct (refine_total det2 tau) as [refinedTau Hr]; [done|].
  rewrite Hr. simpl. exists det2, tau, p, refinedTau.
  split_and!; try done. intros k Hk. split; [by apply Hd|by apply Hc].
Qed.

Lemma processBuffer_run det arr numSamples :
  detector_wf det → numSamples ≤ length arr →
  rejects_input det numSamples = false →
  ∃ det2 tau p refinedTau r,
    analysis det arr = Some (det2, tau, p, refinedTau)
    ∧ processBuffer det (Some arr) numSamples = Some (Yin.set_lastResult det2 r, r)
    ∧ (rejects_estimate det tau refinedTau = true → r = Yin.empty_result)
    ∧ (rejects_estimate det tau refinedTau = false →
         Yin.isValid r = (dconst 0 <? p)%D
         ∧ Yin.frequency r = (Yin.m_sampleRate det / refinedTau)%D
         ∧ Yin.midi r = midiFromFrequency (Yin.frequency r)
         ∧ Yin.cents r = ((Yin.midi r - round (Yin.midi r)) * dconst 100)%D
         ∧ noteNameFromMidi (round (Yin.midi r)) = Some (Yin.noteName r)
         ∧ Yin.probability r = clamp p (dconst 0) (dconst 1)).
Proof.
  intros Hwf Hn Hguard.
  assert (Hnum : ¬ numSamples < Yin.m_bufferSize det).
  { unfold rejects_input in Hguard.
    apply orb_false_iff in Hguard as [Hguard _].
    apply orb_false_iff in Hguard as [Hnum _].
    by apply bool_decide_eq_false in Hnum. }
  destruct (analysis_total det arr Hwf) as
    (det2 & tau & p & refinedTau & Han & Hwf2 & Hsr2 & _ & _ & _ & _ & _); [lia|].
  exists det2, tau, p, refinedTau.
  unfold Yin.processBuffer.
  change (bool_decide (numSamples < Yin.m_bufferSize det) || _ || _)
    with (rejects_input det numSamples).
  rewrite Hguard.
  unfold Yin.analysis in Han |- *.
  destruct (Yin.computeDifference det arr) as [det1|]; [cbn [mbind option_bind] in *|done].
  destruct (Yin.computeCumulativeMeanNormalized det1) as [det2'|]; [cbn [mbind option_bind] in *|done].
  destruct (Yin.absoluteThreshold det2') as [[tau' p']|]; [cbn [mbind option_bind] in *|done].
  destruct (refine det2' tau') as [refinedTau'|] eqn:Hr; [cbn [mbind option_bind] in *|done].
  injection Han as -> -> -> ->.
  unfold rejects_estimate. rewrite <- Hsr2.
  case_decide as Htau.
  { exists Yin.empty_result. split_and!; [done|done|done|].
    rewrite (bool_decide_eq_true_2 _ Htau). done. }
  rewrite (bool_decide_eq_false_2 _ Htau). cbn [orb].
  destruct (refinedTau <=? dconst 0)%D; cbn [orb].
  { exists Yin.empty_result. split_and!; done. }
  destruct (negb (isfinite (Yin.m_sampleRate det2 / refinedTau)%D)
            || (Yin.m_sampleRate det2 / refinedTau <=? dconst 0)%D) eqn:Hf.
  { exists Yin.empty_result. split_and!; done. }
  destruct (noteName_total (round (midiFromFrequency (Yin.m_sampleRate det2 / refinedTau)%D)))
    as [name Hname].
  rewrite Hname. cbn [mbind option_bind]. eexists. split_and!; [done|done|done|].
  intros _. simpl. split_and!; done.
Qed.

Lemma wf_set_lastResult det r : detector_wf det → detector_wf (Yin.set_lastResult det r).
Proof. by intros (? & ? & ?). Qed.

Lemma processBuffer_buffers det arr numSamples :
  detector_wf det →
  Yin.m_bufferSize det ≤ numSamples ≤ length arr →
  2 ≤ Yin.m_maxLag det →
  (Yin.m_sampleRate det <=? dconst 0)%D = false →
  buffers_as_specified processBuffer det arr numSamples.
Proof.
  intros Hwf Hn Hlag Hsr.
  assert (Hguard : rejects_input det numSamples = false).
  { unfold rejects_input. rewrite Hsr.
    rewrite !bool_decide_eq_false_2 by lia. done. }
  destruct (processBuffer_run det arr numSamples Hwf) as
    (det2 & tau & p & refinedTau & r & Han & Hrun & _); [lia|done|].
  destruct (analysis_total det arr Hwf) as
    (det2' & tau' & p' & refinedTau' & Han' & Hwf2 & _ & Hbs & _ & Hbuf & _); [lia|].
  assert (det2' = det2) as -> by congruence.
  exists (Yin.set_lastResult det2 r), r. split; [done|].
  destruct Hwf as (Hmax & _). destruct Hwf2 as (Hmax2 & _).
  split; [rewrite <- Hbs; exact Hmax2|].
  intros k Hk. apply Hbuf. lia.
Qed.

Lemma processBuffer_validity det samples numSamples :
  detector_wf det →
  (∀ arr, samples = Some arr → numSamples ≤ length arr) →
  validity_as_specified processBuffer analysis det samples numSamples.
Proof.
  intros Hwf Hext. unfold validity_as_specified.
  destruct samples as [arr|].
  - destruct (rejects_input det numSamples) eqn:Hguard.
    + exists (Yin.set_lastResult det Yin.empty_result), Yin.empty_result.
      split_and!; [|done|by apply wf_set_lastResult|done|].
      * unfold Yin.processBuffer.
        change (bool_decide (numSamples < Yin.m_bufferSize det) || _ || _)
          with (rejects_input det numSamples).
        by rewrite Hguard.
      * intros arr' _. split; [done|]. intros ?; congruence.
    + destruct (processBuffer_run det arr numSamples Hwf) as
        (det2 & tau & p & refinedTau & r & Han & Hrun & Hrej & Hok); [by apply Hext|done|].
      destruct (analysis_total det arr Hwf) as
        (det2' & tau' & p' & refinedTau' & Han' & Hwf2 & _); [|].
      { unfold rejects_input in Hguard.
        apply orb_false_iff in Hguard as [Hguard _].
        apply orb_false_iff in Hguard as [Hnum _].
        apply bool_decide_eq_false in Hnum. specialize (Hext arr eq_refl). lia. }
      assert (det2' = det2) as -> by congruence.
      exists (Yin.set_lastResult det2 r), r.
      split_and!; [done|done|by apply wf_set_lastResult|done|].
      intros arr' [= <-]. split; [intros ?; congruence|]. intros _.
      exists det2, tau, p, refinedTau. split_and!; [done| |].
      * intros H. rewrite (Hrej H). done.
      * intros H. apply (Hok H).
  - exists (Yin.set_lastResult det Yin.empty_result), Yin.empty_result.
    split_and!; [done|done|by apply wf_set_lastResult|done|done].
Qed.

End ProcessBufferProofs.

(** The invariant holds of a detector as either constructor makes it, and
    [setThreshold] keeps it. *)
Lemma construct_wf {D : Double} clamp (c0 sampleRate : dbl) (bufferSize : nat) (threshold : dbl) :
  detector_wf (Yin.construct clamp c0 sampleRate bufferSize threshold).
Proof. unfold detector_wf. simpl. rewrite !length_replicate. done. Qed.

Lemma setThreshold_wf {D : Double} clamp det (threshold : dbl) :
  detector_wf det → detector_wf (Yin.setThreshold clamp det threshold).
Proof. by intros (? & ? & ?). Qed.

(** *** The helpers of the two copies stay inside their arrays *)

Section Helpers.
Context {D : Double}.

Lemma note_index_range (midiInt : Z) :
  (0 ≤ Z.rem (Z.rem midiInt 12 + 12) 12 < 12)%Z.
Proof.
  pose proof (Z.rem_bound_abs midiInt 12) as H.
  apply Z.rem_bound_pos; lia.
Qed.

Lemma lookupZ_NOTE_NAMES (i : Z) : (0 ≤ i < 12)%Z → is_Some (lookupZ NOTE_NAMES i).
Proof.
  intros Hi. unfold lookupZ. rewrite decide_True by lia.
  apply lookup_lt_is_Some. simpl. lia.
Qed.

Lemma Cpp_noteName_total (m : dbl) : is_Some (Cpp.noteNameFromMidi m).
Proof.
  unfold Cpp.noteNameFromMidi. apply lookupZ_NOTE_NAMES.
  pose proof (note_index_range (int_of_long (lround m))) as H.
  rewrite Z.rem_small; lia.
Qed.

Lemma Dsp_noteName_total (m : dbl) : is_Some (Dsp.noteNameFromMidi m).
Proof.
  unfold Dsp.noteNameFromMidi. destruct (negb (isfinite m)); [done|].
  destruct (lookupZ_NOTE_NAMES _ (note_index_range (int_of_long (lround m)))) as [name ->].
  done.
Qed.

Lemma Cpp_interpolation_total (tau : nat) (values : list dbl) :
  0 < tau → tau + 1 < length values → is_Some (Cpp.parabolicInterpolation tau values).
Proof.
  intros Ht Hl. unfold Cpp.parabolicInterpolation. case_decide; [done|].
  destruct (lookup_lt_is_Some_2 values (tau - 1)) as [y0 ->]; [lia|].
  destruct (lookup_lt_is_Some_2 values tau) as [y1 ->]; [lia|].
  destruct (lookup_lt_is_Some_2 values (tau + 1)) as [y2 ->]; [lia|].
  simpl. by destruct (_ <? _)%D.
Qed.

Lemma Dsp_interpolation_total (tau : nat) (values : list dbl) :
  0 < tau → tau + 1 < length values → is_Some (Dsp.parabolicInterpolation tau values).
Proof.
  intros Ht Hl. unfold Dsp.parabolicInterpolation. case_decide; [done|].
  destruct (lookup_lt_is_Some_2 values (tau - 1)) as [y0 ->]; [lia|].
  destruct (lookup_lt_is_Some_2 values tau) as [y1 ->]; [lia|].
  destruct (lookup_lt_is_Some_2 values (tau + 1)) as [y2 ->]; [lia|].
  simpl. by destruct (_ =? _)%D.
Qed.

End Helpers.

(** ** The statements about [processBuffer] *)

(** C1. For a frame of at least [bufferSize] samples that [processBuffer]
    analyses (its guard passes: maxLag is at least 2 and the sample rate is
    positive, as the configuration of the specification has them), each
    copy's [processBuffer] returns and leaves, at every lag tau up to
    maxLag = bufferSize / 2, d(tau) in the difference buffer and d'(tau) in
    the cumulative buffer: d(0) = 0, d(tau) the sum over i < N - tau of
    (x[i] - x[i + tau])^2, d'(0) = 1, and d'(tau) = 1 when the running sum
    S(tau) is 0 and d(tau) * tau / S(tau) otherwise. *)
Theorem C1_processBuffer_computes_difference_and_cmnd
    {D : Double} (det : Yin.YinPitchDetector) (arr : list sample) (numSamples : nat) :
  detector_wf det →
  Yin.m_bufferSize det ≤ numSamples ≤ length arr →
  2 ≤ Yin.m_maxLag det →
  (Yin.m_sampleRate det <=? dconst 0)%D = false →
  buffers_as_specified Cpp.processBuffer det arr numSamples
  ∧ buffers_as_specified Dsp.processBuffer det arr numSamples.
Proof.
  intros Hwf Hn Hlag Hsr. split.
  - apply processBuffer_buffers;
      auto using Cpp_interpolation_total, Cpp_noteName_total.
  - apply processBuffer_buffers;
      auto using Dsp_interpolation_total, Dsp_noteName_total.
Qed.

(** C5. On a detector as its constructor makes it, and for a sample pointer
    that is null or points to at least [numSamples] samples, each copy's
    [processBuffer] returns a result (no access leaves a vector, nothing is
    signalled). The result is the empty one, [isValid = false], for a null
    pointer, for fewer than bufferSize samples, maxLag < 2 or a sample rate
    <= 0, and when the search yields the lag 0, the refined lag is <= 0 or
    the frequency is not finite or <= 0; in the remaining cases [isValid]
    is [probability > 0.0]. *)
Theorem C5_processBuffer_never_fails
    {D : Double} (det : Yin.YinPitchDetector) (samples : option (list sample))
    (numSamples : nat) :
  detector_wf det →
  (∀ arr, samples = Some arr → numSamples ≤ length arr) →
  validity_as_specified Cpp.processBuffer (Yin.analysis Cpp.parabolicInterpolation)
    det samples numSamples
  ∧ validity_as_specified Dsp.processBuffer (Yin.analysis Dsp.parabolicInterpolation)
      det samples numSamples.
Proof.
  intros Hwf Hext. split.
  - apply processBuffer_validity;
      auto using Cpp_interpolation_total, Cpp_noteName_total.
  - apply processBuffer_validity;
      auto using Dsp_interpolation_total, Dsp_noteName_total.
Qed.

(** C2. The lag search on the cumulative buffer of a detector returns, with
    probability = 1 - d'(tau):
    - the first tau >= 2 with d'(tau) < threshold, advanced along strictly
      smaller successors until the next value is not smaller or the buffer
      ends;
    - when no tau of the range is below the threshold, the first lag that
      holds the global minimum of the range, provided that minimum is
      finite;
    - the lag 0 with probability 0 when the range holds no finite minimum,
      as when it is empty (fewer than three entries, maxLag < 2);
    and [processBuffer], in either copy, reports the empty result,
    [isValid = false], whenever its search returns the lag 0. *)
Theorem C2_absoluteThreshold_search
    {D : Double} `{!DoubleOrder D} (det : Yin.YinPitchDetector) :
  (∃ tau p, Yin.absoluteThreshold det = Some (tau, p)
     ∧ search_outcome det tau p
     ∧ (length (Yin.m_cumulative det) ≤ 2 → tau = 0 ∧ p = dconst 0))
  ∧ (∀ arr numSamples det2 p refinedTau,
       detector_wf det → numSamples ≤ length arr →
       rejects_input det numSamples = false →
       Yin.analysis Cpp.parabolicInterpolation det arr = Some (det2, 0, p, refinedTau) →
       ∃ det', Cpp.processBuffer det (Some arr) numSamples = Some (det', Yin.empty_result)
               ∧ Yin.isValid Yin.empty_result = false)
  ∧ (∀ arr numSamples det2 p refinedTau,
       detector_wf det → numSamples ≤ length arr →
       rejects_input det numSamples = false →
       Yin.analysis Dsp.parabolicInterpolation det arr = Some (det2, 0, p, refinedTau) →
       ∃ det', Dsp.processBuffer det (Some arr) numSamples = Some (det', Yin.empty_result)
               ∧ Yin.isValid Yin.empty_result = false).
Proof.
  split_and!.
  - destruct (absoluteThreshold_outcome det) as (tau & p & Heq & Hout).
    exists tau, p. split_and!; [done|done|].
    intros Hlen. destruct Hout as [(first & Hge & _ & _ & Hend & _)|[_ Hfall]].
    + destruct Hend as [Hend _]. lia.
    + destruct Hfall as [(m & Hmin & _)|(-> & -> & _)]; [|done].
      destruct Hmin as [Hc _]. lia.
  - intros arr numSamples det2 p refinedTau Hwf Hn Hguard Han.
    destruct (processBuffer_run Cpp.clamp Cpp.parabolicInterpolation Cpp.midiFromFrequency
                Cpp.noteNameFromMidi Cpp_interpolation_total Cpp_noteName_total
                det arr numSamples Hwf Hn Hguard)
      as (det2' & tau' & p' & refinedTau' & r & Han' & Hrun & Hrej & _).
    rewrite Han in Han'. injection Han' as <- <- <- <-.
    rewrite (Hrej eq_refl) in Hrun. eexists. split; [exact Hrun|done].
  - intros arr numSamples det2 p refinedTau Hwf Hn Hguard Han.
    destruct (processBuffer_run Dsp.clamp Dsp.parabolicInterpolation Dsp.midiFromFrequency
                Dsp.noteNameFromMidi Dsp_interpolation_total Dsp_noteName_total
                det arr numSamples Hwf Hn Hguard)
      as (det2' & tau' & p' & refinedTau' & r & Han' & Hrun & Hrej & _).
    rewrite Han in Han'. injection Han' as <- <- <- <-.
    rewrite (Hrej eq_refl) in Hrun. eexists. split; [exact Hrun|done].
Qed.

(** ** Monotonicity in the threshold (C6) *)

Section ThresholdCases.
Context {D : Double}.
Implicit Types (cum : list dbl) (det : Yin.YinPitchDetector).

Lemma absoluteThreshold_cases det :
  (∃ first tau p, Yin.absoluteThreshold det = Some (tau, p) ∧ 2 ≤ first
     ∧ crossing (Yin.m_cumulative det) (Yin.m_threshold det) 2 first tau p)
  ∨ ((∀ k, 2 ≤ k < length (Yin.m_cumulative det) →
        not_below (Yin.m_cumulative det) (Yin.m_threshold det) k)
     ∧ Yin.absoluteThreshold det = fallback (Yin.m_cumulative det)).
Proof.
  unfold Yin.absoluteThreshold, fallback.
  set (cum := Yin.m_cumulative det). set (thr := Yin.m_threshold det).
  destruct (decide (2 ≤ length cum)) as [Hlen|Hlen].
  - destruct (threshold_scan_spec cum thr (length cum - 2) 2)
      as [[-> Hnone]|(first & tau & p & -> & Hge & Hcross)]; [lia|..].
    + right. done.
    + left. by exists first, tau, p.
  - right. replace (length cum - 2) with 0 by lia. split; [intros; lia|done].
Qed.

End ThresholdCases.

(** The stages of the analysis do not look at the threshold before the
    search: the cumulative buffer is that of the frame. *)
Section AnalysisBuffer.
Context {D : Double}.
Variable parabolicInterpolation : nat → list dbl → option dbl.
Hypothesis interpolation_total : ∀ tau values,
  0 < tau → tau + 1 < length values → is_Some (parabolicInterpolation tau values).

Lemma analysis_buffer (det : Yin.YinPitchDetector) (frame : list sample) (t : dbl) :
  detector_wf det → Yin.m_bufferSize det ≤ length frame →
  ∃ det2 tau p refinedTau,
    Yin.analysis parabolicInterpolation (Yin.set_threshold det t) frame
      = Some (det2, tau, p, refinedTau)
    ∧ Yin.absoluteThreshold det2 = Some (tau, p)
    ∧ Yin.refine parabolicInterpolation det2 tau = Some refinedTau
    ∧ Yin.m_threshold det2 = t
    ∧ Yin.m_sampleRate det2 = Yin.m_sampleRate det
    ∧ Yin.m_maxLag det2 = Yin.m_maxLag det
    ∧ Yin.m_cumulative det2
      = (λ k, Spec.d' frame (Yin.m_bufferSize det) k) <$> seq 0 (Yin.m_maxLag det + 1).
Proof.
  intros Hwf Hlen.
  assert (Hwf' : detector_wf (Yin.set_threshold det t)) by (by destruct Hwf as (? & ? & ?)).
  destruct (analysis_total parabolicInterpolation interpolation_total
              (Yin.set_threshold det t) frame Hwf' Hlen)
    as (det2 & tau & p & refinedTau & Han & Hwf2 & Hsr & Hbs & Hthr & Hbuf & Hsearch & Hrefine).
  exists det2, tau, p, refinedTau. split_and!; try done.
  - destruct Hwf as (Hm & _). destruct Hwf2 as (Hm2 & _).
    rewrite Hm2, Hbs. simpl. by rewrite Hm.
  - destruct Hwf2 as (Hm2 & _ & Hlc).
    assert (Hmax : Yin.m_maxLag det2 = Yin.m_maxLag det).
    { destruct Hwf as (Hm & _). rewrite Hm2, Hbs. simpl. by rewrite Hm. }
    apply list_eq. intros k. rewrite list_lookup_fmap.
    destruct (decide (k ≤ Yin.m_maxLag det)) as [Hk|Hk].
    + destruct (Hbuf k Hk) as [_ ->]. rewrite lookup_seq_lt by lia. done.
    + rewrite lookup_ge_None_2 by lia. rewrite lookup_ge_None_2; [done|].
      rewrite length_seq. lia.
Qed.

End AnalysisBuffer.

(** ** IEEE 754 binary64: what one rounding does

    The primitive floats are specified by [SpecFloat]: an operation
    computes its exact result as an integer mantissa and an exponent and
    rounds it with [binary_round_aux]. The lemmas of this module read that
    rounding as arithmetic on integers. The value of a finite double is
    kept as the integer [SV x], its multiple of 2^-1074. *)

Module Binary64Rounding.
Import SpecFloat FloatOps FloatAxioms Binary64Values.
Local Open Scope Z_scope.

Lemma fexp_fexp64 e : fexp prec emax e = fexp64 e.
Proof. reflexivity. Qed.

(** *** Digits *)

Lemma digits2_pos_size m : digits2_pos m = Pos.size m.
Proof. induction m as [m IH|m IH|]; simpl; congruence. Qed.

Lemma digits2_pos_bounds m :
  2 ^ (Zpos (digits2_pos m) - 1) ≤ Zpos m < 2 ^ Zpos (digits2_pos m).
Proof.
  rewrite digits2_pos_size. split.
  - pose proof (Pos.size_le m) as H.
    assert (H' : (Zpos (2 ^ Pos.size m) ≤ Zpos m~0)) by exact H.
    rewrite Pos2Z.inj_pow in H'.
    replace (Zpos (Pos.size m)) with (Zpos (Pos.size m) - 1 + 1) in H' by lia.
    rewrite Z.pow_add_r in H' by lia. lia.
  - pose proof (Pos.size_gt m) as H.
    assert (H' : (Zpos m < Zpos (2 ^ Pos.size m))) by exact H.
    by rewrite Pos2Z.inj_pow in H'.
Qed.

Lemma Zdigits2_bounds m :
  0 < m → 2 ^ (Zdigits2 m - 1) ≤ m < 2 ^ Zdigits2 m ∧ 0 < Zdigits2 m.
Proof.
  destruct m as [|p|p]; try lia. intros _. simpl.
  split; [apply digits2_pos_bounds|lia].
Qed.

(** The number of digits is determined by the two powers of two around. *)
Lemma Zdigits2_unique m d : 0 < d → 2 ^ (d - 1) ≤ m < 2 ^ d → Zdigits2 m = d.
Proof.
  intros Hd [Hlo Hhi].
  assert (0 < m) by (pose proof (Z.pow_pos_nonneg 2 (d - 1)); lia).
  destruct (Zdigits2_bounds m) as [[Hlo' Hhi'] Hpos]; [done|].
  destruct (Z.lt_trichotomy (Zdigits2 m) d) as [Hlt|[Heq|Hgt]]; [|done|].
  - assert (2 ^ Zdigits2 m ≤ 2 ^ (d - 1)) by (apply Z.pow_le_mono_r; lia). lia.
  - assert (2 ^ d ≤ 2 ^ (Zdigits2 m - 1)) by (apply Z.pow_le_mono_r; lia). lia.
Qed.

(** *** Shifting a mantissa to the right *)

Lemma shr_1_spec mrs :
  0 ≤ shr_m mrs →
  shr_m (shr_1 mrs) = shr_m mrs / 2
  ∧ inexact (shr_1 mrs) = negb (Z.even (shr_m mrs)) || inexact mrs.
Proof.
  destruct mrs as [m r s]. unfold inexact. simpl. intros Hm.
  destruct m as [|[p|p|]|p]; simpl; try lia.
  - done.
  - split; [|by destruct r, s]. rewrite Pos2Z.inj_xI.
    apply Z.div_unique with 1; lia.
  - split; [|by destruct r, s]. rewrite Pos2Z.inj_xO.
    apply Z.div_unique with 0; lia.
  - split; [done|by destruct r, s].
Qed.

Lemma iter_pos_nat {A : Type} (f : A → A) p x :
  iter_pos f p x = Nat.iter (Pos.to_nat p) f x.
Proof.
  revert x. induction p as [p IH|p IH|]; intros x; cbn [iter_pos].
  - rewrite !IH, Pos2Nat.inj_xI.
    replace (S (2 * Pos.to_nat p))%nat with (Pos.to_nat p + S (Pos.to_nat p))%nat by lia.
    rewrite Nat.iter_add, Nat.iter_succ_r. done.
  - rewrite !IH, Pos2Nat.inj_xO.
    replace (2 * Pos.to_nat p)%nat with (Pos.to_nat p + Pos.to_nat p)%nat by lia.
    by rewrite Nat.iter_add.
  - done.
Qed.

Lemma mod_pow2_succ m n :
  0 ≤ n →
  (m mod 2 ^ (n + 1) =? 0) = (m mod 2 ^ n =? 0) && Z.even (m / 2 ^ n).
Proof.
  intros Hn. rewrite Z.pow_add_r, Z.pow_1_r by lia.
  assert (Hp : 0 < 2 ^ n) by (apply Z.pow_pos_nonneg; lia).
  rewrite Z.rem_mul_r by lia.
  pose proof (Z.mod_pos_bound m (2 ^ n) Hp) as Hb.
  pose proof (Z.mod_pos_bound (m / 2 ^ n) 2 ltac:(lia)) as Hb2.
  rewrite Zeven_mod.
  destruct (Z.eqb_spec (m mod 2 ^ n) 0) as [E1|E1];
    destruct (Z.eqb_spec ((m / 2 ^ n) mod 2) 0) as [E2|E2]; simpl;
    apply Z.eqb_eq || apply Z.eqb_neq; nia.
Qed.

Lemma shr_iter n mrs :
  0 ≤ shr_m mrs →
  shr_m (Nat.iter n shr_1 mrs) = shr_m mrs / 2 ^ Z.of_nat n
  ∧ inexact (Nat.iter n shr_1 mrs)
    = negb (shr_m mrs mod 2 ^ Z.of_nat n =? 0) || inexact mrs.
Proof.
  intros Hm. induction n as [|n [IHm IHi]].
  - simpl. rewrite Z.div_1_r, Z.mod_1_r. done.
  - cbn [Nat.iter nat_rect].
    assert (Hpos : 0 ≤ shr_m (Nat.iter n shr_1 mrs)).
    { rewrite IHm. apply Z.div_pos; [done|]. apply Z.pow_pos_nonneg; lia. }
    destruct (shr_1_spec _ Hpos) as [Hm1 Hi1].
    change (nat_rect (λ _, shr_record) mrs (λ _, shr_1) n) with (Nat.iter n shr_1 mrs).
    rewrite Hm1, Hi1, IHm, IHi.
    replace (Z.of_nat (S n)) with (Z.of_nat n + 1) by lia.
    split.
    + rewrite Z.pow_add_r, Z.pow_1_r by lia.
      rewrite Z.div_div; [done|apply Z.pow_nonzero; lia|lia].
    + rewrite mod_pow2_succ by lia.
      destruct (shr_m mrs mod 2 ^ Z.of_nat n =? 0), (Z.even (shr_m mrs / 2 ^ Z.of_nat n)),
        (inexact mrs); done.
Qed.

Lemma shr_spec mrs e n :
  0 ≤ shr_m mrs →
  (shr mrs e n).2 = e + Z.max 0 n
  ∧ shr_m (shr mrs e n).1 = shr_m mrs / 2 ^ Z.max 0 n
  ∧ inexact (shr mrs e n).1
    = negb (shr_m mrs mod 2 ^ Z.max 0 n =? 0) || inexact mrs.
Proof.
  intros Hm. destruct n as [|p|p]; cbn [shr fst snd].
  - rewrite Z.max_id, Z.add_0_r. change (2 ^ 0) with 1.
    rewrite Z.div_1_r, Z.mod_1_r. done.
  - rewrite iter_pos_nat. destruct (shr_iter (Pos.to_nat p) mrs Hm) as [H1 H2].
    rewrite positive_nat_Z in H1, H2.
    replace (Z.max 0 (Z.pos p)) with (Z.pos p) by lia. done.
  - replace (Z.max 0 (Z.neg p)) with 0 by lia. rewrite Z.add_0_r. change (2 ^ 0) with 1.
    rewrite Z.div_1_r, Z.mod_1_r. done.
Qed.

Lemma loc_exact_iff mrs : loc_of_shr_record mrs = loc_Exact ↔ inexact mrs = false.
Proof. destruct mrs as [m [] []]; unfold inexact; simpl; split; congruence. Qed.

Lemma record_of_loc_m m l : shr_m (shr_record_of_loc m l) = m.
Proof. by destruct l as [|[]]. Qed.

Lemma record_of_loc_inexact m l :
  inexact (shr_record_of_loc m l) = false ↔ l = loc_Exact.
Proof. destruct l as [|[]]; unfold inexact; simpl; split; congruence. Qed.

Lemma shr_fexp_spec m e l :
  0 ≤ m →
  let n := Z.max 0 (fexp64 (Zdigits2 m + e) - e) in
  (shr_fexp prec emax m e l).2 = e + n
  ∧ shr_m (shr_fexp prec emax m e l).1 = m / 2 ^ n
  ∧ (loc_of_shr_record (shr_fexp prec emax m e l).1 = loc_Exact
     ↔ m mod 2 ^ n = 0 ∧ l = loc_Exact).
Proof.
  intros Hm n. unfold shr_fexp. rewrite fexp_fexp64.
  destruct (shr_spec (shr_record_of_loc m l) e (fexp64 (Zdigits2 m + e) - e))
    as (H1 & H2 & H3); [by rewrite record_of_loc_m|].
  rewrite record_of_loc_m in H2, H3. fold n in H1, H2, H3.
  split; [done|]. split; [done|].
  rewrite loc_exact_iff, H3, orb_false_iff, negb_false_iff, Z.eqb_eq.
  by rewrite record_of_loc_inexact.
Qed.

Lemma round_nearest_even_cases m l :
  (round_nearest_even m l = m ∨ round_nearest_even m l = m + 1)
  ∧ (l = loc_Exact → round_nearest_even m l = m).
Proof.
  destruct l as [|[]]; cbn [round_nearest_even].
  - split; [by left|done].
  - destruct (Z.even m); (split; [auto|done]).
  - split; [by left|done].
  - split; [by right|done].
Qed.

(** *** The powers of two the proofs compare *)

Lemma pow2_pos n : 0 ≤ n → 0 < 2 ^ n.
Proof. intros. apply Z.pow_pos_nonneg; lia. Qed.

Lemma pow2_le a b : 0 ≤ a ≤ b → 2 ^ a ≤ 2 ^ b.
Proof. intros. apply Z.pow_le_mono_r; lia. Qed.

Lemma pow2_lt a b : 0 ≤ a < b → 2 ^ a < 2 ^ b.
Proof. intros. apply Z.pow_lt_mono_r; lia. Qed.

Lemma pow2_add a b : 0 ≤ a → 0 ≤ b → 2 ^ (a + b) = 2 ^ a * 2 ^ b.
Proof. intros. apply Z.pow_add_r; lia. Qed.

(** [m / 2^n] keeps a mantissa between the powers of two that bound it. *)
Lemma div_pow2_lt m n d : 0 ≤ n ≤ d → m < 2 ^ d → m / 2 ^ n < 2 ^ (d - n).
Proof.
  intros Hn Hm. apply Z.div_lt_upper_bound; [apply pow2_pos; lia|].
  rewrite <- pow2_add by lia. by replace (n + (d - n)) with d by lia.
Qed.

Lemma div_pow2_ge m n d : 0 ≤ n ≤ d → 2 ^ d ≤ m → 2 ^ (d - n) ≤ m / 2 ^ n.
Proof.
  intros Hn Hm. apply Z.div_le_lower_bound; [apply pow2_pos; lia|].
  rewrite <- pow2_add by lia. by replace (n + (d - n)) with d by lia.
Qed.

(** *** One rounding *)

Lemma shift_normal mx ex :
  0 ≤ mx → ex ≤ fexp64 (Zdigits2 mx + ex) →
  normal_at (mx / 2 ^ (fexp64 (Zdigits2 mx + ex) - ex)) (fexp64 (Zdigits2 mx + ex)).
Proof.
  intros Hm Hex. set (E := fexp64 (Zdigits2 mx + ex)) in *.
  assert (HE : -1074 ≤ E) by (unfold E, fexp64; lia).
  destruct (decide (mx = 0)) as [->|Hne].
  { rewrite Z.div_0_l by (apply Z.pow_nonzero; lia).
    split; [split; [lia|by apply pow2_pos]|]. split; [done|].
    left. unfold E, fexp64 in *. simpl in *. lia. }
  destruct (Zdigits2_bounds mx) as [[Hlo Hhi] Hd]; [lia|].
  set (d := Zdigits2 mx) in *.
  assert (Hn : d - 53 ≤ E - ex) by (unfold E, fexp64; lia).
  split; [split|split; [done|]].
  - apply Z.div_pos; [lia|apply pow2_pos; lia].
  - destruct (decide (E - ex ≤ d)) as [Hle|Hgt].
    + pose proof (div_pow2_lt mx (E - ex) d ltac:(lia) Hhi).
      pose proof (pow2_le (d - (E - ex)) 53 ltac:(lia)). lia.
    + rewrite Z.div_small; [by apply pow2_pos|].
      pose proof (pow2_le d (E - ex) ltac:(lia)). lia.
  - destruct (decide (E = -1074)) as [|Hne']; [by left|right].
    assert (HEq : E - ex = d - 53) by (unfold E, fexp64 in *; lia).
    rewrite HEq.
    pose proof (div_pow2_ge mx (d - 53) (d - 1) ltac:(lia) Hlo) as H.
    by replace (d - 1 - (d - 53)) with 52 in H by lia.
Qed.

Lemma binary_round_aux_encode sx mx ex lx :
  binary_round_aux prec emax sx mx ex lx
  = encode sx (round_nearest_even (shr_m (shr_fexp prec emax mx ex lx).1)
                 (loc_of_shr_record (shr_fexp prec emax mx ex lx).1))
      (shr_fexp prec emax mx ex lx).2.
Proof.
  unfold binary_round_aux, encode.
  destruct (shr_fexp prec emax mx ex lx) as [mrs' e']. done.
Qed.

Lemma round_aux_spec sx mx ex lx :
  0 ≤ mx → ex ≤ fexp64 (Zdigits2 mx + ex) →
  let E := fexp64 (Zdigits2 mx + ex) in
  let m' := mx / 2 ^ (E - ex) in
  normal_at m' E
  ∧ ∃ M, (M = m' ∨ M = m' + 1)
      ∧ (mx mod 2 ^ (E - ex) = 0 → lx = loc_Exact → M = m')
      ∧ binary_round_aux prec emax sx mx ex lx = encode sx M E.
Proof.
  intros Hm Hex E m'. split; [by apply shift_normal|].
  destruct (shr_fexp_spec mx ex lx Hm) as (H1 & H2 & H3).
  fold E in H1, H2, H3. replace (Z.max 0 (E - ex)) with (E - ex) in * by lia.
  rewrite binary_round_aux_encode, H1, H2. fold m'.
  replace (ex + (E - ex)) with E by lia.
  destruct (round_nearest_even_cases m' (loc_of_shr_record (shr_fexp prec emax mx ex lx).1))
    as [Hcase Hexact].
  eexists. split; [exact Hcase|]. split; [|done].
  intros Hmod Hl. apply Hexact, H3. done.
Qed.

Lemma pow2_2098 : 2 ^ 2098 = 2 ^ 53 * 2 ^ 2045.
Proof. rewrite <- pow2_add by lia. done. Qed.

Lemma encode_spec sx M E :
  0 ≤ M ≤ 2 ^ 53 → -1074 ≤ E → (E = -1074 ∨ 2 ^ 52 ≤ M) →
  (M * 2 ^ (E + 1074) < 2 ^ 2098 →
     sfinite (encode sx M E) = true
     ∧ valid_binary (encode sx M E) = true
     ∧ SV (encode sx M E) = cond_Zopp sx (M * 2 ^ (E + 1074)))
  ∧ (2 ^ 2098 ≤ M * 2 ^ (E + 1074) → encode sx M E = S754_infinity sx).
Proof.
  intros HM HE Hcan.
  assert (HpE : 0 < 2 ^ (E + 1074)) by (apply pow2_pos; lia).
  destruct (shr_fexp_spec M E loc_Exact) as (H1 & H2 & _); [lia|].
  unfold encode. destruct (shr_fexp prec emax M E loc_Exact) as [mrs e].
  cbn [fst snd] in H1, H2.
  destruct (decide (M = 0)) as [->|Hne].
  { rewrite Z.div_0_l in H2 by (apply Z.pow_nonzero; lia). rewrite H2.
    split; [intros _; split; [done|split; [done|by destruct sx]]|].
    intros Hbig. rewrite Z.mul_0_l in Hbig. pose proof (pow2_pos 2098 ltac:(lia)). lia. }
  destruct (Zdigits2_bounds M) as [[Hlo Hhi] Hd]; [lia|].
  destruct (decide (M = 2 ^ 53)) as [->|Hne53].
  - assert (Hdig : Zdigits2 (2 ^ 53) = 54) by done.
    rewrite Hdig in H1, H2.
    replace (Z.max 0 (fexp64 (54 + E) - E)) with 1 in H1, H2 by (unfold fexp64; lia).
    change (2 ^ 53 / 2 ^ 1) with (2 ^ 52) in H2. rewrite H2, H1.
    change (2 ^ 52) with (Z.pos (2 ^ 52)%positive).
    assert (Hval : Z.pos (2 ^ 52) * 2 ^ (E + 1 + 1074) = 2 ^ 53 * 2 ^ (E + 1074)).
    { change (Z.pos (2 ^ 52)) with (2 ^ 52).
      replace (E + 1 + 1074) with (1 + (E + 1074)) by lia.
      rewrite (pow2_add 1 (E + 1074)) by lia. change (2 ^ 53) with (2 ^ 52 * 2 ^ 1). lia. }
    change (emax - prec) with 971.
    split.
    + intros Hsmall.
      assert (E + 1 ≤ 971).
      { destruct (decide (E + 1 ≤ 971)); [done|].
        pose proof (pow2_le 2045 (E + 1074) ltac:(lia)). rewrite pow2_2098 in Hsmall. nia. }
      rewrite (proj2 (Z.leb_le _ _)) by done. cbn [sfinite SpecFloat.valid_binary SV].
      split; [done|]. split; [|by rewrite Hval].
      unfold bounded, canonical_mantissa. rewrite fexp_fexp64.
      change (Z.pos (digits2_pos (2 ^ 52))) with 53.
      apply andb_true_iff. split; [apply Z.eqb_eq; unfold fexp64; lia|apply Z.leb_le; done].
    + intros Hbig.
      assert (971 < E + 1).
      { destruct (decide (971 < E + 1)); [done|].
        pose proof (pow2_lt (E + 1074) 2045 ltac:(lia)). rewrite pow2_2098 in Hbig. nia. }
      rewrite (proj2 (Z.leb_gt _ _)) by done. done.
  - assert (HM53 : M < 2 ^ 53) by lia.
    assert (Hd53 : Zdigits2 M ≤ 53).
    { destruct (decide (Zdigits2 M ≤ 53)); [done|].
      pose proof (pow2_le 53 (Zdigits2 M - 1) ltac:(lia)). lia. }
    replace (Z.max 0 (fexp64 (Zdigits2 M + E) - E)) with 0 in H1, H2 by (unfold fexp64; lia).
    change (2 ^ 0) with 1 in H2. rewrite Z.div_1_r in H2. rewrite Z.add_0_r in H1.
    rewrite H2, H1. destruct M as [|p|p]; [lia| |lia].
    change (emax - prec) with 971.
    split.
    + intros Hsmall.
      assert (E ≤ 971).
      { destruct (decide (E ≤ 971)); [done|].
        destruct Hcan as [->|Hcan]; [lia|].
        pose proof (pow2_le 2046 (E + 1074) ltac:(lia)).
        change (2 ^ 2098) with (2 ^ 52 * 2 ^ 2046) in Hsmall. nia. }
      rewrite (proj2 (Z.leb_le _ _)) by done. cbn [sfinite SpecFloat.valid_binary SV].
      split; [done|]. split; [|done].
      unfold bounded, canonical_mantissa. rewrite fexp_fexp64.
      apply andb_true_iff. split; [|apply Z.leb_le; done].
      apply Z.eqb_eq. change (Z.pos (digits2_pos p)) with (Zdigits2 (Z.pos p)).
      destruct Hcan as [->|Hcan]; [unfold fexp64; lia|].
      rewrite (Zdigits2_unique (Z.pos p) 53); [|lia|split; [done|lia]].
      unfold fexp64. lia.
    + intros Hbig.
      assert (971 < E).
      { destruct (decide (971 < E)); [done|].
        pose proof (pow2_le (E + 1074) 2045 ltac:(lia)). rewrite pow2_2098 in Hbig. nia. }
      rewrite (proj2 (Z.leb_gt _ _)) by done. done.
Qed.

(** *** The numbers a double can be *)

Lemma repr_0 : repr 0.
Proof. exists 0, 0. split_and!; try done. Qed.

Lemma repr_opp N : repr N → repr (- N).
Proof.
  intros (j & s & -> & Hj & Hs & HN). exists (- j), s.
  split_and!; [lia|lia|done|lia].
Qed.

Lemma repr_scaled n k :
  Z.abs n < 2 ^ 53 → 0 ≤ k → Z.abs (n * 2 ^ k) < 2 ^ 2098 → repr (n * 2 ^ k).
Proof. intros Hn Hk Hb. by exists n, k. Qed.

Lemma repr_pow2 k : 0 ≤ k < 2098 → repr (2 ^ k).
Proof.
  intros Hk. exists 1, k. split_and!; [lia|done|lia|].
  pose proof (pow2_pos k ltac:(lia)). pose proof (pow2_lt k 2098 ltac:(lia)). lia.
Qed.

(** No double lies strictly between two neighbours of the format. *)
Lemma no_between m E N :
  normal_at m E → repr N → m * 2 ^ (E + 1074) < N → (m + 1) * 2 ^ (E + 1074) ≤ N.
Proof.
  intros ((Hm0 & Hm53) & HE & Hcan) (j & s & -> & Hj & Hs & _) Hlt.
  destruct (decide (E + 1074 ≤ s)) as [Hle|Hgt].
  - assert (Hs' : 2 ^ s = 2 ^ (s - (E + 1074)) * 2 ^ (E + 1074)).
    { rewrite <- pow2_add by lia. f_equal. lia. }
    rewrite Hs' in *.
    pose proof (pow2_pos (E + 1074) ltac:(lia)) as HP.
    generalize dependent (2 ^ (E + 1074)). intros P HltP _ HP.
    generalize dependent (2 ^ (s - (E + 1074))). intros Q HltQ.
    assert (m < j * Q).
    { apply (Z.mul_lt_mono_pos_r P); [done|]. lia. }
    assert (m + 1 ≤ j * Q) by lia.
    replace (j * (Q * P)) with ((j * Q) * P) by lia.
    apply Z.mul_le_mono_nonneg_r; lia.
  - destruct Hcan as [->|Hcan]; [lia|].
    assert (HE' : 2 ^ (E + 1074) = 2 ^ (E + 1074 - s) * 2 ^ s).
    { rewrite <- pow2_add by lia. f_equal. lia. }
    rewrite HE' in Hlt.
    pose proof (pow2_pos s ltac:(lia)).
    pose proof (pow2_le 1 (E + 1074 - s) ltac:(lia)) as Hp. change (2 ^ 1) with 2 in Hp.
    assert (m * 2 ^ (E + 1074 - s) < j) by nia.
    change (2 ^ 53) with (2 ^ 52 * 2) in Hj. nia.
Qed.

(** *** An exact result, rounded *)

(** [(mx + r/D) * 2^ex] is the exact result, written in units of 2^-K,
    with [r/D] the part below the mantissa that the location [lx] stands
    for; [L] and [U] are doubles around it. The rounded result is finite
    and lies between [L] and [U]: rounding does not cross a double. *)
Lemma round_sandwich sx mx ex lx K D r L U :
  0 ≤ mx → ex ≤ fexp64 (Zdigits2 mx + ex) → 0 ≤ ex + K → 1074 ≤ K →
  0 ≤ r < D → (r = 0 → lx = loc_Exact) →
  repr L → repr U →
  L * 2 ^ (K - 1074) * D ≤ (mx * D + r) * 2 ^ (ex + K) ≤ U * 2 ^ (K - 1074) * D →
  sfinite (binary_round_aux prec emax sx mx ex lx) = true
  ∧ valid_binary (binary_round_aux prec emax sx mx ex lx) = true
  ∧ ∃ A, SV (binary_round_aux prec emax sx mx ex lx) = cond_Zopp sx A ∧ L ≤ A ≤ U.
Proof.
  intros Hm Hex HK HK' Hr Hloc HL HU [HLX HXU].
  destruct (round_aux_spec sx mx ex lx Hm Hex)
    as (Hnorm & M & HM & Hexact & Hres).
  set (E := fexp64 (Zdigits2 mx + ex)) in *.
  set (n := E - ex) in *. set (m' := mx / 2 ^ n) in *.
  pose proof Hnorm as ((Hm0 & Hm53) & HE & Hcan).
  assert (Hn : 0 ≤ n) by (unfold n; lia).
  pose proof (pow2_pos n Hn) as Hpn.
  pose proof (Z.div_mod mx (2 ^ n) ltac:(lia)) as Hdm. fold m' in Hdm.
  pose proof (Z.mod_pos_bound mx (2 ^ n) Hpn) as Hmod.
  pose proof (pow2_pos (E + 1074) ltac:(lia)) as HpE.
  pose proof (pow2_pos (K - 1074) ltac:(lia)) as HpK.
  pose proof (pow2_pos (ex + K) ltac:(lia)) as HpX.
  assert (Hsplit : 2 ^ (E + 1074) * 2 ^ (K - 1074) = 2 ^ n * 2 ^ (ex + K)).
  { rewrite <- !pow2_add by lia. f_equal. unfold n. lia. }
  clearbody m'.
  pose proof (λ N, no_between m' E N Hnorm) as Hnb.
  remember (mx mod 2 ^ n) as w eqn:Heqw. clear Heqw.
  remember (2 ^ (E + 1074)) as PE eqn:HeqPE.
  remember (2 ^ (K - 1074)) as PK eqn:HeqPK. clear HeqPK.
  remember (2 ^ (ex + K)) as PX eqn:HeqPX. clear HeqPX.
  remember (2 ^ n) as Pn eqn:HeqPn. clear HeqPn.
  assert (Hscale : ∀ a, a * Pn * D * PX = a * PE * (PK * D)).
  { intros a. replace (a * Pn * D * PX) with (a * D * (Pn * PX)) by lia.
    rewrite <- Hsplit. lia. }
  assert (HPKD : 0 < PK * D) by nia.
  assert (Hlow : L ≤ m' * PE).
  { destruct (decide (L ≤ m' * PE)) as [|Hgt]; [done|].
    pose proof (Hnb L HL ltac:(lia)) as Hge.
    assert (H1 : (mx * D + r) * PX < (m' + 1) * Pn * D * PX).
    { apply Z.mul_lt_mono_pos_r; [done|]. nia. }
    assert (H2 : (m' + 1) * PE * (PK * D) ≤ L * (PK * D)).
    { apply Z.mul_le_mono_nonneg_r; [lia|done]. }
    rewrite Hscale in H1. lia. }
  assert (Hup : M * PE ≤ U).
  { destruct HM as [->| ->].
    - assert (H1 : m' * Pn * D * PX ≤ (mx * D + r) * PX).
      { apply Z.mul_le_mono_nonneg_r; [lia|]. nia. }
      rewrite Hscale in H1.
      apply (Z.mul_le_mono_pos_r _ _ (PK * D)); [done|lia].
    - apply (Hnb U HU).
      assert (Hstrict : m' * Pn * D < mx * D + r).
      { destruct (decide (w = 0)) as [Hz|Hnz].
        - destruct (decide (r = 0)) as [Hr0|Hr0]; [|nia].
          specialize (Hexact Hz (Hloc Hr0)). lia.
        - nia. }
      assert (H1 : m' * Pn * D * PX < (mx * D + r) * PX).
      { apply Z.mul_lt_mono_pos_r; [done|done]. }
      rewrite Hscale in H1.
      apply (Z.mul_lt_mono_pos_r (PK * D)); [done|lia]. }
  assert (HMlo : m' * PE ≤ M * PE) by (destruct HM; nia).
  destruct HU as (ju & su & HUeq & Hju & Hsu & HUb).
  destruct (encode_spec sx M E) as [Hfin _]; [destruct HM; lia|done|destruct HM, Hcan; auto; lia|].
  rewrite <- HeqPE in Hfin.
  destruct Hfin as (Hf & Hv & Hval); [lia|].
  rewrite Hres. split; [done|]. split; [done|].
  exists (M * PE). split; [done|lia].
Qed.

Lemma round_exact_sandwich sx mx ex K L U :
  0 ≤ mx → ex ≤ fexp64 (Zdigits2 mx + ex) → 0 ≤ ex + K → 1074 ≤ K →
  repr L → repr U →
  L * 2 ^ (K - 1074) ≤ mx * 2 ^ (ex + K) ≤ U * 2 ^ (K - 1074) →
  let r := binary_round_aux prec emax sx mx ex loc_Exact in
  sfinite r = true ∧ valid_binary r = true
  ∧ ∃ A, SV r = cond_Zopp sx A ∧ L ≤ A ≤ U.
Proof.
  intros Hm Hex HK HK' HL HU HX.
  apply (round_sandwich sx mx ex loc_Exact K 1 0 L U); try done; lia.
Qed.

(** *** [binary_round] and [binary_normalize] *)

Lemma Pos_iter_xO m d : Zpos (Pos.iter xO m d) = Zpos m * 2 ^ Zpos d.
Proof.
  induction d as [|d IH] using Pos.peano_ind.
  - simpl. lia.
  - rewrite Pos.iter_succ, Pos2Z.inj_xO, IH, Pos2Z.inj_succ, Z.pow_succ_r by lia. lia.
Qed.

Lemma shl_align_spec mx ex ex' :
  (shl_align mx ex ex').2 = Z.min ex ex'
  ∧ Zpos (shl_align mx ex ex').1 = Zpos mx * 2 ^ (ex - Z.min ex ex').
Proof.
  unfold shl_align. destruct (ex' - ex) as [|d|d] eqn:Hd; cbn [fst snd].
  - replace (Z.min ex ex') with ex by lia. rewrite Z.sub_diag. lia.
  - replace (Z.min ex ex') with ex by lia. rewrite Z.sub_diag. lia.
  - replace (Z.min ex ex') with ex' by lia. split; [done|].
    rewrite Pos_iter_xO. f_equal. f_equal. lia.
Qed.

Lemma Zdigits2_shift m k : 0 < m → 0 ≤ k → Zdigits2 (m * 2 ^ k) = Zdigits2 m + k.
Proof.
  intros Hm Hk. destruct (Zdigits2_bounds m Hm) as [[Hlo Hhi] Hd].
  pose proof (pow2_pos k Hk).
  apply Zdigits2_unique; [lia|].
  replace (Zdigits2 m + k - 1) with ((Zdigits2 m - 1) + k) by lia.
  rewrite !pow2_add by lia. nia.
Qed.

Lemma binary_round_sandwich sx mx ex L U :
  -1074 ≤ ex → repr L → repr U →
  L ≤ Zpos mx * 2 ^ (ex + 1074) ≤ U →
  let r := binary_round prec emax sx mx ex in
  sfinite r = true ∧ valid_binary r = true
  ∧ ∃ A, SV r = cond_Zopp sx A ∧ L ≤ A ≤ U.
Proof.
  intros Hex HL HU HX. unfold binary_round. rewrite fexp_fexp64.
  set (f := fexp64 (Z.pos (digits2_pos mx) + ex)).
  destruct (shl_align_spec mx ex f) as [Hez Hmz].
  destruct (shl_align mx ex f) as [mz ez]. cbn [fst snd] in Hez, Hmz.
  assert (Hf : -1074 ≤ f) by (unfold f, fexp64; lia).
  assert (Hdig : Zdigits2 (Z.pos mz) + ez = Z.pos (digits2_pos mx) + ex).
  { rewrite Hmz, Zdigits2_shift by lia. simpl. lia. }
  apply (round_exact_sandwich sx (Z.pos mz) ez 1074 L U); try done; try lia.
  - rewrite Hdig. fold f. lia.
  - rewrite Z.sub_diag. change (2 ^ 0) with 1. rewrite !Z.mul_1_r.
    rewrite Hmz, <- Z.mul_assoc, <- pow2_add by lia.
    replace (ex - Z.min ex f + (ez + 1074)) with (ex + 1074) by lia. exact HX.
Qed.

(** An integer [m] at an exponent [e] of the format, normalized: the
    result is finite and lies between any two doubles around [m * 2^e]. *)
Lemma normalize_sandwich m e sz L U :
  -1074 ≤ e → repr L → repr U →
  L ≤ m * 2 ^ (e + 1074) ≤ U →
  let r := binary_normalize prec emax m e sz in
  sfinite r = true ∧ valid_binary r = true ∧ L ≤ SV r ≤ U.
Proof.
  intros He HL HU HX. destruct m as [|p|p]; cbn [binary_normalize].
  - simpl. split; [done|]. split; [done|]. lia.
  - destruct (binary_round_sandwich false p e L U He HL HU HX) as (Hf & Hv & A & HA & Hb).
    split; [done|]. split; [done|]. rewrite HA. simpl. lia.
  - destruct (binary_round_sandwich true p e (- U) (- L) He) as (Hf & Hv & A & HA & Hb).
    + by apply repr_opp.
    + by apply repr_opp.
    + lia.
    + split; [done|]. split; [done|]. rewrite HA. simpl. lia.
Qed.

(** *** Valid doubles *)

Lemma valid_finite_inv s m e :
  valid_binary (S754_finite s m e) = true →
  -1074 ≤ e ≤ 971 ∧ Zpos m < 2 ^ 53 ∧ (e = -1074 ∨ 2 ^ 52 ≤ Zpos m)
  ∧ e = fexp64 (Zpos (digits2_pos m) + e).
Proof.
  cbn [SpecFloat.valid_binary]. unfold bounded, canonical_mantissa.
  rewrite fexp_fexp64, andb_true_iff, Z.eqb_eq, Z.leb_le. change (emax - prec) with 971.
  intros [Hcan Hle].
  pose proof (digits2_pos_bounds m) as [Hlo Hhi].
  set (d := Z.pos (digits2_pos m)) in *.
  assert (Hd : 0 < d) by (unfold d; lia).
  assert (Hd53 : d ≤ 53) by (unfold fexp64 in Hcan; lia).
  assert (He : -1074 ≤ e) by (unfold fexp64 in Hcan; lia).
  split; [lia|]. split; [|split; [|done]].
  - pose proof (pow2_le d 53 ltac:(lia)). lia.
  - destruct (decide (e = -1074)) as [|Hne]; [by left|right].
    assert (d = 53) by (unfold fexp64 in Hcan; lia).
    replace (d - 1) with 52 in Hlo by lia. done.
Qed.

Lemma valid_repr x : valid_binary x = true → repr (SV x).
Proof.
  destruct x as [s|s| |s m e]; try (intros _; apply repr_0).
  intros Hv. destruct (valid_finite_inv s m e Hv) as (He & Hm & _ & _).
  pose proof (pow2_pos (e + 1074) ltac:(lia)) as Hp.
  pose proof (pow2_le (e + 1074) 2045 ltac:(lia)) as Hp'.
  assert (Hb : Z.pos m * 2 ^ (e + 1074) < 2 ^ 2098) by (rewrite pow2_2098; nia).
  destruct s; simpl.
  - exists (- Z.pos m), (e + 1074). split_and!; [lia|lia|lia|lia].
  - exists (Z.pos m), (e + 1074). split_and!; [lia|lia|lia|lia].
Qed.

Lemma SV_finite_pos s m e :
  valid_binary (S754_finite s m e) = true →
  SV (S754_finite s m e) = cond_Zopp s (Z.pos m * 2 ^ (e + 1074))
  ∧ 0 < Z.pos m * 2 ^ (e + 1074).
Proof.
  intros Hv. destruct (valid_finite_inv s m e Hv) as (He & _).
  pose proof (pow2_pos (e + 1074) ltac:(lia)). split; [done|lia].
Qed.

(** *** Addition and subtraction *)

Lemma aligned_value mx ex ez :
  -1074 ≤ ez ≤ ex →
  Zpos (shl_align mx ex ez).1 * 2 ^ (ez + 1074) = Zpos mx * 2 ^ (ex + 1074).
Proof.
  intros He. destruct (shl_align_spec mx ex ez) as [_ ->].
  replace (Z.min ex ez) with ez by lia.
  rewrite <- Z.mul_assoc, <- pow2_add by lia. f_equal. f_equal. lia.
Qed.

Lemma cond_Zopp_mul s a b : cond_Zopp s a * b = cond_Zopp s (a * b).
Proof. destruct s; simpl; lia. Qed.

Lemma SFadd_sandwich x y L U :
  valid_binary x = true → valid_binary y = true →
  sfinite x = true → sfinite y = true →
  repr L → repr U → L ≤ SV x + SV y ≤ U →
  sfinite (SFadd prec emax x y) = true
  ∧ valid_binary (SFadd prec emax x y) = true
  ∧ L ≤ SV (SFadd prec emax x y) ≤ U.
Proof.
  intros Hvx Hvy Hfx Hfy HL HU HX.
  destruct x as [sx|sx| |sx mx ex], y as [sy|sy| |sy my ey]; try done;
    try (by destruct sx, sy; simpl in HX |- *; (split; [done|split; [done|lia]])).
  cbn [SFadd].
    destruct (valid_finite_inv _ _ _ Hvx) as (Hex & _).
    destruct (valid_finite_inv _ _ _ Hvy) as (Hey & _).
    apply normalize_sandwich; try done; [lia|].
    rewrite Z.mul_add_distr_r, !cond_Zopp_mul.
    rewrite !aligned_value by lia. exact HX.
Qed.

Lemma SFsub_sandwich x y L U :
  valid_binary x = true → valid_binary y = true →
  sfinite x = true → sfinite y = true →
  repr L → repr U → L ≤ SV x - SV y ≤ U →
  sfinite (SFsub prec emax x y) = true
  ∧ valid_binary (SFsub prec emax x y) = true
  ∧ L ≤ SV (SFsub prec emax x y) ≤ U.
Proof.
  intros Hvx Hvy Hfx Hfy HL HU HX.
  destruct x as [sx|sx| |sx mx ex], y as [sy|sy| |sy my ey]; try done;
    try (by destruct sx, sy; simpl in HX |- *; (split; [done|split; [done|lia]])).
  cbn [SFsub].
    destruct (valid_finite_inv _ _ _ Hvx) as (Hex & _).
    destruct (valid_finite_inv _ _ _ Hvy) as (Hey & _).
    apply normalize_sandwich; try done; [lia|].
    rewrite Z.mul_sub_distr_r, !cond_Zopp_mul.
    rewrite !aligned_value by lia. exact HX.
Qed.

(** *** Multiplication *)

Lemma Zdigits2_mul_ge a b :
  0 < a → 0 < b → Zdigits2 a + Zdigits2 b - 1 ≤ Zdigits2 (a * b).
Proof.
  intros Ha Hb.
  destruct (Zdigits2_bounds a Ha) as [[Hla Hha] Hda].
  destruct (Zdigits2_bounds b Hb) as [[Hlb Hhb] Hdb].
  destruct (Zdigits2_bounds (a * b) ltac:(lia)) as [[Hl Hh] Hd].
  destruct (decide (Zdigits2 a + Zdigits2 b - 1 ≤ Zdigits2 (a * b))) as [|Hgt]; [done|].
  pose proof (pow2_le (Zdigits2 (a * b)) (Zdigits2 a - 1 + (Zdigits2 b - 1)) ltac:(lia)) as Hp.
  rewrite pow2_add in Hp by lia.
  pose proof (pow2_pos (Zdigits2 a - 1) ltac:(lia)).
  pose proof (pow2_pos (Zdigits2 b - 1) ltac:(lia)). nia.
Qed.

Lemma SFmul_sandwich x y L U :
  valid_binary x = true → valid_binary y = true →
  sfinite x = true → sfinite y = true →
  repr L → repr U →
  L * 2 ^ 1074 ≤ SV x * SV y ≤ U * 2 ^ 1074 →
  sfinite (SFmul prec emax x y) = true
  ∧ valid_binary (SFmul prec emax x y) = true
  ∧ L ≤ SV (SFmul prec emax x y) ≤ U.
Proof.
  intros Hvx Hvy Hfx Hfy HL HU HX.
  pose proof (pow2_pos 1074 ltac:(lia)) as Hp.
  destruct x as [sx|sx| |sx mx ex], y as [sy|sy| |sy my ey]; try done;
    try (cbn [SFmul]; simpl in HX |- *; split; [done|split; [done|lia]]).
  cbn [SFmul].
  destruct (valid_finite_inv _ _ _ Hvx) as (Hex & Hmx & Hcx & Hfx').
  destruct (valid_finite_inv _ _ _ Hvy) as (Hey & Hmy & Hcy & Hfy').
  pose proof (Zdigits2_mul_ge (Z.pos mx) (Z.pos my) ltac:(lia) ltac:(lia)) as Hdig.
  change (Zdigits2 (Z.pos mx)) with (Z.pos (digits2_pos mx)) in Hdig.
  change (Zdigits2 (Z.pos my)) with (Z.pos (digits2_pos my)) in Hdig.
  pose proof (pow2_pos (ex + 1074) ltac:(lia)) as Hpx.
  pose proof (pow2_pos (ey + 1074) ltac:(lia)) as Hpy.
  assert (Hmag : Z.pos (mx * my) * 2 ^ (ex + ey + 2148)
                 = (Z.pos mx * 2 ^ (ex + 1074)) * (Z.pos my * 2 ^ (ey + 1074))).
  { rewrite Pos2Z.inj_mul. replace (ex + ey + 2148) with ((ex + 1074) + (ey + 1074)) by lia.
    rewrite pow2_add by lia. lia. }
  assert (Hshape : ex + ey ≤ fexp64 (Zdigits2 (Z.pos (mx * my)) + (ex + ey))).
  { rewrite Pos2Z.inj_mul. unfold fexp64 in *. lia. }
  change (2 ^ 1074) with (2 ^ (2148 - 1074)) in HX.
  simpl in HX. rewrite !cond_Zopp_mul in HX.
  destruct (xorb sx sy) eqn:Hs.
  - destruct (round_exact_sandwich true (Z.pos (mx * my)) (ex + ey) 2148 (- U) (- L))
      as (Hf & Hv & A & HA & Hb); try done; try lia; try (by apply repr_opp).
    { rewrite Hmag. destruct sx, sy; try done; simpl in HX; lia. }
    split; [done|]. split; [done|]. rewrite HA. simpl. lia.
  - destruct (round_exact_sandwich false (Z.pos (mx * my)) (ex + ey) 2148 L U)
      as (Hf & Hv & A & HA & Hb); try done; try lia.
    { rewrite Hmag. destruct sx, sy; try done; simpl in HX; lia. }
    split; [done|]. split; [done|]. rewrite HA. simpl. lia.
Qed.

(** *** Division *)

Lemma new_location_zero D : new_location D 0 = loc_Exact.
Proof. unfold new_location. by destruct (Z.even D). Qed.

Lemma Zdigits2_ge q k : 0 ≤ k → 2 ^ k ≤ q → k + 1 ≤ Zdigits2 q.
Proof.
  intros Hk Hq. pose proof (pow2_pos k Hk).
  destruct (Zdigits2_bounds q ltac:(lia)) as [[_ Hhi] Hd].
  destruct (decide (k + 1 ≤ Zdigits2 q)) as [|Hgt]; [done|].
  pose proof (pow2_le (Zdigits2 q) k ltac:(lia)). lia.
Qed.

Lemma fexp64_mono a b : a ≤ b → fexp64 a ≤ fexp64 b.
Proof. unfold fexp64. lia. Qed.

(** The quotient [SFdiv_core_binary] hands to the rounding. *)
Lemma div_core_spec m1 e1 m2 e2 :
  ∃ e' s,
    e' = Z.min (fexp64 (Z.pos (digits2_pos m1) + e1 - (Z.pos (digits2_pos m2) + e2))) (e1 - e2)
    ∧ s = e1 - e2 - e' ∧ 0 ≤ s
    ∧ SFdiv_core_binary prec emax (Z.pos m1) e1 (Z.pos m2) e2
      = ((Z.pos m1 * 2 ^ s) / Z.pos m2, e',
         new_location (Z.pos m2) ((Z.pos m1 * 2 ^ s) mod Z.pos m2)).
Proof.
  eexists _, _. split; [reflexivity|]. split; [reflexivity|].
  set (e' := Z.min _ _). set (s := e1 - e2 - e').
  assert (Hs : 0 ≤ s) by (unfold s, e'; lia). split; [done|].
  unfold SFdiv_core_binary. rewrite fexp_fexp64.
  change (Zdigits2 (Z.pos m1)) with (Z.pos (digits2_pos m1)).
  change (Zdigits2 (Z.pos m2)) with (Z.pos (digits2_pos m2)).
  fold e'. fold s.
  assert (Hm' : match s with
                | Z.pos _ => Z.shiftl (Z.pos m1) s
                | 0 => Z.pos m1
                | Z.neg _ => 0
                end = Z.pos m1 * 2 ^ s).
  { destruct s as [|ps|ps] eqn:Es; [lia| |lia]. by rewrite Z.shiftl_mul_pow2. }
  rewrite Hm'. unfold Z.div, Z.modulo.
  destruct (Z.div_eucl (Z.pos m1 * 2 ^ s) (Z.pos m2)). done.
Qed.

Lemma div_core_shape m1 e1 m2 e2 e' s :
  e' = Z.min (fexp64 (Z.pos (digits2_pos m1) + e1 - (Z.pos (digits2_pos m2) + e2))) (e1 - e2) →
  s = e1 - e2 - e' →
  e' ≤ fexp64 (Zdigits2 ((Z.pos m1 * 2 ^ s) / Z.pos m2) + e').
Proof.
  intros He' Hs.
  set (d1 := Z.pos (digits2_pos m1)) in *. set (d2 := Z.pos (digits2_pos m2)) in *.
  assert (Hs0 : 0 ≤ s) by lia.
  pose proof (digits2_pos_bounds m1) as [Hl1 Hh1]. fold d1 in Hl1, Hh1.
  pose proof (digits2_pos_bounds m2) as [Hl2 Hh2]. fold d2 in Hl2, Hh2.
  assert (Hd1 : 0 < d1) by (unfold d1; lia). assert (Hd2 : 0 < d2) by (unfold d2; lia).
  clearbody d1 d2.
  destruct (decide (1 ≤ d1 + s - d2)) as [Hbig|Hsmall].
  - assert (Hq : 2 ^ (d1 + s - d2 - 1) ≤ (Z.pos m1 * 2 ^ s) / Z.pos m2).
    { apply Z.div_le_lower_bound; [lia|].
      pose proof (pow2_pos s Hs0). pose proof (pow2_pos (d1 + s - d2 - 1) ltac:(lia)).
      assert (Hp : 2 ^ d2 * 2 ^ (d1 + s - d2 - 1) = 2 ^ (d1 - 1) * 2 ^ s).
      { rewrite <- !pow2_add by lia. f_equal. lia. }
      pose proof (pow2_pos (d1 - 1) ltac:(lia)).
      assert (Z.pos m2 * 2 ^ (d1 + s - d2 - 1) ≤ 2 ^ d2 * 2 ^ (d1 + s - d2 - 1)) by nia.
      assert (2 ^ (d1 - 1) * 2 ^ s ≤ Z.pos m1 * 2 ^ s) by nia. lia. }
    pose proof (Zdigits2_ge _ (d1 + s - d2 - 1) ltac:(lia) Hq) as Hd.
    pose proof (fexp64_mono (d1 + e1 - (d2 + e2))
                  (Zdigits2 ((Z.pos m1 * 2 ^ s) / Z.pos m2) + e') ltac:(lia)). lia.
  - unfold fexp64 in *. lia.
Qed.

Lemma SFdiv_sandwich x y L U :
  valid_binary x = true → valid_binary y = true →
  sfinite x = true → sfinite y = true → 0 < SV y →
  repr L → repr U →
  L * SV y ≤ SV x * 2 ^ 1074 ≤ U * SV y →
  sfinite (SFdiv prec emax x y) = true
  ∧ valid_binary (SFdiv prec emax x y) = true
  ∧ L ≤ SV (SFdiv prec emax x y) ≤ U.
Proof.
  intros Hvx Hvy Hfx Hfy Hy HL HU HX.
  destruct y as [sy|sy| |sy my ey]; try done; try (simpl in Hy; lia).
  destruct sy; [simpl in Hy; lia|].
  destruct (valid_finite_inv _ _ _ Hvy) as (Hey & _).
  pose proof (pow2_pos (ey + 1074) ltac:(lia)) as Hpy.
  pose proof (pow2_pos 1074 ltac:(lia)) as Hp.
  destruct x as [sx|sx| |sx mx ex]; try done.
  { simpl in HX |- *. split; [done|]. split; [done|]. nia. }
  destruct (valid_finite_inv _ _ _ Hvx) as (Hex & _).
  pose proof (pow2_pos (ex + 1074) ltac:(lia)) as Hpx.
  cbn [SFdiv].
  destruct (div_core_spec mx ex my ey) as (e' & s & He' & Hs & Hs0 & Hcore).
  rewrite Hcore. rewrite xorb_false_r.
  pose proof (div_core_shape mx ex my ey e' s He' Hs) as Hshape.
  set (a := Z.pos mx * 2 ^ s) in *.
  pose proof (pow2_pos s Hs0) as Hps.
  assert (Ha : 0 < a) by (unfold a; lia).
  pose proof (Z.div_mod a (Z.pos my) ltac:(lia)) as Hdm.
  pose proof (Z.mod_pos_bound a (Z.pos my) ltac:(lia)) as Hmod.
  assert (Hq0 : 0 ≤ a / Z.pos my) by (apply Z.div_pos; lia).
  assert (He'lo : 0 ≤ e' + 2148) by (unfold fexp64 in He'; lia).
  assert (Hloc : a mod Z.pos my = 0
                 → new_location (Z.pos my) (a mod Z.pos my) = loc_Exact).
  { intros ->. apply new_location_zero. }
  (* the exact quotient, in units of 2^-2148 and of 1/my *)
  assert (Hval : (a / Z.pos my * Z.pos my + a mod Z.pos my) * 2 ^ (e' + 2148)
                 * 2 ^ (ey + 1074)
                 = Z.pos mx * 2 ^ (ex + 1074) * 2 ^ 1074 * 2 ^ (2148 - 1074)).
  { replace (a / Z.pos my * Z.pos my + a mod Z.pos my) with a by lia.
    unfold a. rewrite <- !Z.mul_assoc, <- !pow2_add by lia.
    f_equal. f_equal. lia. }
  change (2148 - 1074) with 1074 in Hval.
  simpl in HX. rewrite cond_Zopp_mul in HX.
  assert (Hcancel : ∀ P Q : Z, P * 2 ^ (ey + 1074) ≤ Q * 2 ^ (ey + 1074) → P ≤ Q).
  { intros P Q HPQ. apply (Z.mul_le_mono_pos_r _ _ (2 ^ (ey + 1074))); done. }
  destruct sx.
  - destruct (round_sandwich true (a / Z.pos my) e'
                (new_location (Z.pos my) (a mod Z.pos my)) 2148 (Z.pos my) (a mod Z.pos my)
                (- U) (- L)) as (Hf & Hv & A & HA & Hb);
      try done; try lia; try (by apply repr_opp).
    { change (2148 - 1074) with 1074. simpl in HX.
      split; apply Hcancel; rewrite Hval; nia. }
    split; [done|]. split; [done|]. rewrite HA. simpl. lia.
  - destruct (round_sandwich false (a / Z.pos my) e'
                (new_location (Z.pos my) (a mod Z.pos my)) 2148 (Z.pos my) (a mod Z.pos my)
                L U) as (Hf & Hv & A & HA & Hb);
      try done; try lia.
    { change (2148 - 1074) with 1074. simpl in HX.
      split; apply Hcancel; rewrite Hval; nia. }
    split; [done|]. split; [done|]. rewrite HA. simpl. lia.
Qed.

(** *** Comparison *)

Lemma magnitude_lt m1 e1 m2 e2 s1 s2 :
  valid_binary (S754_finite s1 m1 e1) = true →
  valid_binary (S754_finite s2 m2 e2) = true →
  e1 < e2 → Z.pos m1 * 2 ^ (e1 + 1074) < Z.pos m2 * 2 ^ (e2 + 1074).
Proof.
  intros H1 H2 He.
  destruct (valid_finite_inv _ _ _ H1) as (He1 & Hm1 & _ & _).
  destruct (valid_finite_inv _ _ _ H2) as (He2 & _ & Hc2 & _).
  destruct Hc2 as [->|Hm2]; [lia|].
  pose proof (pow2_pos (e1 + 1074) ltac:(lia)) as Hp1.
  pose proof (pow2_le (e1 + 1074 + 1) (e2 + 1074) ltac:(lia)) as Hp.
  rewrite pow2_add in Hp by lia. change (2 ^ 1) with 2 in Hp.
  change (2 ^ 53) with (2 ^ 52 * 2) in Hm1.
  assert (Z.pos m1 * 2 ^ (e1 + 1074) < 2 ^ 52 * 2 * 2 ^ (e1 + 1074)) by nia.
  assert (2 ^ 52 * 2 ^ (e2 + 1074) ≤ Z.pos m2 * 2 ^ (e2 + 1074)) by nia.
  nia.
Qed.

Lemma magnitude_compare m1 e1 m2 e2 s1 s2 :
  valid_binary (S754_finite s1 m1 e1) = true →
  valid_binary (S754_finite s2 m2 e2) = true →
  match e1 ?= e2 with
  | Lt => Lt
  | Gt => Gt
  | Eq => Pos.compare_cont Eq m1 m2
  end = (Z.pos m1 * 2 ^ (e1 + 1074) ?= Z.pos m2 * 2 ^ (e2 + 1074)).
Proof.
  intros H1 H2. destruct (Z.compare_spec e1 e2) as [->|Hlt|Hgt].
  - destruct (valid_finite_inv _ _ _ H2) as (He2 & _).
    rewrite <- Zmult_compare_compat_r by (pose proof (pow2_pos (e2 + 1074)); lia). done.
  - symmetry. apply Z.compare_lt_iff. by apply (magnitude_lt m1 e1 m2 e2 s1 s2).
  - symmetry. apply Z.compare_gt_iff. by apply (magnitude_lt m2 e2 m1 e1 s2 s1).
Qed.

Lemma SFcompare_SV x y :
  valid_binary x = true → valid_binary y = true →
  sfinite x = true → sfinite y = true →
  SFcompare x y = Some (SV x ?= SV y).
Proof.
  intros Hvx Hvy Hfx Hfy.
  destruct x as [sx|sx| |sx mx ex], y as [sy|sy| |sy my ey]; try done.
  - destruct (SV_finite_pos _ _ _ Hvy) as [HSV Hpos]. rewrite HSV.
    cbn [SFcompare SV]. f_equal. symmetry.
    destruct sy; cbn [cond_Zopp]; [apply Z.compare_gt_iff|apply Z.compare_lt_iff]; lia.
  - destruct (SV_finite_pos _ _ _ Hvx) as [HSV Hpos]. rewrite HSV.
    cbn [SFcompare SV]. f_equal. symmetry.
    destruct sx; cbn [cond_Zopp]; [apply Z.compare_lt_iff|apply Z.compare_gt_iff]; lia.
  - destruct (SV_finite_pos _ _ _ Hvx) as [-> Hpx].
    destruct (SV_finite_pos _ _ _ Hvy) as [-> Hpy].
    cbn [SFcompare]. f_equal.
    destruct sx, sy; cbn [cond_Zopp].
    + rewrite Z.compare_opp.
      rewrite <- (magnitude_compare my ey mx ex true true) by done.
      rewrite (Z.compare_antisym ex ey).
      destruct (ex ?= ey) eqn:Hc; simpl; try done.
      change (Pos.compare_cont Eq mx my) with (Pos.compare mx my).
      change (Pos.compare_cont Eq my mx) with (Pos.compare my mx).
      by rewrite (Pos.compare_antisym mx my).
    + symmetry. apply Z.compare_lt_iff. lia.
    + symmetry. apply Z.compare_gt_iff. lia.
    + by apply (magnitude_compare mx ex my ey false false).
Qed.

End Binary64Rounding.

(** ** The primitive operations, on the values

    The lemmas of [Binary64Rounding], for the primitive operations of
    [PrimFloat]: [V x] is the value of a finite double [x] in units of
    2^-1074, and [fin x] says that [x] is finite. *)

Module Binary64Operations.
Import SpecFloat FloatOps FloatAxioms Binary64 Binary64Values Binary64Rounding.
Local Open Scope Z_scope.

Lemma V_repr x : repr (V x).
Proof. apply valid_repr, Prim2SF_valid. Qed.

Lemma add_sandwich x y L U :
  fin x → fin y → repr L → repr U → L ≤ V x + V y ≤ U →
  fin (PrimFloat.add x y) ∧ L ≤ V (PrimFloat.add x y) ≤ U.
Proof.
  intros Hx Hy HL HU HX. unfold fin, V. rewrite add_spec.
  destruct (SFadd_sandwich (Prim2SF x) (Prim2SF y) L U) as (Hf & _ & Hb);
    auto using Prim2SF_valid.
Qed.

Lemma sub_sandwich x y L U :
  fin x → fin y → repr L → repr U → L ≤ V x - V y ≤ U →
  fin (PrimFloat.sub x y) ∧ L ≤ V (PrimFloat.sub x y) ≤ U.
Proof.
  intros Hx Hy HL HU HX. unfold fin, V. rewrite sub_spec.
  destruct (SFsub_sandwich (Prim2SF x) (Prim2SF y) L U) as (Hf & _ & Hb);
    auto using Prim2SF_valid.
Qed.

Lemma mul_sandwich x y L U :
  fin x → fin y → repr L → repr U →
  L * ONE ≤ V x * V y ≤ U * ONE →
  fin (PrimFloat.mul x y) ∧ L ≤ V (PrimFloat.mul x y) ≤ U.
Proof.
  intros Hx Hy HL HU HX. unfold fin, V. rewrite mul_spec.
  destruct (SFmul_sandwich (Prim2SF x) (Prim2SF y) L U) as (Hf & _ & Hb);
    auto using Prim2SF_valid.
Qed.

Lemma div_sandwich x y L U :
  fin x → fin y → 0 < V y → repr L → repr U →
  L * V y ≤ V x * ONE ≤ U * V y →
  fin (PrimFloat.div x y) ∧ L ≤ V (PrimFloat.div x y) ≤ U.
Proof.
  intros Hx Hy Hpos HL HU HX. unfold fin, V. rewrite div_spec.
  destruct (SFdiv_sandwich (Prim2SF x) (Prim2SF y) L U) as (Hf & _ & Hb);
    auto using Prim2SF_valid.
Qed.

(** The comparisons of finite doubles are those of their values. *)
Lemma compare_V x y :
  fin x → fin y → SFcompare (Prim2SF x) (Prim2SF y) = Some (V x ?= V y).
Proof. intros Hx Hy. apply SFcompare_SV; auto using Prim2SF_valid. Qed.

Lemma ltb_V x y : fin x → fin y → PrimFloat.ltb x y = bool_decide (V x < V y).
Proof.
  intros Hx Hy. rewrite ltb_spec. unfold SFltb. rewrite compare_V by done.
  destruct (Z.compare_spec (V x) (V y)); symmetry;
    [apply bool_decide_eq_false|apply bool_decide_eq_true|apply bool_decide_eq_false]; lia.
Qed.

Lemma leb_V x y : fin x → fin y → PrimFloat.leb x y = bool_decide (V x ≤ V y).
Proof.
  intros Hx Hy. rewrite leb_spec. unfold SFleb. rewrite compare_V by done.
  destruct (Z.compare_spec (V x) (V y)); symmetry;
    [apply bool_decide_eq_true|apply bool_decide_eq_true|apply bool_decide_eq_false]; lia.
Qed.

Lemma eqb_V x y : fin x → fin y → PrimFloat.eqb x y = bool_decide (V x = V y).
Proof.
  intros Hx Hy. rewrite eqb_spec. unfold SFeqb. rewrite compare_V by done.
  destruct (Z.compare_spec (V x) (V y)); symmetry;
    [apply bool_decide_eq_true|apply bool_decide_eq_false|apply bool_decide_eq_false]; lia.
Qed.

Lemma is_finite_fin x : PrimFloat.is_finite x = true ↔ fin x.
Proof.
  unfold PrimFloat.is_finite, PrimFloat.is_nan, PrimFloat.is_infinity, fin.
  rewrite !eqb_spec, abs_spec.
  change (Prim2SF PrimFloat.infinity) with (S754_infinity false).
  destruct (Prim2SF x) as [s|s| |s m e] eqn:E; simpl.
  - done.
  - by destruct s.
  - done.
  - unfold SFeqb. simpl. rewrite Z.compare_refl.
    change (Pos.compare_cont Eq m m) with (Pos.compare m m). rewrite Pos.compare_refl.
    by destruct s.
Qed.

Lemma abs_V x : fin x → fin (PrimFloat.abs x) ∧ V (PrimFloat.abs x) = Z.abs (V x).
Proof.
  unfold fin, V. rewrite abs_spec. pose proof (Prim2SF_valid x) as Hv.
  destruct (Prim2SF x) as [s|s| |s m e]; try done. intros _. split; [done|].
  destruct (SV_finite_pos _ _ _ Hv) as [-> Hpos]. simpl. destruct s; simpl; lia.
Qed.

(** [static_cast<double>] of a count below 2^53 is exact. *)
Lemma of_Z_V n : 0 ≤ n < 2 ^ 53 → fin (of_Z n) ∧ V (of_Z n) = n * ONE.
Proof.
  intros Hn. unfold of_Z. destruct n as [|p|p]; [done| |lia].
  unfold fin, V. rewrite of_uint63_spec, Uint63.of_Z_spec.
  assert (Hw : 0 ≤ Z.pos p < Uint63Axioms.wB).
  { change Uint63Axioms.wB with (2 ^ 63). pose proof (pow2_lt 53 63 ltac:(lia)). lia. }
  rewrite Z.mod_small by exact Hw.
  assert (Hr : repr (Z.pos p * ONE)).
  { apply repr_scaled; [lia|lia|]. unfold ONE in *.
    change (2 ^ 2098) with (2 ^ 53 * 2 ^ 2045).
    pose proof (pow2_lt 1074 2045 ltac:(lia)). pose proof (pow2_pos 1074 ltac:(lia)). nia. }
  destruct (normalize_sandwich (Z.pos p) 0 false (Z.pos p * ONE) (Z.pos p * ONE))
    as (Hf & _ & Hb); [lia|exact Hr|exact Hr|unfold ONE; simpl; lia|].
  split; [done|lia].
Qed.

End Binary64Operations.

(** ** The buffers of the detector in binary64

    On a frame of float samples shorter than 2^32 no sum overflows: the
    differences, their running sums and the cumulative buffer are finite
    doubles, with the bounds below. *)

Module Binary64Analysis.
Import SpecFloat FloatOps FloatAxioms Binary64 Binary64Limits Binary64Values.
Import Binary64Rounding Binary64Operations.
Local Open Scope Z_scope.

(** *** The constants *)

Lemma Prim2SF_FLT_MAX : Prim2SF FLT_MAX = S754_finite false 9007198717870080 75.
Proof. reflexivity. Qed.

Lemma const_0 : fin (of_Q 0) ∧ V (of_Q 0) = 0.
Proof. split; reflexivity. Qed.

Lemma const_1 : fin (of_Q 1) ∧ V (of_Q 1) = ONE.
Proof. split; [reflexivity|]. vm_compute. reflexivity. Qed.

Lemma const_2 : fin (of_Q 2) ∧ V (of_Q 2) = 2 * ONE.
Proof. split; [reflexivity|]. vm_compute. reflexivity. Qed.

Lemma const_1e12 : fin (of_Q 1e-12) ∧ 2 ^ 1034 ≤ V (of_Q 1e-12).
Proof. split; [reflexivity|]. vm_compute. discriminate. Qed.

Lemma const_999 : fin (of_Q 0.999) ∧ V (of_Q 0.999) ≤ ONE - 2 ^ 1064.
Proof. split; [reflexivity|]. vm_compute. discriminate. Qed.

Lemma const_DBL_MIN : fin DBL_MIN ∧ V DBL_MIN = 2 ^ 52.
Proof. split; [reflexivity|]. vm_compute. reflexivity. Qed.

Lemma const_FLT_MAX : fin FLT_MAX ∧ V FLT_MAX ≤ 2 ^ 1202.
Proof. split; [reflexivity|]. vm_compute. discriminate. Qed.

(** *** Samples *)

Lemma float_sample_bounds x :
  float_sample x = true → fin x ∧ - 2 ^ 1202 ≤ V x ≤ 2 ^ 1202.
Proof.
  unfold float_sample. intros Hle.
  assert (Hfin : fin x).
  { unfold fin. rewrite leb_spec, abs_spec, Prim2SF_FLT_MAX in Hle.
    destruct (Prim2SF x) as [s|s| |s m e]; try done. }
  split; [done|].
  destruct (abs_V x Hfin) as [Hfa Hva].
  rewrite leb_V in Hle by (done || apply const_FLT_MAX).
  apply bool_decide_eq_true in Hle. rewrite Hva in Hle.
  pose proof (proj2 const_FLT_MAX). lia.
Qed.

(** *** Doubles near a number *)

Lemma repr_double N : repr N → Z.abs (2 * N) < 2 ^ 2098 → repr (2 * N).
Proof.
  intros (j & s & -> & Hj & Hs & _) Hb.
  replace (2 * (j * 2 ^ s)) with (j * 2 ^ (s + 1)) in *
    by (rewrite pow2_add by lia; change (2 ^ 1) with 2; lia).
  apply repr_scaled; [done|lia|done].
Qed.

Lemma repr_half N : repr N → 2 ^ 53 ≤ N → ∃ H, repr H ∧ 2 * H = N.
Proof.
  intros (j & s & -> & Hj & Hs & Hb) Hbig.
  assert (Hs1 : 1 ≤ s).
  { destruct (decide (1 ≤ s)); [done|]. replace s with 0 in * by lia.
    change (2 ^ 0) with 1 in *. lia. }
  exists (j * 2 ^ (s - 1)).
  assert (Heq : 2 * (j * 2 ^ (s - 1)) = j * 2 ^ s).
  { replace s with ((s - 1) + 1) at 2 by lia. rewrite pow2_add by lia.
    change (2 ^ 1) with 2. lia. }
  split; [|done]. apply repr_scaled; [done|lia|lia].
Qed.

(** Around a number below 8 (in units of 2^-1074: below 2^1077) there are
    doubles less than 2^-49 apart. *)
Lemma grid_sandwich X :
  - 2 ^ 1077 < X < 2 ^ 1077 →
  ∃ L U, repr L ∧ repr U ∧ L ≤ X ≤ U ∧ X - 2 ^ 1025 < L ∧ U < X + 2 ^ 1025.
Proof.
  intros HX. pose proof (pow2_pos 1025 ltac:(lia)) as HG.
  pose proof (Z.div_mod X (2 ^ 1025) ltac:(lia)) as Hdm.
  pose proof (Z.mod_pos_bound X (2 ^ 1025) HG) as Hmod.
  set (k := X / 2 ^ 1025) in *.
  assert (Hk : - 2 ^ 52 ≤ k < 2 ^ 52).
  { change (2 ^ 1077) with (2 ^ 52 * 2 ^ 1025) in HX. nia. }
  assert (Hr : ∀ q, - 2 ^ 52 ≤ q ≤ 2 ^ 52 → repr (q * 2 ^ 1025)).
  { intros q Hq. apply repr_scaled; [change (2 ^ 53) with (2 * 2 ^ 52); lia|lia|].
    change (2 ^ 2098) with (2 ^ 1073 * 2 ^ 1025).
    pose proof (pow2_lt 52 1073 ltac:(lia)). nia. }
  destruct (decide (X mod 2 ^ 1025 = 0)) as [Hz|Hnz].
  - exists (k * 2 ^ 1025), (k * 2 ^ 1025). split_and!; try (apply Hr; lia); lia.
  - exists (k * 2 ^ 1025), ((k + 1) * 2 ^ 1025). split_and!; try (apply Hr; lia); lia.
Qed.

(** An operation whose exact result [X] is below 8 in magnitude returns a
    double within 2^-49 of it. *)
Lemma near_add x y :
  fin x → fin y → - 2 ^ 1077 < V x + V y < 2 ^ 1077 →
  fin (PrimFloat.add x y)
  ∧ V x + V y - 2 ^ 1025 < V (PrimFloat.add x y) < V x + V y + 2 ^ 1025.
Proof.
  intros Hx Hy HX. destruct (grid_sandwich _ HX) as (L & U & HL & HU & Hb & HLl & HUu).
  destruct (add_sandwich x y L U) as [Hf Hv]; try done. split; [done|lia].
Qed.

Lemma near_sub x y :
  fin x → fin y → - 2 ^ 1077 < V x - V y < 2 ^ 1077 →
  fin (PrimFloat.sub x y)
  ∧ V x - V y - 2 ^ 1025 < V (PrimFloat.sub x y) < V x - V y + 2 ^ 1025.
Proof.
  intros Hx Hy HX. destruct (grid_sandwich _ HX) as (L & U & HL & HU & Hb & HLl & HUu).
  destruct (sub_sandwich x y L U) as [Hf Hv]; try done. split; [done|lia].
Qed.

(** Doubling is exact. *)
Lemma double_exact y :
  fin y → Z.abs (2 * V y) < 2 ^ 2098 →
  fin (PrimFloat.mul (of_Q 2) y) ∧ V (PrimFloat.mul (of_Q 2) y) = 2 * V y.
Proof.
  intros Hy Hb. pose proof (pow2_pos 1074 ltac:(lia)) as HONE. fold ONE in HONE.
  assert (Hr : repr (2 * V y)) by (apply repr_double; [apply V_repr|done]).
  destruct (mul_sandwich (of_Q 2) y (2 * V y) (2 * V y)) as [Hf Hv];
    [apply const_2|done|done|done| |].
  - rewrite (proj2 const_2). lia.
  - split; [done|lia].
Qed.

(** *** The sums of [computeDifference] and the running sum *)

Section WithLog2.
Variable lg : float → float.
Local Abbreviation B := (binary64 lg).

Lemma upto_0 bound : 0 ≤ bound → upto bound (of_Q 0).
Proof. intros Hb. split; [apply const_0|]. rewrite (proj2 const_0). lia. Qed.

Lemma repr_count n b :
  0 ≤ n < 2 ^ 53 → 0 ≤ b → n * 2 ^ b < 2 ^ 2098 → repr (n * 2 ^ b).
Proof.
  intros Hn Hb Hlt. apply repr_scaled; [lia|done|].
  pose proof (pow2_pos b Hb). rewrite Z.abs_eq by nia. done.
Qed.

Lemma sum_from_S (f : nat → float) lo n :
  @Spec.sum_from B lo (S n) f
  = PrimFloat.add (@Spec.sum_from B lo n f) (f (lo + n)%nat).
Proof. unfold Spec.sum_from. rewrite seq_S, foldl_app. done. Qed.

Lemma sum_bounded (f : nat → float) (b : Z) (lo n : nat) :
  0 ≤ b → Z.of_nat n < 2 ^ 53 → Z.of_nat n * 2 ^ b < 2 ^ 2098 →
  (∀ i, upto (2 ^ b) (f i)) →
  upto (Z.of_nat n * 2 ^ b) (@Spec.sum_from B lo n f).
Proof.
  intros Hb. pose proof (pow2_pos b Hb) as Hp.
  induction n as [|n IH]; intros Hn Hlt Hf.
  - split; [reflexivity|]. change (V (@Spec.sum_from B lo 0 f)) with (V (of_Q 0)).
    rewrite (proj2 const_0). lia.
  - rewrite sum_from_S.
    destruct IH as [Hfin Hb']; [lia|nia|done|].
    destruct (Hf (lo + n)%nat) as [Hfi Hbi].
    destruct (add_sandwich (@Spec.sum_from B lo n f) (f (lo + n)%nat) 0
                (Z.of_nat (S n) * 2 ^ b)) as [Hs Hv]; try done.
    + apply repr_0.
    + apply repr_count; [lia|done|done].
    + nia.
Qed.

Lemma sum_ge_last (f : nat → float) (b : Z) (lo n : nat) :
  0 ≤ b → Z.of_nat (S n) < 2 ^ 53 → Z.of_nat (S n) * 2 ^ b < 2 ^ 2098 →
  (∀ i, upto (2 ^ b) (f i)) →
  V (f (lo + n)%nat) ≤ V (@Spec.sum_from B lo (S n) f).
Proof.
  intros Hb Hn Hlt Hf. pose proof (pow2_pos b Hb) as Hp.
  rewrite sum_from_S.
  destruct (sum_bounded f b lo n Hb) as [Hfin Hb']; [lia|nia|done|].
  destruct (Hf (lo + n)%nat) as [Hfi Hbi].
  destruct (add_sandwich (@Spec.sum_from B lo n f) (f (lo + n)%nat) (V (f (lo + n)%nat))
              (Z.of_nat (S n) * 2 ^ b)) as [Hs Hv]; try done.
  - apply V_repr.
  - apply repr_count; [lia|done|done].
  - nia.
  - lia.
Qed.

(** *** The buffers: d, S and d' *)

Lemma sample_nth frame i :
  samples_ok frame →
  fin (nth i frame PrimFloat.zero) ∧ - 2 ^ 1202 ≤ V (nth i frame PrimFloat.zero) ≤ 2 ^ 1202.
Proof.
  intros Hok. destruct (decide (i < length frame)%nat) as [Hi|Hi].
  - apply float_sample_bounds.
    apply (proj1 (Forall_nth _ PrimFloat.zero frame) Hok i Hi).
  - rewrite nth_overflow by lia. split; [reflexivity|].
    change (V PrimFloat.zero) with 0. pose proof (pow2_pos 1202 ltac:(lia)). lia.
Qed.

Lemma term_bounded frame tau i :
  samples_ok frame → upto (2 ^ 1332) (@term B frame tau i).
Proof.
  intros Hok.
  destruct (sample_nth frame i Hok) as [Hfa Hba].
  destruct (sample_nth frame (i + tau) Hok) as [Hfb Hbb].
  change (@term B frame tau i)
    with (PrimFloat.mul
            (PrimFloat.sub (nth i frame PrimFloat.zero) (nth (i + tau) frame PrimFloat.zero))
            (PrimFloat.sub (nth i frame PrimFloat.zero) (nth (i + tau) frame PrimFloat.zero))).
  generalize dependent (nth i frame PrimFloat.zero). intros a Hfa Hba.
  generalize dependent (nth (i + tau) frame PrimFloat.zero). intros b Hfb Hbb.
  destruct (sub_sandwich a b (- 2 ^ 1203) (2 ^ 1203)) as [Hfd Hbd];
    [done|done|apply repr_opp, repr_pow2; lia|apply repr_pow2; lia
    |change (2 ^ 1203) with (2 * 2 ^ 1202); lia|].
  generalize dependent (PrimFloat.sub a b). intros delta Hfd Hbd.
  destruct (mul_sandwich delta delta 0 (2 ^ 1332)) as [Hfm Hbm];
    [done|done|apply repr_0|apply repr_pow2; lia| |exact (conj Hfm Hbm)].
  unfold ONE. change (2 ^ 1332 * 2 ^ 1074) with (2 ^ 1203 * 2 ^ 1203).
  pose proof (pow2_pos 1203 ltac:(lia)). nia.
Qed.

Section Buffers.
Variable frame : list float.
Variable N : nat.
Hypothesis frame_ok : samples_ok frame.
Hypothesis N_small : Z.of_nat N < 2 ^ 32.

Local Abbreviation d := (@Spec.d B frame N).
Local Abbreviation S := (@Spec.S B frame N).
Local Abbreviation d' := (@Spec.d' B frame N).

Lemma d_bounded tau : upto (2 ^ 1364) (d tau).
Proof.
  unfold Spec.d. case_decide as Htau.
  { apply upto_0. pose proof (pow2_pos 1364 ltac:(lia)). lia. }
  destruct (sum_bounded (@term B frame tau) 1332 0 (N - tau)) as [Hf Hb].
  - lia.
  - pose proof (pow2_lt 32 53 ltac:(lia)). lia.
  - change (2 ^ 2098) with (2 ^ 766 * 2 ^ 1332).
    pose proof (pow2_pos 1332 ltac:(lia)). pose proof (pow2_lt 32 766 ltac:(lia)). nia.
  - intros i. by apply term_bounded.
  - destruct Hb as [Hb0 Hb1]. split; [exact Hf|]. split; [exact Hb0|].
    eapply Z.le_trans; [exact Hb1|].
    change (2 ^ 1364) with (2 ^ 32 * 2 ^ 1332).
    pose proof (pow2_pos 1332 ltac:(lia)). nia.
Qed.

Lemma S_bounded tau : Z.of_nat tau < 2 ^ 32 → upto (2 ^ 1396) (S tau).
Proof.
  intros Htau. unfold Spec.S.
  destruct (sum_bounded d 1364 1 tau) as [Hf Hb].
  - lia.
  - pose proof (pow2_lt 32 53 ltac:(lia)). lia.
  - change (2 ^ 2098) with (2 ^ 734 * 2 ^ 1364).
    pose proof (pow2_pos 1364 ltac:(lia)). pose proof (pow2_lt 32 734 ltac:(lia)). nia.
  - apply d_bounded.
  - split; [exact Hf|]. split; [lia|].
    change (2 ^ 1396) with (2 ^ 32 * 2 ^ 1364).
    pose proof (pow2_pos 1364 ltac:(lia)). nia.
Qed.

Lemma S_ge_d tau : (1 ≤ tau)%nat → Z.of_nat tau < 2 ^ 32 → V (d tau) ≤ V (S tau).
Proof.
  intros H1 Htau. destruct tau as [|n]; [lia|]. unfold Spec.S.
  apply (sum_ge_last d 1364 1 n).
  - lia.
  - pose proof (pow2_lt 32 53 ltac:(lia)). lia.
  - change (2 ^ 2098) with (2 ^ 734 * 2 ^ 1364).
    pose proof (pow2_pos 1364 ltac:(lia)). pose proof (pow2_lt 32 734 ltac:(lia)). nia.
  - apply d_bounded.
Qed.

Lemma d'_bounded tau : Z.of_nat tau < 2 ^ 32 → upto CMAX (d' tau).
Proof.
  intros Htau. unfold CMAX.
  pose proof (pow2_pos 1074 ltac:(lia)) as HONE. fold ONE in HONE.
  pose proof (pow2_pos 32 ltac:(lia)) as H32.
  assert (Hone : upto (2 ^ 32 * ONE) (of_Q 1)).
  { split; [apply const_1|]. rewrite (proj2 const_1). nia. }
  unfold Spec.d'. case_decide as Hz; [exact Hone|].
  cbn [deqb dmul ddiv dconst binary64].
  destruct (S_bounded tau Htau) as [HfS HbS].
  destruct (d_bounded tau) as [Hfd Hbd].
  pose proof (S_ge_d tau ltac:(lia) Htau) as Hge.
  rewrite eqb_V by (done || apply const_0). rewrite (proj2 const_0).
  case_bool_decide as HS0; [exact Hone|].
  unfold of_size. cbn [of_int binary64].
  destruct (of_Z_V (Z.of_nat tau)) as [Hft Hvt].
  { pose proof (pow2_lt 32 53 ltac:(lia)). lia. }
  assert (HrS : repr (V (S tau) * 2 ^ 32)).
  { destruct (V_repr (S tau)) as (j & s & HN & Hj & Hs & _).
    rewrite HN, <- Z.mul_assoc, <- pow2_add by lia.
    apply repr_scaled; [done|lia|].
    rewrite pow2_add, Z.mul_assoc, <- HN by lia.
    change (2 ^ 2098) with (2 ^ 1396 * 2 ^ 702) in *.
    pose proof (pow2_lt 32 702 ltac:(lia)). pose proof (pow2_pos 1396 ltac:(lia)).
    rewrite Z.abs_eq by nia. nia. }
  assert (Hprod : 0 ≤ V (d tau) * Z.of_nat tau ≤ V (S tau) * 2 ^ 32) by nia.
  destruct (mul_sandwich (d tau) (of_Z (Z.of_nat tau)) 0 (V (S tau) * 2 ^ 32))
    as [Hfp Hbp]; [done|done|apply repr_0|done| |].
  { rewrite Hvt, Z.mul_assoc. split; [nia|].
    apply Z.mul_le_mono_nonneg_r; lia. }
  set (p := PrimFloat.mul (d tau) (of_Z (Z.of_nat tau))) in *. clearbody p.
  destruct (div_sandwich p (S tau) 0 (2 ^ 32 * ONE)) as [Hfq Hbq];
    [done|done|lia|apply repr_0| | |exact (conj Hfq Hbq)].
  - unfold ONE. rewrite <- pow2_add by lia. apply repr_pow2. lia.
  - split; [nia|].
    replace (2 ^ 32 * ONE * V (S tau)) with (V (S tau) * 2 ^ 32 * ONE) by lia.
    apply Z.mul_le_mono_nonneg_r; lia.
Qed.

Lemma d'_1 : V (d' 1) = ONE.
Proof.
  pose proof (pow2_pos 1074 ltac:(lia)) as HONE. fold ONE in HONE.
  unfold Spec.d'. rewrite decide_False by lia.
  cbn [deqb dmul ddiv dconst binary64].
  assert (H1 : Z.of_nat 1 < 2 ^ 32) by (pose proof (pow2_lt 0 32 ltac:(lia)); simpl in *; lia).
  destruct (S_bounded 1 H1) as [HfS HbS].
  destruct (d_bounded 1) as [Hfd Hbd].
  assert (HS1 : V (S 1) = V (d 1)).
  { unfold Spec.S. rewrite sum_from_S.
    destruct (add_sandwich (@Spec.sum_from B 1 0 d) (d 1) (V (d 1)) (V (d 1)))
      as [_ Hv]; [reflexivity|done|apply V_repr|apply V_repr| |simpl; lia].
    change (V (@Spec.sum_from B 1 0 d)) with (V (of_Q 0)). rewrite (proj2 const_0). lia. }
  rewrite eqb_V by (done || apply const_0). rewrite (proj2 const_0).
  case_bool_decide as HS0; [apply const_1|].
  unfold of_size. cbn [of_int binary64].
  destruct (of_Z_V (Z.of_nat 1)) as [Hft Hvt]; [simpl; lia|].
  destruct (mul_sandwich (d 1) (of_Z (Z.of_nat 1)) (V (d 1)) (V (d 1)))
    as [Hfp Hbp]; [done|done|apply V_repr|apply V_repr|rewrite Hvt; simpl; lia|].
  set (p := PrimFloat.mul (d 1) (of_Z (Z.of_nat 1))) in *. clearbody p.
  assert (HrONE : repr ONE) by (apply repr_pow2; lia).
  destruct (div_sandwich p (S 1) ONE ONE) as [Hfq Hbq]; [done|done|lia|done|done|nia|lia].
Qed.

End Buffers.

(** *** Parabolic interpolation in [src/native/cpp] *)

Lemma Cpp_interpolation_bounds (cum : list (@dbl B)) (tau : nat) (y0 y1 y2 : @dbl B) :
  (2 ≤ tau)%nat → Z.of_nat tau < 2 ^ 32 → (tau + 1 < length cum)%nat →
  cum !! (tau - 1)%nat = Some y0 → cum !! tau = Some y1 →
  cum !! (tau + 1)%nat = Some y2 →
  upto CMAX y0 → upto CMAX y1 → upto CMAX y2 →
  V y1 < ONE → V y1 ≤ V y0 → V y1 ≤ V y2 →
  ∃ r, @Cpp.parabolicInterpolation B tau cum = Some r
       ∧ fin r ∧ (Z.of_nat tau - 1) * ONE ≤ V r ≤ (Z.of_nat tau + 1) * ONE.
Proof.
  intros Htau Htau32 Hlen H0 H1 H2 [Hf0 Hb0] [Hf1 Hb1] [Hf2 Hb2] Hlt1 H10 H12.
  unfold CMAX in *.
  pose proof (pow2_pos 1074 ltac:(lia)) as HONE. fold ONE in HONE.
  assert (HC : 2 ^ 32 * ONE = 2 ^ 1106) by (unfold ONE; rewrite <- pow2_add by lia; done).
  rewrite HC in *.
  assert (Hn : ¬ (tau = 0%nat ∨ (length cum ≤ tau + 1)%nat)) by lia.
  unfold Cpp.parabolicInterpolation.
  destruct (decide _) as [Hd|_]; [exfalso; apply Hn, Hd|].
  rewrite H0, H1, H2. cbn [mbind option_bind].
  unfold of_size. cbn [dsub dmul dadd ddiv dltb fabs dconst of_int binary64].
  destruct (of_Z_V (Z.of_nat tau)) as [Hfx Hvx].
  { pose proof (pow2_lt 32 53 ltac:(lia)). lia. }
  set (x1 := of_Z (Z.of_nat tau)) in *.
  assert (Hx1 : fin x1 ∧ (Z.of_nat tau - 1) * ONE ≤ V x1 ≤ (Z.of_nat tau + 1) * ONE).
  { split; [done|]. rewrite Hvx. nia. }
  (* 2.0 * y1 *)
  destruct (double_exact y1 Hf1) as [Hft Hvt].
  { change (2 ^ 2098) with (2 * 2 ^ 2097). pose proof (pow2_lt 1074 2097 ltac:(lia)).
    unfold ONE in *. lia. }
  set (t := PrimFloat.mul (of_Q 2) y1) in *.
  (* y0 - 2.0 * y1 *)
  destruct (sub_sandwich y0 t (- V y1) (V y0)) as [Hfe Hbe];
    [done|done|apply repr_opp, V_repr|apply V_repr|lia|].
  set (e1 := PrimFloat.sub y0 t) in *.
  (* the denominator *)
  destruct (add_sandwich e1 y2 0 (2 ^ 1107)) as [Hfd Hbd];
    [done|done|apply repr_0|apply repr_pow2; lia| |].
  { change (2 ^ 1107) with (2 * 2 ^ 1106). lia. }
  set (den := PrimFloat.add e1 y2) in *.
  destruct (abs_V den Hfd) as [Hfa Hva].
  rewrite ltb_V by (done || apply const_1e12).
  case_bool_decide as Hguard; [by exists x1|].
  rewrite Hva, Z.abs_eq in Hguard by lia.
  pose proof (proj2 const_1e12) as Hc12.
  assert (Hden : 2 ^ 1034 ≤ V den) by lia.
  (* 2.0 * denominator, and y0 - y2 *)
  destruct (double_exact den Hfd) as [Hfdd Hvdd].
  { change (2 ^ 2098) with (2 * 2 ^ 2097). pose proof (pow2_lt 1107 2097 ltac:(lia)). lia. }
  set (dd := PrimFloat.mul (of_Q 2) den) in *.
  assert (Hnum : fin (PrimFloat.sub y0 y2)
                 ∧ - (2 * V den) ≤ V (PrimFloat.sub y0 y2) ≤ 2 * V den).
  { destruct (decide (2 ^ 1076 ≤ V y0 ∨ 2 ^ 1076 ≤ V y2)) as [Hbig|Hsmall].
    - (* one neighbour is 4 or more: the denominator is at least half of it *)
      destruct (decide (V y2 ≤ V y0)) as [Hle|Hgt].
      + assert (Hy0 : 2 ^ 1076 ≤ V y0) by lia.
        destruct (repr_half (V y0) (V_repr y0)) as (H & HrH & HH).
        { pose proof (pow2_le 53 1076 ltac:(lia)). lia. }
        assert (HH2 : 2 * ONE ≤ H) by (unfold ONE; change (2 ^ 1076) with (4 * 2 ^ 1074) in Hy0; lia).
        destruct (sub_sandwich y0 t H (V y0)) as [_ Hbe'];
          [done|done|done|apply V_repr|lia|]. fold e1 in Hbe'.
        destruct (add_sandwich e1 y2 H (2 ^ 1107)) as [_ Hbd'];
          [done|done|done|apply repr_pow2; lia| |].
        { change (2 ^ 1107) with (2 * 2 ^ 1106). lia. }
        fold den in Hbd'.
        destruct (sub_sandwich y0 y2 0 (V y0)) as [Hfn Hbn];
          [done|done|apply repr_0|apply V_repr|lia|].
        split; [done|lia].
      + assert (Hy2 : 2 ^ 1076 ≤ V y2) by lia.
        destruct (repr_half (V y2) (V_repr y2)) as (H & HrH & HH).
        { pose proof (pow2_le 53 1076 ltac:(lia)). lia. }
        assert (HH2 : 2 * ONE ≤ H) by (unfold ONE; change (2 ^ 1076) with (4 * 2 ^ 1074) in Hy2; lia).
        destruct (add_sandwich e1 y2 H (2 ^ 1107)) as [_ Hbd'];
          [done|done|done|apply repr_pow2; lia| |].
        { change (2 ^ 1107) with (2 * 2 ^ 1106). lia. }
        fold den in Hbd'.
        destruct (sub_sandwich y0 y2 (- V y2) 0) as [Hfn Hbn];
          [done|done|apply repr_opp, V_repr|apply repr_0|lia|].
        split; [done|lia].
    - (* all three values are below 4: every rounding is within 2^-49 *)
      assert (Hs0 : V y0 < 2 ^ 1076) by lia. assert (Hs2 : V y2 < 2 ^ 1076) by lia.
      change (2 ^ 1076) with (4 * 2 ^ 1074) in Hs0, Hs2. fold ONE in Hs0, Hs2.
      assert (H8 : 2 ^ 1077 = 8 * ONE) by done.
      destruct (near_sub y0 t) as [_ Hne]; [done|done|rewrite H8; lia|]. fold e1 in Hne.
      destruct (near_add e1 y2) as [_ Hnd]; [done|done|rewrite H8; lia|]. fold den in Hnd.
      destruct (near_sub y0 y2) as [Hfn Hnn]; [done|done|rewrite H8; lia|].
      split; [done|].
      assert (HG : 3 * 2 ^ 1025 ≤ 2 ^ 1034) by done.
      lia. }
  destruct Hnum as [Hfn Hbn].
  set (num := PrimFloat.sub y0 y2) in *.
  assert (HrONE : repr ONE) by (apply repr_pow2; lia).
  destruct (div_sandwich num dd (- ONE) ONE) as [Hfo Hbo];
    [done|done|lia|by apply repr_opp|done|nia|].
  set (offset := PrimFloat.div num dd) in *.
  destruct (add_sandwich x1 offset ((Z.of_nat tau - 1) * ONE) ((Z.of_nat tau + 1) * ONE))
    as [Hfr Hbr]; [done|done| | |lia|].
  - unfold ONE. apply repr_count; [pose proof (pow2_lt 32 53 ltac:(lia)); lia|lia|].
    change (2 ^ 2098) with (2 ^ 1024 * 2 ^ 1074).
    pose proof (pow2_lt 32 1024 ltac:(lia)). pose proof (pow2_pos 1074 ltac:(lia)). nia.
  - unfold ONE. apply repr_count; [pose proof (pow2_lt 32 53 ltac:(lia)); lia|lia|].
    change (2 ^ 2098) with (2 ^ 1024 * 2 ^ 1074).
    pose proof (pow2_lt 32 1024 ltac:(lia)). pose proof (pow2_pos 1074 ltac:(lia)). nia.
  - by eexists.
Qed.

End WithLog2.

End Binary64Analysis.

(** ** Roundings on the grid of a binade

    The interpolation of [src/native/dsp] tests its denominator against
    zero only, so that the denominator can be as small as one unit in the
    last place of the values it is computed from. Its quotient is bounded
    through the grid the three values lie on when they are close, and
    through the relative error of a rounding when they are not. *)

Module Binary64Grid.
Import SpecFloat FloatOps FloatAxioms Binary64 Binary64Limits Binary64Values.
Import Binary64Rounding Binary64Operations Binary64Analysis.
Local Open Scope Z_scope.

Lemma const_05 : fin (of_Q 0.5) ∧ 2 * V (of_Q 0.5) = ONE.
Proof. split; [reflexivity|]. vm_compute. reflexivity. Qed.

Lemma multiple_step g N k : 0 < g → (g | N) → k * g < N → (k + 1) * g ≤ N.
Proof. intros Hg [q ->] Hlt. assert (k < q) by nia. nia. Qed.

(** The binade of a number: below 2^53 the grid is that of the integers. *)
Lemma binade b : 0 ≤ b → ∃ e, 0 ≤ e ∧ b < 2 ^ (53 + e) ∧ (e = 0 ∨ 2 ^ (52 + e) ≤ b).
Proof.
  intros Hb. destruct (decide (b < 2 ^ 53)) as [Hs|Hl].
  - exists 0. split_and!; [done|done|by left].
  - assert (0 < b) by (pose proof (pow2_pos 53 ltac:(lia)); lia).
    pose proof (Z.log2_spec b ltac:(lia)) as [Hlo Hhi].
    assert (53 ≤ Z.log2 b) by (apply Z.log2_le_pow2; lia).
    exists (Z.log2 b - 52). split_and!; [lia| |right].
    + replace (53 + (Z.log2 b - 52)) with (Z.succ (Z.log2 b)) by lia. done.
    + replace (52 + (Z.log2 b - 52)) with (Z.log2 b) by lia. done.
Qed.

(** A double of magnitude at least 2^(52+e) is a multiple of 2^e. *)
Lemma repr_on_grid N e : repr N → 0 ≤ e → 2 ^ (52 + e) ≤ Z.abs N → (2 ^ e | N).
Proof.
  intros (j & s & -> & Hj & Hs & _) He Hbig.
  assert (Hes : e ≤ s).
  { destruct (decide (e ≤ s)) as [|Hn]; [done|]. exfalso.
    pose proof (pow2_le (53 + s) (52 + e) ltac:(lia)) as Hle.
    pose proof (pow2_pos s Hs) as Hps.
    rewrite Z.abs_mul, (Z.abs_eq (2 ^ s)) in Hbig by lia.
    rewrite (pow2_add 53 s) in Hle by lia. nia. }
  exists (j * 2 ^ (s - e)). rewrite <- Z.mul_assoc, <- pow2_add by lia.
  f_equal. f_equal. lia.
Qed.

(** A multiple of 2^e of magnitude at most 2^(53+e) is a double. *)
Lemma grid_repr q e :
  0 ≤ e → Z.abs q ≤ 2 ^ 53 → Z.abs (q * 2 ^ e) < 2 ^ 2098 → repr (q * 2 ^ e).
Proof.
  intros He Hq Hb. destruct (decide (Z.abs q < 2 ^ 53)) as [Hlt|Hge].
  { by apply repr_scaled. }
  assert (Hq' : q = 2 ^ 53 ∨ q = - 2 ^ 53) by lia.
  assert (Hpow : 2 ^ 53 * 2 ^ e = 2 ^ (53 + e)) by (by rewrite pow2_add by lia).
  destruct Hq' as [-> | ->].
  - rewrite Hpow in *. replace (2 ^ (53 + e)) with (1 * 2 ^ (53 + e)) in * by lia.
    apply repr_scaled; [done|lia|done].
  - replace (- 2 ^ 53 * 2 ^ e) with (- 1 * 2 ^ (53 + e)) in * by lia.
    apply repr_scaled; [done|lia|done].
Qed.

(** Around a number there are two doubles less than 2^-52 of it apart. *)
Lemma rel_sandwich X :
  Z.abs X < 2 ^ 2097 →
  ∃ L U, repr L ∧ repr U ∧ L ≤ X ≤ U ∧ 2 ^ 52 * (U - L) ≤ Z.abs X.
Proof.
  assert (Hpos : ∀ X, 0 ≤ X < 2 ^ 2097 →
            ∃ L U, repr L ∧ repr U ∧ L ≤ X ≤ U ∧ 2 ^ 52 * (U - L) ≤ X).
  { clear X. intros X [H0 Hb].
    pose proof (pow2_lt 2097 2098 ltac:(lia)) as H2098.
    destruct (decide (X < 2 ^ 53)) as [Hs|Hl].
    - assert (Hr : repr X).
      { replace X with (X * 2 ^ 0) by (change (2 ^ 0) with 1; lia).
        apply repr_scaled; [lia|done|change (2 ^ 0) with 1; lia]. }
      exists X, X. split_and!; [done|done|lia|lia|lia].
    - destruct (binade X H0) as (e & He & Hhi & [->|Hlo]); [change (53 + 0) with 53 in Hhi; lia|].
      pose proof (pow2_pos e He) as Hg.
      assert (He' : 53 + e ≤ 2097).
      { destruct (decide (53 + e ≤ 2097)) as [|Hn]; [done|]. exfalso.
        pose proof (pow2_le 2097 (52 + e) ltac:(lia)). lia. }
      pose proof (pow2_le (53 + e) 2097 ltac:(lia)) as Htop.
      rewrite (pow2_add 53 e) in Hhi, Htop by lia.
      rewrite (pow2_add 52 e) in Hlo by lia.
      pose proof (Z.div_mod X (2 ^ e) ltac:(lia)) as Hdm.
      pose proof (Z.mod_pos_bound X (2 ^ e) Hg) as Hmod.
      set (k := X / 2 ^ e) in *.
      assert (Hk : 0 ≤ k < 2 ^ 53) by nia.
      exists (k * 2 ^ e), ((k + 1) * 2 ^ e). split_and!.
      + apply grid_repr; [done|lia|]. rewrite Z.abs_eq by nia. nia.
      + apply grid_repr; [done|lia|]. rewrite Z.abs_eq by nia. nia.
      + lia.
      + lia.
      + lia. }
  intros Hb. destruct (decide (0 ≤ X)) as [H0|Hneg].
  - destruct (Hpos X) as (L & U & ?); [lia|]. exists L, U. by rewrite Z.abs_eq.
  - destruct (Hpos (- X)) as (L & U & HL & HU & Hin & Herr); [lia|].
    exists (- U), (- L). split_and!; [by apply repr_opp|by apply repr_opp|lia|lia|lia].
Qed.

Lemma rel_add x y :
  fin x → fin y → Z.abs (V x + V y) < 2 ^ 2097 →
  fin (PrimFloat.add x y)
  ∧ 2 ^ 52 * Z.abs (V (PrimFloat.add x y) - (V x + V y)) ≤ Z.abs (V x + V y).
Proof.
  intros Hx Hy HX. destruct (rel_sandwich _ HX) as (L & U & HL & HU & Hb & Herr).
  destruct (add_sandwich x y L U) as [Hf Hv]; try done. split; [done|lia].
Qed.

Lemma rel_sub x y :
  fin x → fin y → Z.abs (V x - V y) < 2 ^ 2097 →
  fin (PrimFloat.sub x y)
  ∧ 2 ^ 52 * Z.abs (V (PrimFloat.sub x y) - (V x - V y)) ≤ Z.abs (V x - V y).
Proof.
  intros Hx Hy HX. destruct (rel_sandwich _ HX) as (L & U & HL & HU & Hb & Herr).
  destruct (sub_sandwich x y L U) as [Hf Hv]; try done. split; [done|lia].
Qed.

(** An operation whose exact result is a double returns it. *)
Lemma exact_add x y :
  fin x → fin y → repr (V x + V y) →
  fin (PrimFloat.add x y) ∧ V (PrimFloat.add x y) = V x + V y.
Proof.
  intros Hx Hy Hr.
  destruct (add_sandwich x y (V x + V y) (V x + V y)) as [Hf Hv]; try done. split; [done|lia].
Qed.

Lemma exact_sub x y :
  fin x → fin y → repr (V x - V y) →
  fin (PrimFloat.sub x y) ∧ V (PrimFloat.sub x y) = V x - V y.
Proof.
  intros Hx Hy Hr.
  destruct (sub_sandwich x y (V x - V y) (V x - V y)) as [Hf Hv]; try done. split; [done|lia].
Qed.

(** Halving is exact up to half a unit of the least precision. *)
Lemma half_near n :
  fin n →
  fin (PrimFloat.mul (of_Q 0.5) n)
  ∧ Z.abs (2 * V (PrimFloat.mul (of_Q 0.5) n) - V n) ≤ 1.
Proof.
  intros Hn. destruct const_05 as [Hfh Hvh].
  pose proof (pow2_pos 1074 ltac:(lia)) as HONE. fold ONE in HONE.
  assert (∃ L U, repr L ∧ repr U ∧ 2 * L ≤ V n ≤ 2 * U ∧ 2 * U - 2 * L ≤ 1 + 1 ∧ U - L ≤ 1
                 ∧ V n - 1 ≤ 2 * L ∧ 2 * U ≤ V n + 1)
    as (L & U & HL & HU & Hin & _ & _ & HLl & HUu).
  { destruct (V_repr n) as (j & s & HN & Hj & Hs & Hb).
    destruct (decide (1 ≤ s)) as [Hs1|Hs0].
    - assert (Heq : 2 * (j * 2 ^ (s - 1)) = V n).
      { rewrite HN. replace s with ((s - 1) + 1) at 2 by lia. rewrite pow2_add by lia.
        change (2 ^ 1) with 2. lia. }
      assert (Hr : repr (j * 2 ^ (s - 1))) by (apply repr_scaled; [done|lia|lia]).
      exists (j * 2 ^ (s - 1)), (j * 2 ^ (s - 1)). split_and!; try done; lia.
    - replace s with 0 in * by lia. change (2 ^ 0) with 1 in HN. rewrite Z.mul_1_r in HN.
      pose proof (Z.div_mod (V n) 2 ltac:(lia)) as Hdm.
      pose proof (Z.mod_pos_bound (V n) 2 ltac:(lia)) as Hmod.
      assert (Hr : ∀ q, Z.abs q < 2 ^ 53 → repr q).
      { intros q Hq. replace q with (q * 2 ^ 0) by (change (2 ^ 0) with 1; lia).
        apply repr_scaled; [lia|done|].
        change (2 ^ 0) with 1. pose proof (pow2_lt 53 2098 ltac:(lia)). lia. }
      destruct (decide (V n mod 2 = 0)) as [Hz|Hnz].
      + exists (V n / 2), (V n / 2). split_and!; try (apply Hr; lia); lia.
      + exists (V n / 2), (V n / 2 + 1). split_and!; try (apply Hr; lia); lia. }
  destruct (mul_sandwich (of_Q 0.5) n L U) as [Hf Hv]; [done|done|done|done| |].
  - replace ONE with (2 * V (of_Q 0.5)) by done.
    generalize dependent (V (of_Q 0.5)). intros h Hvh. nia.
  - split; [done|lia].
Qed.

(** *** Parabolic interpolation in [src/native/dsp] *)

(** The three buffer values of the interpolation, in units of 2^-1074, with
    the double [A] of [s0 + s2], the denominator [DEN], the double [NUM] of
    [s0 - s2] and its half [NUM']: when the roundings are exact. *)
Lemma interpolation_ratio_exact a b c DEN NUM NUM' :
  0 ≤ b → b < a → b ≤ c →
  DEN = a + c - 2 * b → NUM = a - c → Z.abs (2 * NUM' - NUM) ≤ 1 →
  - DEN ≤ NUM' ≤ 2 * DEN.
Proof. lia. Qed.

(** When the values are far apart against the rounding errors. *)
Lemma interpolation_ratio_far a b c A DEN NUM NUM' :
  0 ≤ b → b < a → b ≤ c →
  2 ^ 53 < a + c → a + c ≤ 2 ^ 49 * (a + c - 2 * b) →
  2 ^ 52 * Z.abs (A - (a + c)) ≤ Z.abs (a + c) →
  2 ^ 52 * Z.abs (DEN - (A - 2 * b)) ≤ Z.abs (A - 2 * b) →
  2 ^ 52 * Z.abs (NUM - (a - c)) ≤ Z.abs (a - c) →
  Z.abs (2 * NUM' - NUM) ≤ 1 →
  - DEN ≤ NUM' ≤ 2 * DEN.
Proof. lia. Qed.

(** When they are close: all on the grid [g] of the least of them. *)
Lemma interpolation_ratio_close a b c g DEN NUM NUM' :
  0 < g → 0 ≤ b → b < a → b ≤ c →
  (g | a) → (g | b) → (g | c) → (g | DEN) →
  0 < DEN → a + c - 2 * b - 3 * g ≤ DEN →
  NUM = a - c → Z.abs (2 * NUM' - NUM) ≤ 1 →
  - DEN ≤ NUM' ≤ 2 * DEN.
Proof.
  intros Hg Hb Hba Hbc Da Db Dc DD HD0 HD HN Hhalf.
  pose proof (multiple_step g DEN 0 Hg DD ltac:(lia)) as HDg.
  pose proof (multiple_step g (a - b) 0 Hg (Z.divide_sub_r _ _ _ Da Db) ltac:(lia)) as Hia.
  destruct (decide (c ≤ a)) as [Hca|Hac].
  - assert (HX : a - c ≤ 2 * g ∨ 3 * g ≤ a - c).
    { destruct (decide (a - c ≤ 2 * g)) as [|Hn]; [by left|right].
      apply (multiple_step g (a - c) 2 Hg); [by apply Z.divide_sub_r|lia]. }
    lia.
  - assert (HX : c - a ≤ 2 * g ∨ 3 * g ≤ c - a).
    { destruct (decide (c - a ≤ 2 * g)) as [|Hn]; [by left|right].
      apply (multiple_step g (c - a) 2 Hg); [by apply Z.divide_sub_r|lia]. }
    lia.
Qed.

Section WithLog2.
Variable lg : float → float.
Local Abbreviation B := (binary64 lg).

Lemma Dsp_interpolation_ratio (y0 y1 y2 : float) :
  upto (2 ^ 1106) y0 → upto (2 ^ 1106) y1 → upto (2 ^ 1106) y2 →
  V y1 < V y0 → V y1 ≤ V y2 →
  let den := PrimFloat.sub (PrimFloat.add y0 y2) (PrimFloat.mul (of_Q 2) y1) in
  let num' := PrimFloat.mul (of_Q 0.5) (PrimFloat.sub y0 y2) in
  fin den ∧ fin num' ∧ 0 ≤ V den ∧ (0 < V den → - V den ≤ V num' ≤ 2 * V den).
Proof.
  intros [Hf0 Hb0] [Hf1 Hb1] [Hf2 Hb2] H10 H12.
  pose proof (pow2_lt 1107 2097 ltac:(lia)) as Hbig.
  pose proof (pow2_lt 2097 2098 ltac:(lia)) as Hbig'.
  assert (H1107 : 2 ^ 1107 = 2 * 2 ^ 1106) by done.
  (* 2.0 * s1 *)
  destruct (double_exact y1 Hf1) as [Hft Hvt]; [lia|].
  set (t := PrimFloat.mul (of_Q 2) y1) in *.
  (* s0 + s2 *)
  destruct (add_sandwich y0 y2 (2 * V y1) (2 ^ 1107)) as [HfA HbA];
    [done|done|apply repr_double; [apply V_repr|lia]|apply repr_pow2; lia|lia|].
  (* the denominator *)
  destruct (sub_sandwich (PrimFloat.add y0 y2) t 0 (2 ^ 1107)) as [Hfd Hbd];
    [done|done|apply repr_0|apply repr_pow2; lia|lia|].
  (* s0 - s2 and its half *)
  destruct (sub_sandwich y0 y2 (- 2 ^ 1106) (2 ^ 1106)) as [Hfn Hbn];
    [done|done|apply repr_opp, repr_pow2; lia|apply repr_pow2; lia|lia|].
  destruct (half_near (PrimFloat.sub y0 y2) Hfn) as [Hfh Hbh].
  cbv zeta. split_and!; [done|done|lia|]. intros Hpos.
  assert (Hint : ∀ q, Z.abs q ≤ 2 ^ 53 → repr q).
  { intros q Hq. replace q with (q * 2 ^ 0) by (change (2 ^ 0) with 1; lia).
    apply grid_repr; [done|done|]. change (2 ^ 0) with 1.
    pose proof (pow2_lt 53 2098 ltac:(lia)). lia. }
  destruct (decide (V y0 + V y2 ≤ 2 ^ 53)) as [Htiny|Hnt].
  { (* every operation is exact *)
    destruct (exact_add y0 y2) as [_ HvA]; [done|done|apply Hint; lia|].
    destruct (exact_sub (PrimFloat.add y0 y2) t) as [_ Hvd];
      [done|done|apply Hint; lia|].
    destruct (exact_sub y0 y2) as [_ Hvn]; [done|done|apply Hint; lia|].
    apply (interpolation_ratio_exact (V y0) (V y1) (V y2) _ (V (PrimFloat.sub y0 y2)));
      [lia|done|done|lia|done|done]. }
  destruct (decide (V y0 + V y2 ≤ 2 ^ 49 * (V y0 + V y2 - 2 * V y1))) as [Hfar|Hclose].
  { destruct (rel_add y0 y2) as [_ HrA]; [done|done|lia|].
    destruct (rel_sub (PrimFloat.add y0 y2) t) as [_ Hrd]; [done|done|lia|].
    destruct (rel_sub y0 y2) as [_ Hrn]; [done|done|lia|].
    rewrite Hvt in Hrd.
    apply (interpolation_ratio_far (V y0) (V y1) (V y2) (V (PrimFloat.add y0 y2)) _
             (V (PrimFloat.sub y0 y2))); [lia|done|done|lia|done|done|done|done|done]. }
  (* the values are close: on the grid of s1 *)
  destruct (binade (V y1) ltac:(lia)) as (e & He & Hhi & Hlo).
  pose proof (pow2_pos e He) as Hg.
  rewrite (pow2_add 53 e) in Hhi by lia.
  assert (Hlo' : e = 0 ∨ 2 ^ 52 * 2 ^ e ≤ V y1).
  { destruct Hlo as [|Hlo]; [by left|right]. by rewrite <- pow2_add by lia. }
  assert (Hgrid : ∀ N, repr N → V y1 ≤ N → (2 ^ e | N)).
  { intros N HN Hle. destruct Hlo as [->|Hlo].
    - change (2 ^ 0) with 1. apply Z.divide_1_l.
    - apply repr_on_grid; [done|done|]. rewrite Z.abs_eq by lia. lia. }
  assert (Hg1074 : 2 ^ e ≤ 2 ^ 1106).
  { destruct Hlo' as [->|Hlo']; [apply pow2_le; lia|]. lia. }
  pose proof (Hgrid _ (V_repr y0) ltac:(lia)) as D0.
  pose proof (Hgrid _ (V_repr y1) ltac:(lia)) as D1.
  pose proof (Hgrid _ (V_repr y2) ltac:(lia)) as D2.
  pose proof (Hgrid _ (V_repr (PrimFloat.add y0 y2)) ltac:(lia)) as DA.
  assert (G4 : 2 ^ (e + 2) = 4 * 2 ^ e).
  { rewrite pow2_add by lia. change (2 ^ 2) with 4. lia. }
  (* s0 + s2 is rounded on a grid of at most four steps *)
  assert (HA3 : V y0 + V y2 - 3 * 2 ^ e ≤ V (PrimFloat.add y0 y2) ≤ V y0 + V y2 + 4 * 2 ^ e).
  { pose proof (Z.div_mod (V y0 + V y2) (2 ^ (e + 2)) ltac:(lia)) as Hdm.
    pose proof (Z.mod_pos_bound (V y0 + V y2) (2 ^ (e + 2)) ltac:(lia)) as Hmod.
    assert (Hq : 0 ≤ (V y0 + V y2) / 2 ^ (e + 2) < 2 ^ 52 + 16).
    { split; [apply Z.div_pos; lia|apply Z.div_lt_upper_bound; lia]. }
    set (q := (V y0 + V y2) / 2 ^ (e + 2)) in *.
    set (r := (V y0 + V y2) mod 2 ^ (e + 2)) in *.
    assert (Hr3 : r ≤ 3 * 2 ^ e).
    { assert (Dr : (2 ^ e | 4 * 2 ^ e - r)).
      { replace (4 * 2 ^ e - r) with (2 ^ e * (4 + 4 * q) - (V y0 + V y2)) by lia.
        apply Z.divide_sub_r; [apply Z.divide_factor_l|by apply Z.divide_add_r]. }
      pose proof (multiple_step _ _ 0 Hg Dr ltac:(lia)). lia. }
    destruct (add_sandwich y0 y2 (q * 2 ^ (e + 2)) ((q + 1) * 2 ^ (e + 2))) as [_ Hb];
      [done|done| | |lia|lia].
    - apply grid_repr; [lia|lia|]. rewrite Z.abs_eq by lia. lia.
    - apply grid_repr; [lia|lia|]. rewrite Z.abs_eq by lia. lia. }
  (* the denominator is exact *)
  assert (DT : (2 ^ e | V (PrimFloat.add y0 y2) - V t)).
  { apply Z.divide_sub_r; [done|]. rewrite Hvt. by apply Z.divide_mul_r. }
  destruct (exact_sub (PrimFloat.add y0 y2) t) as [_ Hvd]; [done|done| |].
  { destruct DT as [q Hq]. rewrite Hq. apply grid_repr; [done| |].
    - assert (0 ≤ q < 68) by nia. lia.
    - rewrite <- Hq. lia. }
  (* the numerator is exact *)
  destruct (exact_sub y0 y2) as [_ Hvn]; [done|done| |].
  { destruct (Z.divide_sub_r _ _ _ D0 D2) as [q Hq]. rewrite Hq. apply grid_repr; [done| |].
    - assert (- 64 < q < 64) by nia. lia.
    - rewrite <- Hq. lia. }
  apply (interpolation_ratio_close (V y0) (V y1) (V y2) (2 ^ e) _ (V (PrimFloat.sub y0 y2)));
    [done|lia|done|done|done|done|done|by rewrite Hvd|done|lia|done|done].
Qed.

Lemma Dsp_interpolation_bounds (cum : list (@dbl B)) (tau : nat) (y0 y1 y2 : @dbl B) :
  (2 ≤ tau)%nat → Z.of_nat tau < 2 ^ 32 → (tau + 1 < length cum)%nat →
  cum !! (tau - 1)%nat = Some y0 → cum !! tau = Some y1 →
  cum !! (tau + 1)%nat = Some y2 →
  upto CMAX y0 → upto CMAX y1 → upto CMAX y2 →
  V y1 < V y0 → V y1 ≤ V y2 →
  ∃ r, @Dsp.parabolicInterpolation B tau cum = Some r
       ∧ fin r ∧ (Z.of_nat tau - 1) * ONE ≤ V r ≤ (Z.of_nat tau + 2) * ONE.
Proof.
  intros Htau Htau32 Hlen H0 H1 H2 Hu0 Hu1 Hu2 H10 H12.
  assert (HC : CMAX = 2 ^ 1106).
  { unfold CMAX, ONE. rewrite <- pow2_add by lia. done. }
  rewrite HC in *.
  pose proof (pow2_pos 1074 ltac:(lia)) as HONE. fold ONE in HONE.
  assert (Hn : ¬ (tau = 0%nat ∨ (cum ≠ [] ∧ (length cum - 1 ≤ tau)%nat))) by lia.
  unfold Dsp.parabolicInterpolation.
  destruct (decide _) as [Hd|_]; [exfalso; apply Hn, Hd|].
  rewrite H0, H1, H2. cbn [mbind option_bind].
  unfold of_size. cbn [dsub dmul dadd ddiv deqb dconst of_int binary64].
  destruct (of_Z_V (Z.of_nat tau)) as [Hfx Hvx].
  { pose proof (pow2_lt 32 53 ltac:(lia)). lia. }
  set (x1 := of_Z (Z.of_nat tau)) in *.
  destruct (Dsp_interpolation_ratio y0 y1 y2 Hu0 Hu1 Hu2 H10 H12)
    as (Hfd & Hfh & Hd0 & Hratio).
  set (den := PrimFloat.sub (PrimFloat.add y0 y2) (PrimFloat.mul (of_Q 2) y1)) in *.
  set (num' := PrimFloat.mul (of_Q 0.5) (PrimFloat.sub y0 y2)) in *.
  rewrite eqb_V by (done || apply const_0). rewrite (proj2 const_0).
  case_bool_decide as Hguard.
  { exists x1. split_and!; [done|done|rewrite Hvx; nia|rewrite Hvx; nia]. }
  specialize (Hratio ltac:(lia)).
  assert (HrONE : repr ONE) by (apply repr_pow2; lia).
  assert (Hr2 : repr (2 * ONE)) by (apply (repr_pow2 1075); lia).
  destruct (div_sandwich num' den (- ONE) (2 * ONE)) as [Hfo Hbo];
    [done|done|lia|by apply repr_opp|done|nia|].
  set (adjustment := PrimFloat.div num' den) in *.
  destruct (add_sandwich x1 adjustment ((Z.of_nat tau - 1) * ONE) ((Z.of_nat tau + 2) * ONE))
    as [Hfr Hbr]; [done|done| | |lia|].
  - unfold ONE. apply repr_count; [pose proof (pow2_lt 32 53 ltac:(lia)); lia|lia|].
    change (2 ^ 2098) with (2 ^ 1024 * 2 ^ 1074).
    pose proof (pow2_lt 32 1024 ltac:(lia)). pose proof (pow2_pos 1074 ltac:(lia)). nia.
  - unfold ONE. apply repr_count; [pose proof (pow2_lt 32 53 ltac:(lia)); lia|lia|].
    change (2 ^ 2098) with (2 ^ 1024 * 2 ^ 1074).
    pose proof (pow2_lt 32 1024 ltac:(lia)). pose proof (pow2_pos 1074 ltac:(lia)). nia.
  - by eexists.
Qed.

End WithLog2.

End Binary64Grid.

(** ** The search on doubles, and the two thresholds *)

Module Binary64Monotone.
Import SpecFloat FloatOps FloatAxioms Binary64 Binary64Order Binary64Limits Binary64Values.
Import Binary64Rounding Binary64Operations Binary64Analysis Binary64Grid.
Local Open Scope Z_scope.

Lemma same_entry {A} (l : list A) (k : nat) (a b : A) :
  l !! k = Some a → l !! k = Some b → a = b.
Proof. congruence. Qed.

Lemma const_001 : fin (of_Q 0.001).
Proof. reflexivity. Qed.

(** A double between two finite doubles is finite. *)
Lemma leb_fin_between a x b :
  fin a → fin b → PrimFloat.leb a x = true → PrimFloat.leb x b = true → fin x.
Proof.
  unfold fin. rewrite !leb_spec.
  destruct (Prim2SF x) as [sx|sx| |sx mx ex]; [done| | |done].
  - destruct (Prim2SF a) as [sa|sa| |sa ma ea], (Prim2SF b) as [sb|sb| |sb mb eb];
      try done; destruct sx; done.
  - destruct (Prim2SF a) as [sa|sa| |sa ma ea]; done.
Qed.

(** Two doubles in order between two finite doubles are finite. *)
Lemma leb_chain_fin a x y b :
  fin a → fin b →
  PrimFloat.leb a x = true → PrimFloat.leb x y = true → PrimFloat.leb y b = true →
  fin x ∧ fin y.
Proof.
  unfold fin. rewrite !leb_spec. unfold SFleb.
  destruct (Prim2SF a) as [sa|sa| |sa ma ea]; [|done|done|];
    (destruct (Prim2SF b) as [sb|sb| |sb mb eb]; [|done|done|]);
    (destruct (Prim2SF x) as [sx|[]| |sx mx ex]; [by destruct (Prim2SF y) as [sy|[]| |sy my ey]| | | |
       by destruct (Prim2SF y) as [sy|[]| |sy my ey]; try done; destruct sx]);
    (destruct (Prim2SF y) as [sy|[]| |sy my ey]);
    cbn [SFcompare sfinite]; try done;
    repeat match goal with s : bool |- _ => destruct s end; done.
Qed.

Section WithLog2.
Variable lg : float → float.
Local Abbreviation B := (binary64 lg).
Implicit Types (cum : list (@dbl B)) (t : @dbl B).

(** A threshold inside the clamp range is kept as it is. *)
Lemma Cpp_clamp_in_range t :
  PrimFloat.leb (of_Q 0.001) t = true → PrimFloat.leb t (of_Q 0.999) = true →
  @Cpp.clamp B t Yin.MIN_THRESHOLD Yin.MAX_THRESHOLD = t.
Proof.
  intros Hlo Hhi.
  assert (Hft : fin t).
  { apply (leb_fin_between (of_Q 0.001) t (of_Q 0.999)); [apply const_001|apply const_999|done..]. }
  rewrite leb_V in Hlo by (done || apply const_001).
  rewrite leb_V in Hhi by (done || apply const_999).
  apply bool_decide_eq_true in Hlo. apply bool_decide_eq_true in Hhi.
  unfold Cpp.clamp, Cpp.std_min, Cpp.std_max, Yin.MIN_THRESHOLD, Yin.MAX_THRESHOLD.
  cbn [dltb dconst binary64].
  rewrite (ltb_V t (of_Q 0.001)) by (done || apply const_001).
  rewrite bool_decide_eq_false_2 by lia.
  rewrite (ltb_V (of_Q 0.999) t) by (done || apply const_999).
  rewrite bool_decide_eq_false_2 by lia. done.
Qed.

Lemma Dsp_clamp_in_range t :
  PrimFloat.leb (of_Q 0.001) t = true → PrimFloat.leb t (of_Q 0.999) = true →
  @Dsp.clamp B t Yin.MIN_THRESHOLD Yin.MAX_THRESHOLD = t.
Proof.
  intros Hlo Hhi.
  assert (Hft : fin t).
  { apply (leb_fin_between (of_Q 0.001) t (of_Q 0.999)); [apply const_001|apply const_999|done..]. }
  rewrite leb_V in Hlo by (done || apply const_001).
  rewrite leb_V in Hhi by (done || apply const_999).
  apply bool_decide_eq_true in Hlo. apply bool_decide_eq_true in Hhi.
  unfold Dsp.clamp, Yin.MIN_THRESHOLD, Yin.MAX_THRESHOLD.
  cbn [dltb dconst binary64].
  rewrite (ltb_V t (of_Q 0.001)) by (done || apply const_001).
  rewrite bool_decide_eq_false_2 by lia.
  rewrite (ltb_V (of_Q 0.999) t) by (done || apply const_999).
  rewrite bool_decide_eq_false_2 by lia. done.
Qed.

Lemma below_value cum t k :
  entries_ok cum → fin t → @below B cum t k →
  ∃ v, cum !! k = Some v ∧ V v < V t.
Proof.
  intros Hok Ht (v & Hv & Hlt). exists v. split; [done|].
  destruct (Hok k v Hv) as [Hfv _]. cbn [dltb binary64] in Hlt.
  rewrite ltb_V in Hlt by done. by apply bool_decide_eq_true in Hlt.
Qed.

Lemma not_below_value cum t k :
  entries_ok cum → fin t → @not_below B cum t k →
  ∃ v, cum !! k = Some v ∧ V t ≤ V v.
Proof.
  intros Hok Ht (v & Hv & Hlt). exists v. split; [done|].
  destruct (Hok k v Hv) as [Hfv _]. cbn [dltb binary64] in Hlt.
  rewrite ltb_V in Hlt by done. apply bool_decide_eq_false in Hlt. lia.
Qed.

Lemma steps_down_value cum (k : nat) :
  entries_ok cum → @steps_down B cum k →
  ∃ a b, cum !! k = Some a ∧ cum !! (k + 1)%nat = Some b ∧ V b < V a.
Proof.
  intros Hok (a & b & Ha & Hb & Hlt). exists a, b. split_and!; [done|done|].
  destruct (Hok _ _ Ha) as [Hfa _]. destruct (Hok _ _ Hb) as [Hfb _].
  cbn [dltb binary64] in Hlt.
  rewrite ltb_V in Hlt by done. by apply bool_decide_eq_true in Hlt.
Qed.

Lemma steps_down_from_values cum (k : nat) a b :
  entries_ok cum → cum !! k = Some a → cum !! (k + 1)%nat = Some b → V b < V a →
  @steps_down B cum k.
Proof.
  intros Hok Ha Hb Hlt. exists a, b. split_and!; [done|done|].
  destruct (Hok _ _ Ha) as [Hfa _]. destruct (Hok _ _ Hb) as [Hfb _].
  cbn [dltb binary64]. rewrite ltb_V by done. by apply bool_decide_eq_true.
Qed.

(** Along a descent the values only go down. *)
Lemma descent_values cum (n first : nat) a b :
  entries_ok cum →
  (∀ k : nat, (first ≤ k < first + n)%nat → @steps_down B cum k) →
  cum !! first = Some a → cum !! (first + n)%nat = Some b → V b ≤ V a.
Proof.
  intros Hok. revert first a. induction n as [|n IH]; intros first a Hdown Ha Hb.
  { rewrite Nat.add_0_r in Hb. assert (a = b) as -> by congruence. lia. }
  destruct (steps_down_value cum first Hok) as (a' & c & Ha' & Hc & Hlt);
    [apply Hdown; lia|].
  assert (a' = a) as -> by congruence.
  assert (V b ≤ V c); [|lia].
  apply (IH (S first) c).
  - intros k Hk. apply Hdown. lia.
  - by rewrite <- Nat.add_1_r.
  - by replace (S first + n)%nat with (first + S n)%nat by lia.
Qed.

(** The lag a crossing ends at: its value is below the threshold, the value
    before it is greater and the value after it, if there is one, is not
    smaller. *)
Lemma crossing_minimum cum t (first tau : nat) p c1 :
  entries_ok cum → fin t →
  @crossing B cum t 2 first tau p →
  (2 ≤ first)%nat → cum !! 1%nat = Some c1 → V c1 = ONE → V t < ONE →
  ∃ y1, cum !! tau = Some y1 ∧ p = PrimFloat.sub (of_Q 1) y1 ∧ V y1 < V t
    ∧ (first ≤ tau < length cum)%nat
    ∧ (∀ y0, cum !! (tau - 1)%nat = Some y0 → V y1 < V y0)
    ∧ (∀ y2, cum !! (tau + 1)%nat = Some y2 → V y1 ≤ V y2).
Proof.
  intros Hok Hft (Hbefore & Hfirst & (Hrange & Hdown & Hstop) & (y1 & Hy1 & ->))
    Hge Hc1 Hone Ht.
  apply below_value in Hfirst as (yf & Hyf & Hyft); [|done..].
  assert (Hle : V y1 ≤ V yf).
  { apply (descent_values cum (tau - first) first yf y1); [done| |done|].
    - intros k Hk. apply Hdown. lia.
    - by replace (first + (tau - first))%nat with tau by lia. }
  exists y1. split_and!; [done|done|lia|lia|lia|..].
  - intros y0 Hy0. destruct (decide (tau = first)) as [->|Hne].
    + pose proof (same_entry _ _ _ _ Hyf Hy1) as ->.
      destruct (decide (first = 2%nat)) as [->|Hne2].
      * simpl in Hy0. pose proof (same_entry _ _ _ _ Hy0 Hc1) as ->. lia.
      * destruct (not_below_value cum t (first - 1)) as (q & Hq & Hqt);
          [done|done|apply Hbefore; lia|].
        pose proof (same_entry _ _ _ _ Hq Hy0) as ->. lia.
    + destruct (steps_down_value cum (tau - 1) Hok) as (a & b & Ha & Hb & Hlt);
        [apply Hdown; lia|].
      replace (tau - 1 + 1)%nat with tau in Hb by lia.
      pose proof (same_entry _ _ _ _ Ha Hy0) as ->. pose proof (same_entry _ _ _ _ Hb Hy1) as ->. lia.
  - intros y2 Hy2. destruct Hstop as [Hend|[_ Hnot]].
    + apply lookup_lt_Some in Hy2.
      assert (Hin : (tau + 1 < length cum)%nat) by exact Hy2. lia.
    + destruct (decide (V y2 < V y1)) as [Hlt|]; [|lia].
      exfalso. apply Hnot. by apply (steps_down_from_values cum tau y1 y2).
Qed.

(** The cumulative buffer of a frame of float samples. *)
Lemma cumulative_entries (frame : list float) (N maxLag : nat) :
  samples_ok frame → Z.of_nat N < 2 ^ 32 → Z.of_nat maxLag + 1 ≤ 2 ^ 32 →
  entries_ok ((λ k, @Spec.d' B frame N k) <$> seq 0 (maxLag + 1)).
Proof.
  intros Hok HN Hlag k v Hv.
  rewrite list_lookup_fmap in Hv.
  destruct (seq 0 (maxLag + 1) !! k) as [j|] eqn:Hj; [|done].
  apply lookup_seq in Hj as [-> Hk]. injection Hv as <-.
  apply d'_bounded; [done|done|lia].
Qed.

Section Monotone.
(** The helpers of [processBuffer] that differ between the copies. *)
Variable clamp : @dbl B → @dbl B → @dbl B → @dbl B.
Variable parabolicInterpolation : nat → list (@dbl B) → option (@dbl B).
Variable midiFromFrequency : @dbl B → @dbl B.
Variable noteNameFromMidi : @dbl B → option string.
Hypothesis interpolation_total : ∀ (tau : nat) (values : list (@dbl B)),
  (0 < tau)%nat → (tau + 1 < length values)%nat →
  is_Some (parabolicInterpolation tau values).
Hypothesis noteName_total : ∀ m, is_Some (noteNameFromMidi m).
(** At a lag whose value is below the one before it and not above the one
    after it, the refined lag is a finite double within two lags. *)
Hypothesis interpolation_bounds : ∀ cum (tau : nat) (y0 y1 y2 : @dbl B),
  (2 ≤ tau)%nat → Z.of_nat tau < 2 ^ 32 → (tau + 1 < length cum)%nat →
  cum !! (tau - 1)%nat = Some y0 → cum !! tau = Some y1 →
  cum !! (tau + 1)%nat = Some y2 →
  upto CMAX y0 → upto CMAX y1 → upto CMAX y2 →
  V y1 < ONE → V y1 < V y0 → V y1 ≤ V y2 →
  ∃ r, parabolicInterpolation tau cum = Some r
       ∧ fin r ∧ (Z.of_nat tau - 1) * ONE ≤ V r ≤ (Z.of_nat tau + 2) * ONE.
Implicit Types (det : @Yin.YinPitchDetector B).

Local Abbreviation processBuffer :=
  (@Yin.processBuffer B clamp parabolicInterpolation midiFromFrequency noteNameFromMidi).
Local Abbreviation refine := (@Yin.refine B parabolicInterpolation).

(** A crossing gives a valid estimate. *)
Lemma crossing_is_valid det t (first tau : nat) p c1 :
  entries_ok (Yin.m_cumulative det) →
  length (Yin.m_cumulative det) = (Yin.m_maxLag det + 1)%nat →
  Z.of_nat (Yin.m_maxLag det) + 1 ≤ 2 ^ 32 →
  Yin.m_cumulative det !! 1%nat = Some c1 → V c1 = ONE →
  fin (Yin.m_sampleRate det) → 2 ^ 52 ≤ V (Yin.m_sampleRate det) →
  fin t → V t ≤ ONE - 2 ^ 1064 →
  (2 ≤ first)%nat → @crossing B (Yin.m_cumulative det) t 2 first tau p →
  ∃ rho, refine det tau = Some rho ∧ @valid_estimate B det tau p rho = true.
Proof.
  intros Hok Hlen Hlag Hc1 Hone Hfs Hsr Hft Ht Hge Hcross.
  pose proof (pow2_pos 1074 ltac:(lia)) as HONE. fold ONE in HONE.
  pose proof (pow2_pos 1064 ltac:(lia)) as H1064.
  destruct (crossing_minimum _ t first tau p c1 Hok Hft Hcross Hge Hc1 Hone ltac:(lia))
    as (y1 & Hy1 & -> & Hy1t & Hrange & Hprev & Hnext).
  destruct (Hok _ _ Hy1) as [Hf1 Hb1].
  assert (∃ rho, refine det tau = Some rho
                 ∧ fin rho ∧ ONE ≤ V rho ≤ (2 ^ 32 + 1) * ONE) as (rho & Hrho & Hfr & Hbr).
  { unfold Yin.refine. case_decide as Hmid.
    - destruct (lookup_lt_is_Some_2 (Yin.m_cumulative det) (tau - 1)) as [y0 Hy0]; [lia|].
      destruct (lookup_lt_is_Some_2 (Yin.m_cumulative det) (tau + 1)) as [y2 Hy2]; [lia|].
      destruct (interpolation_bounds (Yin.m_cumulative det) tau y0 y1 y2)
        as (rho & Hrho & Hfr & Hbr); [lia|lia|lia|done|done|done| | | |lia| |  |].
      + by apply (Hok (tau - 1)%nat).
      + done.
      + by apply (Hok (tau + 1)%nat).
      + by apply Hprev.
      + by apply Hnext.
      + exists rho. split_and!; [done|done|nia|nia].
    - exists (of_Z (Z.of_nat tau)). split; [done|].
      destruct (of_Z_V (Z.of_nat tau)) as [Hfx Hvx].
      { pose proof (pow2_lt 32 53 ltac:(lia)). lia. }
      split; [done|]. rewrite Hvx. nia. }
  exists rho. split; [done|].
  (* the frequency *)
  destruct (div_sandwich (Yin.m_sampleRate det) rho 1 (V (Yin.m_sampleRate det)))
    as [Hff Hbf]; [done|done|lia| |apply V_repr| |].
  { apply (repr_pow2 0). lia. }
  { split; [|nia]. rewrite Z.mul_1_l.
    pose proof (pow2_lt 33 52 ltac:(lia)) as H33.
    change (2 ^ 33) with (2 * 2 ^ 32) in H33. nia. }
  (* the probability *)
  destruct (sub_sandwich (of_Q 1) y1 (2 ^ 1064) ONE) as [Hfp Hbp];
    [apply const_1|done|apply repr_pow2; lia|apply repr_pow2; lia
    |rewrite (proj2 const_1); lia|].
  unfold valid_estimate, rejects_estimate.
  cbn [dleb ddiv dltb isfinite dconst binary64].
  rewrite bool_decide_eq_false_2 by lia.
  rewrite (leb_V rho (of_Q 0)) by (done || apply const_0).
  rewrite (leb_V (PrimFloat.div (Yin.m_sampleRate det) rho) (of_Q 0))
    by (done || apply const_0).
  rewrite (ltb_V (of_Q 0) (PrimFloat.sub (of_Q 1) y1)) by (done || apply const_0).
  rewrite (proj2 (is_finite_fin _) Hff).
  rewrite (proj2 const_0).
  rewrite !bool_decide_eq_false_2 by lia.
  rewrite bool_decide_eq_true_2 by lia. done.
Qed.

Lemma processBuffer_monotone det (frame : list float) (numSamples : nat) t1 t2 dA rA :
  detector_wf det → (numSamples ≤ length frame)%nat →
  samples_ok frame → Z.of_nat (Yin.m_bufferSize det) < 2 ^ 32 →
  fin (Yin.m_sampleRate det) → 2 ^ 52 ≤ V (Yin.m_sampleRate det) →
  fin t1 → fin t2 → V t1 ≤ V t2 → V t2 ≤ ONE - 2 ^ 1064 →
  processBuffer (Yin.set_threshold det t1) (Some frame) numSamples = Some (dA, rA) →
  Yin.isValid rA = true →
  ∃ dB rB,
    processBuffer (Yin.set_threshold det t2) (Some frame) numSamples = Some (dB, rB)
    ∧ Yin.isValid rB = true.
Proof.
  intros Hwf Hn Hframe Hsmall Hfs Hsr Hft1 Hft2 Ht12 Ht2 HrunA HvalidA.
  assert (HwfA : detector_wf (Yin.set_threshold det t1)) by (by destruct Hwf as (? & ? & ?)).
  assert (HwfB : detector_wf (Yin.set_threshold det t2)) by (by destruct Hwf as (? & ? & ?)).
  (* the run at t1 *)
  destruct (@processBuffer_validity B clamp parabolicInterpolation midiFromFrequency
              noteNameFromMidi interpolation_total noteName_total
              (Yin.set_threshold det t1) (Some frame) numSamples HwfA)
    as (dA' & rA' & HrunA' & _ & _ & _ & HA); [by intros ? [= <-]|].
  rewrite HrunA in HrunA'. injection HrunA' as <- <-.
  destruct (HA frame eq_refl) as [HrejA HokA].
  destruct (rejects_input (Yin.set_threshold det t1) numSamples) eqn:Hguard.
  { destruct (HrejA eq_refl) as [Hfalse _]. congruence. }
  destruct (HokA eq_refl) as (a2 & tau1 & p1 & rho1 & HanA & HrejA' & HokA').
  destruct (rejects_estimate (Yin.set_threshold det t1) tau1 rho1) eqn:HestA.
  { destruct (HrejA' eq_refl) as [Hfalse _]. congruence. }
  specialize (HokA' eq_refl). rewrite HvalidA in HokA'. symmetry in HokA'.
  (* the run at t2 *)
  destruct (@processBuffer_validity B clamp parabolicInterpolation midiFromFrequency
              noteNameFromMidi interpolation_total noteName_total
              (Yin.set_threshold det t2) (Some frame) numSamples HwfB)
    as (dB & rB & HrunB & _ & _ & _ & HB); [by intros ? [= <-]|].
  exists dB, rB. split; [done|].
  destruct (HB frame eq_refl) as [_ HokB].
  destruct (HokB Hguard) as (b2 & tau2 & p2 & rho2 & HanB & _ & HokB').
  assert (Hvalid : valid_estimate (Yin.set_threshold det t2) tau2 p2 rho2 = true);
    [|unfold valid_estimate in Hvalid; apply andb_true_iff in Hvalid as [Hr Hp];
      apply negb_true_iff in Hr; by rewrite (HokB' Hr)].
  (* what the guard says *)
  assert ((Yin.m_bufferSize det ≤ length frame)%nat ∧ (2 ≤ Yin.m_maxLag det)%nat)
    as (Hbs & Hlag).
  { unfold rejects_input in Hguard.
    apply orb_false_iff in Hguard as [Hguard _].
    apply orb_false_iff in Hguard as [Hnum Hl].
    apply bool_decide_eq_false in Hnum. apply bool_decide_eq_false in Hl.
    simpl in *. split; lia. }
  assert (Hlag32 : Z.of_nat (Yin.m_maxLag det) + 1 ≤ 2 ^ 32).
  { destruct Hwf as (-> & _).
    pose proof (Nat.Div0.div_le_upper_bound (Yin.m_bufferSize det) 2 (Yin.m_bufferSize det)
                  ltac:(lia)).
    lia. }
  (* both analyses, on the same buffer *)
  destruct (analysis_buffer parabolicInterpolation interpolation_total
              det frame t1 Hwf Hbs)
    as (a2' & tau1' & p1' & rho1' & HanA' & HsA & HrA & HthrA & HsrA & HmaxA & HcumA).
  rewrite HanA in HanA'. injection HanA' as <- <- <- <-.
  destruct (analysis_buffer parabolicInterpolation interpolation_total
              det frame t2 Hwf Hbs)
    as (b2' & tau2' & p2' & rho2' & HanB' & HsB & HrB & HthrB & HsrB & HmaxB & HcumB).
  rewrite HanB in HanB'. injection HanB' as <- <- <- <-.
  pose proof (cumulative_entries frame (Yin.m_bufferSize det) (Yin.m_maxLag det)
                Hframe Hsmall Hlag32) as Hentries.
  set (cum := (λ k, @Spec.d' B frame (Yin.m_bufferSize det) k)
                <$> seq 0 (Yin.m_maxLag det + 1)) in *.
  assert (Hc1 : cum !! 1%nat = Some (@Spec.d' B frame (Yin.m_bufferSize det) 1)).
  { unfold cum. rewrite list_lookup_fmap, lookup_seq_lt by lia. done. }
  pose proof (d'_1 lg frame (Yin.m_bufferSize det) Hframe Hsmall) as Hone.
  assert (Hlc : length cum = (Yin.m_maxLag det + 1)%nat).
  { unfold cum. by rewrite length_fmap, length_seq. }
  (* refine and the validity test read the same fields in both analyses *)
  assert (Hsame : ∀ tau, refine b2 tau = refine a2 tau).
  { intros tau. unfold Yin.refine. rewrite HmaxA, HmaxB, HcumA, HcumB. done. }
  destruct (@absoluteThreshold_cases B b2) as
    [(first & tau & p & Hsearch & Hge & Hcross)|[HnoneB HfallB]].
  - (* a crossing at t2 *)
    rewrite HthrB in Hcross.
    destruct (crossing_is_valid b2 t2 first tau p
                (@Spec.d' B frame (Yin.m_bufferSize det) 1)) as (rho & Hrho & Hval);
      [by rewrite HcumB|by rewrite HcumB, HmaxB|by rewrite HmaxB|by rewrite HcumB|done
      |by rewrite HsrB|by rewrite HsrB|done|done|done|done|].
    rewrite HsB in Hsearch. injection Hsearch as <- <-.
    rewrite HrB in Hrho. injection Hrho as ->.
    unfold valid_estimate, rejects_estimate in Hval |- *. simpl. by rewrite HsrB in Hval.
  - (* no crossing at t2: none at t1 either, and the fallback is the same *)
    destruct (@absoluteThreshold_cases B a2) as
      [(first & tau & p & _ & Hge & Hcross)|[_ HfallA]].
    + exfalso. destruct Hcross as (_ & Hbelow & (Hrange & _) & _).
      rewrite HcumA, HthrA in Hbelow.
      apply below_value in Hbelow as (q & Hq & Hqt); [|done..].
      destruct (not_below_value cum t2 first) as (q' & Hq' & Hq't); [done|done| |].
      { rewrite <- HcumB, <- HthrB. apply HnoneB. rewrite HcumB, <- HcumA. lia. }
      pose proof (same_entry _ _ _ _ Hq Hq') as ->. lia.
    + rewrite HcumA in HfallA. rewrite HcumB in HfallB.
      assert (Heq : Some (tau2, p2) = Some (tau1, p1)) by congruence.
      injection Heq as -> ->.
      assert (rho2 = rho1) as ->.
      { rewrite Hsame in HrB. congruence. }
      unfold valid_estimate. rewrite HokA'.
      unfold rejects_estimate in HestA |- *. simpl in HestA |- *. by rewrite HestA.
Qed.

End Monotone.

End WithLog2.
End Binary64Monotone.


(** The bounds of the interpolation of [src/native/cpp], in the form the
    two copies share. *)
Lemma Cpp_interpolation_within lg (cum : list (@dbl (Binary64.binary64 lg)))
    (tau : nat) (y0 y1 y2 : @dbl (Binary64.binary64 lg)) :
  2 ≤ tau → (Z.of_nat tau < 2 ^ 32)%Z → tau + 1 < length cum →
  cum !! (tau - 1) = Some y0 → cum !! tau = Some y1 → cum !! (tau + 1) = Some y2 →
  Binary64Values.upto Binary64Values.CMAX y0 →
  Binary64Values.upto Binary64Values.CMAX y1 →
  Binary64Values.upto Binary64Values.CMAX y2 →
  (Binary64Values.V y1 < Binary64Values.ONE)%Z →
  (Binary64Values.V y1 < Binary64Values.V y0)%Z →
  (Binary64Values.V y1 ≤ Binary64Values.V y2)%Z →
  ∃ r, Cpp.parabolicInterpolation tau cum = Some r
       ∧ Binary64Values.fin r
       ∧ ((Z.of_nat tau - 1) * Binary64Values.ONE ≤ Binary64Values.V r
          ≤ (Z.of_nat tau + 2) * Binary64Values.ONE)%Z.
Proof.
  intros Htau H32 Hlen H0 H1 H2 Hu0 Hu1 Hu2 Hlt H10 H12.
  destruct (Binary64Analysis.Cpp_interpolation_bounds lg cum tau y0 y1 y2)
    as (r & Hr & Hf & Hb); [done..|lia|done|].
  exists r. split_and!; [done|done|lia|].
  pose proof (Binary64Rounding.pow2_pos 1074 ltac:(lia)). unfold Binary64Values.ONE in *. lia.
Qed.

Lemma Dsp_interpolation_within lg (cum : list (@dbl (Binary64.binary64 lg)))
    (tau : nat) (y0 y1 y2 : @dbl (Binary64.binary64 lg)) :
  2 ≤ tau → (Z.of_nat tau < 2 ^ 32)%Z → tau + 1 < length cum →
  cum !! (tau - 1) = Some y0 → cum !! tau = Some y1 → cum !! (tau + 1) = Some y2 →
  Binary64Values.upto Binary64Values.CMAX y0 →
  Binary64Values.upto Binary64Values.CMAX y1 →
  Binary64Values.upto Binary64Values.CMAX y2 →
  (Binary64Values.V y1 < Binary64Values.ONE)%Z →
  (Binary64Values.V y1 < Binary64Values.V y0)%Z →
  (Binary64Values.V y1 ≤ Binary64Values.V y2)%Z →
  ∃ r, Dsp.parabolicInterpolation tau cum = Some r
       ∧ Binary64Values.fin r
       ∧ ((Z.of_nat tau - 1) * Binary64Values.ONE ≤ Binary64Values.V r
          ≤ (Z.of_nat tau + 2) * Binary64Values.ONE)%Z.
Proof.
  intros Htau H32 Hlen H0 H1 H2 Hu0 Hu1 Hu2 Hlt H10 H12.
  by apply (Binary64Grid.Dsp_interpolation_bounds lg cum tau y0 y1 y2).
Qed.

(** C6. In IEEE binary64, in either copy of the detector: for a frame of
    float samples (finite, of magnitude at most FLT_MAX), a buffer of fewer
    than 2^32 samples, a finite sample rate that is a normal double (at
    least DBL_MIN), and two thresholds t1 <= t2 of the clamp range
    [0.001, 0.999]: if [processBuffer] with the threshold t1 returns
    [isValid = true], then with the threshold t2 it returns [isValid = true]
    as well. *)
Theorem C6_threshold_monotone
    (lg : Binary64.float → Binary64.float)
    (det : @Yin.YinPitchDetector (Binary64.binary64 lg))
    (frame : list Binary64.float) (numSamples : nat) (t1 t2 : Binary64.float) :
  detector_wf det → numSamples ≤ length frame →
  Binary64Values.samples_ok frame →
  (Z.of_nat (Yin.m_bufferSize det) < 2 ^ 32)%Z →
  PrimFloat.is_finite (Yin.m_sampleRate det) = true →
  PrimFloat.leb Binary64Limits.DBL_MIN (Yin.m_sampleRate det) = true →
  PrimFloat.leb (Binary64.of_Q 0.001) t1 = true →
  PrimFloat.leb t1 t2 = true →
  PrimFloat.leb t2 (Binary64.of_Q 0.999) = true →
  (∀ dA rA,
     Cpp.processBuffer (Cpp.setThreshold det t1) (Some frame) numSamples = Some (dA, rA) →
     Yin.isValid rA = true →
     ∃ dB rB,
       Cpp.processBuffer (Cpp.setThreshold det t2) (Some frame) numSamples = Some (dB, rB)
       ∧ Yin.isValid rB = true)
  ∧ (∀ dA rA,
       Dsp.processBuffer (Dsp.setThreshold det t1) (Some frame) numSamples = Some (dA, rA) →
       Yin.isValid rA = true →
       ∃ dB rB,
         Dsp.processBuffer (Dsp.setThreshold det t2) (Some frame) numSamples = Some (dB, rB)
         ∧ Yin.isValid rB = true).
Proof.
  intros Hwf Hn Hframe Hsmall Hfin Hmin Hlo H12 Hhi.
  assert (Hfs : Binary64Values.fin (Yin.m_sampleRate det))
    by (by apply Binary64Operations.is_finite_fin).
  destruct (Binary64Monotone.leb_chain_fin (Binary64.of_Q 0.001) t1 t2 (Binary64.of_Q 0.999))
    as [Hft1 Hft2]; [apply Binary64Monotone.const_001|apply Binary64Analysis.const_999|done..|].
  assert (Hlo2 : PrimFloat.leb (Binary64.of_Q 0.001) t2 = true).
  { rewrite Binary64Operations.leb_V in * by (done || apply Binary64Monotone.const_001
                                          || apply Binary64Analysis.const_999).
    apply bool_decide_eq_true in Hlo, H12. apply bool_decide_eq_true. lia. }
  assert (Hhi1 : PrimFloat.leb t1 (Binary64.of_Q 0.999) = true).
  { rewrite Binary64Operations.leb_V in * by (done || apply Binary64Monotone.const_001
                                          || apply Binary64Analysis.const_999).
    apply bool_decide_eq_true in Hhi, H12. apply bool_decide_eq_true. lia. }
  pose proof Hhi as Hhi2.
  rewrite Binary64Operations.leb_V in Hmin, H12, Hhi
    by (done || apply Binary64Analysis.const_DBL_MIN || apply Binary64Analysis.const_999).
  apply bool_decide_eq_true in Hmin, H12, Hhi.
  rewrite (proj2 Binary64Analysis.const_DBL_MIN) in Hmin.
  pose proof (proj2 Binary64Analysis.const_999) as H999.
  split; intros dA rA Hrun Hvalid.
  - unfold Cpp.setThreshold, Yin.setThreshold in *.
    rewrite (Binary64Monotone.Cpp_clamp_in_range lg t1) in Hrun by done.
    rewrite (Binary64Monotone.Cpp_clamp_in_range lg t2) by done.
    apply (Binary64Monotone.processBuffer_monotone lg
             (@Cpp.clamp (Binary64.binary64 lg))
             (@Cpp.parabolicInterpolation (Binary64.binary64 lg))
             (@Cpp.midiFromFrequency (Binary64.binary64 lg))
             (@Cpp.noteNameFromMidi (Binary64.binary64 lg))
             (@Cpp_interpolation_total (Binary64.binary64 lg))
             (@Cpp_noteName_total (Binary64.binary64 lg))
             (Cpp_interpolation_within lg)
             det frame numSamples t1 t2 dA rA); try done. lia.
  - unfold Dsp.setThreshold, Yin.setThreshold in *.
    rewrite (Binary64Monotone.Dsp_clamp_in_range lg t1) in Hrun by done.
    rewrite (Binary64Monotone.Dsp_clamp_in_range lg t2) by done.
    apply (Binary64Monotone.processBuffer_monotone lg
             (@Dsp.clamp (Binary64.binary64 lg))
             (@Dsp.parabolicInterpolation (Binary64.binary64 lg))
             (@Dsp.midiFromFrequency (Binary64.binary64 lg))
             (@Dsp.noteNameFromMidi (Binary64.binary64 lg))
             (@Dsp_interpolation_total (Binary64.binary64 lg))
             (@Dsp_noteName_total (Binary64.binary64 lg))
             (Dsp_interpolation_within lg)
             det frame numSamples t1 t2 dA rA); try done. lia.
Qed.


(** ** The ring buffer (C7, C10) *)

Section RingProofs.
Context {T : Type} (zero : T).
Import FloatRingBuffer.
Implicit Types (r : FloatRingBuffer T).

Local Open Scope Z_scope.

Lemma wrap_small z : 0 ≤ z < 2 ^ 64 → wrap z = z.
Proof. intros H. unfold wrap. by apply Z.mod_small. Qed.

Lemma wrap_range z : 0 ≤ wrap z < 2 ^ 64.
Proof. unfold wrap. apply Z.mod_pos_bound. lia. Qed.

Lemma pow2_divides_size k : 0 ≤ k ≤ 63 → (2 ^ k | 2 ^ 64).
Proof.
  intros Hk. exists (2 ^ (64 - k)). rewrite <- Z.pow_add_r by lia. f_equal. lia.
Qed.

Lemma land_mask_mod c k :
  0 ≤ k ≤ 63 → Z.land (wrap c) (2 ^ k - 1) = c mod 2 ^ k.
Proof.
  intros Hk. replace (2 ^ k - 1) with (Z.ones k) by (rewrite Z.ones_equiv; lia).
  rewrite Z.land_ones by lia. unfold wrap.
  apply Z.mod_mod_divide. by apply pow2_divides_size.
Qed.

Lemma slot_mod r c :
  ring_wf r → slot r c = Z.to_nat (c mod m_capacity r).
Proof.
  intros ((k & Hk & Hcap) & Hmask & _). unfold slot.
  rewrite Hmask, Hcap. by rewrite land_mask_mod.
Qed.

Lemma slot_lt r c : ring_wf r → (slot r c < length (m_buffer r))%nat.
Proof.
  intros Hwf. rewrite (slot_mod r c Hwf).
  destruct Hwf as ((k & Hk & Hcap) & _ & Hlen & _).
  assert (0 < m_capacity r) by (rewrite Hcap; lia).
  pose proof (Z.mod_pos_bound c (m_capacity r)). lia.
Qed.

(** Cursor values less than [capacity] apart designate different entries. *)
Lemma slot_inj r c c' :
  ring_wf r → 0 < c' - c < m_capacity r → slot r c ≠ slot r c'.
Proof.
  intros Hwf Hd. rewrite !(slot_mod r _ Hwf).
  destruct Hwf as ((k & Hk & Hcap) & _).
  assert (Hpos : 0 < m_capacity r) by (rewrite Hcap; lia).
  pose proof (Z.mod_pos_bound c (m_capacity r) Hpos).
  pose proof (Z.mod_pos_bound c' (m_capacity r) Hpos).
  intros Heq. assert (Hm : c mod m_capacity r = c' mod m_capacity r) by lia.
  assert (Hz : (c' - c) mod m_capacity r = 0).
  { rewrite Zminus_mod, <- Hm, Z.sub_diag. by apply Z.mod_0_l; lia. }
  rewrite Z.mod_small in Hz by lia. lia.
Qed.

(** Cursor values that agree modulo 2^64 designate the same entry. *)
Lemma slot_wrap r c : slot r (wrap c) = slot r c.
Proof. unfold slot, wrap. by rewrite Z.mod_mod by lia. Qed.

Lemma slot_congr r c c' : wrap c = wrap c' → slot r c = slot r c'.
Proof. intros H. unfold slot. by rewrite H. Qed.

(** [std::size_t] arithmetic on the cursors. *)
Lemma wrap_advance a b n :
  0 ≤ wrap (a - b) + n < 2 ^ 64 → wrap (wrap (a + n) - b) = wrap (a - b) + n.
Proof.
  intros H. unfold wrap in *.
  rewrite Zminus_mod_idemp_l.
  replace (a + n - b) with ((a - b) + n) by lia.
  rewrite <- Zplus_mod_idemp_l. by apply Z.mod_small.
Qed.

Lemma wrap_retreat a b n :
  0 ≤ wrap (a - b) - n < 2 ^ 64 → wrap (a - wrap (b + n)) = wrap (a - b) - n.
Proof.
  intros H. unfold wrap in *.
  rewrite Zminus_mod_idemp_r.
  replace (a - (b + n)) with ((a - b) - n) by lia.
  rewrite <- Zminus_mod_idemp_l. by apply Z.mod_small.
Qed.

Lemma write_cursor_ahead r :
  ring_wf r → wrap (m_readIndex r + available r) = m_writeIndex r.
Proof.
  intros (_ & _ & _ & Hw & Hr & _). unfold available, wrap.
  rewrite Zplus_mod_idemp_r.
  replace (m_readIndex r + (m_writeIndex r - m_readIndex r)) with (m_writeIndex r) by lia.
  by apply Z.mod_small.
Qed.

Lemma capacity_range r : ring_wf r → 0 < m_capacity r ≤ 2 ^ 63.
Proof.
  intros ((k & Hk & ->) & _). split; [lia|].
  apply Z.pow_le_mono_r; lia.
Qed.

Lemma mask_index_nonneg r c : ring_wf r → 0 ≤ Z.land (wrap c) (m_mask r).
Proof. intros _. apply Z.land_nonneg. left. apply wrap_range. Qed.

Lemma storeZ_slot r (buffer : list T) c x :
  ring_wf r → length buffer = length (m_buffer r) →
  storeZ buffer (Z.land (wrap c) (m_mask r)) x = Some (<[slot r c := x]> buffer).
Proof.
  intros Hwf Hlen. unfold storeZ.
  rewrite decide_True by (by apply mask_index_nonneg).
  apply store_Some. rewrite Hlen. by apply slot_lt.
Qed.

Lemma lookupZ_slot r (buffer : list T) c :
  ring_wf r → lookupZ buffer (Z.land (wrap c) (m_mask r)) = buffer !! slot r c.
Proof.
  intros Hwf. unfold lookupZ. by rewrite decide_True by (by apply mask_index_nonneg).
Qed.

Lemma write_loop_spec r (buffer data : list T) (n : nat) written :
  ring_wf r → length buffer = length (m_buffer r) →
  0 ≤ written → written + Z.of_nat n ≤ Z.of_nat (length data) →
  written + Z.of_nat n ≤ m_capacity r →
  ∃ buffer',
    write_loop buffer (m_mask r) (m_writeIndex r) data n written
      = Some (buffer', written + Z.of_nat n)
    ∧ length buffer' = length buffer
    ∧ (∀ i, written ≤ i < written + Z.of_nat n →
         buffer' !! slot r (m_writeIndex r + i) = data !! Z.to_nat i)
    ∧ (∀ pos, (∀ i, written ≤ i < written + Z.of_nat n → pos ≠ slot r (m_writeIndex r + i)) →
         buffer' !! pos = buffer !! pos).
Proof.
  intros Hwf. pose proof (capacity_range r Hwf) as Hcap.
  revert buffer written. induction n as [|n IH]; intros buffer written Hlen H0 Hdata Hroom.
  { exists buffer. simpl. rewrite Z.add_0_r. split_and!; [done|done|intros; lia|done]. }
  simpl write_loop.
  unfold lookupZ at 1. rewrite decide_True by done.
  destruct (lookup_lt_is_Some_2 data (Z.to_nat written)) as [x Hx]; [lia|].
  rewrite Hx. cbn [mbind option_bind].
  rewrite (storeZ_slot r buffer _ x Hwf Hlen). cbn [mbind option_bind].
  rewrite wrap_small by lia.
  destruct (IH (<[slot r (m_writeIndex r + written) := x]> buffer) (written + 1))
    as (buffer' & Heq & Hl & Hin & Hout); [by rewrite length_insert|lia|lia|lia|].
  exists buffer'. rewrite length_insert in Hl.
  replace (written + 1 + Z.of_nat n) with (written + Z.of_nat (S n)) in Heq by lia.
  split_and!; [done|done|..].
  - intros i Hi. destruct (decide (i = written)) as [->|Hne].
    + rewrite Hout.
      * rewrite list_lookup_insert_eq; [done|]. rewrite Hlen. by apply slot_lt.
      * intros j Hj. apply slot_inj; [done|lia].
    + apply Hin. lia.
  - intros pos Hpos. rewrite Hout.
    + apply list_lookup_insert_ne. intros Heq'. apply (Hpos written); [lia|done].
    + intros i Hi. apply Hpos. lia.
Qed.

Lemma read_loop_spec r (dst : list T) (n : nat) read :
  ring_wf r →
  0 ≤ read → read + Z.of_nat n ≤ Z.of_nat (length dst) →
  read + Z.of_nat n ≤ m_capacity r →
  ∃ out,
    read_loop (m_buffer r) (m_mask r) (m_readIndex r) dst n read
      = Some (out, read + Z.of_nat n)
    ∧ length out = length dst
    ∧ (∀ i, read ≤ i < read + Z.of_nat n →
         out !! Z.to_nat i = m_buffer r !! slot r (m_readIndex r + i))
    ∧ (∀ pos, ¬ (read ≤ Z.of_nat pos < read + Z.of_nat n) → out !! pos = dst !! pos).
Proof.
  intros Hwf. pose proof (capacity_range r Hwf) as Hcap.
  revert dst read. induction n as [|n IH]; intros dst read H0 Hdst Hroom.
  { exists dst. simpl. rewrite Z.add_0_r. split_and!; [done|done|intros; lia|done]. }
  simpl read_loop.
  rewrite (lookupZ_slot r _ _ Hwf).
  destruct (lookup_lt_is_Some_2 (m_buffer r) (slot r (m_readIndex r + read))) as [x Hx];
    [by apply slot_lt|].
  rewrite Hx. cbn [mbind option_bind].
  unfold storeZ. rewrite decide_True by done. rewrite store_Some by lia.
  cbn [mbind option_bind]. rewrite wrap_small by lia.
  destruct (IH (<[Z.to_nat read := x]> dst) (read + 1))
    as (out & Heq & Hl & Hin & Hout); [lia|rewrite length_insert; lia|lia|].
  exists out. rewrite length_insert in Hl.
  replace (read + 1 + Z.of_nat n) with (read + Z.of_nat (S n)) in Heq by lia.
  split_and!; [done|done|..].
  - intros i Hi. destruct (decide (i = read)) as [->|Hne].
    + rewrite Hout by lia. rewrite list_lookup_insert_eq by lia. done.
    + apply Hin. lia.
  - intros pos Hpos. rewrite Hout by lia. apply list_lookup_insert_ne. lia.
Qed.

Lemma ring_wf_intro r :
  (∃ k, 0 ≤ k ≤ 63 ∧ m_capacity r = 2 ^ k) →
  m_mask r = m_capacity r - 1 →
  Z.of_nat (length (m_buffer r)) = m_capacity r →
  0 ≤ m_writeIndex r < 2 ^ 64 →
  0 ≤ m_readIndex r < 2 ^ 64 →
  available r ≤ m_capacity r →
  ring_wf r.
Proof. intros. unfold ring_wf. tauto. Qed.

Lemma freeSpace_eq r : ring_wf r → freeSpace r = m_capacity r - available r.
Proof.
  intros Hwf. pose proof (capacity_range r Hwf).
  destruct Hwf as (_ & _ & _ & _ & _ & Hav).
  unfold freeSpace. fold (available r).
  pose proof (wrap_range (m_writeIndex r - m_readIndex r)) as Hr. fold (available r) in Hr.
  apply wrap_small. lia.
Qed.

Lemma unread_lookup r (j : nat) :
  unread r !! j
  = if decide (Z.of_nat j < available r)
    then Some (m_buffer r !! slot r (m_readIndex r + Z.of_nat j))
    else None.
Proof.
  unfold unread. rewrite list_lookup_fmap.
  pose proof (wrap_range (m_writeIndex r - m_readIndex r)) as Hr. fold (available r) in Hr.
  case_decide.
  - rewrite lookup_seq_lt by lia. done.
  - rewrite lookup_seq_ge by lia. done.
Qed.

Lemma length_unread r : length (unread r) = Z.to_nat (available r).
Proof. unfold unread. by rewrite length_fmap, length_seq. Qed.

Lemma slot_after_unread r i :
  ring_wf r → slot r (m_readIndex r + available r + i) = slot r (m_writeIndex r + i).
Proof.
  intros Hwf. apply slot_congr. unfold wrap.
  rewrite <- Zplus_mod_idemp_l. fold (wrap (m_readIndex r + available r)).
  by rewrite write_cursor_ahead.
Qed.

Lemma write_spec r (data : list T) frames :
  ring_wf r → 0 ≤ frames < 2 ^ 64 → frames ≤ Z.of_nat (length data) →
  let n := Z.min frames (freeSpace r) in
  ∃ r', write r (Some data) frames = Some (r', n)
    ∧ ring_wf r'
    ∧ m_capacity r' = m_capacity r
    ∧ m_readIndex r' = m_readIndex r
    ∧ available r' = available r + n
    ∧ unread r' = unread r ++ (Some <$> take (Z.to_nat n) data).
Proof.
  intros Hwf Hframes Hdata n.
  assert (Hndef : n = Z.min frames (freeSpace r)) by done. clearbody n.
  pose proof (capacity_range r Hwf) as Hcap.
  pose proof (freeSpace_eq r Hwf) as Hfree.
  pose proof (wrap_range (m_writeIndex r - m_readIndex r)) as Hav. fold (available r) in Hav.
  assert (Havc : available r ≤ m_capacity r) by apply Hwf.
  assert (Hsame : ∃ r', Some (r, 0) = Some (r', 0) ∧ ring_wf r' ∧ m_capacity r' = m_capacity r
            ∧ m_readIndex r' = m_readIndex r ∧ available r' = available r + 0
            ∧ unread r' = unread r ++ (Some <$> take (Z.to_nat 0) data)).
  { exists r. split_and!; try done; [lia|]. simpl. by rewrite app_nil_r. }
  unfold write. cbv zeta. case_decide as Hz.
  { subst frames. replace n with 0 by lia. done. }
  change (wrap (m_capacity r - wrap (m_writeIndex r - m_readIndex r))) with (freeSpace r).
  assert (Hn : (if decide (freeSpace r < frames) then freeSpace r else frames) = n).
  { case_decide; lia. }
  rewrite Hn. clear Hn. case_decide as Hn0; [rewrite Hn0; done|].
  destruct (write_loop_spec r (m_buffer r) data (Z.to_nat n) 0 Hwf)
    as (buffer' & Heq & Hlen & Hin & Hout); [done|lia|lia|lia|].
  rewrite Heq. cbn [mbind option_bind]. rewrite Z.add_0_l, Z2Nat.id by lia.
  set (r' := {| m_capacity := m_capacity r; m_mask := m_mask r; m_buffer := buffer';
                m_writeIndex := wrap (m_writeIndex r + n); m_readIndex := m_readIndex r |}).
  assert (Hav' : available r' = available r + n).
  { unfold available at 1. simpl. apply wrap_advance. fold (available r). lia. }
  assert (Hwf' : ring_wf r').
  { destruct Hwf as (Hk & Hmask & Hl & Hw & Hr & _).
    apply ring_wf_intro; [exact Hk|exact Hmask|simpl; lia|apply wrap_range|exact Hr|
                          rewrite Hav'; simpl; lia]. }
  exists r'. split_and!; try done.
  apply list_eq. intros j. rewrite unread_lookup, Hav'.
  change (slot r' ?c) with (slot r c). simpl.
  destruct (decide (Z.of_nat j < available r)) as [Hj|Hj].
  - rewrite decide_True by lia.
    rewrite lookup_app_l by (rewrite length_unread; lia).
    rewrite unread_lookup, decide_True by done. f_equal.
    apply Hout. intros i Hi. rewrite <- slot_after_unread by done.
    apply slot_inj; [done|lia].
  - rewrite lookup_app_r by (rewrite length_unread; lia).
    rewrite length_unread, list_lookup_fmap.
    case_decide as Hj'.
    + replace (m_readIndex r + Z.of_nat j)
        with (m_readIndex r + available r + (Z.of_nat j - available r)) by lia.
      rewrite slot_after_unread by done. rewrite Hin by lia.
      rewrite lookup_take_lt by lia.
      replace (Z.to_nat (Z.of_nat j - available r))
        with (j - Z.to_nat (available r))%nat by lia.
      destruct (lookup_lt_is_Some_2 data (j - Z.to_nat (available r))) as [x ->]; [lia|done].
    + rewrite lookup_take_ge by lia. done.
Qed.

Lemma read_spec r (dst : list T) frames :
  ring_wf r → 0 ≤ frames < 2 ^ 64 → frames ≤ Z.of_nat (length dst) →
  let n := Z.min frames (available r) in
  ∃ r' out, read r (Some dst) frames = Some (r', Some out, n)
    ∧ ring_wf r'
    ∧ m_capacity r' = m_capacity r
    ∧ m_writeIndex r' = m_writeIndex r
    ∧ available r' = available r - n
    ∧ length out = length dst
    ∧ Some <$> take (Z.to_nat n) out = take (Z.to_nat n) (unread r)
    ∧ drop (Z.to_nat n) out = drop (Z.to_nat n) dst
    ∧ unread r' = drop (Z.to_nat n) (unread r).
Proof.
  intros Hwf Hframes Hdst n.
  assert (Hndef : n = Z.min frames (available r)) by done. clearbody n.
  pose proof (capacity_range r Hwf) as Hcap.
  pose proof (wrap_range (m_writeIndex r - m_readIndex r)) as Hav. fold (available r) in Hav.
  assert (Havc : available r ≤ m_capacity r) by apply Hwf.
  assert (Hsame : ∃ r' out, Some (r, Some dst, 0) = Some (r', Some out, 0) ∧ ring_wf r'
            ∧ m_capacity r' = m_capacity r ∧ m_writeIndex r' = m_writeIndex r
            ∧ available r' = available r - 0 ∧ length out = length dst
            ∧ Some <$> take (Z.to_nat 0) out = take (Z.to_nat 0) (unread r)
            ∧ drop (Z.to_nat 0) out = drop (Z.to_nat 0) dst
            ∧ unread r' = drop (Z.to_nat 0) (unread r)).
  { exists r, dst. split_and!; try done. lia. }
  unfold read. cbv zeta. case_decide as Hz.
  { subst frames. replace n with 0 by lia. done. }
  change (wrap (m_writeIndex r - m_readIndex r)) with (available r).
  assert (Hn : (if decide (available r < frames) then available r else frames) = n).
  { case_decide; lia. }
  rewrite Hn. clear Hn. case_decide as Hn0; [rewrite Hn0; done|].
  destruct (read_loop_spec r dst (Z.to_nat n) 0 Hwf)
    as (out & Heq & Hlen & Hin & Hout); [lia|lia|lia|].
  rewrite Heq. cbn [mbind option_bind]. rewrite Z.add_0_l, Z2Nat.id by lia.
  set (r' := {| m_capacity := m_capacity r; m_mask := m_mask r; m_buffer := m_buffer r;
                m_writeIndex := m_writeIndex r; m_readIndex := wrap (m_readIndex r + n) |}).
  assert (Hav' : available r' = available r - n).
  { unfold available at 1. simpl. apply wrap_retreat. fold (available r). lia. }
  assert (Hwf' : ring_wf r').
  { destruct Hwf as (Hk & Hmask & Hl & Hw & Hr & _).
    apply ring_wf_intro; [exact Hk|exact Hmask|exact Hl|exact Hw|apply wrap_range|
                          rewrite Hav'; simpl; lia]. }
  exists r', out. split_and!; try done.
  - apply list_eq. intros j. rewrite list_lookup_fmap.
    destruct (decide (j < Z.to_nat n)%nat) as [Hj|Hj].
    + rewrite !lookup_take_lt by done.
      rewrite unread_lookup, decide_True by lia.
      replace j with (Z.to_nat (Z.of_nat j)) at 1 by lia.
      rewrite Hin by lia.
      destruct (lookup_lt_is_Some_2 (m_buffer r) (slot r (m_readIndex r + Z.of_nat j)))
        as [x ->]; [by apply slot_lt|done].
    + rewrite !lookup_take_ge by lia. done.
  - apply list_eq. intros j. rewrite !lookup_drop. apply Hout. lia.
  - apply list_eq. intros j. rewrite lookup_drop, !unread_lookup, Hav'.
    change (slot r' ?c) with (slot r c). simpl.
    assert (Hslot : slot r (wrap (m_readIndex r + n) + Z.of_nat j)
                    = slot r (m_readIndex r + Z.of_nat (Z.to_nat n + j))).
    { apply slot_congr. unfold wrap. rewrite Zplus_mod_idemp_l. f_equal. lia. }
    rewrite Hslot. repeat case_decide; try done; lia.
Qed.

Lemma reset_wf r : ring_wf r → ring_wf (reset r).
Proof.
  intros Hwf. pose proof (capacity_range r Hwf).
  destruct Hwf as (Hk & Hmask & Hl & Hw & Hr & _).
  apply ring_wf_intro; try done.
  unfold available. simpl. rewrite Z.sub_diag. unfold wrap. rewrite Z.mod_0_l; lia.
Qed.

(** The loop of [nextPowerOfTwo] started at a power of two: if it ends, it
    ends at a power of two that fits [std::size_t]. *)
Lemma nextPowerOfTwo_loop_pow2 fuel value j c :
  0 < value → 0 ≤ j ≤ 63 →
  nextPowerOfTwo_loop fuel value (2 ^ j) = Some c →
  ∃ k, 0 ≤ k ≤ 63 ∧ c = 2 ^ k.
Proof.
  intros Hv. revert j. induction fuel as [|fuel IH]; intros j Hj; [done|].
  simpl. case_decide as Hlt; [|intros [= <-]; by exists j].
  rewrite Z.shiftl_mul_pow2 by lia. rewrite Z.pow_1_r.
  destruct (decide (j = 63)) as [->|Hne].
  - replace (wrap (2 ^ 63 * 2)) with 0 by done.
    assert (Hzero : ∀ f, nextPowerOfTwo_loop f value 0 = None).
    { induction f as [|f IHf]; [done|].
      cbn [nextPowerOfTwo_loop]. rewrite decide_True by lia. exact IHf. }
    by rewrite Hzero.
  - replace (2 ^ j * 2) with (2 ^ (j + 1)) by (rewrite Z.pow_add_r; lia).
    rewrite wrap_small.
    + apply IH. lia.
    + split; [lia|]. apply Z.pow_lt_mono_r; lia.
Qed.

Lemma new_wf capacityFrames r :
  0 ≤ capacityFrames → new zero capacityFrames = Some r → ring_wf r.
Proof.
  intros Hc. unfold new, nextPowerOfTwo.
  set (value := if decide (capacityFrames = 0) then 1 else capacityFrames).
  assert (Hv : 0 < value) by (unfold value; case_decide; lia).
  destruct (decide (value ≤ 1)) as [Hle|Hgt]; cbn [mbind option_bind].
  - intros [= <-]. apply ring_wf_intro; simpl; try done; by exists 0.
  - destruct (nextPowerOfTwo_loop 65 value 1) as [c|] eqn:Hloop; [|done].
    cbn [mbind option_bind]. intros [= <-].
    destruct (nextPowerOfTwo_loop_pow2 65 value 0 c) as (k & Hk & ->); [done|lia|done|].
    assert (0 < 2 ^ k ≤ 2 ^ 63) by (split; [lia|apply Z.pow_le_mono_r; lia]).
    apply ring_wf_intro; simpl; try done.
    + by exists k.
    + apply wrap_small. lia.
    + rewrite length_replicate. lia.
    + unfold available. simpl. replace (wrap (0 - 0)) with 0 by done. lia.
Qed.

(** Every reachable state satisfies the invariant. *)
Lemma reachable_wf r : reachable zero r → ring_wf r.
Proof.
  induction 1 as [c r Hc Hnew|r data frames r' n _ IH Hf Hd Hw
                 |r dst frames r' out n _ IH Hf Hd Hr|r _ IH].
  - apply (new_wf c); [lia|done].
  - destruct (write_spec r data frames IH Hf Hd) as (r'' & Heq & Hwf & _).
    rewrite Hw in Heq. by injection Heq as ->.
  - destruct (read_spec r dst frames IH Hf Hd) as (r'' & out' & Heq & Hwf & _).
    rewrite Hr in Heq. by injection Heq as -> _.
  - by apply reset_wf.
Qed.

End RingProofs.

(** C7. For every reachable ring:
    - if it is empty, writing N samples (0 <= N <= capacity) and reading N
      samples at once returns N both times and hands back exactly the
      samples written, in order, leaving the ring empty;
    - a write of more frames than are free copies the first [freeSpace]
      samples behind the unread ones, returns that count and leaves no
      free space;
    - [available() + freeSpace()] is [capacity], as integers and as the
      [std::size_t] sum. *)
Theorem C7_ring_round_trip_and_accounting
    {T : Type} (zero : T) (r : FloatRingBuffer.FloatRingBuffer T) :
  reachable zero r →
  (FloatRingBuffer.available r = 0%Z →
   ∀ (N : Z) (data dst : list T),
     (0 ≤ N ≤ FloatRingBuffer.m_capacity r)%Z →
     (N ≤ Z.of_nat (length data))%Z → (N ≤ Z.of_nat (length dst))%Z →
     ∃ r1 r2 out,
       FloatRingBuffer.write r (Some data) N = Some (r1, N)
       ∧ FloatRingBuffer.read r1 (Some dst) N = Some (r2, Some out, N)
       ∧ take (Z.to_nat N) out = take (Z.to_nat N) data
       ∧ FloatRingBuffer.available r2 = 0%Z)
  ∧ (∀ (frames : Z) (data : list T),
       (FloatRingBuffer.freeSpace r < frames < 2 ^ 64)%Z →
       (frames ≤ Z.of_nat (length data))%Z →
       ∃ r',
         FloatRingBuffer.write r (Some data) frames
           = Some (r', FloatRingBuffer.freeSpace r)
         ∧ unread r' = unread r
                       ++ (Some <$> take (Z.to_nat (FloatRingBuffer.freeSpace r)) data)
         ∧ FloatRingBuffer.freeSpace r' = 0%Z)
  ∧ (FloatRingBuffer.available r + FloatRingBuffer.freeSpace r
       = FloatRingBuffer.m_capacity r)%Z
  ∧ FloatRingBuffer.wrap (FloatRingBuffer.available r + FloatRingBuffer.freeSpace r)
    = FloatRingBuffer.m_capacity r.
Proof.
  intros Hreach. pose proof (reachable_wf zero r Hreach) as Hwf.
  pose proof (capacity_range r Hwf) as Hcap.
  pose proof (freeSpace_eq r Hwf) as Hfree.
  split_and!.
  - intros Hempty N data dst HN Hdata Hdst.
    destruct (write_spec r data N Hwf) as (r1 & Hw & Hwf1 & Hc1 & _ & Hav1 & Hun1); [lia|done|].
    rewrite Z.min_l in Hw, Hav1, Hun1 by lia.
    destruct (read_spec r1 dst N Hwf1) as (r2 & out & Hr & _ & _ & _ & Hav2 & _ & Hout & _);
      [lia|done|].
    rewrite Z.min_l in Hr, Hav2, Hout by lia.
    exists r1, r2, out. split_and!; [done|done| |lia].
    assert (Hnil : unread r = []).
    { apply nil_length_inv. rewrite length_unread, Hempty. done. }
    rewrite Hun1, Hnil in Hout. simpl in Hout.
    rewrite <- fmap_take, take_take, Nat.min_id in Hout.
    by apply (inj (fmap Some)) in Hout.
  - intros frames data Hframes Hdata.
    assert (0 ≤ FloatRingBuffer.freeSpace r)%Z by apply wrap_range.
    destruct (write_spec r data frames Hwf) as (r' & Hw & Hwf' & Hc' & _ & Hav' & Hun');
      [lia|done|].
    rewrite Z.min_r in Hw, Hav', Hun' by lia.
    exists r'. split_and!; [done|done|].
    rewrite (freeSpace_eq r' Hwf'). lia.
  - lia.
  - rewrite wrap_small; lia.
Qed.

(** C10. In every state of the ring, [write] with a null data pointer or
    with a frame count of 0 returns 0 and leaves the ring as it was, cursors
    and samples; [read] with a null destination or a frame count of 0
    returns 0 and changes neither the ring nor the destination. *)
Theorem C10_ring_null_or_zero_request
    {T : Type} (r : FloatRingBuffer.FloatRingBuffer T)
    (data dst : option (list T)) (frames : Z) :
  FloatRingBuffer.write r None frames = Some (r, 0%Z)
  ∧ FloatRingBuffer.write r data 0 = Some (r, 0%Z)
  ∧ FloatRingBuffer.read r None frames = Some (r, None, 0%Z)
  ∧ FloatRingBuffer.read r dst 0 = Some (r, dst, 0%Z).
Proof.
  split_and!; [done| |done|].
  - by destruct data.
  - by destruct dst.
Qed.

(** ** The accumulation loop of the controller (C8) *)

Section AccumulateProofs.
Context {D : Double}.
Import PitchDetector.
Implicit Types (p : PitchDetector) (input : list sample).

Lemma Dsp_processBuffer_keeps det samples numSamples det' r :
  detector_wf det →
  (∀ arr, samples = Some arr → numSamples ≤ length arr) →
  Dsp.processBuffer det samples numSamples = Some (det', r) →
  detector_wf det' ∧ Yin.m_bufferSize det' = Yin.m_bufferSize det.
Proof.
  intros Hwf Hext Hrun.
  destruct (processBuffer_validity Dsp.clamp Dsp.parabolicInterpolation
              Dsp.midiFromFrequency Dsp.noteNameFromMidi
              Dsp_interpolation_total Dsp_noteName_total det samples numSamples Hwf Hext)
    as (det'' & r' & Hrun' & _ & Hwf' & _).
  unfold Dsp.processBuffer in Hrun. rewrite Hrun in Hrun'. injection Hrun' as <- <-.
  split; [done|].
  unfold Yin.processBuffer in Hrun.
  destruct samples as [arr|]; [|by injection Hrun as <- _].
  destruct (_ || _ || _) eqn:Hguard; [by injection Hrun as <- _|].
  destruct (processBuffer_run Dsp.clamp Dsp.parabolicInterpolation
              Dsp.midiFromFrequency Dsp.noteNameFromMidi
              Dsp_interpolation_total Dsp_noteName_total det arr numSamples Hwf)
    as (det2 & tau & p & rho & r' & Han & Hrun' & _); [by apply Hext|done|].
  destruct (analysis_total Dsp.parabolicInterpolation Dsp_interpolation_total det arr Hwf)
    as (det2' & ? & ? & ? & Han' & _ & _ & Hbs & _).
  { unfold rejects_input in Hguard.
    apply orb_false_iff in Hguard as [Hguard _].
    apply orb_false_iff in Hguard as [Hnum _].
    apply bool_decide_eq_false in Hnum. specialize (Hext arr eq_refl). lia. }
  rewrite Han in Han'. injection Han' as <- <- <- <-.
  unfold Yin.processBuffer in Hrun'. rewrite Hguard in Hrun'.
  rewrite Hrun in Hrun'. by injection Hrun' as -> _.
Qed.

Lemma memcpy_Some (v : list sample) at_ src :
  at_ + length src ≤ length v →
  memcpy v at_ src = Some (take at_ v ++ src ++ drop (at_ + length src) v).
Proof. intros H. unfold memcpy. by rewrite decide_True. Qed.

Lemma memcpy_length (v v' : list sample) at_ src :
  memcpy v at_ src = Some v' → length v' = length v.
Proof.
  unfold memcpy. case_decide as H; [|done]. intros [= <-].
  rewrite !length_app, length_take, length_drop. lia.
Qed.

(** Copying two adjacent pieces one after the other is copying them at once. *)
Lemma memcpy_app (v : list sample) at_ a b :
  at_ + length a + length b ≤ length v →
  memcpy v at_ (a ++ b) = memcpy v at_ a ≫= λ v1, memcpy v1 (at_ + length a) b.
Proof.
  intros H. rewrite (memcpy_Some v at_ (a ++ b)) by (rewrite length_app; lia).
  rewrite (memcpy_Some v at_ a) by lia. cbn [mbind option_bind].
  rewrite memcpy_Some by (rewrite !length_app, length_take, length_drop; lia).
  f_equal. rewrite length_app.
  assert (Ht : take (at_ + length a) (take at_ v ++ a ++ drop (at_ + length a) v)
               = take at_ v ++ a).
  { rewrite app_assoc. apply take_app_length'. rewrite length_app, length_take. lia. }
  assert (Hd : drop (at_ + length a + length b) (take at_ v ++ a ++ drop (at_ + length a) v)
               = drop (at_ + (length a + length b)) v).
  { rewrite app_assoc.
    rewrite drop_app_ge by (rewrite length_app, length_take; lia).
    rewrite length_app, length_take, drop_drop. f_equal. lia. }
  rewrite Ht, Hd. by rewrite <- !app_assoc.
Qed.

(** [fill] on a controller whose accumulator is not full: it takes
    [k = min (space, length input)] samples, at least one. *)
Lemma fill_spec p input :
  controller_wf p → input ≠ [] →
  let k := Z.to_nat (Z.min (m_analysisFrameCount p - m_accumulatorSize p)
                           (Z.of_nat (length input))) in
  ∃ acc,
    memcpy (m_accumulator p) (Z.to_nat (m_accumulatorSize p)) (take k input) = Some acc
    ∧ fill p input
      = Some (with_accumulator p acc (m_accumulatorSize p + Z.of_nat k)%Z, drop k input)
    ∧ 1 ≤ k ≤ length input
    ∧ (Z.of_nat k ≤ m_analysisFrameCount p - m_accumulatorSize p)%Z.
Proof.
  intros ((_ & _ & _ & Hlen) & Hsize) Hne k.
  assert (Hin : 1 ≤ length input) by (destruct input; [done|simpl; lia]).
  assert (Hk : 1 ≤ k ≤ length input) by lia.
  assert (Hroom : (Z.of_nat k ≤ m_analysisFrameCount p - m_accumulatorSize p)%Z) by lia.
  assert (Htake : length (take k input) = k) by (rewrite length_take; lia).
  eexists. split_and!; [apply memcpy_Some; rewrite Htake; lia| |lia|lia|done].
  unfold fill. rewrite decide_True by lia.
  fold k. rewrite memcpy_Some by (rewrite Htake; lia).
  cbn [mbind option_bind]. do 3 f_equal. lia.
Qed.

Lemma with_accumulator_ok p acc size :
  controller_ok p → length acc = length (m_accumulator p) →
  controller_ok (with_accumulator p acc size).
Proof.
  intros (Hr & Hd & Hh & Hl0) Hl. unfold controller_ok. simpl. rewrite Hl. tauto.
Qed.

(** [dispatch] on a full accumulator: the frame is the accumulator, and
    afterwards the accumulator starts with the samples that followed the
    first [hop] ones, [frameCount - hop] of them (none when the hop is the
    frame count). *)
Lemma dispatch_spec p det :
  controller_full p → m_detector p = Some det →
  ∃ p' d, dispatch p det = Some (p', d)
    ∧ controller_wf p'
    ∧ frame d = m_accumulator p
    ∧ (∃ det', Dsp.processBuffer det (Some (m_accumulator p))
                 (Z.to_nat (m_analysisFrameCount p)) = Some (det', result d))
    ∧ m_accumulatorSize p' = (m_analysisFrameCount p - m_hopFrameCount p)%Z
    ∧ take (Z.to_nat (m_accumulatorSize p')) (m_accumulator p')
      = drop (Z.to_nat (m_hopFrameCount p)) (m_accumulator p)
    ∧ m_analysisFrameCount p' = m_analysisFrameCount p
    ∧ m_hopFrameCount p' = m_hopFrameCount p.
Proof.
  intros (Hok & Hsize) Hdet.
  pose proof Hok as (Hrun & (det0 & Hdet0 & Hwfd & Hbs) & Hhop & Hlen).
  assert (det0 = det) as -> by congruence.
  unfold dispatch.
  destruct (processBuffer_validity Dsp.clamp Dsp.parabolicInterpolation
              Dsp.midiFromFrequency Dsp.noteNameFromMidi
              Dsp_interpolation_total Dsp_noteName_total det (Some (m_accumulator p))
              (Z.to_nat (m_analysisFrameCount p)) Hwfd)
    as (det' & r & Hrun' & _); [intros ? [= <-]; lia|].
  fold (@Dsp.processBuffer D) in Hrun'. rewrite Hrun'. cbn [mbind option_bind].
  destruct (Dsp_processBuffer_keeps det (Some (m_accumulator p))
              (Z.to_nat (m_analysisFrameCount p)) det' r Hwfd) as [Hwfd' Hbs'];
    [intros ? [= <-]; lia|done|].
  assert (Hok' : controller_ok (with_detector p det')).
  { unfold controller_ok. simpl. split; [done|]. split; [|done].
    exists det'. split; [done|]. split; [done|]. congruence. }
  cbn [m_hopFrameCount m_analysisFrameCount m_accumulator with_detector].
  rewrite take_ge by lia.
  case_decide as Hlt.
  - rewrite decide_True by lia. unfold memmove.
    rewrite decide_True by lia.
    set (n := Z.to_nat (m_analysisFrameCount p - m_hopFrameCount p)).
    set (h := Z.to_nat (m_hopFrameCount p)).
    assert (Hsrc : take n (drop h (m_accumulator p)) = drop h (m_accumulator p)).
    { apply take_ge. rewrite length_drop. lia. }
    rewrite Hsrc.
    rewrite memcpy_Some by (rewrite length_drop; lia).
    cbn [mbind option_bind]. eexists _, _. split; [done|].
    split_and!; try done.
    + split.
      * apply with_accumulator_ok; [done|]. simpl.
        rewrite !length_app, !length_drop. simpl. lia.
      * simpl. lia.
    + by eexists.
    + simpl. rewrite take_app_length'; [done|]. rewrite length_drop. lia.
  - assert (Heq : m_hopFrameCount p = m_analysisFrameCount p) by lia.
    eexists _, _. split; [done|]. split_and!; try done.
    + split; [by apply with_accumulator_ok|simpl; lia].
    + by eexists.
    + simpl. lia.
    + simpl. rewrite drop_ge by lia. done.
Qed.

(** One round of the loop on a controller whose accumulator is not full. *)
Lemma loop_body_spec p input :
  controller_wf p → input ≠ [] →
  let k := Z.to_nat (Z.min (m_analysisFrameCount p - m_accumulatorSize p)
                           (Z.of_nat (length input))) in
  ∃ acc,
    memcpy (m_accumulator p) (Z.to_nat (m_accumulatorSize p)) (take k input) = Some acc
    ∧ 1 ≤ k ≤ length input
    ∧ let p1 := with_accumulator p acc (m_accumulatorSize p + Z.of_nat k)%Z in
      ((m_accumulatorSize p + Z.of_nat k < m_analysisFrameCount p)%Z
       ∧ k = length input
       ∧ loop_body p input = Some (Break p1) ∧ controller_wf p1)
      ∨ ((m_accumulatorSize p + Z.of_nat k = m_analysisFrameCount p)%Z
         ∧ controller_full p1
         ∧ ∃ det p2 d, m_detector p = Some det
             ∧ dispatch p1 det = Some (p2, d)
             ∧ loop_body p input = Some (Again p2 (drop k input) d)
             ∧ controller_wf p2).
Proof.
  intros Hwf Hne k.
  destruct (fill_spec p input Hwf Hne) as (acc & Hcopy & Hfill & Hk & Hroom).
  fold k in Hcopy, Hfill, Hk, Hroom.
  exists acc. split_and!; [done|lia|lia|]. intros p1.
  destruct Hwf as (Hok & Hsize).
  pose proof Hok as (_ & (det & Hdet & _) & _ & _).
  assert (Hok1 : controller_ok p1).
  { apply with_accumulator_ok; [done|]. by apply memcpy_length in Hcopy. }
  unfold loop_body. rewrite Hfill. cbn [mbind option_bind].
  fold p1. replace (m_detector p1) with (Some det) by (by rewrite <- Hdet).
  cbn [m_analysisFrameCount m_accumulatorSize with_accumulator p1].
  case_decide as Hfull.
  - right. assert (Hf : controller_full p1) by (split; [done|simpl; lia]).
    split_and!; [lia|done|].
    destruct (dispatch_spec p1 det Hf) as (p2 & d & Hd & Hwf2 & _); [by rewrite <- Hdet|].
    exists det, p2, d. rewrite Hd. done.
  - left. split_and!; [lia|lia|done|]. split; [done|simpl; lia].
Qed.

Lemma length_drop_lt input k : 1 ≤ k ≤ length input → length (drop k input) < length input.
Proof. intros H. rewrite length_drop. lia. Qed.

(** With fuel for more rounds than there are samples the loop ends, and
    neither the fuel nor what was emitted before changes what it does. *)
Lemma accumulate_run_bounded (n fuel : nat) p input emitted :
  controller_wf p → length input ≤ n → length input < fuel →
  ∃ p' e, run p input = Some (p', e) ∧ controller_wf p'
    ∧ accumulate fuel p input emitted = Some (p', emitted ++ e).
Proof.
  revert fuel p input emitted.
  induction n as [|n IH]; intros fuel p input emitted Hwf Hn Hfuel.
  { destruct input; [|simpl in Hn; lia].
    destruct fuel; [lia|]. exists p, []. by rewrite app_nil_r. }
  destruct fuel as [|fuel]; [lia|].
  destruct (decide (input = [])) as [->|Hne].
  { exists p, []. by rewrite app_nil_r. }
  unfold run. cbn [accumulate]. rewrite !decide_False by done.
  destruct (loop_body_spec p input Hwf Hne)
    as (acc & _ & Hk & [(_ & _ & -> & Hwf1)|(_ & _ & det & p2 & d & _ & _ & -> & Hwf2)]);
    cbn [mbind option_bind].
  - eexists _, []. by rewrite app_nil_r.
  - match type of Hk with 1 ≤ ?k0 ≤ _ => set (k := k0) in * end.
    pose proof (length_drop_lt input k Hk) as Hlt.
    change ([] ++ [d]) with [d].
    destruct (IH (length input) p2 (drop k input) [d] Hwf2) as (p' & e & Hrun & Hwf' & ->);
      [lia|lia|].
    destruct (IH fuel p2 (drop k input) (emitted ++ [d]) Hwf2) as (p'' & e' & Hrun' & _ & ->);
      [lia|lia|].
    rewrite Hrun in Hrun'. injection Hrun' as <- <-.
    exists p', ([d] ++ e). split_and!; [done|done|]. by rewrite app_assoc.
Qed.

Lemma accumulate_run fuel p input emitted :
  controller_wf p → length input < fuel →
  ∃ p' e, run p input = Some (p', e) ∧ controller_wf p'
    ∧ accumulate fuel p input emitted = Some (p', emitted ++ e).
Proof. intros. by apply (accumulate_run_bounded (length input)). Qed.

Lemma run_total p input :
  controller_wf p → ∃ p' e, run p input = Some (p', e) ∧ controller_wf p'.
Proof.
  intros Hwf. destruct (accumulate_run (S (length input)) p input [] Hwf) as (p' & e & H & Hwf' & _);
    [lia|]. by exists p', e.
Qed.

Lemma run_nil p : run p [] = Some (p, []).
Proof. done. Qed.

Lemma run_unfold p input :
  input ≠ [] →
  run p input
  = r ← loop_body p input;
    match r with
    | Break p' => Some (p', [])
    | Again p' rest d => accumulate (length input) p' rest [d]
    end.
Proof. intros Hne. unfold run. cbn [accumulate]. by rewrite decide_False. Qed.

(** More input behind a chunk that fills the accumulator does not change
    the round: it is left for the next one. *)
Lemma fill_app_full p a b :
  controller_wf p → a ≠ [] →
  (m_analysisFrameCount p - m_accumulatorSize p ≤ Z.of_nat (length a))%Z →
  ∃ p1 rest, fill p a = Some (p1, rest) ∧ fill p (a ++ b) = Some (p1, rest ++ b).
Proof.
  intros Hwf Hne Hroom.
  assert (Hne' : a ++ b ≠ []) by (destruct a; done).
  destruct (fill_spec p a Hwf Hne) as (acc & Hcopy & -> & Hk & _).
  destruct (fill_spec p (a ++ b) Hwf Hne') as (acc' & Hcopy' & -> & Hk' & _).
  rewrite length_app in *.
  replace (Z.to_nat ((m_analysisFrameCount p - m_accumulatorSize p)
                     `min` Z.of_nat (length a + length b)))
    with (Z.to_nat ((m_analysisFrameCount p - m_accumulatorSize p)
                    `min` Z.of_nat (length a))) in * by lia.
  set (k := Z.to_nat _) in *.
  rewrite take_app_le in Hcopy' by lia. rewrite drop_app_le by lia.
  assert (acc' = acc) as -> by congruence.
  by eexists _, _.
Qed.

(** A chunk that does not fill the accumulator, followed by more input:
    the round is the one that the rest of the input gets after the chunk. *)
Lemma fill_app_partial p a b acc :
  controller_wf p → a ≠ [] → b ≠ [] →
  (m_accumulatorSize p + Z.of_nat (length a) < m_analysisFrameCount p)%Z →
  memcpy (m_accumulator p) (Z.to_nat (m_accumulatorSize p)) a = Some acc →
  fill p (a ++ b)
  = fill (with_accumulator p acc (m_accumulatorSize p + Z.of_nat (length a))%Z) b.
Proof.
  intros Hwf Hne Hneb Hroom Hcopy.
  set (p1 := with_accumulator p acc (m_accumulatorSize p + Z.of_nat (length a))%Z).
  assert (Hwf1 : controller_wf p1).
  { destruct Hwf as (Hok & Hsize). split.
    - apply with_accumulator_ok; [done|]. by apply memcpy_length in Hcopy.
    - simpl. lia. }
  assert (Hne' : a ++ b ≠ []) by (destruct a; done).
  destruct (fill_spec p (a ++ b) Hwf Hne') as (acc' & Hcopy' & -> & Hk' & _).
  destruct (fill_spec p1 b Hwf1 Hneb) as (acc1 & Hcopy1 & -> & Hk1 & _).
  assert (Hb : 1 ≤ length b) by (destruct b; [done|simpl; lia]).
  rewrite length_app in *.
  cbn [m_analysisFrameCount m_accumulatorSize m_accumulator with_accumulator p1] in *.
  set (k' := Z.to_nat ((m_analysisFrameCount p - m_accumulatorSize p)
                       `min` Z.of_nat (length a + length b))) in *.
  set (k1 := Z.to_nat ((m_analysisFrameCount p - (m_accumulatorSize p + Z.of_nat (length a)))
                       `min` Z.of_nat (length b))) in *.
  assert (Hkk : k' = length a + k1) by lia.
  rewrite Hkk in *.
  rewrite take_app_add', drop_app_add' in * by done.
  destruct Hwf as ((_ & _ & _ & Hlen) & Hsize).
  rewrite memcpy_app in Hcopy'.
  2:{ rewrite length_take. lia. }
  rewrite Hcopy in Hcopy'. cbn [mbind option_bind] in Hcopy'.
  replace (Z.to_nat (m_accumulatorSize p) + length a)%nat
    with (Z.to_nat (m_accumulatorSize p + Z.of_nat (length a))) in Hcopy' by lia.
  assert (acc' = acc1) as -> by congruence.
  unfold with_accumulator. simpl. do 3 f_equal. lia.
Qed.

(** Splitting the input of the loop in two changes nothing: the callback
    on [a ++ b] does what the callback on [a] followed by the callback on
    [b] does. *)
Lemma run_app p a b :
  controller_wf p →
  run p (a ++ b)
  = '(p1, e1) ← run p a; '(p2, e2) ← run p1 b; Some (p2, e1 ++ e2).
Proof.
  remember (length a) as n eqn:Hn. revert p a Hn.
  induction n as [n IH] using lt_wf_ind. intros p a Hn Hwf.
  destruct (decide (a = [])) as [->|Hne].
  { rewrite run_nil. cbn [mbind option_bind app]. by destruct (run p b) as [[p2 e2]|]. }
  assert (Hne' : a ++ b ≠ []) by (destruct a; done).
  destruct (loop_body_spec p a Hwf Hne) as (acc & Hcopy & Hk & Hcases).
  cbv zeta in Hcases.
  set (k := Z.to_nat ((m_analysisFrameCount p - m_accumulatorSize p)
                      `min` Z.of_nat (length a))) in *.
  destruct Hcases as [(Hlt & Hka & Hbody & Hwf1)|(Hfull & Hf1 & det & p2 & d & Hdet & Hdisp & Hbody & Hwf2)].
  - (* [a] does not fill the accumulator *)
    clearbody k. subst k.
    rewrite (run_unfold p a Hne), Hbody. cbn [mbind option_bind].
    rewrite take_ge in Hcopy by lia.
    set (p1 := with_accumulator p acc (m_accumulatorSize p + Z.of_nat (length a))%Z) in *.
    destruct (decide (b = [])) as [->|Hneb].
    { rewrite app_nil_r, run_nil. cbn [mbind option_bind].
      by rewrite (run_unfold p a Hne), Hbody. }
    rewrite (run_unfold _ _ Hne'), (run_unfold p1 b Hneb).
    unfold loop_body at 1.
    rewrite (fill_app_partial p a b acc Hwf Hne Hneb) by (done || lia).
    fold p1. fold (loop_body p1 b).
    destruct (loop_body_spec p1 b Hwf1 Hneb) as (acc1 & _ & Hk1 & Hcases1).
    cbv zeta in Hcases1.
    set (k1 := Z.to_nat ((m_analysisFrameCount p1 - m_accumulatorSize p1)
                         `min` Z.of_nat (length b))) in *.
    destruct Hcases1 as [(_ & _ & -> & _)|(_ & _ & det & p3 & d & _ & _ & -> & Hwf3)];
      cbn [mbind option_bind]; [done|].
    pose proof (length_drop_lt b k1 Hk1) as Hlt'.
    destruct (accumulate_run (length (a ++ b)) p3 (drop k1 b) [d] Hwf3) as (p' & e & Hrun & _ & ->).
    { rewrite length_app. lia. }
    destruct (accumulate_run (length b) p3 (drop k1 b) [d] Hwf3) as (p'' & e' & Hrun' & _ & ->);
      [lia|].
    rewrite Hrun in Hrun'. by injection Hrun' as <- <-.
  - (* [a] fills the accumulator: a frame is dispatched *)
    pose proof (length_drop_lt a k Hk) as Hlt.
    assert (Hbody' : loop_body p (a ++ b) = Some (Again p2 (drop k a ++ b) d)).
    { destruct (fill_app_full p a b Hwf Hne) as (p1 & rest & Hfa & Hfab); [lia|].
      unfold loop_body in Hbody |- *. rewrite Hfab. rewrite Hfa in Hbody.
      cbn [mbind option_bind] in Hbody |- *.
      destruct (m_detector p1); [|done]. case_decide; [|done].
      destruct (dispatch p1 _) as [[p2' d']|]; [|done].
      cbn [mbind option_bind] in Hbody |- *. by injection Hbody as -> -> ->. }
    rewrite (run_unfold _ _ Hne'), Hbody'. rewrite (run_unfold p a Hne), Hbody.
    cbn [mbind option_bind].
    destruct (accumulate_run (length (a ++ b)) p2 (drop k a ++ b) [d] Hwf2)
      as (p' & e & Hrun & _ & ->).
    { rewrite !length_app. lia. }
    destruct (accumulate_run (length a) p2 (drop k a) [d] Hwf2)
      as (p1' & e1 & Hrun1 & Hwf1' & ->); [lia|].
    cbn [mbind option_bind].
    rewrite (IH (length (drop k a))) in Hrun; [|lia|done|done].
    rewrite Hrun1 in Hrun. cbn [mbind option_bind] in Hrun.
    destruct (run p1' b) as [[p2' e2]|]; [|done].
    cbn [mbind option_bind] in Hrun |- *. injection Hrun as <- <-.
    by rewrite app_assoc.
Qed.

(** A callback on a running controller is the loop. *)
Lemma onAudioReady_run p input :
  controller_wf p →
  ∃ p' e, run p input = Some (p', e) ∧ controller_wf p'
    ∧ onAudioReady p input = Some (p', e, Continue).
Proof.
  intros Hwf. pose proof Hwf as ((Hrun & _) & _).
  destruct (accumulate_run (length input + 2) p input [] Hwf) as (p' & e & Hr & Hwf' & Hacc);
    [lia|].
  exists p', e. split_and!; [done|done|].
  unfold onAudioReady. rewrite Hrun. cbn [negb]. rewrite Hacc. done.
Qed.

(** Feeding chunk after chunk is feeding their concatenation at once. *)
Lemma feed_concat p chunks :
  controller_wf p →
  ∃ p' e, feed p chunks = Some (p', e) ∧ run p (concat chunks) = Some (p', e)
    ∧ controller_wf p'.
Proof.
  revert p. induction chunks as [|chunk rest IH]; intros p Hwf.
  { exists p, []. done. }
  destruct (onAudioReady_run p chunk Hwf) as (p1 & e1 & Hrun1 & Hwf1 & Hcb).
  destruct (IH p1 Hwf1) as (p2 & e2 & Hfeed & Hrun2 & Hwf2).
  exists p2, (e1 ++ e2). split_and!; [| |done].
  - simpl. rewrite Hcb. cbn [mbind option_bind]. rewrite Hfeed. done.
  - cbn [concat]. rewrite (run_app p chunk (concat rest) Hwf), Hrun1.
    cbn [mbind option_bind]. rewrite Hrun2. done.
Qed.

Lemma concat_singletons (l : list sample) : concat ((λ x, [x]) <$> l) = l.
Proof. induction l as [|x l IH]; [done|]. simpl. f_equal. exact IH. Qed.

(** A successful [start] leaves a controller that satisfies the invariant. *)
Lemma start_wf p bufferSize threshold stream p' :
  m_running p = false →
  start p bufferSize threshold (Some stream) true = (p', true) →
  controller_wf p'.
Proof.
  intros Hstopped. unfold start. rewrite Hstopped. intros [= <-].
  assert (H256 : (256 ≤ Z.max 256 bufferSize)%Z) by lia.
  assert (Hq : (0 ≤ Z.max 256 bufferSize `quot` 2 ≤ Z.max 256 bufferSize)%Z).
  { split; [apply Z.quot_pos; lia|]. apply Z.quot_le_upper_bound; lia. }
  split; [|simpl; lia]. unfold controller_ok. simpl. split_and!; [done| |lia|lia|].
  - eexists. split; [done|]. split; [apply construct_wf|done].
  - by rewrite length_replicate.
Qed.

End AccumulateProofs.

(** ** The note name (C3) and the two copies side by side (C4) *)

Lemma pretty_N_go_nonempty (x : N) (s : string) : s ≠ "" → pretty_N_go x s ≠ "".
Proof.
  revert s. induction (N.lt_wf_0 x) as [x _ IH]; intros s Hs.
  destruct (decide (x = 0%N)) as [->|Hx].
  - by rewrite pretty_N_go_0.
  - rewrite pretty_N_go_step by lia. apply IH; [|done].
    apply N.div_lt; lia.
Qed.

Lemma pretty_Z_nonempty (z : Z) : pretty z ≠ "".
Proof.
  assert (HN : ∀ n : N, pretty n ≠ "").
  { intros n. unfold pretty, pretty_N. case_decide; [done|].
    rewrite pretty_N_go_step by lia. by apply pretty_N_go_nonempty. }
  unfold pretty, pretty_Z. destruct z; [done|apply HN|done].
Qed.

Lemma pretty_N_go_no_sharp (x : N) (s : string) : s ≠ "#" → pretty_N_go x s ≠ "#".
Proof.
  revert s. induction (N.lt_wf_0 x) as [x _ IH]; intros s Hs.
  destruct (decide (x = 0%N)) as [->|Hx].
  - by rewrite pretty_N_go_0.
  - rewrite pretty_N_go_step by lia. apply IH; [apply N.div_lt; lia|].
    unfold pretty_N_char. by repeat case_match.
Qed.

Lemma pretty_Z_no_sharp (z : Z) : pretty z ≠ "#".
Proof.
  assert (HN : ∀ n : N, pretty n ≠ "#").
  { intros n. unfold pretty, pretty_N. case_decide; [done|].
    by apply pretty_N_go_no_sharp. }
  unfold pretty, pretty_Z. destruct z; [done|apply HN|done].
Qed.

Lemma app_nonempty_ne (s t : string) : t ≠ "" → s +:+ t ≠ s.
Proof.
  intros Ht Heq. apply Ht.
  destruct t as [|c t]; [done|]. exfalso.
  induction s as [|a s IH]; simpl in Heq; [done|]. injection Heq as Heq. auto.
Qed.

Lemma NOTE_NAMES_nonempty (i : Z) (name : string) :
  lookupZ NOTE_NAMES i = Some name → name ≠ "".
Proof.
  unfold lookupZ. case_decide; [|done]. generalize (Z.to_nat i) as n. intros n.
  do 12 (destruct n as [|n]; [by intros [= <-]|]). done.
Qed.

Section NoteName.
Context {D : Double}.

(** What the two copies make of one MIDI value: the same chromatic name, in
    the one copy alone and in the other followed by the octave, which is
    the quotient of the C++ division (towards zero) less 1. *)
Lemma noteName_both (midi : dbl) :
  let rounded := int_of_long (lround midi) in
  ∃ name,
    NOTE_NAMES !! Z.to_nat (((rounded `mod` 12) + 12) `mod` 12) = Some name
    ∧ Cpp.noteNameFromMidi midi = Some name
    ∧ Dsp.noteNameFromMidi midi
      = Some (if isfinite midi then name +:+ pretty (rounded `quot` 12 - 1)%Z else "").
Proof.
  intros rounded.
  pose proof (note_index_range rounded) as Hrange.
  assert (Hidx : (Z.rem (Z.rem rounded 12 + 12) 12 = ((rounded `mod` 12) + 12) `mod` 12)%Z).
  { Z.to_euclidean_division_equations; lia. }
  rewrite <- Hidx.
  destruct (lookupZ_NOTE_NAMES _ Hrange) as [name Hname].
  exists name. split_and!.
  - unfold lookupZ in Hname. by rewrite decide_True in Hname by lia.
  - unfold Cpp.noteNameFromMidi. fold rounded. by rewrite Z.rem_small by lia.
  - unfold Dsp.noteNameFromMidi. fold rounded.
    destruct (isfinite midi); [|done]. simpl. by rewrite Hname.
Qed.


(** The name with an octave is none of the twelve chromatic names. *)
Lemma name_with_octave_not_chromatic (i : Z) (name : string) (octave : Z) :
  lookupZ NOTE_NAMES i = Some name → name +:+ pretty octave ∉ NOTE_NAMES.
Proof.
  intros Hname Hin.
  pose proof (pretty_Z_nonempty octave) as Hne.
  pose proof (pretty_Z_no_sharp octave) as Hsharp.
  revert Hname Hin Hne Hsharp. generalize (pretty octave) as s. intros s.
  unfold lookupZ. case_decide; [|done]. generalize (Z.to_nat i) as n. intros n.
  do 12 (destruct n as [|n];
         [intros [= <-] Hin Hne Hsharp; exfalso; unfold NOTE_NAMES in Hin;
          rewrite !elem_of_cons, elem_of_nil in Hin; cbv [String.app String.append] in Hin;
          destruct_or!; simplify_eq; congruence|]).
  done.
Qed.

Lemma Cpp_noteName_chromatic (midi : dbl) (name : string) :
  Cpp.noteNameFromMidi midi = Some name → name ∈ NOTE_NAMES.
Proof.
  unfold Cpp.noteNameFromMidi, lookupZ. case_decide; [|done].
  apply list_elem_of_lookup_2.
Qed.

Lemma Dsp_noteName_not_chromatic (midi : dbl) (name : string) :
  Dsp.noteNameFromMidi midi = Some name → name ∉ NOTE_NAMES.
Proof.
  unfold Dsp.noteNameFromMidi. destruct (isfinite midi); simpl.
  - destruct (lookupZ NOTE_NAMES _) as [n|] eqn:Hn; [|done]. intros [= <-].
    by eapply name_with_octave_not_chromatic.
  - intros [= <-]. unfold NOTE_NAMES.
    intros Hin. repeat (apply elem_of_cons in Hin as [Hin|Hin]; [done|]).
    by apply elem_of_nil in Hin.
Qed.

(** A result with [isValid = true] went through all of [processBuffer]:
    its fields are those of the last block. *)
Lemma valid_result_fields
    clamp interpolation midiFromFrequency noteNameFromMidi
    (Hinterpolation : ∀ tau values,
       0 < tau → tau + 1 < length values → is_Some (interpolation tau values))
    (HnoteName : ∀ m, is_Some (noteNameFromMidi m))
    det samples numSamples det' r :
  detector_wf det →
  (∀ arr, samples = Some arr → numSamples ≤ length arr) →
  Yin.processBuffer clamp interpolation midiFromFrequency noteNameFromMidi
    det samples numSamples = Some (det', r) →
  Yin.isValid r = true →
  Yin.midi r = midiFromFrequency (Yin.frequency r)
  ∧ noteNameFromMidi (round (Yin.midi r)) = Some (Yin.noteName r).
Proof.
  intros Hwf Hext Hrun Hvalid.
  destruct samples as [arr|]; [|by injection Hrun as <- <-].
  destruct (rejects_input det numSamples) eqn:Hguard.
  { unfold Yin.processBuffer in Hrun.
    change (bool_decide (numSamples < Yin.m_bufferSize det) || _ || _)
      with (rejects_input det numSamples) in Hrun.
    rewrite Hguard in Hrun. by injection Hrun as <- <-. }
  destruct (processBuffer_run clamp interpolation midiFromFrequency noteNameFromMidi
              Hinterpolation HnoteName det arr numSamples Hwf (Hext arr eq_refl) Hguard)
    as (det2 & tau & p & refinedTau & r' & _ & Hrun' & Hrej & Hacc).
  rewrite Hrun in Hrun'. injection Hrun' as -> <-.
  destruct (rejects_estimate det tau refinedTau).
  - by rewrite (Hrej eq_refl) in Hvalid.
  - by destruct (Hacc eq_refl) as (_ & _ & Hm & _ & Hn & _).
Qed.

End NoteName.

(** C3. For every valid detection ([processBuffer] returns a result with
    [isValid = true]), with rounded the integer [lround] makes of the
    rounded MIDI value, and name the chromatic name at the index
    ((rounded mod 12) + 12) mod 12:
    - the copy of [src/native/cpp] reports name alone, without an octave:
      one of the twelve chromatic names;
    - the copy of [src/src/native/dsp] reports name followed by the octave
      rounded / 12 - 1, the division being that of C++ (towards zero), which
      is floor(rounded / 12) - 1 for a rounded value that is not negative. *)
Theorem C3_noteName_of_a_valid_detection
    {D : Double} (det : Yin.YinPitchDetector) (samples : option (list sample))
    (numSamples : nat) :
  detector_wf det →
  (∀ arr, samples = Some arr → numSamples ≤ length arr) →
  (∀ det' r,
     Cpp.processBuffer det samples numSamples = Some (det', r) →
     Yin.isValid r = true →
     let rounded := int_of_long (lround (round (Yin.midi r))) in
     NOTE_NAMES !! Z.to_nat (((rounded `mod` 12) + 12) `mod` 12) = Some (Yin.noteName r)
     ∧ Yin.noteName r ∈ NOTE_NAMES)
  ∧ (∀ det' r,
       Dsp.processBuffer det samples numSamples = Some (det', r) →
       Yin.isValid r = true →
       let rounded := int_of_long (lround (round (Yin.midi r))) in
       ∃ name,
         NOTE_NAMES !! Z.to_nat (((rounded `mod` 12) + 12) `mod` 12) = Some name
         ∧ Yin.noteName r
           = (if isfinite (round (Yin.midi r))
              then name +:+ pretty (rounded `quot` 12 - 1)%Z else "")
         ∧ ((0 ≤ rounded)%Z → (rounded `quot` 12 = rounded `div` 12)%Z)).
Proof.
  intros Hwf Hext. split; intros det' r Hrun Hvalid rounded.
  - destruct (valid_result_fields Cpp.clamp Cpp.parabolicInterpolation
                Cpp.midiFromFrequency Cpp.noteNameFromMidi
                Cpp_interpolation_total Cpp_noteName_total
                det samples numSamples det' r Hwf Hext Hrun Hvalid) as [_ Hname].
    destruct (noteName_both (round (Yin.midi r))) as (name & Hidx & Hcpp & _).
    rewrite Hname in Hcpp. injection Hcpp as <-.
    split; [exact Hidx|]. by eapply Cpp_noteName_chromatic.
  - destruct (valid_result_fields Dsp.clamp Dsp.parabolicInterpolation
                Dsp.midiFromFrequency Dsp.noteNameFromMidi
                Dsp_interpolation_total Dsp_noteName_total
                det samples numSamples det' r Hwf Hext Hrun Hvalid) as [_ Hname].
    destruct (noteName_both (round (Yin.midi r))) as (name & Hidx & _ & Hdsp).
    rewrite Hname in Hdsp. injection Hdsp as Hdsp.
    exists name. split_and!; [exact Hidx|exact Hdsp|].
    intros Hpos. apply Z.quot_div_nonneg; lia.
Qed.

(** C4. For every configuration and every frame on which the two copies
    both report a valid detection, the two results differ: the note name of
    the copy of [src/native/cpp] is one of the twelve chromatic names, that
    of the copy of [src/src/native/dsp] is none of them. *)
Theorem C4_the_two_copies_differ
    {D : Double} (sampleRate : dbl) (bufferSize : nat) (threshold : dbl)
    (samples : option (list sample)) (numSamples : nat)
    (detA detB : Yin.YinPitchDetector) (rA rB : Yin.PitchResult) :
  (∀ arr, samples = Some arr → numSamples ≤ length arr) →
  Cpp.processBuffer (Cpp.new sampleRate bufferSize threshold) samples numSamples
    = Some (detA, rA) →
  Dsp.processBuffer (Dsp.new sampleRate bufferSize threshold) samples numSamples
    = Some (detB, rB) →
  Yin.isValid rA = true → Yin.isValid rB = true →
  Yin.noteName rA ∈ NOTE_NAMES
  ∧ (Yin.noteName rB ∉ NOTE_NAMES)
  ∧ rA ≠ rB.
Proof.
  intros Hext HrunA HrunB HvalidA HvalidB.
  destruct (valid_result_fields Cpp.clamp Cpp.parabolicInterpolation
              Cpp.midiFromFrequency Cpp.noteNameFromMidi
              Cpp_interpolation_total Cpp_noteName_total
              _ samples numSamples detA rA (construct_wf _ _ _ _ _) Hext HrunA HvalidA)
    as [_ HnameA].
  destruct (valid_result_fields Dsp.clamp Dsp.parabolicInterpolation
              Dsp.midiFromFrequency Dsp.noteNameFromMidi
              Dsp_interpolation_total Dsp_noteName_total
              _ samples numSamples detB rB (construct_wf _ _ _ _ _) Hext HrunB HvalidB)
    as [_ HnameB].
  apply Cpp_noteName_chromatic in HnameA. apply Dsp_noteName_not_chromatic in HnameB.
  split_and!; [done|done|]. intros ->. done.
Qed.


(** On the 440 Hz frame the copy of [src/native/cpp] reports a valid
    detection at 440 Hz, MIDI 69, with the note name [A] and no octave;
    and at the MIDI value -1 the other copy's octave is -1, where
    floor(-1 / 12) - 1 is -2. *)
Lemma C3_cpp_reports_A_without_octave :
  snd <$> Cpp.processBuffer Fixture.cpp_detector (Some Fixture.frame) 8
  = Some (@Yin.mkResult Fixture.ieee true (Binary64.of_Z 440) (Binary64.of_Z 69)
            (Binary64.of_Z 0) "A" (Binary64.of_Z 1))
  ∧ @Dsp.noteNameFromMidi Fixture.ieee (Binary64.of_Z (-1)) = Some "B-1"
  ∧ ((-1) `div` 12 - 1 = -2)%Z.
Proof. split_and!; reflexivity. Qed.

(** On the same configuration and the same frame the two copies return
    results that agree in every field but the note name: [A] and [A4]. *)
Lemma C4_results_on_the_440_Hz_frame :
  snd <$> Cpp.processBuffer Fixture.cpp_detector (Some Fixture.frame) 8
  = Some (@Yin.mkResult Fixture.ieee true (Binary64.of_Z 440) (Binary64.of_Z 69)
            (Binary64.of_Z 0) "A" (Binary64.of_Z 1))
  ∧ snd <$> Dsp.processBuffer Fixture.dsp_detector (Some Fixture.frame) 8
    = Some (@Yin.mkResult Fixture.ieee true (Binary64.of_Z 440) (Binary64.of_Z 69)
            (Binary64.of_Z 0) "A4" (Binary64.of_Z 1)).
Proof. split; reflexivity. Qed.

(** ** [start] when the stream cannot be had (C9) *)

(** C9. When [start] is called on a stopped controller and the stream
    cannot be had (it does not open, or it opens and does not start),
    [start] returns false and the controller stays stopped and holds no
    stream; but the buffer size, the hop and the threshold are the ones the
    call asked for, clamped, and no longer those of before. When the stream
    does not open, the estimator, the accumulator, its fill count and the
    sample rate are those of before. *)
Theorem C9_failed_start_keeps_requested_configuration
    {D : Double} (p : PitchDetector.PitchDetector) (bufferSize : Z) (threshold : dbl)
    (started : bool) (stream : PitchDetector.AudioStream) :
  PitchDetector.m_running p = false →
  let analysisFrameCount := Z.max 256 bufferSize in
  let hopFrameCount := Z.max (analysisFrameCount `quot` 2) 1 in
  let clamped := Dsp.clamp threshold (dconst 0.001) (dconst 0.999) in
  (let p' := fst (PitchDetector.start p bufferSize threshold None started) in
   snd (PitchDetector.start p bufferSize threshold None started) = false
   ∧ PitchDetector.m_running p' = false
   ∧ PitchDetector.m_stream p' = None
   ∧ PitchDetector.m_detector p' = PitchDetector.m_detector p
   ∧ PitchDetector.m_accumulator p' = PitchDetector.m_accumulator p
   ∧ PitchDetector.m_accumulatorSize p' = PitchDetector.m_accumulatorSize p
   ∧ PitchDetector.sampleRate p' = PitchDetector.sampleRate p
   ∧ PitchDetector.bufferSize p' = analysisFrameCount
   ∧ PitchDetector.m_hopFrameCount p' = hopFrameCount
   ∧ PitchDetector.threshold p' = clamped)
  ∧ (let p' := fst (PitchDetector.start p bufferSize threshold (Some stream) false) in
     snd (PitchDetector.start p bufferSize threshold (Some stream) false) = false
     ∧ PitchDetector.m_running p' = false
     ∧ PitchDetector.m_stream p' = None
     ∧ PitchDetector.bufferSize p' = analysisFrameCount
     ∧ PitchDetector.m_hopFrameCount p' = hopFrameCount
     ∧ PitchDetector.threshold p' = clamped).
Proof.
  intros Hstopped. unfold PitchDetector.start. rewrite Hstopped. simpl.
  split; split_and!; reflexivity.
Qed.

(** A stopped controller with the buffer size 2048, the hop 1024 and the
    threshold 0.15, asked to start with 512 and 0.3 while the stream cannot
    be opened: [start] returns false, and the controller reports the buffer
    size 512, the hop 256 and the threshold 0.3. *)
Lemma C9_failed_start_changes_configuration :
  PitchDetector.m_running Fixture.stopped = false
  ∧ PitchDetector.bufferSize Fixture.stopped = 2048%Z
  ∧ PitchDetector.m_hopFrameCount Fixture.stopped = 1024%Z
  ∧ PitchDetector.threshold Fixture.stopped = Binary64.of_Q 0.15
  ∧ PitchDetector.start Fixture.stopped 512 (Binary64.of_Q 0.3) None false
    = (@PitchDetector.mkController Fixture.ieee None None
         (PitchDetector.m_accumulator Fixture.stopped) 0 512 256
         (Binary64.of_Z 48000) (Binary64.of_Q 0.3) false, false)
  ∧ bool_decide (512 = 2048)%Z = false
  ∧ PrimFloat.eqb (Binary64.of_Q 0.3) (Binary64.of_Q 0.15) = false.
Proof. split_and!; reflexivity. Qed.

(** * The statements at the worked configurations *)

Lemma C1_on_the_440_Hz_frame :
  buffers_as_specified Cpp.processBuffer Fixture.cpp_detector Fixture.frame 8
  ∧ buffers_as_specified Dsp.processBuffer Fixture.dsp_detector Fixture.frame 8.
Proof.
  split.
  - apply (@C1_processBuffer_computes_difference_and_cmnd
             Fixture.ieee Fixture.cpp_detector Fixture.frame 8).
    + apply construct_wf.
    + vm_compute. lia.
    + vm_compute. lia.
    + reflexivity.
  - apply (@C1_processBuffer_computes_difference_and_cmnd
             Fixture.ieee Fixture.dsp_detector Fixture.frame 8).
    + apply construct_wf.
    + vm_compute. lia.
    + vm_compute. lia.
    + reflexivity.
Defined.

Lemma C2_on_the_440_Hz_frame :
  Yin.absoluteThreshold Fixture.analysed_detector = Some (4, Binary64.of_Z 1)
  ∧ search_outcome Fixture.analysed_detector 4 (Binary64.of_Z 1).
Proof.
  destruct (proj1 (@C2_absoluteThreshold_search
                     Fixture.ieee (Binary64Order.binary64_order _)
                     Fixture.analysed_detector))
    as (tau & p & Heq & Hout & _).
  assert (Hval : Yin.absoluteThreshold Fixture.analysed_detector
                 = Some (4, Binary64.of_Z 1)) by reflexivity.
  rewrite Hval in Heq. injection Heq as <- <-. split; [exact Hval|exact Hout].
Defined.

Lemma C5_on_the_440_Hz_frame :
  validity_as_specified Cpp.processBuffer (Yin.analysis Cpp.parabolicInterpolation)
    Fixture.cpp_detector (Some Fixture.frame) 8
  ∧ validity_as_specified Dsp.processBuffer (Yin.analysis Dsp.parabolicInterpolation)
      Fixture.cpp_detector (Some Fixture.frame) 8.
Proof.
  apply (@C5_processBuffer_never_fails
           Fixture.ieee Fixture.cpp_detector (Some Fixture.frame) 8).
  - apply construct_wf.
  - intros arr [= <-]. vm_compute. lia.
Defined.

Lemma C3_on_the_440_Hz_frame :
  ∃ r, snd <$> Cpp.processBuffer Fixture.cpp_detector (Some Fixture.frame) 8 = Some r
       ∧ Yin.isValid r = true
       ∧ NOTE_NAMES
           !! Z.to_nat (((int_of_long (lround (round (Yin.midi r))) `mod` 12) + 12) `mod` 12)
         = Some (Yin.noteName r)
       ∧ Yin.noteName r ∈ NOTE_NAMES.
Proof.
  assert (∃ det' r,
            Cpp.processBuffer Fixture.cpp_detector (Some Fixture.frame) 8 = Some (det', r)
            ∧ Yin.isValid r = true) as (det' & r & Hrun & Hvalid).
  { eexists _, _. split; reflexivity. }
  assert (Hext : ∀ arr, Some Fixture.frame = Some arr → 8 ≤ length arr).
  { intros arr [= <-]. vm_compute. lia. }
  destruct (proj1 (@C3_noteName_of_a_valid_detection
                     Fixture.ieee Fixture.cpp_detector (Some Fixture.frame) 8
                     (construct_wf _ _ _ _ _) Hext) det' r Hrun Hvalid)
    as [Hidx Hin].
  exists r. rewrite Hrun. split_and!; [reflexivity|exact Hvalid|exact Hidx|exact Hin].
Defined.

Lemma C4_on_the_440_Hz_frame :
  ∃ rA rB,
    snd <$> Cpp.processBuffer Fixture.cpp_detector (Some Fixture.frame) 8 = Some rA
    ∧ snd <$> Dsp.processBuffer Fixture.dsp_detector (Some Fixture.frame) 8 = Some rB
    ∧ Yin.noteName rA ∈ NOTE_NAMES
    ∧ (Yin.noteName rB ∉ NOTE_NAMES)
    ∧ rA ≠ rB.
Proof.
  assert (∃ det' r,
            Cpp.processBuffer Fixture.cpp_detector (Some Fixture.frame) 8 = Some (det', r)
            ∧ Yin.isValid r = true) as (detA & rA & HrunA & HvalidA).
  { eexists _, _. split; reflexivity. }
  assert (∃ det' r,
            Dsp.processBuffer Fixture.dsp_detector (Some Fixture.frame) 8 = Some (det', r)
            ∧ Yin.isValid r = true) as (detB & rB & HrunB & HvalidB).
  { eexists _, _. split; reflexivity. }
  assert (Hext : ∀ arr, Some Fixture.frame = Some arr → 8 ≤ length arr).
  { intros arr [= <-]. vm_compute. lia. }
  exists rA, rB. rewrite HrunA, HrunB. split; [reflexivity|]. split; [reflexivity|].
  exact (@C4_the_two_copies_differ Fixture.ieee (Binary64.of_Z 1760) 8 (Binary64.of_Q 0.1)
           (Some Fixture.frame) 8 detA detB rA rB Hext HrunA HrunB HvalidA HvalidB).
Defined.

(** At 1760 samples per second the cosine frame is valid with the threshold
    0.1, where the search returns at lag 4, and with the threshold 0.7,
    where it crosses at lag 3 already. *)
Lemma C6_on_the_cosine_frame :
  (∃ dB rB,
     Cpp.processBuffer (Cpp.setThreshold Fixture.cpp_detector (Binary64.of_Q 0.7))
       (Some Fixture.frame) 8 = Some (dB, rB)
     ∧ Yin.isValid rB = true)
  ∧ (∃ dB rB,
       Dsp.processBuffer (Dsp.setThreshold Fixture.cpp_detector (Binary64.of_Q 0.7))
         (Some Fixture.frame) 8 = Some (dB, rB)
       ∧ Yin.isValid rB = true).
Proof.
  destruct (C6_threshold_monotone Fixture.log2_exponent Fixture.cpp_detector Fixture.frame 8
              (Binary64.of_Q 0.1) (Binary64.of_Q 0.7)) as [HCpp HDsp].
  - repeat split; reflexivity.
  - reflexivity.
  - repeat constructor.
  - reflexivity.
  - reflexivity.
  - reflexivity.
  - reflexivity.
  - reflexivity.
  - reflexivity.
  - split.
    + eapply HCpp; reflexivity.
    + eapply HDsp; reflexivity.
Defined.

Lemma C7_on_a_ring_of_8 :
  (∃ r1 r2 out,
     FloatRingBuffer.write Fixture.ring (Some [1; 2; 3]%Z) 3 = Some (r1, 3%Z)
     ∧ FloatRingBuffer.read r1 (Some [0; 0; 0]%Z) 3 = Some (r2, Some out, 3%Z)
     ∧ take 3 out = [1; 2; 3]%Z
     ∧ FloatRingBuffer.available r2 = 0%Z)
  ∧ (FloatRingBuffer.available Fixture.ring + FloatRingBuffer.freeSpace Fixture.ring
     = 8)%Z.
Proof.
  assert (Hreach : reachable 0%Z Fixture.ring).
  { apply (reach_new 0%Z 5); [lia|reflexivity]. }
  destruct (C7_ring_round_trip_and_accounting 0%Z Fixture.ring Hreach)
    as (Hround & _ & Hsum & _).
  split; [|exact Hsum].
  apply (Hround eq_refl 3%Z [1; 2; 3]%Z [0; 0; 0]%Z); vm_compute; try split; discriminate.
Defined.

Lemma C9_on_the_stopped_controller :
  let p' := fst (PitchDetector.start Fixture.stopped 512 (Binary64.of_Q 0.3) None false) in
  snd (PitchDetector.start Fixture.stopped 512 (Binary64.of_Q 0.3) None false) = false
  ∧ PitchDetector.m_running p' = false
  ∧ PitchDetector.m_detector p' = None
  ∧ PitchDetector.bufferSize p' = 512%Z
  ∧ PitchDetector.m_hopFrameCount p' = 256%Z
  ∧ PitchDetector.threshold p' = Binary64.of_Q 0.3.
Proof.
  destruct (@C9_failed_start_keeps_requested_configuration
              Fixture.ieee Fixture.stopped 512 (Binary64.of_Q 0.3) false
              (PitchDetector.mkStream 48000) eq_refl)
    as [(Hret & Hrun & _ & Hdet & _ & _ & _ & Hsize & Hhop & Hthr) _].
  split_and!; [exact Hret|exact Hrun|exact Hdet|exact Hsize|exact Hhop|].
  exact Hthr.
Defined.

(** * Further properties *)

(** ** The threshold and the probability: what the clamps keep *)

Section ClampProofs.
Context {D : Double} `{!DoubleOrder D}.
Implicit Types (v lo hi : dbl).

Lemma dltb_asym (x y : dbl) : (x <? y)%D = true → (y <? x)%D = false.
Proof.
  intros Hxy. destruct (y <? x)%D eqn:Hyx; [|done].
  by rewrite <- (dltb_irrefl x), (dltb_trans x y x Hxy Hyx).
Qed.

Lemma clamp_agree v lo hi : (hi <? lo)%D = false → Cpp.clamp v lo hi = Dsp.clamp v lo hi.
Proof.
  intros Hrange. unfold Cpp.clamp, Cpp.std_min, Cpp.std_max, Dsp.clamp.
  destruct (v <? lo)%D; [by rewrite Hrange|done].
Qed.

Lemma Dsp_clamp_range v lo hi :
  (hi <? lo)%D = false →
  (Dsp.clamp v lo hi <? lo)%D = false ∧ (hi <? Dsp.clamp v lo hi)%D = false.
Proof.
  intros Hrange. unfold Dsp.clamp.
  destruct (v <? lo)%D eqn:Hlo; [by rewrite dltb_irrefl|].
  destruct (hi <? v)%D eqn:Hhi; [by rewrite dltb_irrefl|done].
Qed.

Lemma Dsp_clamp_inside v lo hi :
  (v <? lo)%D = false → (hi <? v)%D = false → Dsp.clamp v lo hi = v.
Proof. intros Hlo Hhi. unfold Dsp.clamp. by rewrite Hlo, Hhi. Qed.

(** [0 < clamp(p, 0, 1)] exactly when [0 < p]. *)
Lemma Dsp_clamp_positive (p : dbl) :
  (dconst 0 <? dconst 1)%D = true →
  (dconst 0 <? Dsp.clamp p (dconst 0) (dconst 1))%D = (dconst 0 <? p)%D.
Proof.
  intros H01. unfold Dsp.clamp.
  destruct (p <? dconst 0)%D eqn:Hneg.
  { by rewrite dltb_irrefl, (dltb_asym _ _ Hneg). }
  destruct (dconst 1 <? p)%D eqn:Hbig; [|done].
  by rewrite H01, (dltb_trans _ _ _ H01 Hbig).
Qed.

End ClampProofs.

(** X1. In either copy the threshold a detector holds after [setThreshold]
    (and after its constructor) is never below 0.001 nor above 0.999, a
    threshold inside that range is stored as it is, setting the stored
    threshold again changes nothing, and the two copies store the same
    value: [std::min(std::max(v, lo), hi)] and [std::clamp(v, lo, hi)]
    agree, also on a NaN. *)
Theorem setThreshold_clamps_alike
    {D : Double} `{!DoubleOrder D} (det : Yin.YinPitchDetector) (t : dbl)
    (sampleRate : dbl) (bufferSize : nat) :
  (Yin.MAX_THRESHOLD <? Yin.MIN_THRESHOLD)%D = false →
  let t' := Yin.m_threshold (Dsp.setThreshold det t) in
  Cpp.setThreshold det t = Dsp.setThreshold det t
  ∧ Yin.m_threshold (Cpp.new sampleRate bufferSize t) = t'
  ∧ Yin.m_threshold (Dsp.new sampleRate bufferSize t) = t'
  ∧ (t' <? Yin.MIN_THRESHOLD)%D = false
  ∧ (Yin.MAX_THRESHOLD <? t')%D = false
  ∧ ((t <? Yin.MIN_THRESHOLD)%D = false → (Yin.MAX_THRESHOLD <? t)%D = false → t' = t)
  ∧ Dsp.setThreshold (Dsp.setThreshold det t) t' = Dsp.setThreshold det t.
Proof.
  intros Hrange t'.
  pose proof (Dsp_clamp_range t _ _ Hrange) as [Hlo Hhi].
  assert (Hcpp : Cpp.clamp t Yin.MIN_THRESHOLD Yin.MAX_THRESHOLD = t')
    by (by rewrite clamp_agree).
  split_and!.
  - unfold Cpp.setThreshold, Dsp.setThreshold, Yin.setThreshold. by rewrite clamp_agree.
  - exact Hcpp.
  - reflexivity.
  - exact Hlo.
  - exact Hhi.
  - intros H1 H2. by apply Dsp_clamp_inside.
  - unfold Dsp.setThreshold, Yin.setThreshold, Yin.set_threshold. simpl.
    f_equal. by apply Dsp_clamp_inside.
Qed.

Lemma setThreshold_clamps_alike_binary64 :
  let det := Fixture.cpp_detector in
  let t := Binary64.of_Q 7 in
  Cpp.setThreshold det t = Dsp.setThreshold det t
  ∧ Yin.m_threshold (Dsp.setThreshold det t) = Binary64.of_Q 0.999.
Proof.
  destruct (@setThreshold_clamps_alike Fixture.ieee (Binary64Order.binary64_order _)
              Fixture.cpp_detector (Binary64.of_Q 7) (Binary64.of_Z 1760) 8 eq_refl)
    as (Hcopies & _).
  split; [exact Hcopies|reflexivity].
Defined.

(** ** The fields of a result *)

Section ResultProofs.
Context {D : Double} `{!DoubleOrder D}.

Lemma result_probability
    clamp interpolation midiFromFrequency noteNameFromMidi
    (Hinterpolation : ∀ tau values,
       0 < tau → tau + 1 < length values → is_Some (interpolation tau values))
    (HnoteName : ∀ m, is_Some (noteNameFromMidi m))
    (Hclamp : ∀ v lo hi, (hi <? lo)%D = false → clamp v lo hi = Dsp.clamp v lo hi)
    det samples numSamples det' r :
  (dconst 0 <? dconst 1)%D = true →
  detector_wf det →
  (∀ arr, samples = Some arr → numSamples ≤ length arr) →
  Yin.processBuffer clamp interpolation midiFromFrequency noteNameFromMidi
    det samples numSamples = Some (det', r) →
  Yin.isValid r = (dconst 0 <? Yin.probability r)%D
  ∧ (Yin.probability r <? dconst 0)%D = false
  ∧ (dconst 1 <? Yin.probability r)%D = false.
Proof.
  intros H01 Hwf Hext Hrun.
  pose proof (dltb_asym _ _ H01) as H10.
  assert (Hempty : Yin.isValid Yin.empty_result
                   = (dconst 0 <? Yin.probability Yin.empty_result)%D
                   ∧ (Yin.probability Yin.empty_result <? dconst 0)%D = false
                   ∧ (dconst 1 <? Yin.probability Yin.empty_result)%D = false).
  { simpl. by rewrite dltb_irrefl, H10. }
  destruct samples as [arr|]; [|by injection Hrun as <- <-].
  destruct (rejects_input det numSamples) eqn:Hguard.
  { unfold Yin.processBuffer in Hrun.
    change (bool_decide (numSamples < Yin.m_bufferSize det) || _ || _)
      with (rejects_input det numSamples) in Hrun.
    rewrite Hguard in Hrun. by injection Hrun as <- <-. }
  destruct (processBuffer_run clamp interpolation midiFromFrequency noteNameFromMidi
              Hinterpolation HnoteName det arr numSamples Hwf (Hext arr eq_refl) Hguard)
    as (det2 & tau & p & refinedTau & r' & _ & Hrun' & Hrej & Hacc).
  rewrite Hrun in Hrun'. injection Hrun' as -> <-.
  destruct (rejects_estimate det tau refinedTau).
  { by rewrite (Hrej eq_refl). }
  destruct (Hacc eq_refl) as (Hvalid & _ & _ & _ & _ & Hprob).
  rewrite Hvalid, Hprob, (Hclamp _ _ _ H10).
  rewrite Dsp_clamp_positive by done.
  by destruct (Dsp_clamp_range p (dconst 0) (dconst 1) H10).
Qed.

End ResultProofs.

(** X2. Every result [processBuffer] returns, in either copy, has
    [isValid] true exactly when its reported probability is above 0, and a
    reported probability that is neither below 0 nor above 1. *)
Theorem result_isValid_iff_probability_positive
    {D : Double} `{!DoubleOrder D} (det : Yin.YinPitchDetector)
    (samples : option (list sample)) (numSamples : nat) :
  (dconst 0 <? dconst 1)%D = true →
  detector_wf det →
  (∀ arr, samples = Some arr → numSamples ≤ length arr) →
  (∀ det' r, Cpp.processBuffer det samples numSamples = Some (det', r) →
     Yin.isValid r = (dconst 0 <? Yin.probability r)%D
     ∧ (Yin.probability r <? dconst 0)%D = false
     ∧ (dconst 1 <? Yin.probability r)%D = false)
  ∧ (∀ det' r, Dsp.processBuffer det samples numSamples = Some (det', r) →
       Yin.isValid r = (dconst 0 <? Yin.probability r)%D
       ∧ (Yin.probability r <? dconst 0)%D = false
       ∧ (dconst 1 <? Yin.probability r)%D = false).
Proof.
  intros H01 Hwf Hext. split; intros det' r Hrun.
  - apply (result_probability Cpp.clamp Cpp.parabolicInterpolation
             Cpp.midiFromFrequency Cpp.noteNameFromMidi
             Cpp_interpolation_total Cpp_noteName_total clamp_agree
             det samples numSamples det' r H01 Hwf Hext Hrun).
  - apply (result_probability Dsp.clamp Dsp.parabolicInterpolation
             Dsp.midiFromFrequency Dsp.noteNameFromMidi
             Dsp_interpolation_total Dsp_noteName_total (λ v lo hi _, eq_refl)
             det samples numSamples det' r H01 Hwf Hext Hrun).
Qed.

Lemma result_isValid_iff_probability_positive_binary64 :
  ∃ r, snd <$> Cpp.processBuffer Fixture.cpp_detector (Some Fixture.frame) 8 = Some r
       ∧ Yin.isValid r = PrimFloat.ltb (Binary64.of_Q 0) (Yin.probability r)
       ∧ PrimFloat.ltb (Binary64.of_Q 1) (Yin.probability r) = false.
Proof.
  destruct (Cpp.processBuffer Fixture.cpp_detector (Some Fixture.frame) 8)
    as [[det' r]|] eqn:Hrun; [|discriminate Hrun].
  assert (Hext : ∀ arr, Some Fixture.frame = Some arr → 8 ≤ length arr).
  { intros arr [= <-]. vm_compute. lia. }
  destruct (proj1 (@result_isValid_iff_probability_positive
                     Fixture.ieee (Binary64Order.binary64_order _)
                     Fixture.cpp_detector (Some Fixture.frame) 8
                     eq_refl (construct_wf _ _ _ _ _) Hext) det' r Hrun)
    as (Hvalid & _ & Hone).
  exists r. split; [reflexivity|]. split; [exact Hvalid|exact Hone].
Defined.

(** ** [processBuffer] keeps no state between frames *)

Section Stateless.
Context {D : Double}.

Lemma foldl_add_ext (f g : nat → dbl) (l : list nat) (a : dbl) :
  (∀ i, i ∈ l → f i = g i) →
  foldl (λ acc i, acc + f i)%D a l = foldl (λ acc i, acc + g i)%D a l.
Proof.
  revert a. induction l as [|i l IH]; intros a Hfg; [done|]. simpl.
  rewrite (Hfg i) by (apply elem_of_cons; by left).
  apply IH. intros j Hj. apply Hfg. apply elem_of_cons. by right.
Qed.

Lemma x_take (arr1 arr2 : list sample) (N i : nat) :
  take N arr1 = take N arr2 → i < N → Spec.x arr1 i = Spec.x arr2 i.
Proof.
  intros Htake Hi. unfold Spec.x. rewrite !nth_lookup.
  by rewrite <- (lookup_take_lt arr1 N i), <- (lookup_take_lt arr2 N i), Htake by done.
Qed.

Lemma d_take (arr1 arr2 : list sample) (N tau : nat) :
  take N arr1 = take N arr2 → Spec.d arr1 N tau = Spec.d arr2 N tau.
Proof.
  intros Htake. unfold Spec.d. case_decide; [done|].
  unfold Spec.sum_from. apply foldl_add_ext. intros i Hi.
  apply elem_of_seq in Hi.
  by rewrite (x_take arr1 arr2 N i), (x_take arr1 arr2 N (i + tau)) by (done || lia).
Qed.

Lemma d'_take (arr1 arr2 : list sample) (N tau : nat) :
  take N arr1 = take N arr2 → Spec.d' arr1 N tau = Spec.d' arr2 N tau.
Proof.
  intros Htake. unfold Spec.d'. case_decide; [done|].
  assert (HS : Spec.S arr1 N tau = Spec.S arr2 N tau).
  { unfold Spec.S, Spec.sum_from. apply foldl_add_ext. intros. by apply d_take. }
  by rewrite HS, (d_take arr1 arr2).
Qed.

Variable clamp : dbl → dbl → dbl → dbl.
Variable parabolicInterpolation : nat → list dbl → option dbl.
Variable midiFromFrequency : dbl → dbl.
Variable noteNameFromMidi : dbl → option string.
Hypothesis interpolation_total : ∀ tau values,
  0 < tau → tau + 1 < length values → is_Some (parabolicInterpolation tau values).
Hypothesis noteName_total : ∀ m, is_Some (noteNameFromMidi m).

Local Abbreviation processBuffer :=
  (Yin.processBuffer clamp parabolicInterpolation midiFromFrequency noteNameFromMidi).

Lemma processBuffer_stateless det1 det2 (arr1 arr2 : list sample) n1 n2 :
  detector_wf det1 → detector_wf det2 →
  Yin.m_sampleRate det1 = Yin.m_sampleRate det2 →
  Yin.m_bufferSize det1 = Yin.m_bufferSize det2 →
  Yin.m_threshold det1 = Yin.m_threshold det2 →
  take (Yin.m_bufferSize det1) arr1 = take (Yin.m_bufferSize det1) arr2 →
  Yin.m_bufferSize det1 ≤ n1 ≤ length arr1 →
  Yin.m_bufferSize det1 ≤ n2 ≤ length arr2 →
  snd <$> processBuffer det1 (Some arr1) n1 = snd <$> processBuffer det2 (Some arr2) n2.
Proof.
  intros Hwf1 Hwf2 Hsr Hbs Hthr Htake Hn1 Hn2.
  assert (Hlag : Yin.m_maxLag det1 = Yin.m_maxLag det2).
  { destruct Hwf1 as [-> _], Hwf2 as [-> _]. by rewrite Hbs. }
  assert (Hguard : rejects_input det1 n1 = rejects_input det2 n2).
  { unfold rejects_input. rewrite <- Hsr, <- Hlag, <- Hbs.
    by rewrite !(bool_decide_eq_false_2 (_ < Yin.m_bufferSize det1)) by lia. }
  destruct (rejects_input det1 n1) eqn:Hg1.
  { unfold Yin.processBuffer.
    change (bool_decide (n1 < Yin.m_bufferSize det1) || _ || _)
      with (rejects_input det1 n1).
    change (bool_decide (n2 < Yin.m_bufferSize det2) || _ || _)
      with (rejects_input det2 n2).
    by rewrite <- Hguard, Hg1. }
  symmetry in Hguard.
  destruct (processBuffer_run clamp parabolicInterpolation midiFromFrequency noteNameFromMidi
              interpolation_total noteName_total det1 arr1 n1 Hwf1 ltac:(lia) Hg1)
    as (a1 & tau1 & p1 & rt1 & r1 & Han1 & -> & Hrej1 & Hacc1).
  destruct (processBuffer_run clamp parabolicInterpolation midiFromFrequency noteNameFromMidi
              interpolation_total noteName_total det2 arr2 n2 Hwf2 ltac:(lia) Hguard)
    as (a2 & tau2 & p2 & rt2 & r2 & Han2 & -> & Hrej2 & Hacc2).
  simpl. f_equal.
  destruct (analysis_total parabolicInterpolation interpolation_total det1 arr1 Hwf1)
    as (b1 & t1 & q1 & s1 & Hb1 & Hwfb1 & _ & Hbs1 & Hthr1 & Hbuf1 & Habs1 & Href1); [lia|].
  destruct (analysis_total parabolicInterpolation interpolation_total det2 arr2 Hwf2)
    as (b2 & t2 & q2 & s2 & Hb2 & Hwfb2 & _ & Hbs2 & Hthr2 & Hbuf2 & Habs2 & Href2); [lia|].
  rewrite Han1 in Hb1. injection Hb1 as <- <- <- <-.
  rewrite Han2 in Hb2. injection Hb2 as <- <- <- <-.
  assert (Hlagb : Yin.m_maxLag a1 = Yin.m_maxLag a2).
  { destruct Hwfb1 as [-> _], Hwfb2 as [-> _]. by rewrite Hbs1, Hbs2, Hbs. }
  assert (Hlaga : Yin.m_maxLag a1 = Yin.m_maxLag det1).
  { destruct Hwfb1 as [-> _], Hwf1 as [-> _]. by rewrite Hbs1. }
  assert (Hcum : Yin.m_cumulative a1 = Yin.m_cumulative a2).
  { apply list_eq. intros k.
    destruct (decide (k ≤ Yin.m_maxLag det1)) as [Hk|Hk].
    - destruct (Hbuf1 k Hk) as [_ ->].
      destruct (Hbuf2 k ltac:(lia)) as [_ ->].
      by rewrite <- Hbs, (d'_take arr1 arr2).
    - destruct Hwfb1 as (_ & _ & Hl1), Hwfb2 as (_ & _ & Hl2).
      rewrite !lookup_ge_None_2; [done|lia|lia]. }
  assert (Hsearch : Yin.absoluteThreshold a1 = Yin.absoluteThreshold a2).
  { unfold Yin.absoluteThreshold. by rewrite Hcum, Hthr1, Hthr2, Hthr. }
  rewrite Habs1, Habs2 in Hsearch. injection Hsearch as <- <-.
  assert (Hrefine : Yin.refine parabolicInterpolation a1 tau1
                    = Yin.refine parabolicInterpolation a2 tau1).
  { unfold Yin.refine. by rewrite Hcum, Hlagb. }
  rewrite Href1, Href2 in Hrefine. injection Hrefine as <-.
  assert (Hrej : rejects_estimate det1 tau1 rt1 = rejects_estimate det2 tau1 rt1).
  { unfold rejects_estimate. by rewrite Hsr. }
  destruct (rejects_estimate det1 tau1 rt1) eqn:Hr1; symmetry in Hrej.
  { by rewrite (Hrej1 eq_refl), (Hrej2 Hrej). }
  destruct (Hacc1 eq_refl) as (Hv1 & Hf1 & Hm1 & Hc1 & Hname1 & Hp1).
  destruct (Hacc2 Hrej) as (Hv2 & Hf2 & Hm2 & Hc2 & Hname2 & Hp2).
  destruct r1 as [v1 f1 m1 c1 name1 pr1], r2 as [v2 f2 m2 c2 name2 pr2].
  simpl in *. subst. rewrite Hsr in Hname1. rewrite Hname1 in Hname2.
  injection Hname2 as <-. by rewrite Hsr.
Qed.

End Stateless.

(** X3. What [processBuffer] returns is determined by the configuration
    (sample rate, buffer size, threshold) and by the first [bufferSize]
    samples of the frame: two detectors of the same configuration, whatever
    their scratch buffers and last results hold, return the same result on
    frames that agree on their first [bufferSize] samples, whatever follows
    them and whatever count at least [bufferSize] is passed. In either
    copy. *)
Theorem processBuffer_depends_on_configuration_and_frame_only
    {D : Double} (det1 det2 : Yin.YinPitchDetector) (arr1 arr2 : list sample)
    (n1 n2 : nat) :
  detector_wf det1 → detector_wf det2 →
  Yin.m_sampleRate det1 = Yin.m_sampleRate det2 →
  Yin.m_bufferSize det1 = Yin.m_bufferSize det2 →
  Yin.m_threshold det1 = Yin.m_threshold det2 →
  take (Yin.m_bufferSize det1) arr1 = take (Yin.m_bufferSize det1) arr2 →
  Yin.m_bufferSize det1 ≤ n1 ≤ length arr1 →
  Yin.m_bufferSize det1 ≤ n2 ≤ length arr2 →
  snd <$> Cpp.processBuffer det1 (Some arr1) n1
  = snd <$> Cpp.processBuffer det2 (Some arr2) n2
  ∧ snd <$> Dsp.processBuffer det1 (Some arr1) n1
    = snd <$> Dsp.processBuffer det2 (Some arr2) n2.
Proof.
  intros. split.
  - by apply processBuffer_stateless;
      auto using Cpp_interpolation_total, Cpp_noteName_total.
  - by apply processBuffer_stateless;
      auto using Dsp_interpolation_total, Dsp_noteName_total.
Qed.

(** The detector that has analysed the frame returns on it, followed by
    two more samples, what the fresh detector returned. *)
Lemma processBuffer_depends_on_configuration_and_frame_only_binary64 :
  snd <$> Cpp.processBuffer Fixture.cpp_detector (Some Fixture.frame) 8
  = snd <$> Cpp.processBuffer Fixture.analysed_detector
              (Some (Fixture.frame ++ [Binary64.of_Z 5; Binary64.of_Z 6])) 10.
Proof.
  apply (proj1 (@processBuffer_depends_on_configuration_and_frame_only
                  Fixture.ieee Fixture.cpp_detector Fixture.analysed_detector
                  Fixture.frame (Fixture.frame ++ [Binary64.of_Z 5; Binary64.of_Z 6]) 8 10
                  (construct_wf _ _ _ _ _)
                  ltac:(repeat split) eq_refl eq_refl eq_refl eq_refl
                  ltac:(vm_compute; lia) ltac:(vm_compute; lia))).
Defined.

(** ** Silence *)

Section Silence.
Context {D : Double} `{!DoubleOrder D}.

(** The arithmetic on zeros that the buffers of a silent frame go through:
    [0.0 + (0.0f - 0.0f)^2], [0.0 + 0.0], [0.0 == 0.0] and [0.0 < 1.0 - 1.0]. *)
Hypothesis zero_square :
  (dconst 0 + (to_double fzero - to_double fzero) * (to_double fzero - to_double fzero))%D
  = dconst 0.
Hypothesis zero_sum : (dconst 0 + dconst 0)%D = dconst 0.
Hypothesis zero_eq : (dconst 0 =? dconst 0)%D = true.
Hypothesis no_probability : (dconst 0 <? dconst 1 - dconst 1)%D = false.

Lemma foldl_fixed (f : nat → dbl) (a : dbl) (l : list nat) :
  (∀ i, (a + f i)%D = a) → foldl (λ acc i, acc + f i)%D a l = a.
Proof. intros Hf. induction l as [|i l IH]; [done|]. simpl. by rewrite Hf. Qed.

Lemma silent_x (arr : list sample) (i : nat) :
  Forall (λ s, s = fzero) arr → Spec.x arr i = to_double fzero.
Proof.
  intros Hall. unfold Spec.x. rewrite nth_lookup.
  destruct (arr !! i) as [s|] eqn:Hs; [|done]. simpl.
  by rewrite (proj1 (Forall_lookup _ _) Hall i s Hs).
Qed.

Lemma silent_d (arr : list sample) (N tau : nat) :
  Forall (λ s, s = fzero) arr → Spec.d arr N tau = dconst 0.
Proof.
  intros Hall. unfold Spec.d. case_decide; [done|].
  unfold Spec.sum_from. apply foldl_fixed. intros i.
  by rewrite !silent_x.
Qed.

Lemma silent_d' (arr : list sample) (N tau : nat) :
  Forall (λ s, s = fzero) arr → Spec.d' arr N tau = dconst 1.
Proof.
  intros Hall. unfold Spec.d'. case_decide; [done|].
  assert (HS : Spec.S arr N tau = dconst 0).
  { unfold Spec.S, Spec.sum_from. apply foldl_fixed. intros i.
    by rewrite silent_d. }
  by rewrite HS, zero_eq.
Qed.

Variable clamp : dbl → dbl → dbl → dbl.
Variable parabolicInterpolation : nat → list dbl → option dbl.
Variable midiFromFrequency : dbl → dbl.
Variable noteNameFromMidi : dbl → option string.
Hypothesis interpolation_total : ∀ tau values,
  0 < tau → tau + 1 < length values → is_Some (parabolicInterpolation tau values).
Hypothesis noteName_total : ∀ m, is_Some (noteNameFromMidi m).

Lemma silence_not_valid det (arr : list sample) numSamples :
  detector_wf det → numSamples ≤ length arr →
  (dconst 1 <? Yin.m_threshold det)%D = false →
  Forall (λ s, s = fzero) arr →
  ∃ det' r,
    Yin.processBuffer clamp parabolicInterpolation midiFromFrequency noteNameFromMidi
      det (Some arr) numSamples = Some (det', r)
    ∧ Yin.isValid r = false.
Proof.
  intros Hwf Hn Hthr Hall.
  destruct (rejects_input det numSamples) eqn:Hguard.
  { exists (Yin.set_lastResult det Yin.empty_result), Yin.empty_result.
    split; [|reflexivity]. unfold Yin.processBuffer.
    change (bool_decide (numSamples < Yin.m_bufferSize det) || _ || _)
      with (rejects_input det numSamples).
    rewrite Hguard. reflexivity. }
  assert (Hnum : Yin.m_bufferSize det ≤ length arr).
  { unfold rejects_input in Hguard.
    apply orb_false_iff in Hguard as [Hguard _].
    apply orb_false_iff in Hguard as [Hnum _].
    apply bool_decide_eq_false in Hnum. lia. }
  destruct (processBuffer_run clamp parabolicInterpolation midiFromFrequency noteNameFromMidi
              interpolation_total noteName_total det arr numSamples Hwf Hn Hguard)
    as (a & tau & p & rt & r & Han & Hrun & Hrej & Hacc).
  exists (Yin.set_lastResult a r), r. split; [exact Hrun|].
  destruct (analysis_total parabolicInterpolation interpolation_total det arr Hwf Hnum)
    as (a' & tau' & p' & rt' & Han' & Hwfa & _ & Hbs & Hthra & Hbuf & Habs & _).
  rewrite Han in Han'. injection Han' as <- <- <- <-.
  destruct (rejects_estimate det tau rt) eqn:Hr; [by rewrite (Hrej eq_refl)|].
  destruct (Hacc eq_refl) as (-> & _).
  assert (Hone : ∀ k v, Yin.m_cumulative a !! k = Some v → v = dconst 1).
  { intros k v Hk.
    assert (k ≤ Yin.m_maxLag det) as Hle.
    { apply lookup_lt_Some in Hk. destruct Hwfa as (Hl1 & _ & Hl2), Hwf as (Hl3 & _).
      rewrite Hl2, Hl1, Hbs, <- Hl3 in Hk. lia. }
    destruct (Hbuf k Hle) as [_ Hd']. rewrite Hd' in Hk. injection Hk as <-.
    by apply silent_d'. }
  destruct (absoluteThreshold_outcome a) as (tau' & p' & Habs' & Hout).
  rewrite Habs in Habs'. injection Habs' as <- <-.
  destruct Hout as [(first & _ & _ & (v & Hv & Hlt) & _)|[_ Hfall]].
  - rewrite (Hone _ _ Hv), Hthra, Hthr in Hlt. done.
  - destruct Hfall as [(m & (_ & Hm & _) & _ & ->)|(-> & _)].
    + by rewrite (Hone _ _ Hm).
    + unfold rejects_estimate in Hr. by rewrite bool_decide_eq_true_2 in Hr.
Qed.

End Silence.

(** X4. Digital silence is never a pitch: in IEEE binary64, for every
    sample rate, buffer size and threshold, each copy's [processBuffer]
    returns [isValid = false] on a frame whose samples are all [0.0f]. *)
Theorem silence_is_never_valid
    (libm_log2 : Binary64.float → Binary64.float)
    (sampleRate : Binary64.float) (bufferSize : nat) (threshold : Binary64.float)
    (arr : list Binary64.float) (numSamples : nat) :
  numSamples ≤ length arr →
  Forall (λ s, s = PrimFloat.zero) arr →
  (∃ det' r,
     @Cpp.processBuffer (Binary64.binary64 libm_log2)
       (@Cpp.new (Binary64.binary64 libm_log2) sampleRate bufferSize threshold)
       (Some arr) numSamples = Some (det', r)
     ∧ Yin.isValid r = false)
  ∧ (∃ det' r,
       @Dsp.processBuffer (Binary64.binary64 libm_log2)
         (@Dsp.new (Binary64.binary64 libm_log2) sampleRate bufferSize threshold)
         (Some arr) numSamples = Some (det', r)
       ∧ Yin.isValid r = false).
Proof.
  intros Hn Hall.
  pose (D := Binary64.binary64 libm_log2).
  pose (O := Binary64Order.binary64_order libm_log2 : DoubleOrder D).
  assert (Hthr : ∀ t : Binary64.float,
            @dltb D (dconst 1) (@Dsp.clamp D t Yin.MIN_THRESHOLD Yin.MAX_THRESHOLD) = false).
  { intros t.
    destruct (@dltb D (dconst 1) (@Dsp.clamp D t Yin.MIN_THRESHOLD Yin.MAX_THRESHOLD))
      eqn:Hlt; [|done].
    destruct (@Dsp_clamp_range D O t Yin.MIN_THRESHOLD Yin.MAX_THRESHOLD eq_refl)
      as [_ Hhi].
    rewrite (@dltb_trans D O Yin.MAX_THRESHOLD (dconst 1) _ eq_refl Hlt) in Hhi. done. }
  split.
  - apply (@silence_not_valid D O eq_refl eq_refl eq_refl eq_refl
             Cpp.clamp Cpp.parabolicInterpolation Cpp.midiFromFrequency
             Cpp.noteNameFromMidi Cpp_interpolation_total Cpp_noteName_total);
      [apply construct_wf|done| |done].
    change (@dltb D (dconst 1) (@Cpp.clamp D threshold Yin.MIN_THRESHOLD Yin.MAX_THRESHOLD)
            = false).
    rewrite (@clamp_agree D threshold Yin.MIN_THRESHOLD Yin.MAX_THRESHOLD eq_refl). apply Hthr.
  - apply (@silence_not_valid D O eq_refl eq_refl eq_refl eq_refl
             Dsp.clamp Dsp.parabolicInterpolation Dsp.midiFromFrequency
             Dsp.noteNameFromMidi Dsp_interpolation_total Dsp_noteName_total);
      [apply construct_wf|done| |done].
    apply Hthr.
Qed.

Lemma silence_is_never_valid_on_eight_zeros :
  ∃ det' r,
    Dsp.processBuffer Fixture.dsp_detector (Some (replicate 8 PrimFloat.zero)) 8
      = Some (det', r)
    ∧ Yin.isValid r = false.
Proof.
  apply (proj2 (silence_is_never_valid Fixture.log2_exponent (Binary64.of_Z 1760) 8
                  (Binary64.of_Q 0.1) (replicate 8 PrimFloat.zero) 8
                  ltac:(vm_compute; lia) ltac:(by apply Forall_replicate))).
Defined.

(** ** The ring buffer: its constructor, and the queue it implements *)

Section RingMore.
Context {T : Type} (zero : T).
Import FloatRingBuffer.
Implicit Types (r : FloatRingBuffer T).

Local Open Scope Z_scope.

Lemma nextPowerOfTwo_loop_least (fuel : nat) value j :
  0 < value ≤ 2 ^ 63 → 0 ≤ j ≤ 63 → (j = 0 ∨ 2 ^ (j - 1) < value) →
  64 - j ≤ Z.of_nat fuel →
  ∃ k, j ≤ k ≤ 63 ∧ nextPowerOfTwo_loop fuel value (2 ^ j) = Some (2 ^ k)
    ∧ value ≤ 2 ^ k ∧ (k = 0 ∨ 2 ^ (k - 1) < value).
Proof.
  intros Hv. revert j. induction fuel as [|fuel IH]; intros j Hj Hbelow Hfuel; [lia|].
  cbn [nextPowerOfTwo_loop]. case_decide as Hlt.
  - assert (j < 63).
    { destruct (decide (j = 63)) as [->|]; lia. }
    rewrite Z.shiftl_mul_pow2 by lia. rewrite Z.pow_1_r.
    replace (2 ^ j * 2) with (2 ^ (j + 1)) by (rewrite Z.pow_add_r; lia).
    rewrite wrap_small
      by (split; [lia|apply Z.pow_lt_mono_r; lia]).
    destruct (IH (j + 1)) as (k & Hk & Hloop & Hge & Hleast); [lia| |lia|].
    { right. by replace (j + 1 - 1) with j by lia. }
    exists k. split_and!; [lia|lia|done|done|done].
  - exists j. split_and!; [lia|lia|done|lia|done].
Qed.

Lemma nextPowerOfTwo_loop_stuck (fuel : nat) value j :
  2 ^ 63 < value → 0 ≤ j ≤ 63 → nextPowerOfTwo_loop fuel value (2 ^ j) = None.
Proof.
  intros Hv.
  assert (Hzero : ∀ f, nextPowerOfTwo_loop f value 0 = None).
  { induction f as [|f IHf]; [done|].
    cbn [nextPowerOfTwo_loop]. rewrite decide_True by lia. exact IHf. }
  revert j. induction fuel as [|fuel IH]; intros j Hj; [done|].
  cbn [nextPowerOfTwo_loop].
  assert (2 ^ j ≤ 2 ^ 63) by (apply Z.pow_le_mono_r; lia).
  rewrite decide_True by lia.
  rewrite Z.shiftl_mul_pow2 by lia. rewrite Z.pow_1_r.
  destruct (decide (j = 63)) as [->|Hne].
  - replace (wrap (2 ^ 63 * 2)) with 0 by done. apply Hzero.
  - replace (2 ^ j * 2) with (2 ^ (j + 1)) by (rewrite Z.pow_add_r; lia).
    rewrite wrap_small by (split; [lia|apply Z.pow_lt_mono_r; lia]).
    apply IH. lia.
Qed.

(** X5. For a request of at most 2^63 frames [nextPowerOfTwo] returns, and
    what it returns is the least power of two that is at least the request
    (1 for a request of 0). Every ring the constructor returns for such a
    request has that capacity, that capacity less one as its mask, a zeroed
    buffer of that many entries, and nothing to read. Whether a buffer of
    that many floats can be had is not decided here: the statement is
    about the rings the constructor returns. *)
Theorem nextPowerOfTwo_is_the_least_power_of_two (capacityFrames : Z) :
  0 ≤ capacityFrames ≤ 2 ^ 63 →
  ∃ k,
    0 ≤ k ≤ 63
    ∧ nextPowerOfTwo capacityFrames = Some (2 ^ k)
    ∧ capacityFrames ≤ 2 ^ k
    ∧ (k = 0 ∨ 2 ^ (k - 1) < capacityFrames)
    ∧ ∀ r, new zero capacityFrames = Some r →
        m_capacity r = 2 ^ k
        ∧ m_mask r = 2 ^ k - 1
        ∧ m_buffer r = replicate (Z.to_nat (2 ^ k)) zero
        ∧ available r = 0
        ∧ freeSpace r = 2 ^ k.
Proof.
  intros Hc.
  assert (∃ k, 0 ≤ k ≤ 63 ∧ nextPowerOfTwo capacityFrames = Some (2 ^ k)
               ∧ capacityFrames ≤ 2 ^ k ∧ (k = 0 ∨ 2 ^ (k - 1) < capacityFrames))
    as (k & Hk & Hnext & Hge & Hleast).
  { unfold nextPowerOfTwo.
    destruct (decide (capacityFrames ≤ 1)) as [Hle|Hgt].
    - assert (Hone : (if decide (capacityFrames = 0) then 1 else capacityFrames) = 1)
        by (case_decide; lia).
      rewrite Hone. rewrite decide_True by lia.
      exists 0. split_and!; try done; try lia; by left.
    - rewrite (decide_False (P := capacityFrames = 0)) by lia.
      rewrite decide_False by lia.
      destruct (nextPowerOfTwo_loop_least 65 capacityFrames 0)
        as (k & Hk & Hloop & Hge & Hleast); [lia|lia|by left|lia|].
      change (2 ^ 0) with 1 in Hloop.
      exists k. split_and!; try done; lia. }
  exists k. split; [exact Hk|]. split; [exact Hnext|]. split; [exact Hge|].
  split; [exact Hleast|].
  intros r Hnew. unfold new in Hnew. rewrite Hnext in Hnew.
  cbn [mbind option_bind] in Hnew. injection Hnew as <-. simpl.
  assert (0 < 2 ^ k ≤ 2 ^ 63) by (split; [lia|apply Z.pow_le_mono_r; lia]).
  split_and!; try done.
  - apply wrap_small. lia.
  - unfold freeSpace. simpl. replace (wrap (0 - 0)) with 0 by done.
    rewrite Z.sub_0_r. apply wrap_small. lia.
Qed.

(** X6. For a request above 2^63 frames the loop of [nextPowerOfTwo] never
    ends: [v] runs through the powers of two up to 2^63, all of them below
    the request, then wraps to 0 and stays there. However many rounds are
    allowed, the loop has not returned, and the constructor makes no ring. *)
Theorem new_does_not_return_above_2_63 (capacityFrames : Z) :
  2 ^ 63 < capacityFrames →
  (∀ fuel, nextPowerOfTwo_loop fuel capacityFrames 1 = None)
  ∧ new zero capacityFrames = None.
Proof.
  intros Hc.
  assert (Hloop : ∀ fuel, nextPowerOfTwo_loop fuel capacityFrames 1 = None).
  { intros fuel. by apply (nextPowerOfTwo_loop_stuck fuel capacityFrames 0). }
  split; [exact Hloop|].
  unfold new, nextPowerOfTwo.
  rewrite (decide_False (P := capacityFrames = 0)) by lia.
  rewrite decide_False by lia. by rewrite Hloop.
Qed.

(** *** The queue *)

Lemma unread_total r : ring_wf r → ∃ q, unread r = Some <$> q.
Proof.
  intros Hwf. unfold unread.
  induction (seq 0 (Z.to_nat (available r))) as [|j l [q IH]]; [by exists []|].
  destruct (lookup_lt_is_Some_2 (m_buffer r) (slot r (m_readIndex r + Z.of_nat j)))
    as [x Hx]; [by apply slot_lt|].
  exists (x :: q). rewrite !fmap_cons. cbv beta. by rewrite Hx, IH.
Qed.

Lemma unread_reset r : ring_wf r → unread (reset r) = [].
Proof.
  intros Hwf. apply nil_length_inv. rewrite length_unread.
  unfold available, reset. simpl. rewrite Z.sub_diag. done.
Qed.

Lemma take_min_length (q : list T) (n : nat) : take (n `min` length q)%nat q = take n q.
Proof.
  destruct (decide (n ≤ length q)%nat).
  - by rewrite Nat.min_l.
  - rewrite Nat.min_r by lia. by rewrite !take_ge by lia.
Qed.

Lemma drop_min_length (q : list T) (n : nat) : drop (n `min` length q)%nat q = drop n q.
Proof.
  destruct (decide (n ≤ length q)%nat).
  - by rewrite Nat.min_l.
  - rewrite Nat.min_r by lia. by rewrite !drop_ge by lia.
Qed.

Lemma ring_op_queue r (q : list T) (op : RingOp) :
  ring_wf r → unread r = Some <$> q → op_fits op →
  ∃ r', ring_op zero r op
        = Some (r', snd (queue_op (Z.to_nat (m_capacity r)) q op))
    ∧ ring_wf r'
    ∧ m_capacity r' = m_capacity r
    ∧ unread r' = Some <$> fst (queue_op (Z.to_nat (m_capacity r)) q op).
Proof.
  intros Hwf Hq Hfits.
  pose proof (capacity_range r Hwf) as Hcap.
  pose proof (freeSpace_eq r Hwf) as Hfree.
  assert (Hlen : Z.of_nat (length q) = available r).
  { pose proof (length_unread r) as Hl. rewrite Hq, length_fmap in Hl.
    assert (0 ≤ available r) by apply wrap_range. lia. }
  assert (Havail : available r ≤ m_capacity r) by (by destruct Hwf as (_&_&_&_&_&?)).
  destruct op as [data|frames|]; simpl in Hfits.
  - destruct (write_spec r data (Z.of_nat (length data)) Hwf)
      as (r' & Hw & Hwf' & Hc' & _ & _ & Hun'); [lia|lia|].
    exists r'. cbn [ring_op queue_op fst snd]. rewrite Hw. cbn [mbind option_bind].
    assert (Hn : Z.min (Z.of_nat (length data)) (freeSpace r)
                 = Z.of_nat (length data `min` (Z.to_nat (m_capacity r) - length q))) by lia.
    rewrite Hn in *. split_and!; [done|done|done|].
    rewrite Hun', Hq, Nat2Z.id. by rewrite fmap_app.
  - destruct (read_spec r (replicate frames zero) (Z.of_nat frames) Hwf)
      as (r' & out & Hr & Hwf' & Hc' & _ & _ & _ & Hout & _ & Hun');
      [lia|rewrite length_replicate; lia|].
    exists r'. cbn [ring_op queue_op fst snd]. rewrite Hr. cbn [mbind option_bind].
    set (n := Z.to_nat (Z.min (Z.of_nat frames) (available r))) in *.
    assert (Hn : n = (frames `min` length q)%nat) by lia.
    rewrite Hq, <- !fmap_take in Hout. apply (inj (fmap Some)) in Hout.
    split_and!; [|done|done|].
    + do 3 f_equal. by rewrite Hout, Hn, take_min_length.
    + by rewrite Hun', Hq, <- fmap_drop, Hn, drop_min_length.
  - exists (reset r). cbn [ring_op queue_op fst snd].
    split_and!; [done|by apply reset_wf|done|by rewrite unread_reset].
Qed.

Lemma ring_ops_queue (ops : list RingOp) r (q : list T) :
  ring_wf r → unread r = Some <$> q → Forall op_fits ops →
  ∃ r', ring_ops zero r ops
        = Some (r', snd (queue_ops (Z.to_nat (m_capacity r)) q ops))
    ∧ ring_wf r'
    ∧ m_capacity r' = m_capacity r
    ∧ unread r' = Some <$> fst (queue_ops (Z.to_nat (m_capacity r)) q ops).
Proof.
  revert r q. induction ops as [|op ops IH]; intros r q Hwf Hq Hfits.
  { by exists r. }
  apply Forall_cons in Hfits as [Hop Hfits].
  destruct (ring_op_queue r q op Hwf Hq Hop) as (r1 & Hstep & Hwf1 & Hc1 & Hq1).
  destruct (queue_op (Z.to_nat (m_capacity r)) q op) as [q1 a1] eqn:E1.
  simpl in Hstep, Hq1.
  destruct (IH r1 q1 Hwf1 Hq1 Hfits) as (r2 & Hrest & Hwf2 & Hc2 & Hq2).
  rewrite Hc1 in Hrest, Hq2.
  destruct (queue_ops (Z.to_nat (m_capacity r)) q1 ops) as [q2 a2] eqn:E2.
  simpl in Hrest, Hq2.
  exists r2. cbn [ring_ops queue_ops]. rewrite Hstep, E1, E2. cbn [mbind option_bind].
  rewrite Hrest. cbn [mbind option_bind fst snd].
  split_and!; [done|done|congruence|done].
Qed.

(** X7. A ring is a bounded first-in first-out queue. From any state that
    satisfies the invariant of the class, wherever its two 64-bit cursors
    stand (also when the write cursor has wrapped and is numerically below
    the read cursor), every sequence of [write], [read] and [reset] calls
    returns what the same calls return on a queue of at most [capacity]
    samples that starts with the unread samples: a write appends as much of
    its data as fits and returns that count, a read hands over and removes
    the oldest samples, at most as many as there are, and a reset empties
    the queue. Afterwards the unread samples are the queue. *)
Theorem ring_is_a_bounded_queue (ops : list RingOp) r (q : list T) :
  ring_wf r → unread r = Some <$> q → Forall op_fits ops →
  ∃ r', ring_ops zero r ops
        = Some (r', snd (queue_ops (Z.to_nat (m_capacity r)) q ops))
    ∧ ring_wf r'
    ∧ unread r' = Some <$> fst (queue_ops (Z.to_nat (m_capacity r)) q ops).
Proof.
  intros Hwf Hq Hfits.
  destruct (ring_ops_queue ops r q Hwf Hq Hfits) as (r' & Hrun & Hwf' & _ & Hq').
  by exists r'.
Qed.


End RingMore.

Lemma nextPowerOfTwo_of_5_is_the_least_power_of_two :
  ∃ k,
    (0 ≤ k ≤ 63)%Z
    ∧ FloatRingBuffer.nextPowerOfTwo 5 = Some (2 ^ k)%Z
    ∧ (5 ≤ 2 ^ k)%Z
    ∧ (k = 0%Z ∨ (2 ^ (k - 1) < 5)%Z)
    ∧ ∀ r, FloatRingBuffer.new 0%Z 5 = Some r →
        FloatRingBuffer.m_capacity r = (2 ^ k)%Z
        ∧ FloatRingBuffer.m_mask r = (2 ^ k - 1)%Z
        ∧ FloatRingBuffer.m_buffer r = replicate (Z.to_nat (2 ^ k)) 0%Z
        ∧ FloatRingBuffer.available r = 0%Z
        ∧ FloatRingBuffer.freeSpace r = (2 ^ k)%Z.
Proof. apply (nextPowerOfTwo_is_the_least_power_of_two 0%Z 5). lia. Defined.

Lemma new_does_not_return_for_2_63_plus_1 :
  (∀ fuel, FloatRingBuffer.nextPowerOfTwo_loop fuel (2 ^ 63 + 1) 1 = None)
  ∧ FloatRingBuffer.new 0%Z (2 ^ 63 + 1) = None.
Proof. apply (new_does_not_return_above_2_63 0%Z (2 ^ 63 + 1)). lia. Defined.

Lemma ring_is_a_bounded_queue_across_the_wrap :
  ∃ r', ring_ops 0%Z Worked.wrapped_ring Worked.calls
        = Some (r', [Wrote 5; Got [16; 17; 10; 1]%Z; Done; Got []])
    ∧ unread r' = [].
Proof.
  assert (Hwf : ring_wf Worked.wrapped_ring).
  { apply ring_wf_intro; [by exists 3%Z|done|done|done|done|by vm_compute]. }
  destruct (ring_is_a_bounded_queue 0%Z Worked.calls Worked.wrapped_ring
              [16; 17; 10]%Z Hwf eq_refl)
    as (r' & Hrun & _ & Hun).
  { unfold Worked.calls. repeat apply Forall_cons_2; try apply Forall_nil_2; simpl; lia. }
  exists r'. split; [exact Hrun|exact Hun].
Defined.

(** ** The controller: windows, states, life cycle *)

Section ControllerMoreProofs.
Context {D : Double}.
Import PitchDetector.
Implicit Types (p : PitchDetector) (input : list sample).

Lemma processBuffer_keeps_configuration det samples n det' r :
  detector_wf det → (∀ arr, samples = Some arr → n ≤ length arr) →
  Dsp.processBuffer det samples n = Some (det', r) →
  Yin.m_sampleRate det' = Yin.m_sampleRate det
  ∧ Yin.m_bufferSize det' = Yin.m_bufferSize det
  ∧ Yin.m_threshold det' = Yin.m_threshold det.
Proof.
  intros Hwf Hext Hrun.
  destruct samples as [arr|]; [|by injection Hrun as <- <-].
  destruct (rejects_input det n) eqn:Hguard.
  { unfold Dsp.processBuffer, Yin.processBuffer in Hrun.
    change (bool_decide (n < Yin.m_bufferSize det) || _ || _)
      with (rejects_input det n) in Hrun.
    rewrite Hguard in Hrun. by injection Hrun as <- <-. }
  assert (Hnum : Yin.m_bufferSize det ≤ length arr).
  { pose proof (Hext arr eq_refl). unfold rejects_input in Hguard.
    apply orb_false_iff in Hguard as [Hguard _].
    apply orb_false_iff in Hguard as [Hnum _].
    apply bool_decide_eq_false in Hnum. lia. }
  destruct (processBuffer_run Dsp.clamp Dsp.parabolicInterpolation Dsp.midiFromFrequency
              Dsp.noteNameFromMidi Dsp_interpolation_total Dsp_noteName_total
              det arr n Hwf (Hext arr eq_refl) Hguard)
    as (a & tau & q & rt & r' & Han & Hrun' & _).
  fold (@Dsp.processBuffer D) in Hrun'. rewrite Hrun in Hrun'. injection Hrun' as -> ->.
  destruct (analysis_total Dsp.parabolicInterpolation Dsp_interpolation_total det arr Hwf Hnum)
    as (a' & tau' & q' & rt' & Han' & _ & Hsr & Hbs & Hthr & _).
  rewrite Han in Han'. injection Han' as <- <- <- <-. done.
Qed.

Lemma dispatch_keeps p det p' d :
  dispatch p det = Some (p', d) →
  m_threshold p' = m_threshold p
  ∧ m_running p' = m_running p
  ∧ m_stream p' = m_stream p
  ∧ m_sampleRate p' = m_sampleRate p
  ∧ ∃ det', m_detector p' = Some det'
      ∧ Dsp.processBuffer det (Some (m_accumulator p))
          (Z.to_nat (m_analysisFrameCount p)) = Some (det', result d).
Proof.
  unfold dispatch.
  destruct (Dsp.processBuffer det (Some (m_accumulator p))
              (Z.to_nat (m_analysisFrameCount p))) as [[det' r]|]; [|done].
  cbn [mbind option_bind].
  cbn [m_hopFrameCount m_analysisFrameCount m_accumulator with_detector].
  case_decide.
  - destruct (if decide (0 < m_analysisFrameCount p - m_hopFrameCount p)%Z
              then _ else _) as [acc|]; [|done].
    cbn [mbind option_bind]. intros [= <- <-]. simpl. eauto 10.
  - intros [= <- <-]. simpl. eauto 10.
Qed.

Lemma memcpy_take (v v' : list sample) at_ src :
  memcpy v at_ src = Some v' → take (at_ + length src) v' = take at_ v ++ src.
Proof.
  unfold memcpy. case_decide as Hfit; [|done]. intros [= <-].
  rewrite app_assoc, take_app_length'; [done|].
  rewrite length_app, length_take. lia.
Qed.

(** The arithmetic of the window count. *)
Lemma window_count_step (N H len : nat) :
  0 < H ≤ N → N ≤ len → window_count N H len = S (window_count N H (len - H)).
Proof.
  intros HH Hlen. unfold window_count.
  rewrite decide_False by lia.
  case_decide as Hshort.
  - rewrite Nat.div_small by lia. lia.
  - replace (len - N) with ((len - H - N) + 1 * H) by lia.
    rewrite Nat.div_add by lia. lia.
Qed.

Lemma run_windows_bounded (n : nat) p input det :
  controller_wf p → m_detector p = Some det → length input ≤ n →
  let N := Z.to_nat (m_analysisFrameCount p) in
  let H := Z.to_nat (m_hopFrameCount p) in
  let stream := held p ++ input in
  ∃ p' e det',
    run p input = Some (p', e)
    ∧ controller_wf p'
    ∧ m_analysisFrameCount p' = m_analysisFrameCount p
    ∧ m_hopFrameCount p' = m_hopFrameCount p
    ∧ m_threshold p' = m_threshold p
    ∧ m_running p' = m_running p
    ∧ m_stream p' = m_stream p
    ∧ m_sampleRate p' = m_sampleRate p
    ∧ m_detector p' = Some det'
    ∧ Yin.m_sampleRate det' = Yin.m_sampleRate det
    ∧ Yin.m_bufferSize det' = Yin.m_bufferSize det
    ∧ Yin.m_threshold det' = Yin.m_threshold det
    ∧ length e = window_count N H (length stream)
    ∧ (∀ k d, e !! k = Some d →
         frame d = window N H stream k
         ∧ length (frame d) = N
         ∧ snd <$> Dsp.processBuffer det (Some (frame d)) N = Some (result d))
    ∧ held p' = drop (length e * H) stream.
Proof.
  revert p input det. induction n as [|n IH]; intros p input det Hwf Hdet Hn N H stream.
  { destruct input; [|simpl in Hn; lia].
    pose proof Hwf as ((_ & _ & Hhop & Hlen) & Hsize).
    exists p, [], det. rewrite run_nil. split_and!; try done.
    - unfold window_count, stream, held. rewrite app_nil_r, length_take.
      rewrite decide_True; [done|]. unfold N. lia.
    - by unfold stream; rewrite app_nil_r. }
  destruct (decide (input = [])) as [->|Hne].
  { apply (IH p [] det Hwf Hdet). simpl. lia. }
  pose proof Hwf as ((_ & (det0 & Hdet0 & Hwfd & Hbs) & Hhop & Hlen) & Hsize).
  assert (det0 = det) as -> by congruence.
  destruct (loop_body_spec p input Hwf Hne) as (acc & Hcopy & Hk & Hcases).
  set (k := Z.to_nat (Z.min (m_analysisFrameCount p - m_accumulatorSize p)
                            (Z.of_nat (length input)))) in *.
  pose proof (memcpy_take _ _ _ _ Hcopy) as Hheld.
  rewrite length_take, Nat.min_l in Hheld by lia.
  fold (held p) in Hheld.
  rewrite run_unfold by done. clearbody k.
  destruct Hcases as [(Hpart & Hall & Hbody & Hwf1)|(Hfull & Hf1 & det1 & p2 & d & Hd1 & Hdisp & Hbody & Hwf2)].
  - rewrite Hbody. cbn [mbind option_bind].
    eexists _, [], det. split; [reflexivity|].
    assert (Hstream : held (with_accumulator p acc (m_accumulatorSize p + Z.of_nat k)) = stream).
    { unfold held. simpl. rewrite Z2Nat.inj_add, Nat2Z.id by lia.
      rewrite Hheld. unfold stream. by rewrite Hall, take_ge by lia. }
    split_and!; try done.
    + unfold window_count. rewrite decide_True; [done|].
      rewrite <- Hstream. unfold held. simpl. rewrite length_take. unfold N. lia.
  - assert (det1 = det) as -> by congruence.
    rewrite Hbody. cbn [mbind option_bind].
    destruct (dispatch_spec _ det Hf1 Hdet)
      as (p2' & d' & Hdisp' & _ & Hframe & _ & Hsize2 & Hkeep & Hfc2 & Hhop2).
    rewrite Hdisp in Hdisp'. injection Hdisp' as <- <-.
    destruct (dispatch_keeps _ det p2 d Hdisp)
      as (Hthr2 & Hrun2 & Hstr2 & Hsr2 & det2 & Hdet2 & Hpb).
    cbn [with_accumulator m_accumulator m_analysisFrameCount m_hopFrameCount
         m_threshold m_running m_stream m_sampleRate m_accumulatorSize]
      in Hframe, Hkeep, Hfc2, Hhop2, Hthr2, Hrun2, Hstr2, Hsr2, Hpb, Hsize2.
    destruct (processBuffer_keeps_configuration det (Some acc) N det2 (result d) Hwfd)
      as (Hc1 & Hc2 & Hc3); [|exact Hpb|].
    { intros arr [= <-]. rewrite (memcpy_length _ _ _ _ Hcopy), Hlen. done. }
    assert (Hlh : length (held p) = Z.to_nat (m_accumulatorSize p)).
    { unfold held. rewrite length_take. lia. }
    assert (Hfill : Z.to_nat (m_accumulatorSize p) + k = N) by (unfold N; lia).
    assert (HlenN : length acc = N).
    { rewrite (memcpy_length _ _ _ _ Hcopy), Hlen. done. }
    rewrite Hfill, take_ge in Hheld by lia.
    assert (Hsplit : stream = acc ++ drop k input).
    { unfold stream. by rewrite Hheld, <- app_assoc, take_drop. }
    assert (Hacc : acc = window N H stream 0).
    { unfold window. rewrite drop_0, Hsplit. by rewrite take_app_length'. }
    assert (HH : 0 < H ≤ N) by (unfold H, N; lia).
    assert (Hrest : held p2 ++ drop k input = drop H stream).
    { unfold held at 1. rewrite Hkeep. fold H.
      by rewrite Hsplit, drop_app_le by lia. }
    assert (Hwfd2 : detector_wf det2).
    { destruct Hwf2 as ((_ & (det3 & Hdet3 & Hwfd3 & _) & _) & _). congruence. }
    assert (Hlt : length (drop k input) ≤ n).
    { rewrite length_drop. simpl in Hn. lia. }
    destruct (IH p2 (drop k input) det2 Hwf2 Hdet2 Hlt)
      as (p' & e & det' & Hrun' & Hwf' & Hfc' & Hhop' & Hthr' & Hrn' & Hstr' & Hsr'
          & Hdet' & Hd1' & Hd2' & Hd3' & Hcount & Hwin & Hheld').
    rewrite Hfc2, Hhop2, Hrest in Hcount. rewrite Hrest, Hhop2 in Hheld'.
    fold N H in Hcount, Hheld'.
    assert (Hwin' : ∀ j dj, e !! j = Some dj →
              frame dj = window N H (drop H stream) j ∧ length (frame dj) = N
              ∧ snd <$> Dsp.processBuffer det2 (Some (frame dj)) N = Some (result dj)).
    { intros j dj Hj. destruct (Hwin j dj Hj) as (Hw & Hl & Hres).
      rewrite Hfc2, Hhop2, Hrest in Hw. rewrite Hfc2 in Hl, Hres. done. }
    clear Hwin.
    destruct (accumulate_run (length input) p2 (drop k input) [d] Hwf2)
      as (p'' & e'' & Hrun'' & _ & Hacc''); [by apply length_drop_lt|].
    rewrite Hrun' in Hrun''. injection Hrun'' as <- <-.
    rewrite Hacc''. exists p', ([d] ++ e), det'.
    split; [done|].
    split_and!; try congruence.
    + rewrite length_drop in Hcount. simpl. rewrite Hcount.
      symmetry. apply window_count_step; [done|].
      rewrite Hsplit, length_app. lia.
    + intros j dj Hj. destruct j as [|j].
      * injection Hj as <-. rewrite Hframe. split_and!; [done|done|].
        unfold N. by rewrite Hpb.
      * destruct (Hwin' j dj Hj) as (Hw & Hl & Hres). split_and!; [|done|].
        { rewrite Hw. unfold window. rewrite drop_drop. do 2 f_equal; lia. }
        rewrite <- Hres.
        apply (processBuffer_stateless Dsp.clamp Dsp.parabolicInterpolation
                 Dsp.midiFromFrequency Dsp.noteNameFromMidi
                 Dsp_interpolation_total Dsp_noteName_total det det2);
          try done; try congruence; rewrite ?Hbs; fold N; lia.
    + rewrite Hheld', drop_drop. f_equal; simpl; lia.
Qed.


Lemma onAudioReady_windows p input det :
  controller_wf p → m_detector p = Some det →
  let N := Z.to_nat (m_analysisFrameCount p) in
  let H := Z.to_nat (m_hopFrameCount p) in
  let stream := held p ++ input in
  ∃ p' e det',
    onAudioReady p input = Some (p', e, Continue)
    ∧ controller_wf p'
    ∧ m_analysisFrameCount p' = m_analysisFrameCount p
    ∧ m_hopFrameCount p' = m_hopFrameCount p
    ∧ m_threshold p' = m_threshold p
    ∧ m_running p' = m_running p
    ∧ m_stream p' = m_stream p
    ∧ m_sampleRate p' = m_sampleRate p
    ∧ m_detector p' = Some det'
    ∧ Yin.m_sampleRate det' = Yin.m_sampleRate det
    ∧ Yin.m_bufferSize det' = Yin.m_bufferSize det
    ∧ Yin.m_threshold det' = Yin.m_threshold det
    ∧ length e = window_count N H (length stream)
    ∧ (∀ k d, e !! k = Some d →
         frame d = window N H stream k
         ∧ length (frame d) = N
         ∧ snd <$> Dsp.processBuffer det (Some (frame d)) N = Some (result d))
    ∧ held p' = drop (length e * H) stream.
Proof.
  intros Hwf Hdet N H stream.
  destruct (run_windows_bounded (length input) p input det Hwf Hdet (le_n _))
    as (p' & e & det' & Hrun & Hrest).
  destruct (onAudioReady_run p input Hwf) as (p'' & e'' & Hrun' & _ & Hcb).
  rewrite Hrun in Hrun'. injection Hrun' as <- <-.
  by exists p', e, det'.
Qed.

Lemma setThreshold_wf_controller p t :
  controller_wf p → controller_wf (setThreshold p t).
Proof.
  intros ((Hrun & (det & Hdet & Hwfd & Hbs) & Hhop & Hlen) & Hsize).
  split; [|done]. unfold controller_ok. split; [done|]. split; [|by split].
  eexists. simpl. rewrite Hdet. split; [reflexivity|].
  split; [by apply setThreshold_wf|done].
Qed.

(** The part of the invariant that [start] adds to [controller_wf]. *)
Lemma reachable_running p :
  controller_reachable p → m_running p = true →
  controller_wf p
  ∧ (256 ≤ m_analysisFrameCount p)%Z
  ∧ m_hopFrameCount p = (m_analysisFrameCount p `quot` 2)%Z
  ∧ ∃ det, m_detector p = Some det
      ∧ Yin.m_sampleRate det = m_sampleRate p
      ∧ Z.of_nat (Yin.m_bufferSize det) = m_analysisFrameCount p.
Proof.
  induction 1 as [|p bs thr opened started Hp IH|p Hp IH|p thr Hp IH
                  |p data p' e ans Hp IH Hcb|p Hp IH]; intros Hrun.
  - done.
  - unfold start in Hrun |- *. destruct (m_running p) eqn:Hr; [by apply IH|].
    destruct opened as [stream|]; [|done].
    destruct started; [|done].
    assert (H256 : (256 ≤ Z.max 256 bs)%Z) by lia.
    split_and!.
    + apply (start_wf p bs thr stream _ Hr). unfold start. by rewrite Hr.
    + done.
    + simpl. apply Z.max_l.
      assert (128 ≤ Z.max 256 bs `quot` 2)%Z by (apply Z.quot_le_lower_bound; lia). lia.
    + eexists. simpl. split; [reflexivity|]. simpl. split; [done|lia].
  - unfold stop in Hrun. destruct (m_running p) eqn:Hr; simpl in Hrun; congruence.
  - destruct (IH Hrun) as (Hwf & H256 & Hhop & det & Hdet & Hsr & Hbs).
    split_and!; [by apply setThreshold_wf_controller|done|done|].
    eexists. simpl. rewrite Hdet. split; [reflexivity|]. done.
  - unfold onAudioReady in Hcb. destruct (m_running p) eqn:Hr.
    + destruct (IH eq_refl) as (Hwf & H256 & Hhop & det & Hdet & Hsr & Hbs).
      destruct (onAudioReady_windows p data det Hwf Hdet)
        as (p'' & e'' & det' & Hcb' & Hwf' & Hfc & Hh & _ & _ & _ & Hsr' & Hdet' & Hd1 & Hd2 & _).
      unfold onAudioReady in Hcb'. rewrite Hr in Hcb'. simpl in Hcb, Hcb'.
      rewrite Hcb in Hcb'. injection Hcb' as <- <-.
      split_and!; [done|lia|congruence|].
      exists det'. split_and!; [done|congruence|congruence].
    + simpl in Hcb. injection Hcb as <- _ _. congruence.
  - done.
Qed.

End ControllerMoreProofs.

(** C8. For a running controller between two callbacks, and any way of
    cutting a sample sequence into callbacks: the estimator is called on
    exactly the whole windows of [frameCount] samples that lie at the
    offsets 0, hop, 2 hop, ... of [stream], the samples the controller
    held followed by the sequence; the windows are dispatched in that
    order, as many as fit, each with the result of [processBuffer] on it.
    So every other cutting of the same sequence, the whole sequence in one
    callback and one sample per callback among them, dispatches the same
    frames with the same results in the same order and leaves the same
    controller. Afterwards the controller holds [stream] from the offset
    (number of windows) * hop on: when the sequence ends where a window is
    completed, these are the trailing [frameCount - hop] samples of the
    frame dispatched last, and none when the hop is the frame count. *)
Theorem C8_accumulation_is_chunking_invariant
    {D : Double} (p : PitchDetector.PitchDetector) (chunks : list (list sample))
    (det : Yin.YinPitchDetector) :
  controller_wf p → PitchDetector.m_detector p = Some det →
  let N := Z.to_nat (PitchDetector.m_analysisFrameCount p) in
  let H := Z.to_nat (PitchDetector.m_hopFrameCount p) in
  let stream := held p ++ concat chunks in
  ∃ p' dispatched,
    PitchDetector.feed p chunks = Some (p', dispatched)
    ∧ (∀ chunks', concat chunks' = concat chunks →
         PitchDetector.feed p chunks' = Some (p', dispatched))
    ∧ PitchDetector.onAudioReady p (concat chunks)
      = Some (p', dispatched, PitchDetector.Continue)
    ∧ PitchDetector.feed p ((λ x, [x]) <$> concat chunks) = Some (p', dispatched)
    ∧ controller_wf p'
    ∧ length dispatched = window_count N H (length stream)
    ∧ (∀ k d, dispatched !! k = Some d →
         PitchDetector.frame d = take N (drop (k * H) stream)
         ∧ length (PitchDetector.frame d) = N
         ∧ snd <$> Dsp.processBuffer det (Some (PitchDetector.frame d)) N
           = Some (PitchDetector.result d))
    ∧ held p' = drop (length dispatched * H) stream
    ∧ (∀ d, last dispatched = Some d →
         length stream = (length dispatched - 1) * H + N →
         held p' = drop H (PitchDetector.frame d)
         ∧ length (held p') = N - H
         ∧ (H = N → PitchDetector.m_accumulatorSize p' = 0%Z)).
Proof.
  intros Hwf Hdet N H stream.
  destruct (feed_concat p chunks Hwf) as (p' & e & Hfeed & Hrun & Hwf').
  destruct (onAudioReady_run p (concat chunks) Hwf) as (p1 & e1 & Hrun1 & _ & Hcb).
  rewrite Hrun in Hrun1. injection Hrun1 as <- <-.
  destruct (onAudioReady_windows p (concat chunks) det Hwf Hdet)
    as (p2 & e2 & det' & Hcb2 & _ & _ & _ & _ & _ & _ & _ & _ & _ & _ & _ & Hcount & Hwin & Hheld).
  rewrite Hcb in Hcb2. injection Hcb2 as <- <-.
  fold N H stream in Hcount, Hwin, Hheld.
  assert (Hany : ∀ chunks', concat chunks' = concat chunks →
                 PitchDetector.feed p chunks' = Some (p', e)).
  { intros chunks' Heq.
    destruct (feed_concat p chunks' Hwf) as (p3 & e3 & Hfeed3 & Hrun3 & _).
    rewrite Heq, Hrun in Hrun3. by injection Hrun3 as <- <-. }
  exists p', e. split; [exact Hfeed|]. split; [exact Hany|]. split; [exact Hcb|].
  split; [apply Hany, concat_singletons|]. split; [exact Hwf'|].
  split; [exact Hcount|]. split; [exact Hwin|]. split; [exact Hheld|].
  intros d Hlast Hlen.
  destruct Hwf as ((_ & _ & Hhop & _) & _).
  destruct Hwf' as ((_ & (det2 & _ & _ & _) & _ & Hacc') & Hsize').
  assert (HH : 0 < H ≤ N) by (unfold H, N; lia).
  assert (Hpos : 0 < length e).
  { destruct e; [done|simpl; lia]. }
  rewrite last_lookup in Hlast.
  destruct (Hwin _ _ Hlast) as (Hframe & HlenN & _).
  replace (Init.Nat.pred (length e)) with (length e - 1) in Hframe by lia.
  assert (Hfull : PitchDetector.frame d = drop ((length e - 1) * H) stream).
  { rewrite Hframe. apply take_ge. rewrite length_drop. lia. }
  assert (Hdrop : held p' = drop H (PitchDetector.frame d)).
  { rewrite Hheld, Hfull, drop_drop. f_equal.
    destruct (length e) as [|n]; [lia|]. simpl. lia. }
  assert (Hl : length (held p') = N - H).
  { rewrite Hdrop, length_drop, HlenN. done. }
  split; [exact Hdrop|]. split; [exact Hl|].
  intros HeqN. unfold held in Hl. rewrite length_take in Hl. lia.
Qed.

(** X8. What one callback dispatches. For a running controller between
    callbacks, with [stream] the samples it holds followed by the samples
    of the callback, [onAudioReady] returns [Continue] and hands to the
    estimator exactly the whole windows of [frameCount] samples that lie on
    [stream] at the offsets 0, hop, 2 hop, ..., in that order; the result
    emitted with a window is what [processBuffer] of a detector of the
    controller's configuration returns on that window, whatever was
    analysed before; and afterwards the controller holds the samples of
    [stream] from the offset (number of windows) * hop on. *)
Theorem onAudioReady_dispatches_the_windows_of_the_stream
    {D : Double} (p : PitchDetector.PitchDetector) (input : list sample)
    (det : Yin.YinPitchDetector) :
  controller_wf p → PitchDetector.m_detector p = Some det →
  let N := Z.to_nat (PitchDetector.m_analysisFrameCount p) in
  let H := Z.to_nat (PitchDetector.m_hopFrameCount p) in
  let stream := held p ++ input in
  ∃ p' emitted,
    PitchDetector.onAudioReady p input = Some (p', emitted, PitchDetector.Continue)
    ∧ controller_wf p'
    ∧ length emitted = window_count N H (length stream)
    ∧ (∀ k d, emitted !! k = Some d →
         PitchDetector.frame d = window N H stream k
         ∧ length (PitchDetector.frame d) = N
         ∧ snd <$> Dsp.processBuffer det (Some (PitchDetector.frame d)) N
           = Some (PitchDetector.result d))
    ∧ held p' = drop (length emitted * H) stream.
Proof.
  intros Hwf Hdet N H stream.
  destruct (onAudioReady_windows p input det Hwf Hdet)
    as (p' & e & det' & Hcb & Hwf' & _ & _ & _ & _ & _ & _ & _ & _ & _ & _ & Hcount & Hwin & Hheld).
  by exists p', e.
Qed.

(** X9. In every state the controller reaches while it is running, the
    accumulator has exactly [frameCount] entries and holds fewer than that,
    the frame count is at least 256, the hop is half of it (so every
    dispatch keeps a non-empty overlap, and the branch of [onAudioReady]
    that empties the accumulator is never taken), and the estimator is
    there, made for the controller's sample rate and frame count. So
    [onAudioReady] never copies outside the accumulator: in every reachable
    state and for every callback it returns, with [Continue] when running
    and with [Stop], unchanged and without a dispatch, when not. *)
Theorem reachable_controller_is_memory_safe
    {D : Double} (p : PitchDetector.PitchDetector) (audioData : list sample) :
  controller_reachable p →
  (PitchDetector.m_running p = true →
     controller_wf p
     ∧ (256 ≤ PitchDetector.m_analysisFrameCount p)%Z
     ∧ PitchDetector.m_hopFrameCount p = (PitchDetector.m_analysisFrameCount p `quot` 2)%Z
     ∧ (0 < PitchDetector.m_hopFrameCount p < PitchDetector.m_analysisFrameCount p)%Z
     ∧ ∃ det, PitchDetector.m_detector p = Some det
         ∧ Yin.m_sampleRate det = PitchDetector.sampleRate p
         ∧ Z.of_nat (Yin.m_bufferSize det) = PitchDetector.bufferSize p)
  ∧ (∃ p' emitted,
       PitchDetector.onAudioReady p audioData
       = Some (p', emitted,
               if PitchDetector.m_running p
               then PitchDetector.Continue else PitchDetector.Stop)
       ∧ (PitchDetector.m_running p = false → p' = p ∧ emitted = [])).
Proof.
  intros Hreach. split.
  - intros Hrun.
    destruct (reachable_running p Hreach Hrun) as (Hwf & H256 & Hhop & Hdet).
    split; [done|]. split; [done|]. split; [done|]. split; [|done].
    rewrite Hhop.
    assert (128 ≤ PitchDetector.m_analysisFrameCount p `quot` 2)%Z
      by (apply Z.quot_le_lower_bound; lia).
    assert (PitchDetector.m_analysisFrameCount p `quot` 2
            < PitchDetector.m_analysisFrameCount p)%Z
      by (apply Z.quot_lt; lia).
    lia.
  - destruct (PitchDetector.m_running p) eqn:Hrun.
    + destruct (reachable_running p Hreach Hrun) as (Hwf & _).
      destruct (onAudioReady_run p audioData Hwf) as (p' & e & _ & _ & Hcb).
      exists p', e. split; [done|]. done.
    + exists p, []. unfold PitchDetector.onAudioReady. rewrite Hrun. done.
Qed.

Lemma onAudioReady_dispatches_one_window_of_300_samples :
  ∃ p' emitted,
    PitchDetector.onAudioReady Fixture.started (replicate 300 (Binary64.of_Z 1))
    = Some (p', emitted, PitchDetector.Continue)
    ∧ length emitted = 1
    ∧ (∀ d, emitted !! 0 = Some d →
         PitchDetector.frame d = replicate 256 (Binary64.of_Z 1))
    ∧ held p' = replicate 172 (Binary64.of_Z 1).
Proof.
  destruct (@onAudioReady_dispatches_the_windows_of_the_stream Fixture.ieee
              Fixture.started (replicate 300 (Binary64.of_Z 1))
              (@Dsp.new Fixture.ieee (Binary64.of_Z 48000) 256 (Binary64.of_Q 0.15))
              (start_wf Fixture.stopped 256 (Binary64.of_Q 0.15)
                 (PitchDetector.mkStream 48000) Fixture.started eq_refl eq_refl)
              eq_refl)
    as (p' & emitted & Hcb & _ & Hcount & Hwin & Hheld).
  exists p', emitted. split; [exact Hcb|]. split; [exact Hcount|].
  split.
  - intros d Hd. exact (proj1 (Hwin 0 d Hd)).
  - rewrite Hheld, Hcount. reflexivity.
Defined.

Lemma C8_on_400_samples_in_three_callbacks :
  ∃ p' dispatched,
    PitchDetector.feed Fixture.started
      [replicate 100 (Binary64.of_Z 1); replicate 200 (Binary64.of_Z 2);
       replicate 100 (Binary64.of_Z 3)] = Some (p', dispatched)
    ∧ PitchDetector.onAudioReady Fixture.started
        (replicate 100 (Binary64.of_Z 1) ++ replicate 200 (Binary64.of_Z 2)
         ++ replicate 100 (Binary64.of_Z 3))
      = Some (p', dispatched, PitchDetector.Continue)
    ∧ length dispatched = 2
    ∧ (∀ d, dispatched !! 0 = Some d →
         PitchDetector.frame d
         = replicate 100 (Binary64.of_Z 1) ++ replicate 156 (Binary64.of_Z 2))
    ∧ (∀ d, dispatched !! 1 = Some d →
         PitchDetector.frame d
         = replicate 172 (Binary64.of_Z 2) ++ replicate 84 (Binary64.of_Z 3))
    ∧ held p' = replicate 44 (Binary64.of_Z 2) ++ replicate 100 (Binary64.of_Z 3).
Proof.
  destruct (@C8_accumulation_is_chunking_invariant Fixture.ieee Fixture.started
              [replicate 100 (Binary64.of_Z 1); replicate 200 (Binary64.of_Z 2);
               replicate 100 (Binary64.of_Z 3)]
              (@Dsp.new Fixture.ieee (Binary64.of_Z 48000) 256 (Binary64.of_Q 0.15))
              (start_wf Fixture.stopped 256 (Binary64.of_Q 0.15)
                 (PitchDetector.mkStream 48000) Fixture.started eq_refl eq_refl)
              eq_refl)
    as (p' & dispatched & Hfeed & _ & Hcb & _ & _ & Hcount & Hwin & Hheld & _).
  exists p', dispatched. split; [exact Hfeed|]. split; [exact Hcb|].
  split; [exact Hcount|]. split; [|split].
  - intros d Hd. exact (proj1 (Hwin 0 d Hd)).
  - intros d Hd. exact (proj1 (Hwin 1 d Hd)).
  - rewrite Hheld, Hcount. reflexivity.
Defined.

Lemma reachable_controller_is_memory_safe_after_start :
  controller_wf Fixture.started
  ∧ PitchDetector.m_hopFrameCount Fixture.started = 128%Z
  ∧ ∃ p' emitted,
      PitchDetector.onAudioReady Fixture.started [Binary64.of_Z 1; Binary64.of_Z 2]
      = Some (p', emitted, PitchDetector.Continue).
Proof.
  destruct (@reachable_controller_is_memory_safe Fixture.ieee Fixture.started
              [Binary64.of_Z 1; Binary64.of_Z 2]
              (@reach_start Fixture.ieee _ 256 (Binary64.of_Q 0.15)
                 (Some (PitchDetector.mkStream 48000)) true (@reach_constructed Fixture.ieee)))
    as [Hinv (p' & emitted & Hcb & _)].
  destruct (Hinv eq_refl) as (Hwf & _ & Hhop & _).
  split; [exact Hwf|]. split; [exact Hhop|]. by exists p', emitted.
Defined.

(** ** The threshold of the estimator, and the life cycle *)

Section ThresholdSync.
Context {D : Double} `{!DoubleOrder D}.
Import PitchDetector.
Hypothesis bounds_in_order : (Yin.MAX_THRESHOLD <? Yin.MIN_THRESHOLD)%D = false.

Lemma clamp_idempotent (t : dbl) :
  Dsp.clamp (Dsp.clamp t Yin.MIN_THRESHOLD Yin.MAX_THRESHOLD)
    Yin.MIN_THRESHOLD Yin.MAX_THRESHOLD
  = Dsp.clamp t Yin.MIN_THRESHOLD Yin.MAX_THRESHOLD.
Proof.
  destruct (Dsp_clamp_range t _ _ bounds_in_order). by apply Dsp_clamp_inside.
Qed.

Lemma reachable_threshold (p : PitchDetector) (det : Yin.YinPitchDetector) :
  controller_reachable p → m_running p = true → m_detector p = Some det →
  Yin.m_threshold det = m_threshold p.
Proof.
  intros Hreach. revert det.
  induction Hreach as [|p bs thr opened started Hp IH|p Hp IH|p thr Hp IH
                       |p data p' e ans Hp IH Hcb|p Hp IH]; intros det Hrun Hdet.
  - done.
  - unfold start in Hrun, Hdet |- *. destruct (m_running p) eqn:Hr; [by apply IH|].
    destruct opened as [stream|]; [|done].
    destruct started; [|done].
    simpl in Hdet. injection Hdet as <-. simpl. apply clamp_idempotent.
  - unfold stop in Hrun. destruct (m_running p) eqn:Hr; simpl in Hrun; congruence.
  - simpl in Hrun, Hdet. destruct (m_detector p) as [det0|]; [|done].
    simpl in Hdet. injection Hdet as <-. simpl. apply clamp_idempotent.
  - unfold onAudioReady in Hcb. destruct (m_running p) eqn:Hr.
    + destruct (reachable_running p Hp Hr) as (Hwf & _ & _ & det0 & Hdet0 & _).
      destruct (onAudioReady_windows p data det0 Hwf Hdet0)
        as (p'' & e'' & det' & Hcb' & _ & _ & _ & Hthr & _ & _ & _ & Hdet' & _ & _ & Hd3 & _).
      unfold onAudioReady in Hcb'. rewrite Hr in Hcb'. simpl in Hcb, Hcb'.
      rewrite Hcb in Hcb'. injection Hcb' as <- <-.
      rewrite Hdet in Hdet'. injection Hdet' as <-.
      rewrite Hd3, Hthr. by apply IH.
    + simpl in Hcb. injection Hcb as <- _ _. congruence.
  - done.
Qed.

End ThresholdSync.

(** X10. While the controller is running, the threshold its estimator
    works with is the threshold [threshold()] reports, in every state it
    reaches: [start] and [setThreshold] clamp the value and hand the
    clamped value to the estimator, which clamps it again to the same
    value, and no callback changes it. *)
Theorem estimator_threshold_is_the_reported_threshold
    {D : Double} `{!DoubleOrder D} (p : PitchDetector.PitchDetector)
    (det : Yin.YinPitchDetector) :
  (Yin.MAX_THRESHOLD <? Yin.MIN_THRESHOLD)%D = false →
  controller_reachable p →
  PitchDetector.m_running p = true →
  PitchDetector.m_detector p = Some det →
  Yin.m_threshold det = PitchDetector.threshold p.
Proof. intros. by apply reachable_threshold. Qed.

Lemma estimator_threshold_after_setThreshold :
  let p := PitchDetector.setThreshold Fixture.started (Binary64.of_Q 0.5) in
  ∃ det, PitchDetector.m_detector p = Some det
         ∧ Yin.m_threshold det = Binary64.of_Q 0.5.
Proof.
  eexists. split; [reflexivity|].
  apply (@estimator_threshold_is_the_reported_threshold Fixture.ieee
           (Binary64Order.binary64_order _)
           (PitchDetector.setThreshold Fixture.started (Binary64.of_Q 0.5)) _ eq_refl).
  - apply (@reach_setThreshold Fixture.ieee).
    apply (@reach_start Fixture.ieee _ 256 (Binary64.of_Q 0.15)
             (Some (PitchDetector.mkStream 48000)) true (@reach_constructed Fixture.ieee)).
  - reflexivity.
  - reflexivity.
Defined.

(** X11. [stop] releases the stream and the estimator exactly when the
    controller was running: it then returns true, leaves the controller
    stopped with an empty accumulator and the same buffer size, hop,
    threshold and sample rate, and a second [stop] returns false and
    changes nothing. After [onErrorAfterClose] the controller is not
    running, so [stop] returns false and the stream and the estimator it
    held stay where they were. In both cases a later callback returns
    [Stop] and dispatches nothing. *)
Theorem stop_releases_a_running_controller_only
    {D : Double} (p : PitchDetector.PitchDetector) (audioData : list sample) :
  (PitchDetector.m_running p = true →
   let p' := (PitchDetector.stop p).1 in
   (PitchDetector.stop p).2 = true
   ∧ PitchDetector.m_running p' = false
   ∧ PitchDetector.m_stream p' = None
   ∧ PitchDetector.m_detector p' = None
   ∧ held p' = []
   ∧ PitchDetector.bufferSize p' = PitchDetector.bufferSize p
   ∧ PitchDetector.m_hopFrameCount p' = PitchDetector.m_hopFrameCount p
   ∧ PitchDetector.threshold p' = PitchDetector.threshold p
   ∧ PitchDetector.sampleRate p' = PitchDetector.sampleRate p
   ∧ PitchDetector.stop p' = (p', false)
   ∧ PitchDetector.onAudioReady p' audioData = Some (p', [], PitchDetector.Stop))
  ∧ (let q := PitchDetector.onErrorAfterClose p in
     PitchDetector.stop q = (q, false)
     ∧ PitchDetector.m_stream q = PitchDetector.m_stream p
     ∧ PitchDetector.m_detector q = PitchDetector.m_detector p
     ∧ PitchDetector.onAudioReady q audioData = Some (q, [], PitchDetector.Stop)).
Proof.
  split.
  - intros Hrun. unfold PitchDetector.stop. rewrite Hrun. simpl. split_and!; done.
  - simpl. split_and!; done.
Qed.

(** X12. A session starts from nothing: after a [start] that succeeds, on
    a controller that was stopped, the first callback dispatches exactly
    the whole windows of [N = max(256, bufferSize)] samples at the offsets
    0, N/2, 2 N/2, ... of its own samples; nothing the accumulator held
    before takes part, and each result is what a detector made for the
    stream's sample rate, [N] and the clamped threshold returns on the
    window. *)
Theorem first_callback_after_start
    {D : Double} (p p1 : PitchDetector.PitchDetector) (bufferSize : Z) (threshold : dbl)
    (stream : PitchDetector.AudioStream) (input : list sample) :
  PitchDetector.m_running p = false →
  PitchDetector.start p bufferSize threshold (Some stream) true = (p1, true) →
  let N := Z.to_nat (Z.max 256 bufferSize) in
  let det := Dsp.new (of_int (PitchDetector.getSampleRate stream)) N
               (Dsp.clamp threshold (dconst 0.001) (dconst 0.999)) in
  ∃ p' emitted,
    PitchDetector.onAudioReady p1 input = Some (p', emitted, PitchDetector.Continue)
    ∧ length emitted = window_count N (N / 2) (length input)
    ∧ (∀ k d, emitted !! k = Some d →
         PitchDetector.frame d = window N (N / 2) input k
         ∧ snd <$> Dsp.processBuffer det (Some (PitchDetector.frame d)) N
           = Some (PitchDetector.result d))
    ∧ held p' = drop (length emitted * (N / 2)) input.
Proof.
  intros Hstopped Hstart N det.
  pose proof (start_wf p bufferSize threshold stream p1 Hstopped Hstart) as Hwf.
  unfold PitchDetector.start in Hstart. rewrite Hstopped in Hstart.
  injection Hstart as <-.
  assert (Hhop : Z.to_nat (Z.max (Z.max 256 bufferSize `quot` 2) 1) = N / 2).
  { assert (128 ≤ Z.max 256 bufferSize `quot` 2)%Z by (apply Z.quot_le_lower_bound; lia).
    rewrite Z.max_l by lia. rewrite Z.quot_div_nonneg by lia.
    unfold N. rewrite Z2Nat.inj_div by lia. done. }
  match type of Hwf with controller_wf ?q => set (p1 := q) in * end.
  destruct (onAudioReady_windows p1 input det Hwf eq_refl)
    as (p' & e & det' & Hcb & _ & _ & _ & _ & _ & _ & _ & _ & _ & _ & _ & Hcount & Hwin & Hheld).
  change (held p1) with (@nil sample) in Hcount, Hwin, Hheld.
  cbn [p1 PitchDetector.m_analysisFrameCount PitchDetector.m_hopFrameCount]
    in Hcount, Hwin, Hheld.
  rewrite Hhop in Hcount, Hheld. fold N in Hcount.
  exists p', e. split_and!; [done|done| |done].
  intros k d Hd. destruct (Hwin k d Hd) as (Hw & _ & Hres).
  rewrite Hhop in Hw. done.
Qed.

Lemma first_callback_after_start_of_300_samples :
  ∃ p' emitted,
    PitchDetector.onAudioReady Fixture.started (replicate 300 (Binary64.of_Z 1))
    = Some (p', emitted, PitchDetector.Continue)
    ∧ length emitted = 1.
Proof.
  destruct (@first_callback_after_start Fixture.ieee Fixture.stopped Fixture.started
              256 (Binary64.of_Q 0.15) (PitchDetector.mkStream 48000)
              (replicate 300 (Binary64.of_Z 1)) eq_refl eq_refl)
    as (p' & emitted & Hcb & Hcount & _).
  exists p', emitted. split; [exact Hcb|exact Hcount].
Defined.

(** ** The note name with its octave names the rounded MIDI value *)

Lemma pretty_N_go_not_sharp_first (x : N) (s s' : string) :
  s ≠ "#" +:+ s' → pretty_N_go x s ≠ "#" +:+ s'.
Proof.
  revert s. induction (N.lt_wf_0 x) as [x _ IH]; intros s Hs.
  destruct (decide (x = 0%N)) as [->|Hx].
  - by rewrite pretty_N_go_0.
  - rewrite pretty_N_go_step by lia. apply IH; [apply N.div_lt; lia|].
    cbv [String.app String.append]. unfold pretty_N_char. by repeat case_match.
Qed.

Lemma pretty_Z_not_sharp_first (z : Z) (s' : string) : pretty z ≠ "#" +:+ s'.
Proof.
  assert (HN : ∀ n : N, pretty n ≠ "#" +:+ s').
  { intros n. unfold pretty, pretty_N. case_decide; [done|].
    by apply pretty_N_go_not_sharp_first. }
  unfold pretty, pretty_Z. destruct z; [done|apply HN|done].
Qed.

Lemma NOTE_NAMES_NoDup : NoDup NOTE_NAMES.
Proof. by apply (bool_decide_unpack _). Qed.

Lemma name_with_octave_inj (i j : nat) (a b : string) (o1 o2 : Z) :
  NOTE_NAMES !! i = Some a → NOTE_NAMES !! j = Some b →
  a +:+ pretty o1 = b +:+ pretty o2 → i = j ∧ o1 = o2.
Proof.
  intros Hi Hj Heq.
  pose proof (pretty_Z_not_sharp_first o1) as H1.
  pose proof (pretty_Z_not_sharp_first o2) as H2.
  assert (a = b ∧ pretty o1 = pretty o2) as [-> Hp].
  { apply list_elem_of_lookup_2 in Hi, Hj.
    revert Heq H1 H2. generalize (pretty o1) (pretty o2). intros s1 s2 Heq H1 H2.
    unfold NOTE_NAMES in Hi, Hj.
    rewrite !elem_of_cons, elem_of_nil in Hi, Hj.
    destruct_or!; try done; subst a b;
      cbv [String.app String.append] in Heq, H1, H2;
      simplify_eq; try done; exfalso;
      try (by eapply H1); try (by eapply H2). }
  split; [|by apply (inj pretty)].
  by apply (NoDup_lookup NOTE_NAMES i j b NOTE_NAMES_NoDup).
Qed.

(** X13. In the copy of [src/src/native/dsp] the note name determines the
    rounded MIDI value it was made from, as long as that value is not
    negative: two finite MIDI values whose roundings are not negative and
    differ get different names. *)
Theorem Dsp_noteName_determines_rounded_midi {D : Double} (m1 m2 : dbl) :
  let r1 := int_of_long (lround m1) in
  let r2 := int_of_long (lround m2) in
  isfinite m1 = true → isfinite m2 = true →
  (0 ≤ r1)%Z → (0 ≤ r2)%Z →
  Dsp.noteNameFromMidi m1 = Dsp.noteNameFromMidi m2 →
  r1 = r2.
Proof.
  intros r1 r2 Hf1 Hf2 Hr1 Hr2 Heq.
  destruct (noteName_both m1) as (a & Ha & _ & Hn1).
  destruct (noteName_both m2) as (b & Hb & _ & Hn2).
  fold r1 in Ha, Hn1. fold r2 in Hb, Hn2.
  rewrite Hf1 in Hn1. rewrite Hf2 in Hn2.
  rewrite Hn1, Hn2 in Heq. injection Heq as Heq.
  destruct (name_with_octave_inj _ _ _ _ _ _ Ha Hb Heq) as [Hidx Hoct].
  apply Z2Nat.inj in Hidx; [|apply Z.mod_pos_bound; lia|apply Z.mod_pos_bound; lia].
  assert (Hq : (r1 `quot` 12 = r2 `quot` 12)%Z) by lia.
  rewrite !Z.quot_div_nonneg in Hq by lia.
  rewrite (Z.div_mod r1 12), (Z.div_mod r2 12) by lia.
  assert (Hm : (r1 `mod` 12 = r2 `mod` 12)%Z).
  { clear -Hidx. Z.to_euclidean_division_equations. lia. }
  lia.
Qed.

Lemma Dsp_noteName_determines_rounded_midi_at_A4 :
  int_of_long (Binary64.lround64 (Binary64.of_Q 68.8))
  = int_of_long (Binary64.lround64 (Binary64.of_Q 69.2)).
Proof.
  apply (@Dsp_noteName_determines_rounded_midi Fixture.ieee
           (Binary64.of_Q 68.8) (Binary64.of_Q 69.2));
    [reflexivity|reflexivity|by vm_compute|by vm_compute|reflexivity].
Defined.
